(** * Kinematic reference-frame graph of dart/dynamics/Frame.cpp

    A shallow embedding of the [Frame] class: the tree of frames lives in
    an explicit store (pointers are identifiers, [NULL] is [None]), member
    functions are computations in a state-and-error monad, and the
    recursive member functions take a fuel argument.

    Eigen's [Isometry3d] / [Vector6d] arithmetic and the functions of
    [dart::math] are not part of Frame.cpp: the embedding is written once
    against the interface [SpatialAlgebra], so every statement proved for an
    arbitrary instance holds whatever the arithmetic is.  Two instances are
    given and used to run the code on concrete frames: one with exact
    integer scalars, and one with the binary64 numbers of the program. *)

From stdpp Require Import gmap strings list.
From Stdlib Require Import ZArith Lia.
From Stdlib Require PrimFloat.

Set Warnings "-clear-no-such-hyp".

Set Default Proof Using "Type".

(** ** The arithmetic interface used by Frame.cpp *)

Class SpatialAlgebra := {
  Isometry3d : Type;
  Vector3d : Type;
  Vector6d : Type;
  (** [Eigen::Isometry3d::Identity()], [operator*], [inverse()] *)
  Identity : Isometry3d;
  compose : Isometry3d → Isometry3d → Isometry3d;
  inverse : Isometry3d → Isometry3d;
  (** [Eigen::Vector6d::Zero()], [operator+], [operator-] *)
  Zero : Vector6d;
  plus6 : Vector6d → Vector6d → Vector6d;
  minus6 : Vector6d → Vector6d → Vector6d;
  (** [head<3>()], [tail<3>()], [cross], [operator+] on 3-vectors *)
  head3 : Vector6d → Vector3d;
  tail3 : Vector6d → Vector3d;
  cross : Vector3d → Vector3d → Vector3d;
  plus3 : Vector3d → Vector3d → Vector3d;
  (** [math::AdR], [math::AdT], [math::AdInvT], [math::ad] *)
  AdR : Isometry3d → Vector6d → Vector6d;
  AdT : Isometry3d → Vector6d → Vector6d;
  AdInvT : Isometry3d → Vector6d → Vector6d;
  ad : Vector6d → Vector6d → Vector6d
}.

Declare Scope spatial_scope.
Delimit Scope spatial_scope with spatial.
Infix "∘∘" := compose (at level 40, left associativity) : spatial_scope.
Local Open Scope spatial_scope.

(** Pointers: an [Entity*] or [Frame*] is an identifier, [NULL] is [None]. *)
Definition Id := nat.
Definition Shape := nat.

(** Dynamic type of an object of the store. *)
Inductive Kind := PlainEntity | FrameKind.

Global Instance Kind_eq_dec : EqDecision Kind.
Proof. solve_decision. Defined.

Inductive Error := OutOfFuel | BadPointer.

Section FrameGraph.
Context `{SA : SpatialAlgebra}.

(** The members of [Entity] and [Frame], and the four primitives a concrete
    frame supplies ([getRelativeTransform] and the like are pure virtual in
    [Frame]); the primitives' current values are kept with the object. *)
Record Entity := mkEntity {
  kind : Kind;
  mParentFrame : option Id;
  mName : string;
  mNeedTransformUpdate : bool;
  mNeedVelocityUpdate : bool;
  mNeedAccelerationUpdate : bool;
  mAmQuiet : bool;
  mWorldTransform : Isometry3d;
  mVelocity : Vector6d;
  mAcceleration : Vector6d;
  mAmWorld : bool;
  mChildEntities : gset Id;
  mChildFrames : gset Id;
  mVizShapes : list Shape;
  relativeTransform : Isometry3d;
  relativeSpatialVelocity : Vector6d;
  primaryRelativeAcceleration : Vector6d;
  partialAcceleration : Vector6d
}.

(** The program state: the objects, the function-local static of
    [Frame::World()], a counter of the calls of each frame's
    [getRelativeTransform] (instrumentation only), the diagnostics written
    to [dtwarn] and the shapes passed to [delete]. *)
Record Store := mkStore {
  heap : gmap Id Entity;
  world : option Id;
  relTfCalls : gmap Id nat;
  warnings : list (Id * Id);
  deleted : list Shape
}.

Inductive Result (A : Type) :=
  | Ok (a : A) (s : Store)
  | Fail (e : Error).
Global Arguments Ok {A} a s.
Global Arguments Fail {A} e.

Definition M (A : Type) := Store → Result A.

Definition ret {A} (a : A) : M A := fun s => Ok a s.
Definition fail {A} (e : Error) : M A := fun _ => Fail e.
Definition bind {A B} (m : M A) (k : A → M B) : M B :=
  fun s => match m s with
           | Ok a s' => k a s'
           | Fail e => Fail e
           end.

Notation "'do' x <- m ; k" := (bind m (fun x => k))
  (at level 10, x name, m at level 100, k at level 200, only parsing).
Notation "'do_' m ; k" := (bind m (fun _ => k))
  (at level 10, m at level 100, k at level 200, only parsing).

Definition set_heap (h : gmap Id Entity) (s : Store) : Store :=
  mkStore h (world s) (relTfCalls s) (warnings s) (deleted s).

(** Dereference a pointer; a pointer to no live object is an error. *)
Definition deref (p : Id) : M Entity :=
  fun s => match heap s !! p with
           | Some E => Ok E s
           | None => Fail BadPointer
           end.

Definition nonnull (p : option Id) : M Id :=
  match p with
  | Some q => ret q
  | None => fail BadPointer
  end.

(** Assignment to members of [*p]. *)
Definition modify (p : Id) (f : Entity → Entity) : M unit :=
  fun s => match heap s !! p with
           | Some E => Ok tt (set_heap (<[p := f E]> (heap s)) s)
           | None => Fail BadPointer
           end.

Fixpoint forEach {A} (l : list A) (body : A → M unit) : M unit :=
  match l with
  | [] => ret tt
  | x :: l' => do_ body x; forEach l' body
  end.

(** *** Member updates *)

Definition set_transform (T : Isometry3d) (E : Entity) : Entity :=
  mkEntity (kind E) (mParentFrame E) (mName E)
    false (mNeedVelocityUpdate E) (mNeedAccelerationUpdate E) (mAmQuiet E)
    T (mVelocity E) (mAcceleration E) (mAmWorld E)
    (mChildEntities E) (mChildFrames E) (mVizShapes E)
    (relativeTransform E) (relativeSpatialVelocity E)
    (primaryRelativeAcceleration E) (partialAcceleration E).

Definition set_velocity (V : Vector6d) (E : Entity) : Entity :=
  mkEntity (kind E) (mParentFrame E) (mName E)
    (mNeedTransformUpdate E) false (mNeedAccelerationUpdate E) (mAmQuiet E)
    (mWorldTransform E) V (mAcceleration E) (mAmWorld E)
    (mChildEntities E) (mChildFrames E) (mVizShapes E)
    (relativeTransform E) (relativeSpatialVelocity E)
    (primaryRelativeAcceleration E) (partialAcceleration E).

Definition set_acceleration (V : Vector6d) (E : Entity) : Entity :=
  mkEntity (kind E) (mParentFrame E) (mName E)
    (mNeedTransformUpdate E) (mNeedVelocityUpdate E) false (mAmQuiet E)
    (mWorldTransform E) (mVelocity E) V (mAmWorld E)
    (mChildEntities E) (mChildFrames E) (mVizShapes E)
    (relativeTransform E) (relativeSpatialVelocity E)
    (primaryRelativeAcceleration E) (partialAcceleration E).

Definition set_flags (t v a : bool) (E : Entity) : Entity :=
  mkEntity (kind E) (mParentFrame E) (mName E) t v a (mAmQuiet E)
    (mWorldTransform E) (mVelocity E) (mAcceleration E) (mAmWorld E)
    (mChildEntities E) (mChildFrames E) (mVizShapes E)
    (relativeTransform E) (relativeSpatialVelocity E)
    (primaryRelativeAcceleration E) (partialAcceleration E).

Definition mark_transform (E : Entity) : Entity :=
  set_flags true (mNeedVelocityUpdate E) (mNeedAccelerationUpdate E) E.
Definition mark_velocity (E : Entity) : Entity :=
  set_flags (mNeedTransformUpdate E) true (mNeedAccelerationUpdate E) E.
Definition mark_acceleration (E : Entity) : Entity :=
  set_flags (mNeedTransformUpdate E) (mNeedVelocityUpdate E) true E.

Definition set_parent (p : option Id) (E : Entity) : Entity :=
  mkEntity (kind E) p (mName E)
    (mNeedTransformUpdate E) (mNeedVelocityUpdate E)
    (mNeedAccelerationUpdate E) (mAmQuiet E)
    (mWorldTransform E) (mVelocity E) (mAcceleration E) (mAmWorld E)
    (mChildEntities E) (mChildFrames E) (mVizShapes E)
    (relativeTransform E) (relativeSpatialVelocity E)
    (primaryRelativeAcceleration E) (partialAcceleration E).

Definition set_children (ce cf : gset Id) (E : Entity) : Entity :=
  mkEntity (kind E) (mParentFrame E) (mName E)
    (mNeedTransformUpdate E) (mNeedVelocityUpdate E)
    (mNeedAccelerationUpdate E) (mAmQuiet E)
    (mWorldTransform E) (mVelocity E) (mAcceleration E) (mAmWorld E)
    ce cf (mVizShapes E)
    (relativeTransform E) (relativeSpatialVelocity E)
    (primaryRelativeAcceleration E) (partialAcceleration E).

Definition erase_childEntity (c : Id) (E : Entity) : Entity :=
  set_children (mChildEntities E ∖ {[c]}) (mChildFrames E) E.
Definition insert_childEntity (c : Id) (E : Entity) : Entity :=
  set_children ({[c]} ∪ mChildEntities E) (mChildFrames E) E.
Definition erase_childFrame (c : Id) (E : Entity) : Entity :=
  set_children (mChildEntities E) (mChildFrames E ∖ {[c]}) E.
Definition insert_childFrame (c : Id) (E : Entity) : Entity :=
  set_children (mChildEntities E) ({[c]} ∪ mChildFrames E) E.

Definition clear_vizShapes (E : Entity) : Entity :=
  mkEntity (kind E) (mParentFrame E) (mName E)
    (mNeedTransformUpdate E) (mNeedVelocityUpdate E)
    (mNeedAccelerationUpdate E) (mAmQuiet E)
    (mWorldTransform E) (mVelocity E) (mAcceleration E) (mAmWorld E)
    (mChildEntities E) (mChildFrames E) []
    (relativeTransform E) (relativeSpatialVelocity E)
    (primaryRelativeAcceleration E) (partialAcceleration E).

(** *** The primitives of the concrete frame *)

(** One more call of [this->getRelativeTransform()] is counted. *)
Definition bump (this : Id) (s : Store) : Store :=
  mkStore (heap s) (world s)
    (<[this := S (default 0 (relTfCalls s !! this))]> (relTfCalls s))
    (warnings s) (deleted s).

(** [getRelativeTransform()]: reads the primitive; each call is counted. *)
Definition getRelativeTransform (this : Id) : M Isometry3d :=
  fun s => match heap s !! this with
           | Some E => Ok (relativeTransform E) (bump this s)
           | None => Fail BadPointer
           end.

Definition calls (s : Store) (f : Id) : nat := default 0 (relTfCalls s !! f).

Definition getRelativeSpatialVelocity (this : Id) : M Vector6d :=
  do E <- deref this; ret (relativeSpatialVelocity E).
Definition getPrimaryRelativeAcceleration (this : Id) : M Vector6d :=
  do E <- deref this; ret (primaryRelativeAcceleration E).
Definition getPartialAcceleration (this : Id) : M Vector6d :=
  do E <- deref this; ret (partialAcceleration E).

(** [Entity::getParentFrame()] followed by a call through the pointer. *)
Definition getParentFrame (this : Id) : M Id :=
  do E <- deref this; nonnull (mParentFrame E).

(** [Frame::isWorld] (Frame.cpp:297-300) *)
Definition isWorld (this : Id) : M bool :=
  do E <- deref this; ret (mAmWorld E).

(** *** Frame::getWorldTransform (Frame.cpp:99-111)

    Operands and arguments are evaluated left to right throughout. *)
Fixpoint getWorldTransform (fuel : nat) (this : Id) : M Isometry3d :=
  match fuel with
  | 0 => fail OutOfFuel
  | S fuel' =>
      do E <- deref this;
      if mAmWorld E then ret (mWorldTransform E)
      else if mNeedTransformUpdate E then
        do p <- nonnull (mParentFrame E);
        do Tp <- getWorldTransform fuel' p;
        do Tr <- getRelativeTransform this;
        do_ modify this (set_transform (Tp ∘∘ Tr));
        ret (Tp ∘∘ Tr)
      else ret (mWorldTransform E)
  end.

(** *** Frame::getTransform (Frame.cpp:114-122) *)
Definition getTransform (fuel : nat) (this withRespectTo : Id) : M Isometry3d :=
  do w <- isWorld withRespectTo;
  if w then getWorldTransform fuel this
  else
    do E <- deref this;
    if decide (Some withRespectTo = mParentFrame E)
    then getRelativeTransform this
    else
      do Tw <- getWorldTransform fuel withRespectTo;
      do Tt <- getWorldTransform fuel this;
      ret (inverse Tw ∘∘ Tt).

(** *** Frame::getSpatialVelocity() (Frame.cpp:125-140) *)
Fixpoint getSpatialVelocity (fuel : nat) (this : Id) : M Vector6d :=
  match fuel with
  | 0 => fail OutOfFuel
  | S fuel' =>
      do E <- deref this;
      if mAmWorld E then ret (mVelocity E)
      else if mNeedVelocityUpdate E then
        do Tr <- getRelativeTransform this;
        do p <- getParentFrame this;
        do Vp <- getSpatialVelocity fuel' p;
        do Vr <- getRelativeSpatialVelocity this;
        do_ modify this (set_velocity (plus6 (AdInvT Tr Vp) Vr));
        ret (plus6 (AdInvT Tr Vp) Vr)
      else ret (mVelocity E)
  end.

(** *** Frame::getSpatialVelocity(inCoordinatesOf) (Frame.cpp:143-152) *)
Definition getSpatialVelocity_in (fuel : nat) (this inCoordinatesOf : Id)
  : M Vector6d :=
  if decide (this = inCoordinatesOf) then getSpatialVelocity fuel this
  else
    do w <- isWorld inCoordinatesOf;
    if w then
      do T <- getWorldTransform fuel this;
      do V <- getSpatialVelocity fuel this;
      ret (AdR T V)
    else
      do T <- getTransform fuel this inCoordinatesOf;
      do V <- getSpatialVelocity fuel this;
      ret (AdR T V).

(** *** Frame::getSpatialVelocity(relativeTo, inCoordinatesOf)
    (Frame.cpp:155-162) *)
Definition getSpatialVelocity_rel (fuel : nat)
    (this relativeTo inCoordinatesOf : Id) : M Vector6d :=
  do T <- getTransform fuel this inCoordinatesOf;
  do V <- getSpatialVelocity fuel this;
  do Tr <- getTransform fuel relativeTo this;
  do Vr <- getSpatialVelocity fuel relativeTo;
  ret (AdR T (minus6 V (AdT Tr Vr))).

(** *** Frame::getLinearVelocity, Frame::getAngularVelocity
    (Frame.cpp:165-176) *)
Definition getLinearVelocity (fuel : nat)
    (this relativeTo inCoordinatesOf : Id) : M Vector3d :=
  do V <- getSpatialVelocity_rel fuel this relativeTo inCoordinatesOf;
  ret (tail3 V).

Definition getAngularVelocity (fuel : nat)
    (this relativeTo inCoordinatesOf : Id) : M Vector3d :=
  do V <- getSpatialVelocity_rel fuel this relativeTo inCoordinatesOf;
  ret (head3 V).

(** *** Frame::getSpatialAcceleration() (Frame.cpp:179-195) *)
Fixpoint getSpatialAcceleration (fuel : nat) (this : Id) : M Vector6d :=
  match fuel with
  | 0 => fail OutOfFuel
  | S fuel' =>
      do E <- deref this;
      if mAmWorld E then ret (mAcceleration E)
      else if mNeedAccelerationUpdate E then
        do Tr <- getRelativeTransform this;
        do p <- getParentFrame this;
        do Ap <- getSpatialAcceleration fuel' p;
        do A1 <- getPrimaryRelativeAcceleration this;
        do A2 <- getPartialAcceleration this;
        do_ modify this (set_acceleration (plus6 (plus6 (AdInvT Tr Ap) A1) A2));
        ret (plus6 (plus6 (AdInvT Tr Ap) A1) A2)
      else ret (mAcceleration E)
  end.

(** *** Frame::getSpatialAcceleration(inCoordinatesOf) (Frame.cpp:198-208) *)
Definition getSpatialAcceleration_in (fuel : nat) (this inCoordinatesOf : Id)
  : M Vector6d :=
  if decide (this = inCoordinatesOf) then getSpatialAcceleration fuel this
  else
    do w <- isWorld inCoordinatesOf;
    if w then
      do T <- getWorldTransform fuel this;
      do A <- getSpatialAcceleration fuel this;
      ret (AdR T A)
    else
      do T <- getTransform fuel this inCoordinatesOf;
      do A <- getSpatialAcceleration fuel this;
      ret (AdR T A).

(** *** Frame::getSpatialAcceleration(relativeTo, inCoordinatesOf)
    (Frame.cpp:211-227) *)
Definition getSpatialAcceleration_rel (fuel : nat)
    (this relativeTo inCoordinatesOf : Id) : M Vector6d :=
  do T <- getTransform fuel this inCoordinatesOf;
  do A <- getSpatialAcceleration fuel this;
  do Tr <- getTransform fuel relativeTo this;
  do Ar <- getSpatialAcceleration fuel relativeTo;
  do V <- getSpatialVelocity fuel this;
  do Vrel <- getSpatialVelocity_rel fuel this relativeTo this;
  ret (AdR T (minus6 (minus6 A (AdT Tr Ar)) (ad V Vrel))).

(** *** Frame::getLinearAcceleration, Frame::getAngularAcceleration
    (Frame.cpp:230-246) *)
Definition getLinearAcceleration (fuel : nat)
    (this relativeTo inCoordinatesOf : Id) : M Vector3d :=
  do v_rel <- getSpatialVelocity_rel fuel this relativeTo inCoordinatesOf;
  do A <- getSpatialAcceleration_rel fuel this relativeTo inCoordinatesOf;
  ret (plus3 (tail3 A) (cross (head3 v_rel) (tail3 v_rel))).

Definition getAngularAcceleration (fuel : nat)
    (this relativeTo inCoordinatesOf : Id) : M Vector3d :=
  do A <- getSpatialAcceleration_rel fuel this relativeTo inCoordinatesOf;
  ret (head3 A).

(** *** Entity's side of the interface

    Entity.cpp is not part of the sources at hand; Frame.cpp calls three of
    its functions. *)

(** Modelled from the spec: [Entity::notifyTransformUpdate],
    [Entity::notifyVelocityUpdate] and [Entity::notifyAccelerationUpdate]
    are missing; for an entity that is not a frame they are hooks that
    record that the quantity is stale. *)
Definition Entity_notifyTransformUpdate (this : Id) : M unit :=
  modify this mark_transform.
Definition Entity_notifyVelocityUpdate (this : Id) : M unit :=
  modify this mark_velocity.
Definition Entity_notifyAccelerationUpdate (this : Id) : M unit :=
  modify this mark_acceleration.

(** Modelled from the spec: [Entity::changeParentFrame] is missing; it
    removes the entity from its old parent's child-entity set (unless
    suppressed), updates the parent reference, and, unless suppressed,
    registers the entity into the new parent's child-entity set; a null
    new parent detaches without registering anywhere. *)
Definition Entity_changeParentFrame (this : Id) (newParentFrame : option Id)
  : M unit :=
  do E <- deref this;
  do_ (if mAmQuiet E then ret tt
       else match mParentFrame E with
            | Some p => modify p (erase_childEntity this)
            | None => ret tt
            end);
  do_ modify this (set_parent newParentFrame);
  if mAmQuiet E then ret tt
  else match newParentFrame with
       | Some p => modify p (insert_childEntity this)
       | None => ret tt
       end.

(** Modelled from the spec: [Entity::dependsOn] is missing; the dependency
    check of [changeParentFrame] asks whether the entity is the given frame
    or a descendant of it, which is decided by climbing the parent
    references; the World frame, the root, is a descendant of no other
    frame. *)
Fixpoint dependsOn (fuel : nat) (this someFrame : Id) : M bool :=
  if decide (this = someFrame) then ret true
  else match fuel with
       | 0 => fail OutOfFuel
       | S fuel' =>
           do E <- deref this;
           if mAmWorld E then ret false
           else match mParentFrame E with
                | Some p => dependsOn fuel' p someFrame
                | None => ret false
                end
       end.

(** *** Frame::notifyAccelerationUpdate (Frame.cpp:368-379) *)
Fixpoint notifyAccelerationUpdate (fuel : nat) (this : Id) : M unit :=
  match fuel with
  | 0 => fail OutOfFuel
  | S fuel' =>
      do E <- deref this;
      match kind E with
      | PlainEntity => Entity_notifyAccelerationUpdate this
      | FrameKind =>
          if mNeedAccelerationUpdate E then ret tt
          else
            do_ modify this mark_acceleration;
            forEach (elements (mChildEntities E))
                    (notifyAccelerationUpdate fuel')
      end
  end.

(** *** Frame::notifyVelocityUpdate (Frame.cpp:352-365) *)
Fixpoint notifyVelocityUpdate (fuel : nat) (this : Id) : M unit :=
  match fuel with
  | 0 => fail OutOfFuel
  | S fuel' =>
      do E <- deref this;
      match kind E with
      | PlainEntity => Entity_notifyVelocityUpdate this
      | FrameKind =>
          do_ notifyAccelerationUpdate fuel this;
          do E1 <- deref this;
          if mNeedVelocityUpdate E1 then ret tt
          else
            do_ modify this mark_velocity;
            forEach (elements (mChildEntities E1))
                    (notifyVelocityUpdate fuel')
      end
  end.

(** *** Frame::notifyTransformUpdate (Frame.cpp:336-349) *)
Fixpoint notifyTransformUpdate (fuel : nat) (this : Id) : M unit :=
  match fuel with
  | 0 => fail OutOfFuel
  | S fuel' =>
      do E <- deref this;
      match kind E with
      | PlainEntity => Entity_notifyTransformUpdate this
      | FrameKind =>
          do_ notifyVelocityUpdate fuel this;
          do E1 <- deref this;
          if mNeedTransformUpdate E1 then ret tt
          else
            do_ modify this mark_transform;
            forEach (elements (mChildEntities E1))
                    (notifyTransformUpdate fuel')
      end
  end.

(** [dtwarn << ...] : the diagnostic names the frame and the refused parent. *)
Definition dtwarn (this newParentFrame : Id) : M unit :=
  fun s => Ok tt (mkStore (heap s) (world s) (relTfCalls s)
                    (warnings s ++ [(this, newParentFrame)]) (deleted s)).

(** *** Frame::changeParentFrame (Frame.cpp:382-416) *)
Definition changeParentFrame (fuel : nat) (this : Id)
    (newParentFrame : option Id) : M unit :=
  do refused <-
    match newParentFrame with
    | Some np =>
        do d <- dependsOn fuel np this;
        if d then
          do w1 <- isWorld this;
          do w2 <- isWorld np;
          ret (negb (w1 && w2))
        else ret false
    | None => ret false
    end;
  if refused then
    match newParentFrame with
    | Some np => dtwarn this np
    | None => ret tt
    end
  else
    do E <- deref this;
    do_ match mParentFrame E with
        | Some p => modify p (erase_childFrame this)
        | None => ret tt
        end;
    match newParentFrame with
    | None => Entity_changeParentFrame this None
    | Some np =>
        do_ Entity_changeParentFrame this (Some np);
        do E' <- deref this;
        if mAmQuiet E' then ret tt
        else
          do p <- nonnull (mParentFrame E');
          modify p (insert_childFrame this)
    end.

(** The virtual call [entity->changeParentFrame(p)]. *)
Definition Entity_changeParentFrame_virtual (fuel : nat) (this : Id)
    (newParentFrame : option Id) : M unit :=
  do E <- deref this;
  match kind E with
  | PlainEntity => Entity_changeParentFrame this newParentFrame
  | FrameKind => changeParentFrame fuel this newParentFrame
  end.

(** *** WorldFrame::WorldFrame (Frame.cpp:466-473) with Frame::Frame()
    (Frame.cpp:425-433) and Frame::World (Frame.cpp:92-96) *)

(** Modelled from the spec: [Entity]'s constructor is missing; an entity is
    created with a name and a suppression flag, no flag is set (the World
    frame's flags are never set), and with a null reference frame, as in
    [Entity(NULL, "World", true)], it is registered nowhere.  The members
    that belong to [Frame] are initialised by [Frame]'s constructor. *)
Definition Entity_ctor (name : string) (quiet : bool) : Entity :=
  mkEntity PlainEntity None name false false false quiet
    Identity Zero Zero false ∅ ∅ [] Identity Zero Zero Zero.

(** The member initialisers of [Frame::Frame()] (Frame.cpp:425-433):
    identity pose, zero velocity and acceleration, [mAmWorld(true)]. *)
Definition Frame_ctor_World (E : Entity) : Entity :=
  mkEntity FrameKind (mParentFrame E) (mName E)
    (mNeedTransformUpdate E) (mNeedVelocityUpdate E)
    (mNeedAccelerationUpdate E) (mAmQuiet E)
    Identity Zero Zero true ∅ ∅ []
    (relativeTransform E) (relativeSpatialVelocity E)
    (primaryRelativeAcceleration E) (partialAcceleration E).

(** The member initialisers of [WorldFrame::WorldFrame()]
    (Frame.cpp:466-471): [mRelativeTf(Identity)], [mZero(Zero)], which the
    World frame's primitives return (Frame.cpp:436-463). *)
Definition WorldFrame_members (E : Entity) : Entity :=
  mkEntity (kind E) (mParentFrame E) (mName E)
    (mNeedTransformUpdate E) (mNeedVelocityUpdate E)
    (mNeedAccelerationUpdate E) (mAmQuiet E)
    (mWorldTransform E) (mVelocity E) (mAcceleration E) (mAmWorld E)
    (mChildEntities E) (mChildFrames E) (mVizShapes E)
    Identity Zero Zero Zero.

(** The World frame before the body of its constructor runs. *)
Definition WorldFrame_init : Entity :=
  WorldFrame_members (Frame_ctor_World (Entity_ctor "World" true)).

Definition set_world (w : Id) : M unit :=
  fun s => Ok tt (mkStore (heap s) (Some w) (relTfCalls s)
                    (warnings s) (deleted s)).

Definition WorldFrame_ctor : M Id :=
  fun s =>
    let w := fresh (dom (heap s)) in
    (do_ changeParentFrame 1 w (Some w); ret w)
      (set_heap (<[w := WorldFrame_init]> (heap s)) s).

Definition World : M Id :=
  fun s => match world s with
           | Some w => Ok w s
           | None => (do w <- WorldFrame_ctor; do_ set_world w; ret w) s
           end.

(** *** Frame::~Frame (Frame.cpp:60-89) *)
Definition delete_shapes (l : list Shape) : M unit :=
  fun s => Ok tt (mkStore (heap s) (world s) (relTfCalls s)
                    (warnings s) (deleted s ++ l)).

Definition Frame_dtor (fuel : nat) (this : Id) : M unit :=
  do w <- isWorld this;
  if w then ret tt
  else
    do_ changeParentFrame fuel this None;
    do E <- deref this;
    do_ forEach (elements (mChildEntities E))
          (fun c => do W <- World;
                    Entity_changeParentFrame_virtual fuel c (Some W));
    do E' <- deref this;
    do_ delete_shapes (mVizShapes E');
    modify this clear_vizShapes.

(** *** What the cached quantities denote

    The three caches follow one scheme: the World frame and a frame whose
    flag is clear answer from the cache, a dirty frame combines its
    parent's value with its own primitives. *)
Record Quantity := mkQuantity {
  qT : Type;
  qDirty : Entity → bool;
  qCache : Entity → qT;
  qStep : Entity → qT → qT
}.

Fixpoint valueOf (Q : Quantity) (fuel : nat) (s : Store) (f : Id)
  : option (qT Q) :=
  match fuel with
  | 0 => None
  | S fuel' =>
      match heap s !! f with
      | None => None
      | Some E =>
          if mAmWorld E then Some (qCache Q E)
          else if qDirty Q E then
            match mParentFrame E with
            | None => None
            | Some p =>
                match valueOf Q fuel' s p with
                | None => None
                | Some v => Some (qStep Q E v)
                end
            end
          else Some (qCache Q E)
      end
  end.

Definition transformQ : Quantity :=
  mkQuantity Isometry3d mNeedTransformUpdate mWorldTransform
    (fun E Tp => Tp ∘∘ relativeTransform E).

Definition velocityQ : Quantity :=
  mkQuantity Vector6d mNeedVelocityUpdate mVelocity
    (fun E Vp => plus6 (AdInvT (relativeTransform E) Vp)
                       (relativeSpatialVelocity E)).

Definition accelerationQ : Quantity :=
  mkQuantity Vector6d mNeedAccelerationUpdate mAcceleration
    (fun E Ap => plus6 (plus6 (AdInvT (relativeTransform E) Ap)
                              (primaryRelativeAcceleration E))
                       (partialAcceleration E)).

(** Everything of an object but its flags and caches. *)
Definition structure (E : Entity) :=
  (kind E, mParentFrame E, mName E, mAmQuiet E, mAmWorld E,
   mChildEntities E, mChildFrames E, mVizShapes E,
   relativeTransform E, relativeSpatialVelocity E,
   primaryRelativeAcceleration E, partialAcceleration E).

Definition same_structure (E E' : Entity) : Prop :=
  structure E' = structure E.

Definition structural (Q : Quantity) : Prop :=
  ∀ E E', same_structure E E' → qStep Q E' = qStep Q E.

(** Between [s] and a later state, the cache of [p] is as it was, or it
    was dirty and now holds the value it denoted in [s]. *)
Definition cached (Q : Quantity) (s : Store) (p : Id) (E E' : Entity) : Prop :=
  (qDirty Q E' = qDirty Q E ∧ qCache Q E' = qCache Q E) ∨
  (mAmWorld E = false ∧ qDirty Q E = true ∧ qDirty Q E' = false ∧
   ∃ n, valueOf Q n s p = Some (qCache Q E')).

Definition extendsQ (Q : Quantity) (s s' : Store) : Prop :=
  ∀ p, match heap s !! p, heap s' !! p with
       | Some E, Some E' => same_structure E E' ∧ cached Q s p E E'
       | None, None => True
       | _, _ => False
       end.

(** [s'] is [s] with more values cached. *)
Definition extends (s s' : Store) : Prop :=
  extendsQ transformQ s s' ∧ extendsQ velocityQ s s' ∧
  extendsQ accelerationQ s s'.

(** The value [getTransform] denotes. *)
Definition transformOf (fuel : nat) (s : Store) (this withRespectTo : Id)
  : option Isometry3d :=
  match heap s !! withRespectTo with
  | None => None
  | Some W =>
      if mAmWorld W then valueOf transformQ fuel s this
      else match heap s !! this with
           | None => None
           | Some E =>
               if decide (Some withRespectTo = mParentFrame E)
               then Some (relativeTransform E)
               else match valueOf transformQ fuel s withRespectTo,
                          valueOf transformQ fuel s this with
                    | Some Tw, Some Tt => Some (inverse Tw ∘∘ Tt)
                    | _, _ => None
                    end
           end
  end.

(** The values the cross-frame queries denote. *)
Definition spatialVelocityRelOf (fuel : nat) (s : Store)
    (this relativeTo inCoordinatesOf : Id) : option Vector6d :=
  T ← transformOf fuel s this inCoordinatesOf;
  V ← valueOf velocityQ fuel s this;
  Tr ← transformOf fuel s relativeTo this;
  Vr ← valueOf velocityQ fuel s relativeTo;
  Some (AdR T (minus6 V (AdT Tr Vr))).

Definition spatialAccelerationRelOf (fuel : nat) (s : Store)
    (this relativeTo inCoordinatesOf : Id) : option Vector6d :=
  T ← transformOf fuel s this inCoordinatesOf;
  A ← valueOf accelerationQ fuel s this;
  Tr ← transformOf fuel s relativeTo this;
  Ar ← valueOf accelerationQ fuel s relativeTo;
  V ← valueOf velocityQ fuel s this;
  Vrel ← spatialVelocityRelOf fuel s this relativeTo this;
  Some (AdR T (minus6 (minus6 A (AdT Tr Ar)) (ad V Vrel))).

Definition linearAccelerationOf (fuel : nat) (s : Store)
    (this relativeTo inCoordinatesOf : Id) : option Vector3d :=
  v_rel ← spatialVelocityRelOf fuel s this relativeTo inCoordinatesOf;
  A ← spatialAccelerationRelOf fuel s this relativeTo inCoordinatesOf;
  Some (plus3 (tail3 A) (cross (head3 v_rel) (tail3 v_rel))).

(** A frame is rooted when climbing at most [n] parent references from
    it arrives at the World frame. *)
Fixpoint rooted (n : nat) (s : Store) (f : Id) : bool :=
  match heap s !! f with
  | None => false
  | Some E =>
      mAmWorld E ||
      match n with
      | 0 => false
      | S n' => match mParentFrame E with
                | Some p => rooted n' s p
                | None => false
                end
      end
  end.

(** *** Relations between a state and a later one *)

(** Every object of [s] is still there in [s'], related by [r] to what it
    was, and the World frame, once constructed, stays the same. *)
Definition steps_to (r : Entity → Entity → Prop) (s s' : Store) : Prop :=
  (∀ p E, heap s !! p = Some E → ∃ E', heap s' !! p = Some E' ∧ r E E') ∧
  (∀ w, world s = Some w → world s' = Some w).

Definition keeps {A} (r : Entity → Entity → Prop) (m : M A) : Prop :=
  ∀ s a s', m s = Ok a s' → steps_to r s s'.

Definition flag_step (may : bool) (b b' : bool) : Prop :=
  if may then b = true → b' = true else b' = b.

(** Only dirty flags changed, and those that may change were only set. *)
Definition raised (mt mv ma : bool) (E E' : Entity) : Prop :=
  same_structure E E' ∧
  mWorldTransform E' = mWorldTransform E ∧
  mVelocity E' = mVelocity E ∧
  mAcceleration E' = mAcceleration E ∧
  flag_step mt (mNeedTransformUpdate E) (mNeedTransformUpdate E') ∧
  flag_step mv (mNeedVelocityUpdate E) (mNeedVelocityUpdate E') ∧
  flag_step ma (mNeedAccelerationUpdate E) (mNeedAccelerationUpdate E').

(** Only the parent reference, the child sets and the shapes changed. *)
Definition same_kinematics (E E' : Entity) : Prop :=
  kind E' = kind E ∧ mName E' = mName E ∧ mAmQuiet E' = mAmQuiet E ∧
  mAmWorld E' = mAmWorld E ∧
  mNeedTransformUpdate E' = mNeedTransformUpdate E ∧
  mNeedVelocityUpdate E' = mNeedVelocityUpdate E ∧
  mNeedAccelerationUpdate E' = mNeedAccelerationUpdate E ∧
  mWorldTransform E' = mWorldTransform E ∧
  mVelocity E' = mVelocity E ∧
  mAcceleration E' = mAcceleration E ∧
  relativeTransform E' = relativeTransform E ∧
  relativeSpatialVelocity E' = relativeSpatialVelocity E ∧
  primaryRelativeAcceleration E' = primaryRelativeAcceleration E ∧
  partialAcceleration E' = partialAcceleration E.

(** The World frame stays the World frame and keeps its caches. *)
Definition world_safe (E E' : Entity) : Prop :=
  mAmWorld E' = mAmWorld E ∧
  (mAmWorld E = true →
   mWorldTransform E' = mWorldTransform E ∧
   mVelocity E' = mVelocity E ∧
   mAcceleration E' = mAcceleration E).

(** [w] is registered in no child-entity set. *)
Definition noChild (w : Id) (s : Store) : Prop :=
  ∀ p E, heap s !! p = Some E → w ∉ mChildEntities E.

(** Calls of the three notifications, each with its fuel. *)
Inductive NotifyOp :=
  | NTransform (f : Id)
  | NVelocity (f : Id)
  | NAcceleration (f : Id).

Definition notify_target (op : NotifyOp) : Id :=
  match op with
  | NTransform f | NVelocity f | NAcceleration f => f
  end.

Definition run_notify (fuel : nat) (op : NotifyOp) : M unit :=
  match op with
  | NTransform f => notifyTransformUpdate fuel f
  | NVelocity f => notifyVelocityUpdate fuel f
  | NAcceleration f => notifyAccelerationUpdate fuel f
  end.

Definition run_notifies (l : list (nat * NotifyOp)) : M unit :=
  forEach l (fun '(fuel, op) => run_notify fuel op).

(** [e] is the frame [f] or a descendant of it: climbing the parent
    references from [e], through frames that are not the World, arrives
    at [f]. *)
Inductive descends (s : Store) : Id → Id → Prop :=
  | descends_self f : descends s f f
  | descends_step e E p f :
      heap s !! e = Some E → mAmWorld E = false →
      mParentFrame E = Some p → descends s p f → descends s e f.

(** The state after the diagnostic of a refused reparenting. *)
Definition warned (this newParentFrame : Id) (s : Store) : Store :=
  mkStore (heap s) (world s) (relTfCalls s)
    (warnings s ++ [(this, newParentFrame)]) (deleted s).

(** Like [steps_to], with a relation that may depend on the object. *)
Definition steps_at (r : Id → Entity → Entity → Prop) (s s' : Store) : Prop :=
  (∀ p E, heap s !! p = Some E → ∃ E', heap s' !! p = Some E' ∧ r p E E') ∧
  world s' = world s ∧ deleted s' = deleted s.

Definition keeps_at {A} (r : Id → Entity → Entity → Prop) (m : M A) : Prop :=
  ∀ s a s', m s = Ok a s' → steps_at r s s'.

(** What reparenting the entity [c] to [W] may do to the object [x]: only
    [c] gets a new parent, which is [W]; child sets gain at most [c]. *)
Definition reparented (c W : Id) (x : Id) (E E' : Entity) : Prop :=
  mAmWorld E' = mAmWorld E ∧ mAmQuiet E' = mAmQuiet E ∧ kind E' = kind E ∧
  mVizShapes E' = mVizShapes E ∧
  mChildEntities E' ⊆ mChildEntities E ∪ {[c]} ∧
  mChildFrames E' ⊆ mChildFrames E ∪ {[c]} ∧
  (mParentFrame E' = mParentFrame E ∨ (x = c ∧ mParentFrame E' = Some W)).

(** What the loop of the destructor does to the object [x] while it goes
    through the children [todo]. *)
Definition loop_rel (todo : list Id) (W : Id) (x : Id) (E E' : Entity) : Prop :=
  mAmWorld E' = mAmWorld E ∧ mVizShapes E' = mVizShapes E ∧
  (∀ y, y ∈ mChildEntities E' → y ∈ mChildEntities E ∨ y ∈ todo) ∧
  (∀ y, y ∈ mChildFrames E' → y ∈ mChildFrames E ∨ y ∈ todo) ∧
  (if decide (x ∈ todo) then mParentFrame E' = Some W
   else mParentFrame E' = mParentFrame E).

(** *** The operations of the interface, as steps of a client *)
Inductive Op :=
  | OpWorld
  | OpNotify (op : NotifyOp)
  | OpChangeParentFrame (e : Id) (newParentFrame : option Id)
  | OpDestroy (f : Id)
  | OpGetWorldTransform (f : Id)
  | OpGetTransform (f g : Id)
  | OpGetSpatialVelocity (f : Id)
  | OpGetSpatialVelocityIn (f g : Id)
  | OpGetSpatialVelocityRel (f g h : Id)
  | OpGetLinearVelocity (f g h : Id)
  | OpGetAngularVelocity (f g h : Id)
  | OpGetSpatialAcceleration (f : Id)
  | OpGetSpatialAccelerationIn (f g : Id)
  | OpGetSpatialAccelerationRel (f g h : Id)
  | OpGetLinearAcceleration (f g h : Id)
  | OpGetAngularAcceleration (f g h : Id).

Definition discard {A} (m : M A) : M unit := do_ m; ret tt.

Definition exec (fuel : nat) (op : Op) : M unit :=
  match op with
  | OpWorld => discard World
  | OpNotify op => run_notify fuel op
  | OpChangeParentFrame e p => Entity_changeParentFrame_virtual fuel e p
  | OpDestroy f => Frame_dtor fuel f
  | OpGetWorldTransform f => discard (getWorldTransform fuel f)
  | OpGetTransform f g => discard (getTransform fuel f g)
  | OpGetSpatialVelocity f => discard (getSpatialVelocity fuel f)
  | OpGetSpatialVelocityIn f g => discard (getSpatialVelocity_in fuel f g)
  | OpGetSpatialVelocityRel f g h => discard (getSpatialVelocity_rel fuel f g h)
  | OpGetLinearVelocity f g h => discard (getLinearVelocity fuel f g h)
  | OpGetAngularVelocity f g h => discard (getAngularVelocity fuel f g h)
  | OpGetSpatialAcceleration f => discard (getSpatialAcceleration fuel f)
  | OpGetSpatialAccelerationIn f g =>
      discard (getSpatialAcceleration_in fuel f g)
  | OpGetSpatialAccelerationRel f g h =>
      discard (getSpatialAcceleration_rel fuel f g h)
  | OpGetLinearAcceleration f g h =>
      discard (getLinearAcceleration fuel f g h)
  | OpGetAngularAcceleration f g h =>
      discard (getAngularAcceleration fuel f g h)
  end.

Definition run (l : list (nat * Op)) : M unit :=
  forEach l (fun '(fuel, op) => exec fuel op).

(** [w] is the World frame, with the caches of its construction. *)
Definition world_inv (w : Id) (s : Store) : Prop :=
  world s = Some w ∧
  ∃ E, heap s !! w = Some E ∧ mAmWorld E = true ∧
       mWorldTransform E = Identity ∧ mVelocity E = Zero ∧
       mAcceleration E = Zero.

(** A getter changes the objects only by caching and leaves the rest of
    the state but the call counters alone. *)
Definition caching {A} (m : M A) : Prop :=
  ∀ s a s', m s = Ok a s' → extends s s' ∧ world s' = world s.

(** The invariant of a notification that starts elsewhere: World is in no
    child-entity set and is as it was. *)
Definition aside (w : Id) (X : option Entity) (s : Store) : Prop :=
  noChild w s ∧ heap s !! w = X.

(** The result of a computation, if it returned. *)
Definition value {A} (r : Result A) : option A :=
  match r with
  | Ok a _ => Some a
  | Fail _ => None
  end.

(** A member function, as a family of computations indexed by fuel,
    returns [a] from [s]. *)
Definition returns {A} (g : nat → M A) (s : Store) (a : A) : Prop :=
  ∃ n s', g n s = Ok a s'.

(** A getter [g] computes the value [d] and changes the state only by
    caching. *)
Record tracks {A} (g : nat → M A) (d : nat → Store → option A) : Prop := {
  tracks_sound : ∀ n s0 s a,
    extends s0 s → d n s0 = Some a → ∃ s', g n s = Ok a s' ∧ extends s0 s';
  tracks_complete : ∀ n s a s',
    g n s = Ok a s' → extends s s' ∧ ∃ m, d m s = Some a;
  tracks_mono : ∀ n m s a, d n s = Some a → n ≤ m → d m s = Some a;
  tracks_back : ∀ n s s' a,
    extends s s' → d n s' = Some a → ∃ m, d m s = Some a
}.

End FrameGraph.

Arguments Entity {SA}.
Arguments Store {SA}.
Arguments Result {SA} A.
Arguments M {SA} A.

Notation "'do' x <- m ; k" := (bind m (fun x => k))
  (at level 10, x name, m at level 100, k at level 200,
   format "'[v' 'do'  x  <-  m ; '/' k ']'").
Notation "'do_' m ; k" := (bind m (fun _ => k))
  (at level 10, m at level 100, k at level 200,
   format "'[v' 'do_'  m ; '/' k ']'").

(** ** An instance with exact integer scalars

    Rigid transforms with integer entries (rotations by quarter turns,
    integer translations) are enough to run the code on concrete trees. *)
Module ZSpatial.
Local Open Scope Z_scope.

Record V3 := mkV3 { vx : Z; vy : Z; vz : Z }.
Record M3 := mkM3 { r1 : V3; r2 : V3; r3 : V3 }.
Record Iso := mkIso { linear : M3; translation : V3 }.
Record V6 := mkV6 { angular : V3; linearPart : V3 }.

Definition v3add (a b : V3) := mkV3 (vx a + vx b) (vy a + vy b) (vz a + vz b).
Definition v3sub (a b : V3) := mkV3 (vx a - vx b) (vy a - vy b) (vz a - vz b).
Definition dot (a b : V3) : Z := vx a * vx b + vy a * vy b + vz a * vz b.
Definition v3cross (a b : V3) :=
  mkV3 (vy a * vz b - vz a * vy b)
       (vz a * vx b - vx a * vz b)
       (vx a * vy b - vy a * vx b).
Definition v3zero := mkV3 0 0 0.

Definition mulMV (m : M3) (v : V3) := mkV3 (dot (r1 m) v) (dot (r2 m) v) (dot (r3 m) v).
Definition transpose (m : M3) :=
  mkM3 (mkV3 (vx (r1 m)) (vx (r2 m)) (vx (r3 m)))
       (mkV3 (vy (r1 m)) (vy (r2 m)) (vy (r3 m)))
       (mkV3 (vz (r1 m)) (vz (r2 m)) (vz (r3 m))).
Definition mulMM (a b : M3) :=
  let bt := transpose b in
  mkM3 (mkV3 (dot (r1 a) (r1 bt)) (dot (r1 a) (r2 bt)) (dot (r1 a) (r3 bt)))
       (mkV3 (dot (r2 a) (r1 bt)) (dot (r2 a) (r2 bt)) (dot (r2 a) (r3 bt)))
       (mkV3 (dot (r3 a) (r1 bt)) (dot (r3 a) (r2 bt)) (dot (r3 a) (r3 bt))).
Definition m3id := mkM3 (mkV3 1 0 0) (mkV3 0 1 0) (mkV3 0 0 1).

(** [Isometry3d]: the affine map [x |-> linear * x + translation]. *)
Definition isoId := mkIso m3id v3zero.
Definition isoMul (a b : Iso) :=
  mkIso (mulMM (linear a) (linear b))
        (v3add (mulMV (linear a) (translation b)) (translation a)).
(** [inverse()] of an isometry transposes the linear part. *)
Definition isoInv (a : Iso) :=
  mkIso (transpose (linear a))
        (v3sub v3zero (mulMV (transpose (linear a)) (translation a))).

Definition v6zero := mkV6 v3zero v3zero.
Definition v6add (a b : V6) :=
  mkV6 (v3add (angular a) (angular b)) (v3add (linearPart a) (linearPart b)).
Definition v6sub (a b : V6) :=
  mkV6 (v3sub (angular a) (angular b)) (v3sub (linearPart a) (linearPart b)).

(** Modelled from the spec: [math::AdR] is missing; it is the rotational
    part of the adjoint: it rotates the angular and the linear part. *)
Definition zAdR (T : Iso) (V : V6) :=
  mkV6 (mulMV (linear T) (angular V)) (mulMV (linear T) (linearPart V)).

(** Modelled from the spec: [math::AdT] is missing; it is the adjoint
    transport of a spatial vector, angular components first. *)
Definition zAdT (T : Iso) (V : V6) :=
  let w := mulMV (linear T) (angular V) in
  mkV6 w (v3add (mulMV (linear T) (linearPart V)) (v3cross (translation T) w)).

(** Modelled from the spec: [math::AdInvT] is missing; it is the adjoint
    transport by the inverse transform, from the parent into the frame. *)
Definition zAdInvT (T : Iso) (V : V6) :=
  let rt := transpose (linear T) in
  mkV6 (mulMV rt (angular V))
       (mulMV rt (v3add (linearPart V) (v3cross (angular V) (translation T)))).

(** Modelled from the spec: [math::ad] is missing; it is the Lie bracket
    of two spatial vectors, angular components first. *)
Definition zad (X Y : V6) :=
  mkV6 (v3cross (angular X) (angular Y))
       (v3add (v3cross (angular X) (linearPart Y))
              (v3cross (linearPart X) (angular Y))).

Global Instance spatialZ : SpatialAlgebra := {|
  Isometry3d := Iso; Vector3d := V3; Vector6d := V6;
  Identity := isoId; compose := isoMul; inverse := isoInv;
  Zero := v6zero; plus6 := v6add; minus6 := v6sub;
  head3 := angular; tail3 := linearPart; cross := v3cross; plus3 := v3add;
  AdR := zAdR; AdT := zAdT; AdInvT := zAdInvT; ad := zad
|}.

(** Concrete transforms and frames. *)
Definition rotZ : Iso := mkIso (mkM3 (mkV3 0 (-1) 0) (mkV3 1 0 0) (mkV3 0 0 1)) v3zero.
Definition rotX : Iso := mkIso (mkM3 (mkV3 1 0 0) (mkV3 0 0 (-1)) (mkV3 0 1 0)) v3zero.
Definition transl (x y z : Z) : Iso := mkIso m3id (mkV3 x y z).

Definition frame (parent : option Id) (name : string) (dirty : bool)
    (children : gset Id) (rel : Iso) (relV : V6) : Entity :=
  mkEntity FrameKind parent name dirty dirty dirty false
    isoId v6zero v6zero false children children [] rel relV v6zero v6zero.

Definition worldEntity (w : Id) (children : gset Id) : Entity :=
  mkEntity FrameKind (Some w) "World" false false false true
    isoId v6zero v6zero true children children [] isoId v6zero v6zero v6zero.

Definition emptyStore : Store := mkStore ∅ None ∅ [] [].

(** World (0) <- C (1) <- B (2) <- A (3), the three frames dirty. *)
Definition entityA : Entity :=
  frame (Some 2%nat) "A" true ∅ rotZ (mkV6 (mkV3 0 0 1) v3zero).
Definition entityB : Entity :=
  frame (Some 1%nat) "B" true {[3%nat]} rotX (mkV6 v3zero (mkV3 1 0 0)).
Definition entityC : Entity :=
  frame (Some 0%nat) "C" true {[2%nat]} (transl 1 2 3)
    (mkV6 (mkV3 1 0 0) (mkV3 0 2 0)).
Definition entityW : Entity := worldEntity 0%nat {[1%nat]}.

Definition chainStore : Store :=
  mkStore (<[3%nat := entityA]> (<[2%nat := entityB]>
          (<[1%nat := entityC]> (<[0%nat := entityW]> ∅))))
          (Some 0%nat) ∅ [] [].

(** The values the queries return on the chain. *)
Definition T31 : Iso :=
  Eval vm_compute in default isoId (value (getTransform 5 3%nat 1%nat chainStore)).
Definition T23 : Iso :=
  Eval vm_compute in default isoId (value (getTransform 5 2%nat 3%nat chainStore)).
Definition V_A : V6 :=
  Eval vm_compute in default v6zero (value (getSpatialVelocity 5 3%nat chainStore)).
Definition V_B : V6 :=
  Eval vm_compute in default v6zero (value (getSpatialVelocity 5 2%nat chainStore)).
Definition A_A : V6 :=
  Eval vm_compute in
    default v6zero (value (getSpatialAcceleration 5 3%nat chainStore)).
Definition A_B : V6 :=
  Eval vm_compute in
    default v6zero (value (getSpatialAcceleration 5 2%nat chainStore)).
Definition V_AB_A : V6 :=
  Eval vm_compute in
    default v6zero
      (value (getSpatialVelocity_rel 5 3%nat 2%nat 3%nat chainStore)).
Definition V_AB_C : V6 :=
  Eval vm_compute in
    default v6zero
      (value (getSpatialVelocity_rel 5 3%nat 2%nat 1%nat chainStore)).

(** Steps of a client on the chain. *)
Definition notifications : list (nat * NotifyOp) :=
  [(5, NTransform 1); (5, NVelocity 3); (5, NAcceleration 2)]%nat.

Definition session : list (nat * Op) :=
  [(5, OpNotify (NTransform 0)); (5, OpChangeParentFrame 3 (Some 0));
   (5, OpGetSpatialVelocityRel 3 1 0); (5, OpDestroy 2);
   (5, OpGetLinearAcceleration 3 1 0); (5, OpWorld)]%nat.

End ZSpatial.

(** ** Further member functions of Frame.cpp *)
Section MoreMembers.
Context `{SA : SpatialAlgebra}.

(** *** convertToConstSet (Frame.cpp:249-258): the elements are inserted
    one by one into an empty set. *)
Definition convertToConstSet (_set : gset Id) : gset Id :=
  foldl (fun const_set x => {[x]} ∪ const_set) ∅ (elements _set).

(** *** The accessors of the child sets (Frame.cpp:261-294) *)
Definition getChildEntities (this : Id) : M (gset Id) :=
  do E <- deref this; ret (mChildEntities E).
Definition getChildEntities_const (this : Id) : M (gset Id) :=
  do E <- deref this; ret (convertToConstSet (mChildEntities E)).
Definition getNumChildEntities (this : Id) : M nat :=
  do E <- deref this; ret (size (mChildEntities E)).
Definition getChildFrames (this : Id) : M (gset Id) :=
  do E <- deref this; ret (mChildFrames E).
Definition getChildFrames_const (this : Id) : M (gset Id) :=
  do E <- deref this; ret (convertToConstSet (mChildFrames E)).
Definition getNumChildFrames (this : Id) : M nat :=
  do E <- deref this; ret (size (mChildFrames E)).

End MoreMembers.

(** ** Invariants of the frame graph *)
Section GraphInvariants.
Context `{SA : SpatialAlgebra}.

(** The value a quantity has when it is composed from the primitives along
    the parent chain: no cache is read but the World frame's. *)
Fixpoint freshOf (Q : Quantity) (fuel : nat) (s : Store) (f : Id)
  : option (qT Q) :=
  match fuel with
  | 0 => None
  | S fuel' =>
      match heap s !! f with
      | None => None
      | Some E =>
          if mAmWorld E then Some (qCache Q E)
          else match mParentFrame E with
               | None => None
               | Some p =>
                   match freshOf Q fuel' s p with
                   | None => None
                   | Some v => Some (qStep Q E v)
                   end
               end
      end
  end.

(** Every frame whose flag is clear holds the value composed from the
    primitives. *)
Definition coherentQ (Q : Quantity) (s : Store) : Prop :=
  ∀ f E, heap s !! f = Some E → kind E = FrameKind → mAmWorld E = false →
         qDirty Q E = false → ∃ n, freshOf Q n s f = Some (qCache Q E).

(** Below a dirty frame every object is dirty. *)
Definition closedQ (Q : Quantity) (s : Store) : Prop :=
  ∀ c Ec p Ep, heap s !! c = Some Ec → mAmWorld Ec = false →
    mParentFrame Ec = Some p →
    heap s !! p = Some Ep → mAmWorld Ep = false →
    qDirty Q Ep = true → qDirty Q Ec = true.

(** [mParentFrame] is a [Frame*]. *)
Definition parents_are_frames (s : Store) : Prop :=
  ∀ c Ec p Ep, heap s !! c = Some Ec → mParentFrame Ec = Some p →
    heap s !! p = Some Ep → kind Ep = FrameKind.

(** Every object but the World frame is in the child-entity set of its
    parent. *)
Definition registered (s : Store) : Prop :=
  ∀ c Ec p, heap s !! c = Some Ec → mAmWorld Ec = false →
    mParentFrame Ec = Some p →
    ∃ Ep, heap s !! p = Some Ep ∧ c ∈ mChildEntities Ep.

(** The state of the memoization is consistent. *)
Record consistent (s : Store) : Prop := mkConsistent {
  cons_typed : parents_are_frames s;
  cons_registered : registered s;
  cons_closedT : closedQ transformQ s;
  cons_closedV : closedQ velocityQ s;
  cons_closedA : closedQ accelerationQ s;
  cons_coherentT : coherentQ transformQ s;
  cons_coherentV : coherentQ velocityQ s;
  cons_coherentA : coherentQ accelerationQ s
}.

(** The concrete frame's side: the values its primitives return change. *)
Definition set_primitives (T : Isometry3d) (V A1 A2 : Vector6d) (E : Entity)
  : Entity :=
  mkEntity (kind E) (mParentFrame E) (mName E)
    (mNeedTransformUpdate E) (mNeedVelocityUpdate E)
    (mNeedAccelerationUpdate E) (mAmQuiet E)
    (mWorldTransform E) (mVelocity E) (mAcceleration E) (mAmWorld E)
    (mChildEntities E) (mChildFrames E) (mVizShapes E)
    T V A1 A2.

(** The same objects are live in [s] and [s'], each related by [r] to
    what it was. *)
Definition evolves (r : Entity → Entity → Prop) (s s' : Store) : Prop :=
  ∀ x, match heap s !! x, heap s' !! x with
       | Some E, Some E' => r E E'
       | None, None => True
       | _, _ => False
       end.

Definition changes {A} (r : Entity → Entity → Prop) (m : M A) : Prop :=
  ∀ s a s', m s = Ok a s' → evolves r s s'.

(** The object [c] is live and its flag is set. *)
Definition dirtyAt (Q : Quantity) (s : Store) (c : Id) : Prop :=
  ∃ E, heap s !! c = Some E ∧ qDirty Q E = true.

(** From [s] to [s'] flags were only set, and every object whose flag was
    set on the way has, in [s'], all its children dirty. *)
Definition saturated (Q : Quantity) (s s' : Store) : Prop :=
  evolves (raised true true true) s s' ∧
  ∀ p Ep Ep' c Ec',
    heap s !! p = Some Ep → qDirty Q Ep = false →
    heap s' !! p = Some Ep' → qDirty Q Ep' = true →
    heap s' !! c = Some Ec' → mAmWorld Ec' = false →
    mParentFrame Ec' = Some p → qDirty Q Ec' = true.

(** What a change of primitives followed by a notification does to an
    object: its step may have changed only if its flag is now set. *)
Definition updatedQ (Q : Quantity) (E E' : Entity) : Prop :=
  kind E' = kind E ∧ mParentFrame E' = mParentFrame E ∧
  mAmWorld E' = mAmWorld E ∧ qCache Q E' = qCache Q E ∧
  (qDirty Q E = true → qDirty Q E' = true) ∧
  (qStep Q E' = qStep Q E ∨ qDirty Q E' = true).

(** Like [evolves], with a relation that may depend on the object. *)
Definition evolves_at (r : Id → Entity → Entity → Prop) (s s' : Store) : Prop :=
  ∀ x, match heap s !! x, heap s' !! x with
       | Some E, Some E' => r x E E'
       | None, None => True
       | _, _ => False
       end.

Definition changes_at {A} (r : Id → Entity → Entity → Prop) (m : M A) : Prop :=
  ∀ s a s', m s = Ok a s' → evolves_at r s s'.

(** What reparenting the entity [c] may do to the object [x]: the child
    sets change by [c] only, and only [c] gets another parent. *)
Definition moved (c : Id) (x : Id) (E E' : Entity) : Prop :=
  kind E' = kind E ∧ mAmQuiet E' = mAmQuiet E ∧ mAmWorld E' = mAmWorld E ∧
  mChildEntities E' ∖ {[c]} = mChildEntities E ∖ {[c]} ∧
  mChildFrames E' ∖ {[c]} = mChildFrames E ∖ {[c]} ∧
  (x ≠ c → mParentFrame E' = mParentFrame E).

(** Where the entity [c] is registered, and what its parent is. *)
Definition profile (c : Id) (s : Store) (PE PF : Id → Prop)
    (parent : option Id) (E0 : Entity) : Prop :=
  (∃ E, heap s !! c = Some E ∧ mParentFrame E = parent ∧
        kind E = kind E0 ∧ mAmQuiet E = mAmQuiet E0) ∧
  ∀ p Ep, heap s !! p = Some Ep →
    (c ∈ mChildEntities Ep ↔ PE p) ∧ (c ∈ mChildFrames Ep ↔ PF p).

(** The child sets say what the parent references say: an entity is in
    the child-entity set of an object exactly when that object is its
    parent and it is not suppressed, and in the child-frame set exactly
    when, moreover, it is a frame. *)
Definition child_ok (s : Store) (c : Id) (Ec : Entity) : Prop :=
  profile c s
    (fun p => mAmQuiet Ec = false ∧ mParentFrame Ec = Some p)
    (fun p => kind Ec = FrameKind ∧ mAmQuiet Ec = false ∧
              mParentFrame Ec = Some p)
    (mParentFrame Ec) Ec ∧
  (mAmQuiet Ec = false → ∀ p, mParentFrame Ec = Some p → is_Some (heap s !! p)).

Definition registry (s : Store) : Prop :=
  (∀ c Ec, heap s !! c = Some Ec → child_ok s c Ec) ∧
  (∀ p Ep c, heap s !! p = Some Ep →
     c ∈ mChildEntities Ep ∪ mChildFrames Ep → is_Some (heap s !! c)).

(** What the registry reads of an object. *)
Definition same_registry (E E' : Entity) : Prop :=
  kind E' = kind E ∧ mAmQuiet E' = mAmQuiet E ∧
  mParentFrame E' = mParentFrame E ∧
  mChildEntities E' = mChildEntities E ∧ mChildFrames E' = mChildFrames E.

(** Climbing at most [n] parent references from [f], through live
    objects, arrives at the World frame or at an object with no parent. *)
Fixpoint grounded (n : nat) (s : Store) (f : Id) : bool :=
  match heap s !! f with
  | None => false
  | Some E =>
      mAmWorld E ||
      match mParentFrame E with
      | None => true
      | Some p => match n with
                  | 0 => false
                  | S n' => grounded n' s p
                  end
      end
  end.

(** No parent chain runs in a circle or leaves the store. *)
Definition all_grounded (s : Store) : Prop :=
  ∀ f, is_Some (heap s !! f) → ∃ n, grounded n s f = true.

(** The flags of the three quantities are closed downwards. *)
Definition closed (s : Store) : Prop :=
  closedQ transformQ s ∧ closedQ velocityQ s ∧ closedQ accelerationQ s.

Definition preserves {A} (I : Store → Prop) (m : M A) : Prop :=
  ∀ s a s', I s → m s = Ok a s' → I s'.

(** The operations that read or invalidate the caches: the queries and
    the notifications. *)
Definition memo_op (op : Op) : bool :=
  match op with
  | OpWorld | OpChangeParentFrame _ _ | OpDestroy _ => false
  | _ => true
  end.

(** The objects whose flag is clear. *)
Definition cleanSet (Q : Quantity) (s : Store) : gset Id :=
  dom (filter (fun kv => qDirty Q kv.2 = false) (heap s)).

(** The flags that are still clear: what a notification can set. *)
Definition clearFlags (s : Store) : nat :=
  size (cleanSet transformQ s) + size (cleanSet velocityQ s) +
  size (cleanSet accelerationQ s).

(** The child-entity sets hold live objects. *)
Definition children_live (s : Store) : Prop :=
  ∀ p E c, heap s !! p = Some E → c ∈ mChildEntities E → is_Some (heap s !! c).

(** The values the one-argument queries denote. *)
Definition spatialVelocityInOf (fuel : nat) (s : Store)
    (this inCoordinatesOf : Id) : option Vector6d :=
  if decide (this = inCoordinatesOf) then valueOf velocityQ fuel s this
  else T ← transformOf fuel s this inCoordinatesOf;
       V ← valueOf velocityQ fuel s this;
       Some (AdR T V).

Definition spatialAccelerationInOf (fuel : nat) (s : Store)
    (this inCoordinatesOf : Id) : option Vector6d :=
  if decide (this = inCoordinatesOf) then valueOf accelerationQ fuel s this
  else T ← transformOf fuel s this inCoordinatesOf;
       A ← valueOf accelerationQ fuel s this;
       Some (AdR T A).

(** A set of frames no query gets out of: each is dirty, is not the World
    frame, and its parent reference is null, dangling or leads to the set
    again. *)
Definition trapped (Q : Quantity) (s : Store) (D : Id → Prop) : Prop :=
  ∀ x, D x → ∃ E, heap s !! x = Some E ∧ mAmWorld E = false ∧
                  qDirty Q E = true ∧
                  ∀ p, mParentFrame E = Some p → D p ∨ heap s !! p = None.

(** What a query may do to an object: flags are cleared at most, and a
    cache changes only where its flag was cleared. *)
Definition cleared (E E' : Entity) : Prop :=
  same_structure E E' ∧
  (mNeedTransformUpdate E' = mNeedTransformUpdate E ∧
   mWorldTransform E' = mWorldTransform E ∨
   mNeedTransformUpdate E = true ∧ mNeedTransformUpdate E' = false) ∧
  (mNeedVelocityUpdate E' = mNeedVelocityUpdate E ∧
   mVelocity E' = mVelocity E ∨
   mNeedVelocityUpdate E = true ∧ mNeedVelocityUpdate E' = false) ∧
  (mNeedAccelerationUpdate E' = mNeedAccelerationUpdate E ∧
   mAcceleration E' = mAcceleration E ∨
   mNeedAccelerationUpdate E = true ∧ mNeedAccelerationUpdate E' = false).

(** The part of the state that is not an object: the World pointer, the
    diagnostics and the released shapes. *)
Definition logs (s : Store) := (world s, warnings s, deleted s).

(** A computation that leaves a component of the state alone. *)
Definition leaves {A B} (π : Store → B) (m : M A) : Prop :=
  ∀ s a s', m s = Ok a s' → π s' = π s.

(** The twelve queries. *)
Definition query_op (op : Op) : bool :=
  match op with
  | OpWorld | OpNotify _ | OpChangeParentFrame _ _ | OpDestroy _ => false
  | _ => true
  end.

(** The three quantities, whose flags a notification only sets. *)
Definition flagged (Q : Quantity) : Prop :=
  ∀ mt mv ma E E', raised mt mv ma E E' → qDirty Q E = true → qDirty Q E' = true.

(** The typing and the registration of the children, which no flag
    affects. *)
Definition shaped (s : Store) : Prop := parents_are_frames s ∧ registered s.

(** What the typing and the registration read of an object. *)
Definition same_shape (E E' : Entity) : Prop :=
  kind E' = kind E ∧ mParentFrame E' = mParentFrame E ∧
  mAmWorld E' = mAmWorld E ∧ mChildEntities E' = mChildEntities E.

(** What the three quantities have in common. *)
Record memoized (Q : Quantity) : Prop := mkMemoized {
  memo_structural : structural Q;
  memo_flagged : flagged Q;
  memo_cache : ∀ mt mv ma E E', raised mt mv ma E E' → qCache Q E' = qCache Q E;
  memo_primitives : ∀ T V A1 A2 E,
    qCache Q (set_primitives T V A1 A2 E) = qCache Q E ∧
    qDirty Q (set_primitives T V A1 A2 E) = qDirty Q E
}.

(** The computation returns. *)
Definition total {A} (m : M A) (s : Store) : Prop := ∃ a s', m s = Ok a s'.

End GraphInvariants.

(** ** Frame::draw *)
Section Rendering.
Context `{SA : SpatialAlgebra}.

(** The colour is passed on, never inspected. *)
Context {Vector4d : Type}.

(** Modelled from the spec: the header that declares the default value of
    the parameter [_depth] is missing; a frame passes three arguments to
    the [draw] of its children, so that they receive the default. *)
Context (default_depth : Z).

(** What a render target is asked to do.  [Shape::draw] and the [draw] of
    an entity that is not a frame are not part of the sources at hand:
    such a call is recorded with its arguments. *)
Inductive RenderCall :=
  | PushMatrix
  | PopMatrix
  | TransformBy (T : Isometry3d)
  | ShapeDraw (shape : Shape) (_color : Vector4d) (_useDefaultColor : bool)
  | EntityDraw (entity : Id) (_color : Vector4d) (_useDefaultColor : bool).

(** The calls of a loop, one iteration after the other. *)
Fixpoint collect {A} (l : list A) (body : A → M (list RenderCall))
  : M (list RenderCall) :=
  match l with
  | [] => ret []
  | x :: l' => do tr <- body x; do tr' <- collect l' body; ret (tr ++ tr')
  end.

(** *** Frame::draw (Frame.cpp:303-333): the calls made on the render
    target, in order; [_ri] is [None] for [NULL]. *)
Fixpoint Frame_draw (fuel : nat) (this : Id) (_ri : option Id)
    (_color : Vector4d) (_useDefaultColor : bool) (_depth : Z)
  : M (list RenderCall) :=
  match _ri with
  | None => ret []
  | Some _ =>
      match fuel with
      | 0 => fail OutOfFuel
      | S fuel' =>
          do T <- getRelativeTransform this;
          do E <- deref this;
          do shapes <- collect (mVizShapes E) (fun shape =>
            ret [PushMatrix; ShapeDraw shape _color _useDefaultColor; PopMatrix]);
          do subtree <- collect (elements (mChildEntities E)) (fun it =>
            do Ec <- deref it;
            match kind Ec with
            | PlainEntity => ret [EntityDraw it _color _useDefaultColor]
            | FrameKind =>
                Frame_draw fuel' it _ri _color _useDefaultColor default_depth
            end);
          ret ([PushMatrix; TransformBy T] ++ shapes ++ subtree ++ [PopMatrix])
      end
  end.

(** The depth of the matrix stack after the calls [tr], from the depth
    [d]; [None] where a pop finds the stack at depth [d] *)
Fixpoint stack (d : nat) (tr : list RenderCall) : option nat :=
  match tr with
  | [] => Some d
  | PushMatrix :: tr' => stack (S d) tr'
  | PopMatrix :: tr' => match d with
                        | 0 => None
                        | S d' => stack d' tr'
                        end
  | _ :: tr' => stack d tr'
  end.

(** Every push is matched by a later pop, and no pop comes first. *)
Definition balanced (tr : list RenderCall) : Prop := ∀ d, stack d tr = Some d.

(** Below [f] the child-entity sets form a tree of live objects of depth
    at most [n]. *)
Fixpoint shallow (n : nat) (s : Store) (f : Id) : bool :=
  match heap s !! f with
  | None => false
  | Some E =>
      match kind E with
      | PlainEntity => true
      | FrameKind =>
          match n with
          | 0 => false
          | S n' => forallb (shallow n' s) (elements (mChildEntities E))
          end
      end
  end.

(** What drawing leaves of a state: all but the count of the calls of
    [getRelativeTransform]. *)
Definition drawn (s s' : Store) : Prop :=
  heap s' = heap s ∧ world s' = world s ∧ warnings s' = warnings s ∧
  deleted s' = deleted s.

End Rendering.

(** ** Further scenes over the integers *)
Module ZScenes.
Import ZSpatial.

(** Two frames that are each other's parent and child. *)
Definition loop (dirty : bool) : Store :=
  mkStore (<[2%nat := frame (Some 1%nat) "Y" dirty {[1%nat]} rotX v6zero]>
          (<[1%nat := frame (Some 2%nat) "X" dirty {[2%nat]} rotZ v6zero]> ∅))
          None ∅ [] [].

(** Queries and notifications of a client on the chain. *)
Definition memo_session : list (nat * Op) :=
  [(5, OpGetSpatialAccelerationRel 3 1 2); (5, OpNotify (NVelocity 2));
   (5, OpGetTransform 3 1); (5, OpNotify (NTransform 1));
   (5, OpGetLinearVelocity 3 0 2)]%nat.

(** The world poses of A and B on the chain. *)
Definition W_A : Iso :=
  Eval vm_compute in default isoId (value (getWorldTransform 5 3%nat chainStore)).
Definition W_B : Iso :=
  Eval vm_compute in default isoId (value (getWorldTransform 5 2%nat chainStore)).

(** The world pose, velocity and acceleration of C on the chain. *)
Definition W_C : Iso :=
  Eval vm_compute in default isoId (value (getWorldTransform 5 1%nat chainStore)).
Definition V_C : V6 :=
  Eval vm_compute in default v6zero (value (getSpatialVelocity 5 1%nat chainStore)).
Definition A_C : V6 :=
  Eval vm_compute in
    default v6zero (value (getSpatialAcceleration 5 1%nat chainStore)).

(** A frame after [getWorldTransform], [getSpatialVelocity] and
    [getSpatialAcceleration] have cached [T], [V] and [A] in it. *)
Definition settle (T : Iso) (V A : V6) (E : Entity) : Entity :=
  set_acceleration A (set_velocity V (set_transform T E)).

Definition settledA : Entity := settle W_A V_A A_A entityA.
Definition settledB : Entity := settle W_B V_B A_B entityB.
Definition settledC : Entity := settle W_C V_C A_C entityC.

(** The chain with every flag clear and every cache up to date. *)
Definition settledStore : Store :=
  mkStore (<[3%nat := settledA]> (<[2%nat := settledB]>
          (<[1%nat := settledC]> (<[0%nat := entityW]> ∅))))
          (Some 0%nat) ∅ [] [].

(** An entity that is not a frame, suppressed, whose parent is B: it is
    in no child set. *)
Definition entityQ : Entity :=
  mkEntity PlainEntity (Some 2%nat) "Q" false false false true
    isoId v6zero v6zero false ∅ ∅ [] isoId v6zero v6zero v6zero.

(** The chain with the suppressed entity Q (4) under B. *)
Definition quietStore : Store :=
  mkStore (<[4%nat := entityQ]> (heap chainStore)) (Some 0%nat) ∅ [] [].

End ZScenes.

(** ** An instance with binary64 scalars

    The arithmetic of the program: Eigen's [double] matrices and vectors.
    The operations are those of the integer instance, on the kernel's
    IEEE 754 binary64 numbers. *)
Module FSpatial.
Import PrimFloat.
Local Open Scope float_scope.

Record FV3 := mkFV3 { fVx : float; fVy : float; fVz : float }.
Record FM3 := mkFM3 { fR1 : FV3; fR2 : FV3; fR3 : FV3 }.
Record FIso := mkFIso { fLinear : FM3; fTranslation : FV3 }.
Record FV6 := mkFV6 { fAngular : FV3; fLinearPart : FV3 }.

Definition fV3add (a b : FV3) := mkFV3 (fVx a + fVx b) (fVy a + fVy b) (fVz a + fVz b).
Definition fV3sub (a b : FV3) := mkFV3 (fVx a - fVx b) (fVy a - fVy b) (fVz a - fVz b).
Definition fV3opp (a : FV3) := mkFV3 (- fVx a) (- fVy a) (- fVz a).
Definition fDot (a b : FV3) : float := fVx a * fVx b + fVy a * fVy b + fVz a * fVz b.
Definition fV3cross (a b : FV3) :=
  mkFV3 (fVy a * fVz b - fVz a * fVy b)
       (fVz a * fVx b - fVx a * fVz b)
       (fVx a * fVy b - fVy a * fVx b).
Definition fV3zero := mkFV3 0 0 0.

Definition fMulMV (m : FM3) (v : FV3) := mkFV3 (fDot (fR1 m) v) (fDot (fR2 m) v) (fDot (fR3 m) v).
Definition fTranspose (m : FM3) :=
  mkFM3 (mkFV3 (fVx (fR1 m)) (fVx (fR2 m)) (fVx (fR3 m)))
       (mkFV3 (fVy (fR1 m)) (fVy (fR2 m)) (fVy (fR3 m)))
       (mkFV3 (fVz (fR1 m)) (fVz (fR2 m)) (fVz (fR3 m))).
Definition fMulMM (a b : FM3) :=
  let bt := fTranspose b in
  mkFM3 (mkFV3 (fDot (fR1 a) (fR1 bt)) (fDot (fR1 a) (fR2 bt)) (fDot (fR1 a) (fR3 bt)))
       (mkFV3 (fDot (fR2 a) (fR1 bt)) (fDot (fR2 a) (fR2 bt)) (fDot (fR2 a) (fR3 bt)))
       (mkFV3 (fDot (fR3 a) (fR1 bt)) (fDot (fR3 a) (fR2 bt)) (fDot (fR3 a) (fR3 bt))).
Definition fM3id := mkFM3 (mkFV3 1 0 0) (mkFV3 0 1 0) (mkFV3 0 0 1).

Definition fIsoId := mkFIso fM3id fV3zero.
Definition fIsoMul (a b : FIso) :=
  mkFIso (fMulMM (fLinear a) (fLinear b))
        (fV3add (fMulMV (fLinear a) (fTranslation b)) (fTranslation a)).
(** [inverse()] of an isometry: the transposed linear part [Rt], and
    [- Rt * translation]. *)
Definition fIsoInv (a : FIso) :=
  mkFIso (fTranspose (fLinear a))
        (fV3opp (fMulMV (fTranspose (fLinear a)) (fTranslation a))).

Definition fV6zero := mkFV6 fV3zero fV3zero.
Definition fV6add (a b : FV6) :=
  mkFV6 (fV3add (fAngular a) (fAngular b)) (fV3add (fLinearPart a) (fLinearPart b)).
Definition fV6sub (a b : FV6) :=
  mkFV6 (fV3sub (fAngular a) (fAngular b)) (fV3sub (fLinearPart a) (fLinearPart b)).

(** Modelled from the spec: [math::AdR], [math::AdT], [math::AdInvT] and
    [math::ad] are missing; they are the rotational part of the adjoint,
    the adjoint transport, the transport by the inverse transform and the
    Lie bracket, angular components first, as over the integers. *)
Definition fAdR (T : FIso) (V : FV6) :=
  mkFV6 (fMulMV (fLinear T) (fAngular V)) (fMulMV (fLinear T) (fLinearPart V)).
Definition fAdT (T : FIso) (V : FV6) :=
  let w := fMulMV (fLinear T) (fAngular V) in
  mkFV6 w (fV3add (fMulMV (fLinear T) (fLinearPart V)) (fV3cross (fTranslation T) w)).
Definition fAdInvT (T : FIso) (V : FV6) :=
  let rt := fTranspose (fLinear T) in
  mkFV6 (fMulMV rt (fAngular V))
       (fMulMV rt (fV3add (fLinearPart V) (fV3cross (fAngular V) (fTranslation T)))).
Definition fad (X Y : FV6) :=
  mkFV6 (fV3cross (fAngular X) (fAngular Y))
       (fV3add (fV3cross (fAngular X) (fLinearPart Y))
              (fV3cross (fLinearPart X) (fAngular Y))).

Definition spatialF : SpatialAlgebra := {|
  Isometry3d := FIso; Vector3d := FV3; Vector6d := FV6;
  Identity := fIsoId; compose := fIsoMul; inverse := fIsoInv;
  Zero := fV6zero; plus6 := fV6add; minus6 := fV6sub;
  head3 := fAngular; tail3 := fLinearPart; cross := fV3cross; plus3 := fV3add;
  AdR := fAdR; AdT := fAdT; AdInvT := fAdInvT; ad := fad
|}.

(** The rotation by 0.25 rad about z: the binary64 numbers nearest to the
    cosine and the sine. *)
Definition cos025 : float := 0x1.f01549f7deea1p-1.
Definition sin025 : float := 0x1.faaeed4f31577p-3.
Definition turn : FIso :=
  mkFIso (mkFM3 (mkFV3 cos025 (- sin025) 0) (mkFV3 sin025 cos025 0) (mkFV3 0 0 1))
        fV3zero.
Definition slide : FIso := mkFIso fM3id (mkFV3 1 2 3).

Definition fFrame (parent : option Id) (name : string) (rel : FIso) (relV : FV6)
  : Entity (SA := spatialF) :=
  mkEntity (SA := spatialF) FrameKind parent name true true true false
    fIsoId fV6zero fV6zero false ∅ ∅ [] rel relV fV6zero fV6zero.

Definition fWorldEntity (w : Id) (children : gset Id) : Entity (SA := spatialF) :=
  mkEntity (SA := spatialF) FrameKind (Some w) "World" false false false true
    fIsoId fV6zero fV6zero true children children [] fIsoId fV6zero fV6zero fV6zero.

(** World (0) <- F (1), a dirty frame that spins about z and moves. *)
Definition oneFrame (rel : FIso) : Store (SA := spatialF) :=
  mkStore (SA := spatialF)
    (<[1%nat := fFrame (Some 0%nat) "F" rel (mkFV6 (mkFV3 0 0 1) (mkFV3 1 2 3))]>
    (<[0%nat := fWorldEntity 0%nat {[1%nat]}]> ∅))
    (Some 0%nat) ∅ [] [].
Definition turnStore := oneFrame turn.
Definition slideStore := oneFrame slide.

(** What the queries return for F in the two stores. *)
Definition turnW : FIso :=
  Eval vm_compute in
    default fIsoId (value (getWorldTransform (SA := spatialF) 5 1%nat turnStore)).
Definition turnV : FV6 :=
  Eval vm_compute in
    default fV6zero (value (getSpatialVelocity (SA := spatialF) 5 1%nat turnStore)).
Definition turnBack : FIso :=
  Eval vm_compute in
    default fIsoId (value (getTransform (SA := spatialF) 5 0%nat 1%nat turnStore)).
Definition turnSelf : FIso :=
  Eval vm_compute in
    default fIsoId (value (getTransform (SA := spatialF) 5 1%nat 1%nat turnStore)).
Definition turnSelfVelocity : FV6 :=
  Eval vm_compute in
    default fV6zero
      (value (getSpatialVelocity_rel (SA := spatialF) 5 1%nat 1%nat 0%nat
                turnStore)).
Definition slideW : FIso :=
  Eval vm_compute in
    default fIsoId (value (getWorldTransform (SA := spatialF) 5 1%nat slideStore)).
Definition slideV : FV6 :=
  Eval vm_compute in
    default fV6zero (value (getSpatialVelocity (SA := spatialF) 5 1%nat slideStore)).

End FSpatial.

(** ** Reasoning about computations *)
Section Monad.
Context `{SA : SpatialAlgebra}.

Lemma bind_Ok {A B} (m : M A) (k : A → M B) s b s' :
  bind m k s = Ok b s' ↔ ∃ a s1, m s = Ok a s1 ∧ k a s1 = Ok b s'.
Proof.
  unfold bind. split.
  - destruct (m s) as [a s1|e]; [eauto | discriminate].
  - intros (a & s1 & -> & H). exact H.
Qed.

Lemma bind_run {A B} (m : M A) (k : A → M B) s a s1 :
  m s = Ok a s1 → bind m k s = k a s1.
Proof. unfold bind. by intros ->. Qed.

Lemma ret_Ok {A} (a b : A) s s' : ret a s = Ok b s' ↔ a = b ∧ s = s'.
Proof. unfold ret. split; [by intros [= -> ->] | by intros [-> ->]]. Qed.

Lemma deref_Ok p s E s' :
  deref p s = Ok E s' ↔ heap s !! p = Some E ∧ s' = s.
Proof.
  unfold deref. destruct (heap s !! p); split; try discriminate.
  - by intros [= -> ->].
  - by intros [[= ->] ->].
  - by intros [? _].
Qed.

Lemma deref_run p s E : heap s !! p = Some E → deref p s = Ok E s.
Proof. by intros; apply deref_Ok. Qed.

Lemma nonnull_Ok o p s s' : nonnull o s = Ok p s' ↔ o = Some p ∧ s' = s.
Proof.
  destruct o; simpl; unfold ret, fail; split; try discriminate.
  - by intros [= -> ->].
  - by intros [[= ->] ->].
  - by intros [? _].
Qed.

Lemma isWorld_Ok p s b s' :
  isWorld p s = Ok b s' ↔ ∃ E, heap s !! p = Some E ∧ b = mAmWorld E ∧ s' = s.
Proof.
  unfold isWorld. rewrite bind_Ok. split.
  - intros (E & s1 & [H ->]%deref_Ok & [<- <-]%ret_Ok). eauto.
  - intros (E & H & -> & ->). exists E, s. by rewrite deref_Ok, ret_Ok.
Qed.

Lemma getParentFrame_Ok this s p s' :
  getParentFrame this s = Ok p s' ↔
  ∃ E, heap s !! this = Some E ∧ mParentFrame E = Some p ∧ s' = s.
Proof.
  unfold getParentFrame. rewrite bind_Ok. split.
  - intros (E & s1 & [H ->]%deref_Ok & [H' ->]%nonnull_Ok). eauto.
  - intros (E & H & H' & ->). exists E, s. by rewrite deref_Ok, nonnull_Ok.
Qed.

Lemma modify_Ok p f s u s' :
  modify p f s = Ok u s' ↔
  ∃ E, heap s !! p = Some E ∧ s' = set_heap (<[p := f E]> (heap s)) s.
Proof.
  unfold modify. destruct (heap s !! p) as [E|]; split; try discriminate.
  - intros [= <- <-]. eauto.
  - intros (E' & [= <-] & ->). by destruct u.
  - by intros (? & ? & _).
Qed.

Lemma getRelativeTransform_Ok this s T s' :
  getRelativeTransform this s = Ok T s' ↔
  ∃ E, heap s !! this = Some E ∧ T = relativeTransform E ∧ s' = bump this s.
Proof.
  unfold getRelativeTransform.
  destruct (heap s !! this) as [E|]; split; try discriminate.
  - intros [= <- <-]. eauto.
  - by intros (E' & [= <-] & -> & ->).
  - by intros (? & ? & _).
Qed.

Lemma calls_bump_eq this s : calls (bump this s) this = S (calls s this).
Proof. unfold calls, bump; simpl. by rewrite lookup_insert_eq. Qed.

Lemma calls_bump_ne this x s : this ≠ x → calls (bump this s) x = calls s x.
Proof. intros. unfold calls, bump; simpl. by rewrite lookup_insert_ne. Qed.

Lemma calls_set_heap h s x : calls (set_heap h s) x = calls s x.
Proof. done. Qed.

Lemma primitive_Ok (get : Entity → Vector6d) this s V s' :
  (do E <- deref this; ret (get E)) s = Ok V s' ↔
  ∃ E, heap s !! this = Some E ∧ V = get E ∧ s' = s.
Proof.
  rewrite bind_Ok. split.
  - intros (E & s1 & [H ->]%deref_Ok & [<- <-]%ret_Ok). eauto.
  - intros (E & H & -> & ->). exists E, s. by rewrite deref_Ok, ret_Ok.
Qed.

Lemma value_Ok_inv {A} (r : Result A) (a : A) :
  value r = Some a → ∃ s, r = Ok a s.
Proof. destruct r as [b s|e]; [|done]. intros [= ->]. by exists s. Qed.

Lemma value_returns {A} (g : nat → M A) (n : nat) (s : Store) (a : A) :
  value (g n s) = Some a → returns g s a.
Proof. intros (s' & H)%value_Ok_inv. by exists n, s'. Qed.

End Monad.

(** Decompose a hypothesis stating that a computation returned. *)
Ltac minv :=
  repeat match goal with
  | H : Ok _ _ = Ok _ _ |- _ => injection H as ??; subst
  | H : Fail _ = Ok _ _ |- _ => discriminate H
  | H : fail _ _ = Ok _ _ |- _ => discriminate H
  | H : ret _ _ = Ok _ _ |- _ => apply ret_Ok in H; destruct H as [??]; subst
  | H : deref _ _ = Ok _ _ |- _ => apply deref_Ok in H; destruct H as [H ?]; subst
  | H : nonnull _ _ = Ok _ _ |- _ => apply nonnull_Ok in H; destruct H as [H ?]; subst
  | H : isWorld _ _ = Ok _ _ |- _ =>
      apply isWorld_Ok in H; destruct H as (? & H & ? & ?); subst
  | H : getParentFrame _ _ = Ok _ _ |- _ =>
      apply getParentFrame_Ok in H; destruct H as (? & H & ? & ?); subst
  | H : getRelativeTransform _ _ = Ok _ _ |- _ =>
      apply getRelativeTransform_Ok in H; destruct H as (? & H & ? & ?); subst
  | H : getRelativeSpatialVelocity _ _ = Ok _ _ |- _ =>
      apply primitive_Ok in H; destruct H as (? & H & ? & ?); subst
  | H : getPrimaryRelativeAcceleration _ _ = Ok _ _ |- _ =>
      apply primitive_Ok in H; destruct H as (? & H & ? & ?); subst
  | H : getPartialAcceleration _ _ = Ok _ _ |- _ =>
      apply primitive_Ok in H; destruct H as (? & H & ? & ?); subst
  | H : modify _ _ _ = Ok _ _ |- _ =>
      apply modify_Ok in H; destruct H as (? & H & ?); subst
  | H : bind _ _ _ = Ok _ _ |- _ =>
      apply bind_Ok in H; destruct H as (? & ? & ? & H)
  end.

(** ** The cached world pose *)
Section WorldTransform.
Context `{SA : SpatialAlgebra}.
Implicit Types (s : Store) (E : Entity) (T : Isometry3d).

(** More fuel does not change a result. *)
Lemma getWorldTransform_mono n m this s T s' :
  getWorldTransform n this s = Ok T s' → n ≤ m →
  getWorldTransform m this s = Ok T s'.
Proof.
  revert m this s T s'. induction n as [|n IH]; intros m this s T s' H Hle.
  - discriminate.
  - destruct m as [|m]; [lia|]. simpl in *.
    apply bind_Ok in H as (E & s0 & [HE ->]%deref_Ok & H).
    rewrite (bind_run _ _ _ _ _ (deref_run _ _ _ HE)).
    destruct (mAmWorld E); [done|].
    destruct (mNeedTransformUpdate E); [|done].
    apply bind_Ok in H as (p & s0 & Hp & H).
    rewrite (bind_run _ _ _ _ _ Hp).
    apply nonnull_Ok in Hp as [_ ->].
    apply bind_Ok in H as (Tp & s1 & Hrec & H).
    apply IH with (m := m) in Hrec; [|lia].
    by rewrite (bind_run _ _ _ _ _ Hrec).
Qed.

(** The objects stay where they are, and their primitives and parents
    are not written. *)
Lemma getWorldTransform_heap n this s T s' :
  getWorldTransform n this s = Ok T s' →
  ∀ x E, heap s !! x = Some E →
    ∃ E', heap s' !! x = Some E' ∧
          relativeTransform E' = relativeTransform E ∧
          mParentFrame E' = mParentFrame E ∧ mAmWorld E' = mAmWorld E.
Proof.
  revert this s T s'. induction n as [|n IH]; intros this s T s' H x Ex Hx.
  - discriminate.
  - simpl in H. minv.
    destruct (mAmWorld _); minv; [eauto|].
    destruct (mNeedTransformUpdate _); minv; [|eauto].
    match goal with H : getWorldTransform _ _ _ = _ |- _ =>
      destruct (IH _ _ _ _ H x Ex Hx) as (E1 & HE1 & ? & ? & ?) end.
    simpl in *. destruct (decide (this = x)) as [->|Hne].
    + rewrite lookup_insert_eq. eexists; split; [done|].
      simplify_eq. simpl. eauto.
    + rewrite lookup_insert_ne by done. eauto.
Qed.

(** A frame whose counter moved was entered, and its own call returned
    with less fuel. *)
Lemma getWorldTransform_visited n g s T s' x :
  getWorldTransform n g s = Ok T s' → calls s' x ≠ calls s x →
  ∃ m T1 s1, m < n ∧ getWorldTransform (S m) x s = Ok T1 s1.
Proof.
  revert g s T s'. induction n as [|n IH]; intros g s T s' H Hc.
  - discriminate.
  - pose proof H as Hfull. simpl in H. minv.
    destruct (mAmWorld _); minv; [done|].
    destruct (mNeedTransformUpdate _); minv; [|done].
    rewrite calls_set_heap in Hc.
    destruct (decide (g = x)) as [->|Hne].
    + exists n. eauto with lia.
    + rewrite calls_bump_ne in Hc by done.
      match goal with H : getWorldTransform _ _ _ = _ |- _ =>
        destruct (IH _ _ _ _ H Hc) as (m & T1 & s1 & ? & ?) end.
      exists m. eauto with lia.
Qed.

(** While a dirty frame waits for its parent's pose, the parent's call
    does not come back to it: a call that did would never return. *)
Lemma getWorldTransform_parent_skips n this s E p Tp sp :
  heap s !! this = Some E → mAmWorld E = false →
  mNeedTransformUpdate E = true → mParentFrame E = Some p →
  getWorldTransform n p s = Ok Tp sp → calls sp this = calls s this.
Proof.
  intros HE Hw Hd Hp. revert Tp sp.
  induction n as [n IH] using lt_wf_ind. intros Tp sp H.
  destruct (decide (calls sp this = calls s this)) as [|Hc]; [done|].
  destruct (getWorldTransform_visited _ _ _ _ _ _ H Hc) as (m & T1 & s1 & Hm & H1).
  simpl in H1. minv. simplify_eq. rewrite Hw, Hd in H1. minv. simplify_eq.
  match goal with H' : getWorldTransform m _ _ = _ |- _ =>
    pose proof (IH m Hm _ _ H') as Hcalls;
    apply getWorldTransform_mono with (m := n) in H'; [|lia] end.
  congruence.
Qed.

(** A frame whose flag is clear answers from its cache and changes
    nothing. *)
Lemma getWorldTransform_clean m this s E :
  heap s !! this = Some E → mNeedTransformUpdate E = false →
  getWorldTransform (S m) this s = Ok (mWorldTransform E) s.
Proof.
  intros HE Hd. simpl. rewrite (bind_run _ _ _ _ _ (deref_run _ _ _ HE)).
  rewrite Hd. by destruct (mAmWorld E).
Qed.

(** C2. A dirty frame that is not the World recomputes its pose as its
    parent's pose composed with its relative transform, stores it and
    clears the flag; the frame's [getRelativeTransform] is called once,
    and a further call returns the stored pose without changing the state,
    so without calling [getRelativeTransform] again. *)
Theorem getWorldTransform_recomputes_once n this s E p Tp sp :
  heap s !! this = Some E → mAmWorld E = false →
  mNeedTransformUpdate E = true → mParentFrame E = Some p →
  getWorldTransform n p s = Ok Tp sp →
  ∃ s1 E1,
    getWorldTransform (S n) this s = Ok (Tp ∘∘ relativeTransform E) s1 ∧
    heap s1 !! this = Some E1 ∧
    mNeedTransformUpdate E1 = false ∧
    mWorldTransform E1 = Tp ∘∘ relativeTransform E ∧
    calls s1 this = S (calls s this) ∧
    (∀ m, getWorldTransform (S m) this s1 = Ok (Tp ∘∘ relativeTransform E) s1) ∧
    (∀ m s2 T2, getWorldTransform (S m) this s1 = Ok T2 s2 →
       calls s2 this = S (calls s this)).
Proof.
  intros HE Hw Hd Hp H.
  destruct (getWorldTransform_heap _ _ _ _ _ H _ _ HE) as (E' & HE' & Hrel & _).
  pose proof (getWorldTransform_parent_skips _ _ _ _ _ _ _ HE Hw Hd Hp H) as Hc.
  set (T := Tp ∘∘ relativeTransform E).
  set (s1 := set_heap (<[this := set_transform T E']> (heap sp)) (bump this sp)).
  assert (Hrun : getWorldTransform (S n) this s = Ok T s1).
  { simpl. rewrite (bind_run _ _ _ _ _ (deref_run _ _ _ HE)), Hw, Hd, Hp. simpl.
    unfold bind at 1. simpl. rewrite (bind_run _ _ _ _ _ H).
    unfold bind, getRelativeTransform, modify, ret. simpl.
    rewrite HE'. simpl. rewrite HE'. by rewrite Hrel. }
  assert (H1 : heap s1 !! this = Some (set_transform T E')).
  { subst s1. simpl. by rewrite lookup_insert_eq. }
  assert (Hcalls : calls s1 this = S (calls s this)).
  { subst s1. by rewrite calls_set_heap, calls_bump_eq, Hc. }
  assert (Hagain : ∀ m, getWorldTransform (S m) this s1 = Ok T s1).
  { intros m. by rewrite (getWorldTransform_clean m _ _ _ H1). }
  exists s1, (set_transform T E'). repeat split; try done.
  intros m s2 T2 H2. rewrite Hagain in H2. by simplify_eq.
Qed.

End WorldTransform.

(** ** Caching is transparent *)
Section Caching.
Context `{SA : SpatialAlgebra}.
Implicit Types (s : Store) (E : Entity) (Q : Quantity).

Lemma structure_fields E E' :
  same_structure E E' →
  mAmWorld E' = mAmWorld E ∧ mParentFrame E' = mParentFrame E ∧
  relativeTransform E' = relativeTransform E ∧
  relativeSpatialVelocity E' = relativeSpatialVelocity E ∧
  primaryRelativeAcceleration E' = primaryRelativeAcceleration E ∧
  partialAcceleration E' = partialAcceleration E.
Proof. unfold same_structure, structure. intros [=]. by repeat split. Qed.

Lemma same_structure_refl E : same_structure E E.
Proof. done. Qed.

Lemma same_structure_trans E1 E2 E3 :
  same_structure E1 E2 → same_structure E2 E3 → same_structure E1 E3.
Proof. unfold same_structure. congruence. Qed.

Lemma structural_transformQ : structural transformQ.
Proof.
  intros E E' (_ & _ & H & _)%structure_fields. simpl. by rewrite H.
Qed.

Lemma structural_velocityQ : structural velocityQ.
Proof.
  intros E E' (_ & _ & H1 & H2 & _)%structure_fields. simpl.
  by rewrite H1, H2.
Qed.

Lemma structural_accelerationQ : structural accelerationQ.
Proof.
  intros E E' (_ & _ & H1 & _ & H2 & H3)%structure_fields. simpl.
  by rewrite H1, H2, H3.
Qed.

Lemma valueOf_mono Q n m s f v :
  valueOf Q n s f = Some v → n ≤ m → valueOf Q m s f = Some v.
Proof.
  revert m f v. induction n as [|n IH]; intros m f v H Hle; [discriminate|].
  destruct m as [|m]; [lia|]. simpl in *.
  destruct (heap s !! f) as [E|]; [|done].
  destruct (mAmWorld E); [done|]. destruct (qDirty Q E); [|done].
  destruct (mParentFrame E) as [p|]; [|done].
  destruct (valueOf Q n s p) as [vp|] eqn:Hp; [|done].
  by rewrite (IH m p vp Hp) by lia.
Qed.

Lemma valueOf_det Q n m s f v v' :
  valueOf Q n s f = Some v → valueOf Q m s f = Some v' → v = v'.
Proof.
  intros H H'.
  apply valueOf_mono with (m := n `max` m) in H; [|lia].
  apply valueOf_mono with (m := n `max` m) in H'; [|lia]. congruence.
Qed.

Lemma extendsQ_lookup Q s s' p E :
  extendsQ Q s s' → heap s !! p = Some E →
  ∃ E', heap s' !! p = Some E' ∧ same_structure E E' ∧ cached Q s p E E'.
Proof.
  intros H HE. specialize (H p). rewrite HE in H.
  destruct (heap s' !! p) as [E'|]; [|done]. eauto.
Qed.

Lemma extendsQ_lookup_inv Q s s' p E' :
  extendsQ Q s s' → heap s' !! p = Some E' →
  ∃ E, heap s !! p = Some E ∧ same_structure E E' ∧ cached Q s p E E'.
Proof.
  intros H HE. specialize (H p). rewrite HE in H.
  destruct (heap s !! p) as [E|]; [|done]. eauto.
Qed.

(** Values survive caching, with the same fuel. *)
Lemma valueOf_extends Q n s s' f v :
  structural Q → extendsQ Q s s' →
  valueOf Q n s f = Some v → valueOf Q n s' f = Some v.
Proof.
  intros HQ Hext. revert f v. induction n as [|n IH]; intros f v H; [discriminate|].
  pose proof H as Hfull. simpl in H |- *.
  destruct (heap s !! f) as [E|] eqn:HE; [|done].
  destruct (extendsQ_lookup _ _ _ _ _ Hext HE) as (E' & -> & Hst & Hc).
  pose proof (structure_fields _ _ Hst) as (-> & -> & _).
  destruct (mAmWorld E) eqn:Hw.
  { destruct Hc as [[_ ->]|(? & _)]; [done|congruence]. }
  destruct Hc as [[-> ->]|(_ & Hd & -> & k & Hk)].
  - destruct (qDirty Q E); [|done].
    destruct (mParentFrame E) as [p|]; [|done].
    destruct (valueOf Q n s p) as [vp|] eqn:Hp; [|done].
    rewrite (IH p vp Hp). by rewrite (HQ _ _ Hst).
  - by rewrite (valueOf_det _ _ _ _ _ _ _ Hk Hfull).
Qed.

(** Conversely, a value of the later state was already denoted before. *)
Lemma valueOf_extends_back Q n s s' f v :
  structural Q → extendsQ Q s s' →
  valueOf Q n s' f = Some v → ∃ m, valueOf Q m s f = Some v.
Proof.
  intros HQ Hext. revert f v. induction n as [|n IH]; intros f v H; [discriminate|].
  simpl in H.
  destruct (heap s' !! f) as [E'|] eqn:HE'; [|done].
  destruct (extendsQ_lookup_inv _ _ _ _ _ Hext HE') as (E & HE & Hst & Hc).
  pose proof (structure_fields _ _ Hst) as (Hw & Hp & _).
  rewrite Hw, Hp in H.
  destruct (mAmWorld E) eqn:HwE.
  { exists 1. simpl. rewrite HE, HwE.
    destruct Hc as [[_ <-]|(? & _)]; [done|congruence]. }
  destruct Hc as [[Hd Hc]|(_ & Hd & Hd' & k & Hk)].
  - rewrite Hd, Hc in H. destruct (qDirty Q E) eqn:HdE.
    + destruct (mParentFrame E) as [p|] eqn:HpE; [|done].
      destruct (valueOf Q n s' p) as [vp|] eqn:Hvp; [|done].
      destruct (IH p vp Hvp) as (m & Hm). exists (S m). simpl.
      rewrite HE, HwE, HdE, HpE, Hm. by rewrite <- (HQ _ _ Hst).
    + exists 1. simpl. by rewrite HE, HwE, HdE.
  - rewrite Hd' in H. exists k. congruence.
Qed.

Lemma extendsQ_refl Q s : extendsQ Q s s.
Proof. intros p. destruct (heap s !! p); [|done]. split; [done|]. by left. Qed.

Lemma extendsQ_trans Q s1 s2 s3 :
  structural Q → extendsQ Q s1 s2 → extendsQ Q s2 s3 → extendsQ Q s1 s3.
Proof.
  intros HQ H12 H23 p. pose proof (H12 p) as H1. pose proof (H23 p) as H2.
  destruct (heap s1 !! p) as [E1|], (heap s2 !! p) as [E2|],
    (heap s3 !! p) as [E3|]; try done.
  destruct H1 as [Hst1 Hc1], H2 as [Hst2 Hc2].
  split; [by eapply same_structure_trans|].
  pose proof (structure_fields _ _ Hst1) as (Hw & _).
  destruct Hc1 as [[Hd1 Hv1]|(Hw1 & Hd1 & Hd1' & k & Hk)],
    Hc2 as [[Hd2 Hv2]|(Hw2 & Hd2 & Hd2' & k' & Hk')].
  - left. split; congruence.
  - right. repeat split; try congruence.
    by apply (valueOf_extends_back _ _ _ _ _ _ HQ H12 Hk').
  - right. repeat split; try congruence. exists k. congruence.
  - congruence.
Qed.

Lemma extends_refl s : extends s s.
Proof. repeat split; apply extendsQ_refl. Qed.

Lemma extends_trans s1 s2 s3 : extends s1 s2 → extends s2 s3 → extends s1 s3.
Proof.
  intros (?&?&?) (?&?&?).
  repeat split; eapply extendsQ_trans;
    eauto using structural_transformQ, structural_velocityQ,
                structural_accelerationQ.
Qed.

Lemma valueOf_heap Q n s s' f :
  heap s' = heap s → valueOf Q n s' f = valueOf Q n s f.
Proof.
  intros Hh. revert f. induction n as [|n IH]; intros f; [done|].
  simpl. rewrite Hh. destruct (heap s !! f) as [E|]; [|done].
  destruct (mAmWorld E), (qDirty Q E), (mParentFrame E); try done.
  by rewrite IH.
Qed.

Lemma extends_heap s0 s s2 : extends s0 s → heap s2 = heap s → extends s0 s2.
Proof.
  intros (H1 & H2 & H3) Hh.
  repeat split; intros p; [specialize (H1 p)|specialize (H2 p)|specialize (H3 p)];
    by rewrite Hh.
Qed.

Lemma extends_lookup s s' p E :
  extends s s' → heap s !! p = Some E →
  ∃ E', heap s' !! p = Some E' ∧ same_structure E E' ∧
        cached transformQ s p E E' ∧ cached velocityQ s p E E' ∧
        cached accelerationQ s p E E'.
Proof.
  intros (H1 & H2 & H3) HE.
  destruct (extendsQ_lookup _ _ _ _ _ H1 HE) as (E' & HE' & Hst & Hc1).
  destruct (extendsQ_lookup _ _ _ _ _ H2 HE) as (E2 & HE2 & _ & Hc2).
  destruct (extendsQ_lookup _ _ _ _ _ H3 HE) as (E3 & HE3 & _ & Hc3).
  simplify_eq. exists E'. by repeat split.
Qed.

(** Writing one object of a later state. *)
Lemma extends_update s0 s1 s' f E E1 E1' :
  extends s0 s1 → heap s0 !! f = Some E → heap s1 !! f = Some E1 →
  heap s' = <[f := E1']> (heap s1) →
  same_structure E1 E1' →
  cached transformQ s0 f E E1' → cached velocityQ s0 f E E1' →
  cached accelerationQ s0 f E E1' →
  extends s0 s'.
Proof.
  intros Hext HE HE1 Hh Hst Hc1 Hc2 Hc3.
  destruct (extends_lookup _ _ _ _ Hext HE) as (E1x & ? & Hst1 & _). simplify_eq.
  destruct Hext as (H1 & H2 & H3).
  repeat split; intros p;
    [specialize (H1 p)|specialize (H2 p)|specialize (H3 p)];
    rewrite Hh; (destruct (decide (f = p)) as [<-|Hne];
      [rewrite lookup_insert_eq, HE; split; [by eapply same_structure_trans|done]
      |by rewrite lookup_insert_ne]).
Qed.

(** *** The three cached getters *)

Lemma getWorldTransform_sound n f s0 s T :
  extends s0 s → valueOf transformQ n s0 f = Some T →
  ∃ s', getWorldTransform n f s = Ok T s' ∧ extends s0 s'.
Proof.
  revert f s T. induction n as [|n IH]; intros f s T Hext H; [discriminate|].
  pose proof H as Hfull. simpl in H |- *.
  destruct (heap s0 !! f) as [E|] eqn:HE; [|done].
  destruct (extends_lookup _ _ _ _ Hext HE) as (Es & HEs & Hst & Hc & Hcv & Hca).
  pose proof (structure_fields _ _ Hst) as (Hw & Hp & Hrel & _).
  rewrite (bind_run _ _ _ _ _ (deref_run _ _ _ HEs)), Hw.
  destruct (mAmWorld E) eqn:HwE.
  { destruct Hc as [[_ Hc]|(? & _)]; [|congruence].
    cbn [qDirty qCache qT transformQ] in *. exists s. unfold ret.
    split; [congruence|done]. }
  destruct Hc as [[Hd Hc]|(_ & Hd & Hd' & k & Hk)];
    cbn [qDirty qCache qT transformQ] in *.
  - rewrite Hd, Hc. destruct (mNeedTransformUpdate E) eqn:HdE.
    2:{ exists s. unfold ret. split; [congruence|done]. }
    rewrite Hp. destruct (mParentFrame E) as [p|]; [|done]. simpl.
    destruct (valueOf transformQ n s0 p) as [Tp|] eqn:HTp; [|done].
    simplify_eq.
    destruct (IH p s Tp Hext HTp) as (s1 & Hrun & Hext1).
    unfold bind at 1. simpl. rewrite (bind_run _ _ _ _ _ Hrun).
    destruct (extends_lookup _ _ _ _ Hext1 HE) as (E1 & HE1 & Hst1 & _ & Hcv1 & Hca1).
    pose proof (structure_fields _ _ Hst1) as (_ & _ & Hrel1 & _).
    unfold bind, getRelativeTransform, modify, ret. simpl.
    rewrite HE1. simpl. rewrite HE1, Hrel1. eexists; split; [done|].
    eapply extends_update; eauto; [reflexivity|].
    right. repeat split; try done. exists (S n). exact Hfull.
  - rewrite Hd'. exists s. split; [|done].
    unfold ret. by rewrite (valueOf_det transformQ _ _ _ _ _ _ Hk Hfull).
Qed.

Lemma getWorldTransform_complete n f s T s' :
  getWorldTransform n f s = Ok T s' → valueOf transformQ n s f = Some T.
Proof.
  revert f s T s'. induction n as [|n IH]; intros f s T s' H; [discriminate|].
  simpl in H |- *.
  apply bind_Ok in H as (E & s0 & [HE ->]%deref_Ok & H). rewrite HE.
  destruct (mAmWorld E). { by apply ret_Ok in H as [-> _]. }
  destruct (mNeedTransformUpdate E). 2:{ by apply ret_Ok in H as [-> _]. }
  apply bind_Ok in H as (p & s0 & [Hp ->]%nonnull_Ok & H). rewrite Hp.
  apply bind_Ok in H as (Tp & s1 & Hrec & H).
  rewrite (IH _ _ _ _ Hrec).
  destruct (getWorldTransform_heap _ _ _ _ _ Hrec f E HE) as (E1 & HE1 & Hrel & _).
  minv. simplify_eq. by rewrite Hrel.
Qed.

Lemma getSpatialVelocity_sound n f s0 s V :
  extends s0 s → valueOf velocityQ n s0 f = Some V →
  ∃ s', getSpatialVelocity n f s = Ok V s' ∧ extends s0 s'.
Proof.
  revert f s V. induction n as [|n IH]; intros f s V Hext H; [discriminate|].
  pose proof H as Hfull. simpl in H |- *.
  destruct (heap s0 !! f) as [E|] eqn:HE; [|done].
  destruct (extends_lookup _ _ _ _ Hext HE) as (Es & HEs & Hst & Hct & Hc & Hca).
  pose proof (structure_fields _ _ Hst) as (Hw & Hp & Hrel & _).
  rewrite (bind_run _ _ _ _ _ (deref_run _ _ _ HEs)), Hw.
  destruct (mAmWorld E) eqn:HwE.
  { destruct Hc as [[_ Hc]|(? & _)]; [|congruence].
    cbn [qDirty qCache qT velocityQ] in *. exists s. unfold ret.
    split; [congruence|done]. }
  destruct Hc as [[Hd Hc]|(_ & Hd & Hd' & k & Hk)];
    cbn [qDirty qCache qT velocityQ] in *.
  - rewrite Hd, Hc. destruct (mNeedVelocityUpdate E) eqn:HdE.
    2:{ exists s. unfold ret. split; [congruence|done]. }
    destruct (mParentFrame E) as [p|] eqn:HpE; [|done].
    destruct (valueOf velocityQ n s0 p) as [Vp|] eqn:HVp; [|done].
    simplify_eq.
    assert (Hextb : extends s0 (bump f s)) by by eapply extends_heap.
    destruct (IH p _ Vp Hextb HVp) as (s1 & Hrun & Hext1).
    destruct (extends_lookup _ _ _ _ Hext1 HE) as (E1 & HE1 & Hst1 & Hct1 & _ & Hca1).
    pose proof (structure_fields _ _ Hst1) as (_ & _ & _ & Hrv1 & _).
    assert (Hrt : getRelativeTransform f s = Ok (relativeTransform Es) (bump f s))
      by (apply getRelativeTransform_Ok; eauto).
    rewrite (bind_run _ _ _ _ _ Hrt).
    assert (Hgp : getParentFrame f (bump f s) = Ok p (bump f s))
      by (apply getParentFrame_Ok; exists Es; by rewrite Hp).
    rewrite (bind_run _ _ _ _ _ Hgp), (bind_run _ _ _ _ _ Hrun).
    assert (Hgv : getRelativeSpatialVelocity f s1 = Ok (relativeSpatialVelocity E1) s1)
      by (apply primitive_Ok; eauto).
    rewrite (bind_run _ _ _ _ _ Hgv).
    unfold bind, modify, ret. rewrite HE1, Hrel, Hrv1.
    eexists; split; [done|].
    eapply extends_update; eauto; [reflexivity|].
    right. repeat split; try done. exists (S n). exact Hfull.
  - rewrite Hd'. exists s. split; [|done].
    unfold ret. by rewrite (valueOf_det velocityQ _ _ _ _ _ _ Hk Hfull).
Qed.

Lemma getSpatialVelocity_complete n f s V s' :
  getSpatialVelocity n f s = Ok V s' → valueOf velocityQ n s f = Some V.
Proof.
  revert f s V s'. induction n as [|n IH]; intros f s V s' H; [discriminate|].
  simpl in H |- *.
  apply bind_Ok in H as (E & s0 & [HE ->]%deref_Ok & H). rewrite HE.
  destruct (mAmWorld E). { by apply ret_Ok in H as [-> _]. }
  destruct (mNeedVelocityUpdate E). 2:{ by apply ret_Ok in H as [-> _]. }
  apply bind_Ok in H as (Tr & s0 & (E0 & HE0 & -> & ->)%getRelativeTransform_Ok & H).
  apply bind_Ok in H as (p & s0 & (E0' & HE0' & Hp & ->)%getParentFrame_Ok & H).
  apply bind_Ok in H as (Vp & s1 & Hrec & H).
  simpl in HE0'. simplify_eq. rewrite Hp.
  pose proof (IH _ _ _ _ Hrec) as Hv.
  rewrite (valueOf_heap velocityQ n s (bump f s)) in Hv by done. rewrite Hv.
  destruct (getSpatialVelocity_sound n p s s Vp (extends_refl s) Hv)
    as (s1' & Hrun & Hext).
  destruct (extends_lookup _ _ _ _ Hext HE) as (E1 & HE1 & Hst1 & _).
  pose proof (structure_fields _ _ Hst1) as (_ & _ & _ & Hrv1 & _).
  destruct (getSpatialVelocity_sound n p s (bump f s) Vp) as (s1b & Hrunb & Hextb);
    [by eapply extends_heap; [apply extends_refl|]|done|].
  rewrite Hrunb in Hrec. simplify_eq.
  destruct (extends_lookup _ _ _ _ Hextb HE) as (E1b & HE1b & Hst1b & _).
  pose proof (structure_fields _ _ Hst1b) as (_ & _ & _ & Hrv1b & _).
  minv. simplify_eq. by rewrite Hrv1b.
Qed.

Lemma getSpatialAcceleration_sound n f s0 s V :
  extends s0 s → valueOf accelerationQ n s0 f = Some V →
  ∃ s', getSpatialAcceleration n f s = Ok V s' ∧ extends s0 s'.
Proof.
  revert f s V. induction n as [|n IH]; intros f s V Hext H; [discriminate|].
  pose proof H as Hfull. simpl in H |- *.
  destruct (heap s0 !! f) as [E|] eqn:HE; [|done].
  destruct (extends_lookup _ _ _ _ Hext HE) as (Es & HEs & Hst & Hct & Hcv & Hc).
  pose proof (structure_fields _ _ Hst) as (Hw & Hp & Hrel & _).
  rewrite (bind_run _ _ _ _ _ (deref_run _ _ _ HEs)), Hw.
  destruct (mAmWorld E) eqn:HwE.
  { destruct Hc as [[_ Hc]|(? & _)]; [|congruence].
    cbn [qDirty qCache qT accelerationQ] in *. exists s. unfold ret.
    split; [congruence|done]. }
  destruct Hc as [[Hd Hc]|(_ & Hd & Hd' & k & Hk)];
    cbn [qDirty qCache qT accelerationQ] in *.
  - rewrite Hd, Hc. destruct (mNeedAccelerationUpdate E) eqn:HdE.
    2:{ exists s. unfold ret. split; [congruence|done]. }
    destruct (mParentFrame E) as [p|] eqn:HpE; [|done].
    destruct (valueOf accelerationQ n s0 p) as [Vp|] eqn:HVp; [|done].
    simplify_eq.
    assert (Hextb : extends s0 (bump f s)) by by eapply extends_heap.
    destruct (IH p _ Vp Hextb HVp) as (s1 & Hrun & Hext1).
    destruct (extends_lookup _ _ _ _ Hext1 HE) as (E1 & HE1 & Hst1 & Hct1 & Hcv1 & _).
    pose proof (structure_fields _ _ Hst1) as (_ & _ & _ & _ & Hpa1 & Hpp1).
    assert (Hrt : getRelativeTransform f s = Ok (relativeTransform Es) (bump f s))
      by (apply getRelativeTransform_Ok; eauto).
    rewrite (bind_run _ _ _ _ _ Hrt).
    assert (Hgp : getParentFrame f (bump f s) = Ok p (bump f s))
      by (apply getParentFrame_Ok; exists Es; by rewrite Hp).
    rewrite (bind_run _ _ _ _ _ Hgp), (bind_run _ _ _ _ _ Hrun).
    assert (Hga : getPrimaryRelativeAcceleration f s1
                  = Ok (primaryRelativeAcceleration E1) s1)
      by (apply primitive_Ok; eauto).
    assert (Hgp2 : getPartialAcceleration f s1 = Ok (partialAcceleration E1) s1)
      by (apply primitive_Ok; eauto).
    rewrite (bind_run _ _ _ _ _ Hga), (bind_run _ _ _ _ _ Hgp2).
    unfold bind, modify, ret. rewrite HE1, Hrel, Hpa1, Hpp1.
    eexists; split; [done|].
    eapply extends_update; eauto; [reflexivity|].
    right. repeat split; try done. exists (S n). exact Hfull.
  - rewrite Hd'. exists s. split; [|done].
    unfold ret. by rewrite (valueOf_det accelerationQ _ _ _ _ _ _ Hk Hfull).
Qed.

Lemma getSpatialAcceleration_complete n f s V s' :
  getSpatialAcceleration n f s = Ok V s' → valueOf accelerationQ n s f = Some V.
Proof.
  revert f s V s'. induction n as [|n IH]; intros f s V s' H; [discriminate|].
  simpl in H |- *.
  apply bind_Ok in H as (E & s0 & [HE ->]%deref_Ok & H). rewrite HE.
  destruct (mAmWorld E). { by apply ret_Ok in H as [-> _]. }
  destruct (mNeedAccelerationUpdate E). 2:{ by apply ret_Ok in H as [-> _]. }
  apply bind_Ok in H as (Tr & s0 & (E0 & HE0 & -> & ->)%getRelativeTransform_Ok & H).
  apply bind_Ok in H as (p & s0 & (E0' & HE0' & Hp & ->)%getParentFrame_Ok & H).
  apply bind_Ok in H as (Vp & s1 & Hrec & H).
  simpl in HE0'. simplify_eq. rewrite Hp.
  pose proof (IH _ _ _ _ Hrec) as Hv.
  rewrite (valueOf_heap accelerationQ n s (bump f s)) in Hv by done. rewrite Hv.
  destruct (getSpatialAcceleration_sound n p s s Vp (extends_refl s) Hv)
    as (s1' & Hrun & Hext).
  destruct (extends_lookup _ _ _ _ Hext HE) as (E1 & HE1 & Hst1 & _).
  pose proof (structure_fields _ _ Hst1) as (_ & _ & _ & Hrv1 & _).
  destruct (getSpatialAcceleration_sound n p s (bump f s) Vp) as (s1b & Hrunb & Hextb);
    [by eapply extends_heap; [apply extends_refl|]|done|].
  rewrite Hrunb in Hrec. simplify_eq.
  destruct (extends_lookup _ _ _ _ Hextb HE) as (E1b & HE1b & Hst1b & _).
  pose proof (structure_fields _ _ Hst1b) as (_ & _ & _ & _ & Hpa & Hpp).
  minv. simplify_eq. by rewrite Hpa, Hpp.
Qed.

(** *** Getters that track a value *)

Lemma tracks_ret {A} (a : A) : tracks (fun _ => ret a) (fun _ _ => Some a).
Proof.
  split.
  - intros n s0 s b Hext [= <-]. by exists s.
  - intros n s b s' [<- <-]%ret_Ok. split; [apply extends_refl|by exists 0].
  - done.
  - intros. by exists 0.
Qed.

Lemma tracks_bind {A B} (g1 : nat → M A) d1 (g2 : A → nat → M B) d2 :
  tracks g1 d1 → (∀ a, tracks (g2 a) (d2 a)) →
  tracks (fun n => bind (g1 n) (fun a => g2 a n))
         (fun n s => d1 n s ≫= fun a => d2 a n s).
Proof.
  intros H1 H2. split.
  - intros n s0 s b Hext Hd.
    destruct (d1 n s0) as [a|] eqn:Ha; [|done]. simpl in Hd.
    destruct (tracks_sound _ _ H1 _ _ _ _ Hext Ha) as (s1 & Hrun1 & Hext1).
    destruct (tracks_sound _ _ (H2 a) _ _ _ _ Hext1 Hd) as (s2 & Hrun2 & Hext2).
    exists s2. by rewrite (bind_run _ _ _ _ _ Hrun1).
  - intros n s b s' (a & s1 & Hrun1 & Hrun2)%bind_Ok.
    destruct (tracks_complete _ _ H1 _ _ _ _ Hrun1) as (Hext1 & m1 & Hd1).
    destruct (tracks_complete _ _ (H2 a) _ _ _ _ Hrun2) as (Hext2 & m2 & Hd2).
    split; [by eapply extends_trans|].
    destruct (tracks_back _ _ (H2 a) _ _ _ _ Hext1 Hd2) as (m3 & Hd3).
    exists (m1 `max` m3).
    rewrite (tracks_mono _ _ H1 _ _ _ _ Hd1) by lia. simpl.
    apply (tracks_mono _ _ (H2 a) _ _ _ _ Hd3). lia.
  - intros n m s b Hd Hle.
    destruct (d1 n s) as [a|] eqn:Ha; [|done]. simpl in Hd.
    rewrite (tracks_mono _ _ H1 _ _ _ _ Ha Hle). simpl.
    by apply (tracks_mono _ _ (H2 a) _ _ _ _ Hd).
  - intros n s s' b Hext Hd.
    destruct (d1 n s') as [a|] eqn:Ha; [|done]. simpl in Hd.
    destruct (tracks_back _ _ H1 _ _ _ _ Hext Ha) as (m1 & Hd1).
    destruct (tracks_back _ _ (H2 a) _ _ _ _ Hext Hd) as (m2 & Hd2).
    exists (m1 `max` m2).
    rewrite (tracks_mono _ _ H1 _ _ _ _ Hd1) by lia. simpl.
    apply (tracks_mono _ _ (H2 a) _ _ _ _ Hd2). lia.
Qed.

(** What a tracked getter returns is determined by the state. *)
Lemma tracks_det {A} (g : nat → M A) d s a b :
  tracks g d → returns g s a → returns g s b → a = b.
Proof.
  intros H (n & s1 & Ha) (m & s2 & Hb).
  destruct (tracks_complete _ _ H _ _ _ _ Ha) as (_ & k & Hk).
  destruct (tracks_complete _ _ H _ _ _ _ Hb) as (_ & k' & Hk').
  apply (tracks_mono _ _ H _ (k `max` k')) in Hk; [|lia].
  apply (tracks_mono _ _ H _ (k `max` k')) in Hk'; [|lia]. congruence.
Qed.

Lemma tracks_returns {A} (g : nat → M A) d s a :
  tracks g d → (returns g s a ↔ ∃ n, d n s = Some a).
Proof.
  intros H. split.
  - intros (n & s' & Hrun). by destruct (tracks_complete _ _ H _ _ _ _ Hrun).
  - intros (n & Hd).
    destruct (tracks_sound _ _ H n s s a (extends_refl s) Hd) as (s' & ? & _).
    by exists n, s'.
Qed.

Lemma tracks_getWorldTransform f :
  tracks (fun n => getWorldTransform n f) (fun n s => valueOf transformQ n s f).
Proof.
  split.
  - intros. by apply getWorldTransform_sound.
  - intros n s T s' H. pose proof (getWorldTransform_complete _ _ _ _ _ H) as Hv.
    destruct (getWorldTransform_sound n f s s T (extends_refl s) Hv) as (s1 & H1 & ?).
    rewrite H1 in H. simplify_eq. eauto.
  - intros. by eapply (valueOf_mono transformQ).
  - intros n s s' T (H & _ & _) Hv.
    eapply (valueOf_extends_back transformQ); eauto using structural_transformQ.
Qed.

Lemma tracks_getSpatialVelocity f :
  tracks (fun n => getSpatialVelocity n f) (fun n s => valueOf velocityQ n s f).
Proof.
  split.
  - intros. by apply getSpatialVelocity_sound.
  - intros n s T s' H. pose proof (getSpatialVelocity_complete _ _ _ _ _ H) as Hv.
    destruct (getSpatialVelocity_sound n f s s T (extends_refl s) Hv) as (s1 & H1 & ?).
    rewrite H1 in H. simplify_eq. eauto.
  - intros. by eapply (valueOf_mono velocityQ).
  - intros n s s' T (_ & H & _) Hv.
    eapply (valueOf_extends_back velocityQ); eauto using structural_velocityQ.
Qed.

Lemma tracks_getSpatialAcceleration f :
  tracks (fun n => getSpatialAcceleration n f)
         (fun n s => valueOf accelerationQ n s f).
Proof.
  split.
  - intros. by apply getSpatialAcceleration_sound.
  - intros n s T s' H. pose proof (getSpatialAcceleration_complete _ _ _ _ _ H) as Hv.
    destruct (getSpatialAcceleration_sound n f s s T (extends_refl s) Hv) as (s1 & H1 & ?).
    rewrite H1 in H. simplify_eq. eauto.
  - intros. by eapply (valueOf_mono accelerationQ).
  - intros n s s' T (_ & _ & H) Hv.
    eapply (valueOf_extends_back accelerationQ); eauto using structural_accelerationQ.
Qed.

Lemma extends_lookup_inv s s' p E' :
  extends s s' → heap s' !! p = Some E' →
  ∃ E, heap s !! p = Some E ∧ same_structure E E'.
Proof.
  intros (H & _ & _) HE.
  destruct (extendsQ_lookup_inv _ _ _ _ _ H HE) as (E & ? & ? & _). eauto.
Qed.

Lemma tracks_getTransform this wrt :
  tracks (fun n => getTransform n this wrt)
         (fun n s => transformOf n s this wrt).
Proof.
  split.
  - intros n s0 s T Hext Hd. unfold transformOf in Hd. unfold getTransform.
    destruct (heap s0 !! wrt) as [W|] eqn:HW; [|done].
    destruct (extends_lookup _ _ _ _ Hext HW) as (Ws & HWs & HstW & _).
    pose proof (structure_fields _ _ HstW) as (HwW & _).
    assert (Hiw : isWorld wrt s = Ok (mAmWorld W) s)
      by (apply isWorld_Ok; exists Ws; by rewrite HwW).
    rewrite (bind_run _ _ _ _ _ Hiw).
    destruct (mAmWorld W); [by apply getWorldTransform_sound|].
    destruct (heap s0 !! this) as [E|] eqn:HE; [|done].
    destruct (extends_lookup _ _ _ _ Hext HE) as (Es & HEs & Hst & _).
    pose proof (structure_fields _ _ Hst) as (_ & Hp & Hrel & _).
    rewrite (bind_run _ _ _ _ _ (deref_run _ _ _ HEs)), Hp.
    destruct (decide (Some wrt = mParentFrame E)).
    + simplify_eq. exists (bump this s). split.
      * apply getRelativeTransform_Ok. eauto.
      * by eapply extends_heap.
    + destruct (valueOf transformQ n s0 wrt) as [Tw|] eqn:HTw; [|done].
      destruct (valueOf transformQ n s0 this) as [Tt|] eqn:HTt; [|done].
      simplify_eq.
      destruct (getWorldTransform_sound _ _ _ _ _ Hext HTw) as (s1 & Hr1 & Hext1).
      destruct (getWorldTransform_sound _ _ _ _ _ Hext1 HTt) as (s2 & Hr2 & Hext2).
      rewrite (bind_run _ _ _ _ _ Hr1), (bind_run _ _ _ _ _ Hr2). by exists s2.
  - intros n s T s' H. unfold getTransform in H. unfold transformOf.
    apply bind_Ok in H as (w & s0 & (W & HW & -> & ->)%isWorld_Ok & H).
    rewrite HW. destruct (mAmWorld W).
    { by apply (tracks_complete _ _ (tracks_getWorldTransform this)) in H. }
    apply bind_Ok in H as (E & s0 & [HE ->]%deref_Ok & H). rewrite HE.
    destruct (decide (Some wrt = mParentFrame E)).
    + apply getRelativeTransform_Ok in H as (E' & ? & -> & ->). simplify_eq.
      split; [by eapply extends_heap; [apply extends_refl|]|by exists 0].
    + apply bind_Ok in H as (Tw & s1 & Hr1 & H).
      apply bind_Ok in H as (Tt & s2 & Hr2 & [<- <-]%ret_Ok).
      apply (tracks_complete _ _ (tracks_getWorldTransform wrt)) in Hr1
        as (Hext1 & m1 & Hv1).
      apply (tracks_complete _ _ (tracks_getWorldTransform this)) in Hr2
        as (Hext2 & m2 & Hv2).
      split; [by eapply extends_trans|].
      destruct (tracks_back _ _ (tracks_getWorldTransform this) _ _ _ _ Hext1 Hv2)
        as (m3 & Hv3).
      exists (m1 `max` m3).
      rewrite (valueOf_mono transformQ _ (m1 `max` m3) _ _ _ Hv1) by lia.
      by rewrite (valueOf_mono transformQ _ (m1 `max` m3) _ _ _ Hv3) by lia.
  - intros n m s T Hd Hle. unfold transformOf in *.
    destruct (heap s !! wrt) as [W|]; [|done].
    destruct (mAmWorld W); [by eapply (valueOf_mono transformQ)|].
    destruct (heap s !! this) as [E|]; [|done].
    destruct (decide (Some wrt = mParentFrame E)); [done|].
    destruct (valueOf transformQ n s wrt) as [Tw|] eqn:HTw; [|done].
    destruct (valueOf transformQ n s this) as [Tt|] eqn:HTt; [|done].
    rewrite (valueOf_mono transformQ _ m _ _ _ HTw) by lia.
    by rewrite (valueOf_mono transformQ _ m _ _ _ HTt) by lia.
  - intros n s s' T Hext Hd. unfold transformOf in *.
    destruct (heap s' !! wrt) as [W'|] eqn:HW'; [|done].
    destruct (extends_lookup_inv _ _ _ _ Hext HW') as (W & HW & HstW).
    pose proof (structure_fields _ _ HstW) as (HwW & _).
    rewrite HW. rewrite HwW in Hd. destruct (mAmWorld W).
    { by apply (tracks_back _ _ (tracks_getWorldTransform this) _ _ _ _ Hext Hd). }
    destruct (heap s' !! this) as [E'|] eqn:HE'; [|done].
    destruct (extends_lookup_inv _ _ _ _ Hext HE') as (E & HE & Hst).
    pose proof (structure_fields _ _ Hst) as (_ & Hp & Hrel & _).
    rewrite HE. rewrite Hp, Hrel in Hd.
    destruct (decide (Some wrt = mParentFrame E)); [by exists 0|].
    destruct (valueOf transformQ n s' wrt) as [Tw|] eqn:HTw; [|done].
    destruct (valueOf transformQ n s' this) as [Tt|] eqn:HTt; [|done].
    destruct (tracks_back _ _ (tracks_getWorldTransform wrt) _ _ _ _ Hext HTw)
      as (m1 & Hv1).
    destruct (tracks_back _ _ (tracks_getWorldTransform this) _ _ _ _ Hext HTt)
      as (m2 & Hv2).
    exists (m1 `max` m2).
    rewrite (valueOf_mono transformQ _ (m1 `max` m2) _ _ _ Hv1) by lia.
    by rewrite (valueOf_mono transformQ _ (m1 `max` m2) _ _ _ Hv2) by lia.
Qed.

Lemma tracks_getSpatialVelocity_rel this rel inC :
  tracks (fun n => getSpatialVelocity_rel n this rel inC)
         (fun n s => spatialVelocityRelOf n s this rel inC).
Proof.
  unfold getSpatialVelocity_rel, spatialVelocityRelOf.
  apply (tracks_bind _ _ _ _ (tracks_getTransform this inC)); intros T.
  apply (tracks_bind _ _ _ _ (tracks_getSpatialVelocity this)); intros V.
  apply (tracks_bind _ _ _ _ (tracks_getTransform rel this)); intros Tr.
  apply (tracks_bind _ _ _ _ (tracks_getSpatialVelocity rel)); intros Vr.
  apply tracks_ret.
Qed.

Lemma tracks_getSpatialAcceleration_rel this rel inC :
  tracks (fun n => getSpatialAcceleration_rel n this rel inC)
         (fun n s => spatialAccelerationRelOf n s this rel inC).
Proof.
  unfold getSpatialAcceleration_rel, spatialAccelerationRelOf.
  apply (tracks_bind _ _ _ _ (tracks_getTransform this inC)); intros T.
  apply (tracks_bind _ _ _ _ (tracks_getSpatialAcceleration this)); intros A.
  apply (tracks_bind _ _ _ _ (tracks_getTransform rel this)); intros Tr.
  apply (tracks_bind _ _ _ _ (tracks_getSpatialAcceleration rel)); intros Ar.
  apply (tracks_bind _ _ _ _ (tracks_getSpatialVelocity this)); intros V.
  apply (tracks_bind _ _ _ _ (tracks_getSpatialVelocity_rel this rel this)); intros Vr.
  apply tracks_ret.
Qed.

Lemma tracks_getLinearAcceleration this rel inC :
  tracks (fun n => getLinearAcceleration n this rel inC)
         (fun n s => linearAccelerationOf n s this rel inC).
Proof.
  unfold getLinearAcceleration, linearAccelerationOf.
  apply (tracks_bind _ _ _ _ (tracks_getSpatialVelocity_rel this rel inC)); intros V.
  apply (tracks_bind _ _ _ _ (tracks_getSpatialAcceleration_rel this rel inC)); intros A.
  apply tracks_ret.
Qed.

(** *** Cross-frame velocity and acceleration *)

Lemma tracks_getLinearVelocity this rel inC :
  tracks (fun n => getLinearVelocity n this rel inC)
         (fun n s => spatialVelocityRelOf n s this rel inC ≫= fun X => Some (tail3 X)).
Proof.
  unfold getLinearVelocity.
  apply (tracks_bind _ _ _ _ (tracks_getSpatialVelocity_rel this rel inC)); intros V.
  apply tracks_ret.
Qed.

Lemma tracks_getAngularVelocity this rel inC :
  tracks (fun n => getAngularVelocity n this rel inC)
         (fun n s => spatialVelocityRelOf n s this rel inC ≫= fun X => Some (head3 X)).
Proof.
  unfold getAngularVelocity.
  apply (tracks_bind _ _ _ _ (tracks_getSpatialVelocity_rel this rel inC)); intros V.
  apply tracks_ret.
Qed.

Lemma spatialVelocityRelOf_intro this rel inC s T V Tr Vr :
  returns (fun n => getTransform n this inC) s T →
  returns (fun n => getSpatialVelocity n this) s V →
  returns (fun n => getTransform n rel this) s Tr →
  returns (fun n => getSpatialVelocity n rel) s Vr →
  ∃ n, spatialVelocityRelOf n s this rel inC
       = Some (AdR T (minus6 V (AdT Tr Vr))).
Proof.
  intros (n1 & H1)%(tracks_returns _ _ _ _ (tracks_getTransform this inC))
         (n2 & H2)%(tracks_returns _ _ _ _ (tracks_getSpatialVelocity this))
         (n3 & H3)%(tracks_returns _ _ _ _ (tracks_getTransform rel this))
         (n4 & H4)%(tracks_returns _ _ _ _ (tracks_getSpatialVelocity rel)).
  set (N := n1 + n2 + n3 + n4). exists N.
  unfold spatialVelocityRelOf.
  rewrite (tracks_mono _ _ (tracks_getTransform this inC) _ N _ _ H1) by lia.
  rewrite (tracks_mono _ _ (tracks_getSpatialVelocity this) _ N _ _ H2) by lia.
  rewrite (tracks_mono _ _ (tracks_getTransform rel this) _ N _ _ H3) by lia.
  by rewrite (tracks_mono _ _ (tracks_getSpatialVelocity rel) _ N _ _ H4) by lia.
Qed.

(** C6. The velocity of [this] relative to [relativeTo] in the coordinates
    of [inCoordinatesOf] is the rotational adjoint of
    [getTransform(inCoordinatesOf)] applied to this frame's own spatial
    velocity minus the adjoint transport, through
    [relativeTo->getTransform(this)], of [relativeTo]'s spatial velocity;
    the linear and angular velocities are its tail and head.  The four
    ingredients are the values the four queries return from the same
    state; the composite returns that value and no other. *)
Theorem getSpatialVelocity_rel_composition this rel inC s T V Tr Vr :
  returns (fun n => getTransform n this inC) s T →
  returns (fun n => getSpatialVelocity n this) s V →
  returns (fun n => getTransform n rel this) s Tr →
  returns (fun n => getSpatialVelocity n rel) s Vr →
  let X := AdR T (minus6 V (AdT Tr Vr)) in
  returns (fun n => getSpatialVelocity_rel n this rel inC) s X ∧
  returns (fun n => getLinearVelocity n this rel inC) s (tail3 X) ∧
  returns (fun n => getAngularVelocity n this rel inC) s (head3 X) ∧
  (∀ Y, returns (fun n => getSpatialVelocity_rel n this rel inC) s Y → Y = X) ∧
  (∀ v, returns (fun n => getLinearVelocity n this rel inC) s v → v = tail3 X) ∧
  (∀ w, returns (fun n => getAngularVelocity n this rel inC) s w → w = head3 X).
Proof.
  intros H1 H2 H3 H4 X.
  destruct (spatialVelocityRelOf_intro _ _ _ _ _ _ _ _ H1 H2 H3 H4) as (n & Hn).
  fold X in Hn.
  assert (HX : returns (fun n => getSpatialVelocity_rel n this rel inC) s X).
  { apply (tracks_returns _ _ _ _ (tracks_getSpatialVelocity_rel this rel inC)).
    eauto. }
  assert (HL : returns (fun n => getLinearVelocity n this rel inC) s (tail3 X)).
  { apply (tracks_returns _ _ _ _ (tracks_getLinearVelocity this rel inC)).
    exists n. by rewrite Hn. }
  assert (HA : returns (fun n => getAngularVelocity n this rel inC) s (head3 X)).
  { apply (tracks_returns _ _ _ _ (tracks_getAngularVelocity this rel inC)).
    exists n. by rewrite Hn. }
  repeat split; try done.
  - intros Y HY. exact (tracks_det _ _ _ _ _ (tracks_getSpatialVelocity_rel _ _ _) HY HX).
  - intros v Hv. exact (tracks_det _ _ _ _ _ (tracks_getLinearVelocity _ _ _) Hv HL).
  - intros w Hw. exact (tracks_det _ _ _ _ _ (tracks_getAngularVelocity _ _ _) Hw HA).
Qed.

(** C5. The acceleration of [this] relative to [relativeTo] in the
    coordinates of [inCoordinatesOf] is the rotational adjoint of
    [getTransform(inCoordinatesOf)] applied to the own spatial
    acceleration, minus the adjoint transport of [relativeTo]'s spatial
    acceleration through [relativeTo->getTransform(this)], minus the
    bracket of the own spatial velocity with
    [getSpatialVelocity(relativeTo, this)]; the linear acceleration is its
    tail plus the cross product of the head and the tail of
    [getSpatialVelocity(relativeTo, inCoordinatesOf)]. *)
Theorem getSpatialAcceleration_rel_composition this rel inC s
    T A Tr Ar V Vrel v_rel :
  returns (fun n => getTransform n this inC) s T →
  returns (fun n => getSpatialAcceleration n this) s A →
  returns (fun n => getTransform n rel this) s Tr →
  returns (fun n => getSpatialAcceleration n rel) s Ar →
  returns (fun n => getSpatialVelocity n this) s V →
  returns (fun n => getSpatialVelocity_rel n this rel this) s Vrel →
  returns (fun n => getSpatialVelocity_rel n this rel inC) s v_rel →
  let X := AdR T (minus6 (minus6 A (AdT Tr Ar)) (ad V Vrel)) in
  let L := plus3 (tail3 X) (cross (head3 v_rel) (tail3 v_rel)) in
  returns (fun n => getSpatialAcceleration_rel n this rel inC) s X ∧
  returns (fun n => getLinearAcceleration n this rel inC) s L ∧
  (∀ Y, returns (fun n => getSpatialAcceleration_rel n this rel inC) s Y → Y = X) ∧
  (∀ l, returns (fun n => getLinearAcceleration n this rel inC) s l → l = L).
Proof.
  intros (n1 & H1)%(tracks_returns _ _ _ _ (tracks_getTransform this inC))
         (n2 & H2)%(tracks_returns _ _ _ _ (tracks_getSpatialAcceleration this))
         (n3 & H3)%(tracks_returns _ _ _ _ (tracks_getTransform rel this))
         (n4 & H4)%(tracks_returns _ _ _ _ (tracks_getSpatialAcceleration rel))
         (n5 & H5)%(tracks_returns _ _ _ _ (tracks_getSpatialVelocity this))
         (n6 & H6)%(tracks_returns _ _ _ _ (tracks_getSpatialVelocity_rel this rel this))
         (n7 & H7)%(tracks_returns _ _ _ _ (tracks_getSpatialVelocity_rel this rel inC))
         X L.
  set (N := n1 + n2 + n3 + n4 + n5 + n6 + n7).
  assert (HdX : spatialAccelerationRelOf N s this rel inC = Some X).
  { unfold spatialAccelerationRelOf.
    rewrite (tracks_mono _ _ (tracks_getTransform this inC) _ N _ _ H1) by lia.
    rewrite (tracks_mono _ _ (tracks_getSpatialAcceleration this) _ N _ _ H2) by lia.
    rewrite (tracks_mono _ _ (tracks_getTransform rel this) _ N _ _ H3) by lia.
    rewrite (tracks_mono _ _ (tracks_getSpatialAcceleration rel) _ N _ _ H4) by lia.
    rewrite (tracks_mono _ _ (tracks_getSpatialVelocity this) _ N _ _ H5) by lia.
    by rewrite (tracks_mono _ _ (tracks_getSpatialVelocity_rel this rel this)
                  _ N _ _ H6) by lia. }
  assert (HdL : linearAccelerationOf N s this rel inC = Some L).
  { unfold linearAccelerationOf.
    rewrite (tracks_mono _ _ (tracks_getSpatialVelocity_rel this rel inC)
               _ N _ _ H7) by lia.
    by rewrite HdX. }
  assert (HX : returns (fun n => getSpatialAcceleration_rel n this rel inC) s X).
  { apply (tracks_returns _ _ _ _ (tracks_getSpatialAcceleration_rel this rel inC)).
    eauto. }
  assert (HL : returns (fun n => getLinearAcceleration n this rel inC) s L).
  { apply (tracks_returns _ _ _ _ (tracks_getLinearAcceleration this rel inC)).
    eauto. }
  repeat split; try done.
  - intros Y HY.
    exact (tracks_det _ _ _ _ _ (tracks_getSpatialAcceleration_rel _ _ _) HY HX).
  - intros l Hl.
    exact (tracks_det _ _ _ _ _ (tracks_getLinearAcceleration _ _ _) Hl HL).
Qed.

End Caching.

(** ** Chains of frames *)
Section Chains.
Context `{SA : SpatialAlgebra}.
Implicit Types (s : Store) (E : Entity).

Lemma valueOf_S Q n s f :
  valueOf Q (S n) s f =
  match heap s !! f with
  | None => None
  | Some E =>
      if mAmWorld E then Some (qCache Q E)
      else if qDirty Q E then
        match mParentFrame E with
        | None => None
        | Some p => match valueOf Q n s p with
                    | None => None
                    | Some v => Some (qStep Q E v)
                    end
        end
      else Some (qCache Q E)
  end.
Proof. done. Qed.

Lemma rooted_valueOf Q n s f :
  rooted n s f = true → ∃ v, valueOf Q (S n) s f = Some v.
Proof.
  revert f. induction n as [|n IH]; intros f H; rewrite valueOf_S;
    simpl in H; destruct (heap s !! f) as [E|]; try done;
    destruct (mAmWorld E); simpl in H; try done; eauto.
  destruct (qDirty Q E); [|eauto].
  destruct (mParentFrame E) as [p|]; [|done].
  destruct (IH p H) as (v & Hv). rewrite Hv. eauto.
Qed.

Lemma rooted_not_own_parent n s f E :
  rooted n s f = true → heap s !! f = Some E → mAmWorld E = false →
  mParentFrame E ≠ Some f.
Proof.
  intros H HE Hw Hp. induction n as [|n IH]; simpl in H; rewrite HE, Hw in H;
    simpl in H; [done|]. rewrite Hp in H. auto.
Qed.


Lemma rooted_transformOf n s f g :
  rooted n s f = true → rooted n s g = true →
  ∃ T, transformOf (S n) s f g = Some T.
Proof.
  intros Hf Hg. unfold transformOf.
  destruct (rooted_valueOf transformQ _ _ _ Hf) as (Tf & HTf).
  destruct (rooted_valueOf transformQ _ _ _ Hg) as (Tg & HTg).
  rewrite HTf, HTg.
  destruct (heap s !! g) as [G|] eqn:HG;
    [|by destruct n; simpl in Hg; rewrite HG in Hg].
  destruct (heap s !! f) as [F|] eqn:HF;
    [|by destruct n; simpl in Hf; rewrite HF in Hf].
  destruct (mAmWorld G); [eauto|]. destruct (decide _); eauto.
Qed.

Lemma transformOf_mono n m s f g T :
  transformOf n s f g = Some T → n ≤ m → transformOf m s f g = Some T.
Proof. intros H Hle. by eapply (tracks_mono _ _ (tracks_getTransform f g)). Qed.

(** C10 (amended). The transform of a frame with respect to itself is
    computed, not known: for the World frame it is its cached pose, for a
    frame that is its own parent its relative transform, otherwise the
    inverse of its world pose composed with its world pose.  The velocity
    of the frame relative to itself, in the coordinates of [C], is the
    velocity minus the velocity transported by that transform, rotated
    into [C].  It is zero where the arithmetic is exact on these values:
    the transform is the identity, transporting by the identity changes
    nothing, the velocity cancels itself and the rotation of zero is
    zero. *)
Theorem getSpatialVelocity_rel_self s F C E Tw V T :
  heap s !! F = Some E →
  returns (fun k => getWorldTransform k F) s Tw →
  returns (fun k => getSpatialVelocity k F) s V →
  returns (fun k => getTransform k F C) s T →
  returns (fun k => getTransform k F F) s
    (if mAmWorld E then Tw
     else if decide (Some F = mParentFrame E) then relativeTransform E
          else inverse Tw ∘∘ Tw) ∧
  ∀ Tff, returns (fun k => getTransform k F F) s Tff →
    returns (fun k => getSpatialVelocity_rel k F F C) s
      (AdR T (minus6 V (AdT Tff V))) ∧
    (∀ X, returns (fun k => getSpatialVelocity_rel k F F C) s X →
          X = AdR T (minus6 V (AdT Tff V))) ∧
    (Tff = Identity → AdT Identity V = V → minus6 V V = Zero →
     AdR T Zero = Zero →
     returns (fun k => getSpatialVelocity_rel k F F C) s Zero ∧
     ∀ X, returns (fun k => getSpatialVelocity_rel k F F C) s X → X = Zero).
Proof.
  intros HE (n1 & H1)%(tracks_returns _ _ _ _ (tracks_getWorldTransform F))
            (n2 & H2)%(tracks_returns _ _ _ _ (tracks_getSpatialVelocity F))
            (n3 & H3)%(tracks_returns _ _ _ _ (tracks_getTransform F C)).
  cbv beta in *.
  assert (Hself : returns (fun k => getTransform k F F) s
    (if mAmWorld E then Tw
     else if decide (Some F = mParentFrame E) then relativeTransform E
          else inverse Tw ∘∘ Tw)).
  { apply (tracks_returns _ _ _ _ (tracks_getTransform F F)). exists n1.
    unfold transformOf. rewrite HE, H1. destruct (mAmWorld E); [done|].
    by destruct (decide _). }
  split; [done|]. intros Tff Hff.
  assert (Hrel : returns (fun k => getSpatialVelocity_rel k F F C) s
                   (AdR T (minus6 V (AdT Tff V)))).
  { apply (tracks_returns _ _ _ _ (tracks_getTransform F F)) in Hff as (n4 & H4).
    apply (tracks_returns _ _ _ _ (tracks_getSpatialVelocity_rel F F C)).
    exists (n2 + n3 + n4). unfold spatialVelocityRelOf.
    rewrite (transformOf_mono _ (n2 + n3 + n4) _ _ _ _ H3) by lia.
    rewrite (valueOf_mono velocityQ _ (n2 + n3 + n4) _ _ _ H2) by lia.
    by rewrite (transformOf_mono _ (n2 + n3 + n4) _ _ _ _ H4) by lia. }
  assert (Huniq : ∀ X, returns (fun k => getSpatialVelocity_rel k F F C) s X →
                       X = AdR T (minus6 V (AdT Tff V))).
  { intros X HX.
    exact (tracks_det _ _ _ _ _ (tracks_getSpatialVelocity_rel _ _ _) HX Hrel). }
  split; [done|]. split; [done|].
  intros -> HAdT Hminus HAdR.
  rewrite HAdT, Hminus, HAdR in Hrel, Huniq. done.
Qed.

End Chains.

(** ** What an operation leaves unchanged *)
Section Keeps.
Context `{SA : SpatialAlgebra}.
Implicit Types (s : Store) (E : Entity) (r : Entity → Entity → Prop).

Lemma steps_to_refl r s : Reflexive r → steps_to r s s.
Proof. intros Hr. split; eauto. Qed.

Lemma steps_to_trans r s1 s2 s3 :
  Transitive r → steps_to r s1 s2 → steps_to r s2 s3 → steps_to r s1 s3.
Proof.
  intros Hr [H1 W1] [H2 W2]. split; [|eauto].
  intros p E HE. destruct (H1 _ _ HE) as (E' & HE' & ?).
  destruct (H2 _ _ HE') as (E'' & HE'' & ?). eauto.
Qed.

Lemma steps_to_weaken r r' s s' :
  (∀ E E', r E E' → r' E E') → steps_to r s s' → steps_to r' s s'.
Proof.
  intros Hr [H W]. split; [|done].
  intros p E HE. destruct (H _ _ HE) as (E' & ? & ?). eauto.
Qed.

Lemma steps_to_heap r s s' :
  Reflexive r → heap s' = heap s → world s' = world s → steps_to r s s'.
Proof.
  intros Hr Hh Hw. split.
  - intros p E HE. rewrite Hh. eauto.
  - intros w. by rewrite Hw.
Qed.

Lemma keeps_ret {A} r (a : A) : Reflexive r → keeps r (ret a).
Proof. intros Hr s b s' [_ <-]%ret_Ok. by apply steps_to_refl. Qed.

Lemma keeps_fail {A} r e : keeps r (fail (A := A) e).
Proof. by intros s b s' ?. Qed.

Lemma keeps_bind {A B} r (m : M A) (k : A → M B) :
  Transitive r → keeps r m → (∀ a, keeps r (k a)) → keeps r (bind m k).
Proof.
  intros Hr Hm Hk s b s' (a & s1 & H1 & H2)%bind_Ok.
  eapply steps_to_trans; [done|by eapply Hm|by eapply Hk].
Qed.

Lemma keeps_deref r p : Reflexive r → keeps r (deref p).
Proof. intros Hr s E s' [_ ->]%deref_Ok. by apply steps_to_refl. Qed.

Lemma keeps_nonnull r o : Reflexive r → keeps r (nonnull o).
Proof. intros Hr s E s' [_ ->]%nonnull_Ok. by apply steps_to_refl. Qed.

Lemma keeps_isWorld r p : Reflexive r → keeps r (isWorld p).
Proof. intros Hr s b s' (? & _ & _ & ->)%isWorld_Ok. by apply steps_to_refl. Qed.

Lemma keeps_getParentFrame r p : Reflexive r → keeps r (getParentFrame p).
Proof.
  intros Hr s b s' (? & _ & _ & ->)%getParentFrame_Ok. by apply steps_to_refl.
Qed.

Lemma keeps_getRelativeTransform r p :
  Reflexive r → keeps r (getRelativeTransform p).
Proof.
  intros Hr s b s' (? & _ & _ & ->)%getRelativeTransform_Ok.
  by apply steps_to_heap.
Qed.

Lemma keeps_modify r p f :
  Reflexive r → (∀ E, r E (f E)) → keeps r (modify p f).
Proof.
  intros Hr Hf s u s' (E & HE & ->)%modify_Ok. split; [|done].
  intros q Eq Hq. simpl. destruct (decide (p = q)) as [->|Hne].
  - rewrite lookup_insert_eq. simplify_eq. eauto.
  - rewrite lookup_insert_ne by done. eauto.
Qed.

Lemma keeps_forEach {A} r (l : list A) body :
  Reflexive r → Transitive r →
  (∀ x, x ∈ l → keeps r (body x)) → keeps r (forEach l body).
Proof.
  intros Hr Ht. induction l as [|x l IH]; intros Hb; simpl.
  - by apply keeps_ret.
  - apply keeps_bind; [done|apply Hb; left|intros _].
    apply IH. intros y Hy. apply Hb. by right.
Qed.

Lemma keeps_dtwarn r a b : Reflexive r → keeps r (dtwarn a b).
Proof.
  intros Hr s u s' H. unfold dtwarn in H. simplify_eq. by apply steps_to_heap.
Qed.

Lemma keeps_delete_shapes r l : Reflexive r → keeps r (delete_shapes l).
Proof.
  intros Hr s u s' H. unfold delete_shapes in H. simplify_eq.
  by apply steps_to_heap.
Qed.

Lemma keeps_weaken {A} r r' (m : M A) :
  (∀ E E', r E E' → r' E E') → keeps r m → keeps r' m.
Proof. intros Hr Hm s a s' H. eapply steps_to_weaken; eauto. Qed.

(** *** The relations are preorders *)

Global Instance flag_step_refl may : Reflexive (flag_step may).
Proof. intros b. unfold flag_step. by destruct may. Qed.

Global Instance flag_step_trans may : Transitive (flag_step may).
Proof. intros a b c. unfold flag_step. destruct may; [auto|congruence]. Qed.

Global Instance raised_refl mt mv ma : Reflexive (raised mt mv ma).
Proof. intros E. by repeat split. Qed.

Global Instance raised_trans mt mv ma : Transitive (raised mt mv ma).
Proof.
  intros E1 E2 E3 (?&?&?&?&?&?&?) (?&?&?&?&?&?&?).
  split; [by eapply same_structure_trans|].
  repeat split; try congruence; by etransitivity.
Qed.

Global Instance same_kinematics_refl : Reflexive same_kinematics.
Proof. intros E. by repeat split. Qed.

Global Instance same_kinematics_trans : Transitive same_kinematics.
Proof.
  intros E1 E2 E3 (?&?&?&?&?&?&?&?&?&?&?&?&?&?) (?&?&?&?&?&?&?&?&?&?&?&?&?&?).
  repeat split; congruence.
Qed.

Global Instance world_safe_refl : Reflexive world_safe.
Proof. intros E. by repeat split. Qed.

Global Instance world_safe_trans : Transitive world_safe.
Proof.
  intros E1 E2 E3 [H1 H1'] [H2 H2']. split; [congruence|].
  intros Hw. destruct (H1' Hw) as (?&?&?).
  destruct H2' as (?&?&?); [congruence|]. repeat split; congruence.
Qed.

Lemma flag_step_weaken may b b' : flag_step false b b' → flag_step may b b'.
Proof. unfold flag_step. destruct may; congruence. Qed.

Lemma raised_weaken mt mv ma mt' mv' ma' E E' :
  (mt = true → mt' = true) → (mv = true → mv' = true) →
  (ma = true → ma' = true) →
  raised mt mv ma E E' → raised mt' mv' ma' E E'.
Proof.
  intros Ht Hv Ha (?&?&?&?&?&?&?). repeat split; try done.
  - destruct mt; [by rewrite Ht|by apply flag_step_weaken].
  - destruct mv; [by rewrite Hv|by apply flag_step_weaken].
  - destruct ma; [by rewrite Ha|by apply flag_step_weaken].
Qed.

Lemma raised_world_safe mt mv ma E E' : raised mt mv ma E E' → world_safe E E'.
Proof.
  intros (Hst&?&?&?&_). destruct (structure_fields _ _ Hst) as (?&_).
  by repeat split.
Qed.

Lemma same_kinematics_world_safe E E' : same_kinematics E E' → world_safe E E'.
Proof. intros (?&?&?&?&?&?&?&?&?&?&_). by repeat split. Qed.

(** *** Notifications only raise flags *)

Lemma raised_mark_acceleration mt mv E : raised mt mv true E (mark_acceleration E).
Proof. repeat split; try done; apply flag_step_weaken; done. Qed.

Lemma raised_mark_velocity mt ma E : raised mt true ma E (mark_velocity E).
Proof. repeat split; try done; apply flag_step_weaken; done. Qed.

Lemma raised_mark_transform mv ma E : raised true mv ma E (mark_transform E).
Proof. repeat split; try done; apply flag_step_weaken; done. Qed.

Lemma keeps_notifyAccelerationUpdate n f :
  keeps (raised false false true) (notifyAccelerationUpdate n f).
Proof.
  revert f. induction n as [|n IH]; intros f; simpl; [apply keeps_fail|].
  apply keeps_bind; [apply _|apply keeps_deref, _|intros E].
  destruct (kind E).
  - apply keeps_modify; [apply _|apply raised_mark_acceleration].
  - destruct (mNeedAccelerationUpdate E); [apply keeps_ret, _|].
    apply keeps_bind; [apply _| |intros _].
    + apply keeps_modify; [apply _|apply raised_mark_acceleration].
    + apply keeps_forEach; [apply _..|]. intros; apply IH.
Qed.

Lemma keeps_notifyVelocityUpdate n f :
  keeps (raised false true true) (notifyVelocityUpdate n f).
Proof.
  revert f. induction n as [|n IH]; intros f; simpl; [apply keeps_fail|].
  apply keeps_bind; [apply _|apply keeps_deref, _|intros E].
  destruct (kind E).
  - apply keeps_modify; [apply _|apply raised_mark_velocity].
  - apply keeps_bind; [apply _| |intros _].
    { eapply keeps_weaken; [|apply (keeps_notifyAccelerationUpdate (S n))].
      intros ??. by apply raised_weaken. }
    apply keeps_bind; [apply _|apply keeps_deref, _|intros E1].
    destruct (mNeedVelocityUpdate E1); [apply keeps_ret, _|].
    apply keeps_bind; [apply _| |intros _].
    + apply keeps_modify; [apply _|apply raised_mark_velocity].
    + apply keeps_forEach; [apply _..|]. intros; apply IH.
Qed.

Lemma keeps_notifyTransformUpdate n f :
  keeps (raised true true true) (notifyTransformUpdate n f).
Proof.
  revert f. induction n as [|n IH]; intros f; simpl; [apply keeps_fail|].
  apply keeps_bind; [apply _|apply keeps_deref, _|intros E].
  destruct (kind E).
  - apply keeps_modify; [apply _|apply raised_mark_transform].
  - apply keeps_bind; [apply _| |intros _].
    { eapply keeps_weaken; [|apply (keeps_notifyVelocityUpdate (S n))].
      intros ??. by apply raised_weaken. }
    apply keeps_bind; [apply _|apply keeps_deref, _|intros E1].
    destruct (mNeedTransformUpdate E1); [apply keeps_ret, _|].
    apply keeps_bind; [apply _| |intros _].
    + apply keeps_modify; [apply _|apply raised_mark_transform].
    + apply keeps_forEach; [apply _..|]. intros; apply IH.
Qed.

(** *** The notification protocol *)

Lemma steps_to_lookup r s s' p E :
  steps_to r s s' → heap s !! p = Some E →
  ∃ E', heap s' !! p = Some E' ∧ r E E'.
Proof. intros [H _]. apply H. Qed.

Lemma raised_kind mt mv ma E E' : raised mt mv ma E E' → kind E' = kind E.
Proof. intros (Hst & _). unfold same_structure, structure in Hst. congruence. Qed.

Lemma raised_children mt mv ma E E' :
  raised mt mv ma E E' → mChildEntities E' = mChildEntities E.
Proof. intros (Hst & _). unfold same_structure, structure in Hst. congruence. Qed.

Lemma forEach_flags {A} (l : list A) body s s' F E mt mv ma :
  (∀ x, keeps (raised mt mv ma) (body x)) →
  forEach l body s = Ok tt s' → heap s !! F = Some E →
  ∃ E', heap s' !! F = Some E' ∧ raised true true true E E'.
Proof.
  intros Hb H HE.
  assert (Hk : keeps (raised mt mv ma) (forEach l body))
    by (apply keeps_forEach; [apply _..|auto]).
  destruct (steps_to_lookup _ _ _ _ _ (Hk _ _ _ H) HE) as (E' & ? & Hr).
  exists E'. split; [done|]. revert Hr. by apply raised_weaken.
Qed.

Lemma notifyAccelerationUpdate_sets n F s s' E :
  heap s !! F = Some E → kind E = FrameKind →
  notifyAccelerationUpdate n F s = Ok tt s' →
  ∃ E', heap s' !! F = Some E' ∧ raised false false true E E' ∧
        mNeedAccelerationUpdate E' = true.
Proof.
  intros HE Hk H.
  destruct (steps_to_lookup _ _ _ _ _ (keeps_notifyAccelerationUpdate _ _ _ _ _ H) HE)
    as (E' & HE' & Hr).
  exists E'. split; [done|]. split; [done|].
  destruct n as [|n]; [done|]. simpl in H.
  rewrite (bind_run _ _ _ _ _ (deref_run _ _ _ HE)), Hk in H.
  destruct (mNeedAccelerationUpdate E) eqn:Hd.
  { apply ret_Ok in H as [_ <-]. congruence. }
  apply bind_Ok in H as (u & s1 & (E0 & HE0 & Hs1)%modify_Ok & H2).
  rewrite HE in HE0. injection HE0 as <-. subst s1.
  assert (H1 : heap (set_heap (<[F:=mark_acceleration E]> (heap s)) s) !! F
               = Some (mark_acceleration E)) by (simpl; by rewrite lookup_insert_eq).
  destruct (forEach_flags _ _ _ _ _ _ _ _ _ (keeps_notifyAccelerationUpdate n) H2 H1)
    as (E2 & HE2 & (_&_&_&_&_&_&Ha)).
  rewrite HE' in HE2. injection HE2 as <-. by apply Ha.
Qed.

Lemma notifyVelocityUpdate_sets n F s s' E :
  heap s !! F = Some E → kind E = FrameKind →
  notifyVelocityUpdate n F s = Ok tt s' →
  ∃ E', heap s' !! F = Some E' ∧ raised false true true E E' ∧
        mNeedVelocityUpdate E' = true ∧ mNeedAccelerationUpdate E' = true.
Proof.
  intros HE Hk H.
  destruct (steps_to_lookup _ _ _ _ _ (keeps_notifyVelocityUpdate _ _ _ _ _ H) HE)
    as (E' & HE' & Hr).
  exists E'. split; [done|]. split; [done|].
  destruct n as [|n]; [done|]. simpl in H.
  rewrite (bind_run _ _ _ _ _ (deref_run _ _ _ HE)), Hk in H.
  apply bind_Ok in H as ([] & s0 & Ha & H).
  destruct (notifyAccelerationUpdate_sets (S n) _ _ _ _ HE Hk Ha)
    as (E0 & HE0 & Hr0 & Ha0).
  rewrite (bind_run _ _ _ _ _ (deref_run _ _ _ HE0)) in H.
  destruct (mNeedVelocityUpdate E0) eqn:Hd.
  { apply ret_Ok in H as [_ <-]. rewrite HE0 in HE'. injection HE' as <-.
    by split. }
  apply bind_Ok in H as (u & s1 & (E0' & HE0' & Hs1)%modify_Ok & H2).
  rewrite HE0 in HE0'. injection HE0' as <-. subst s1.
  assert (H1 : heap (set_heap (<[F:=mark_velocity E0]> (heap s0)) s0) !! F
               = Some (mark_velocity E0)) by (simpl; by rewrite lookup_insert_eq).
  destruct (forEach_flags _ _ _ _ _ _ _ _ _ (keeps_notifyVelocityUpdate n) H2 H1)
    as (E2 & HE2 & (_&_&_&_&_&Hv2&Ha2)).
  rewrite HE' in HE2. injection HE2 as <-. split; [by apply Hv2|by apply Ha2].
Qed.

Lemma notifyTransformUpdate_sets n F s s' E :
  heap s !! F = Some E → kind E = FrameKind →
  notifyTransformUpdate n F s = Ok tt s' →
  ∃ E', heap s' !! F = Some E' ∧ raised true true true E E' ∧
        mNeedTransformUpdate E' = true ∧
        mNeedVelocityUpdate E' = true ∧ mNeedAccelerationUpdate E' = true.
Proof.
  intros HE Hk H.
  destruct (steps_to_lookup _ _ _ _ _ (keeps_notifyTransformUpdate _ _ _ _ _ H) HE)
    as (E' & HE' & Hr).
  exists E'. split; [done|]. split; [done|].
  destruct n as [|n]; [done|]. simpl in H.
  rewrite (bind_run _ _ _ _ _ (deref_run _ _ _ HE)), Hk in H.
  apply bind_Ok in H as ([] & s0 & Hv & H).
  destruct (notifyVelocityUpdate_sets (S n) _ _ _ _ HE Hk Hv)
    as (E0 & HE0 & Hr0 & Hv0 & Ha0).
  rewrite (bind_run _ _ _ _ _ (deref_run _ _ _ HE0)) in H.
  destruct (mNeedTransformUpdate E0) eqn:Hd.
  { apply ret_Ok in H as [_ <-]. rewrite HE0 in HE'. injection HE' as <-.
    by repeat split. }
  apply bind_Ok in H as (u & s1 & (E0' & HE0' & Hs1)%modify_Ok & H2).
  rewrite HE0 in HE0'. injection HE0' as <-. subst s1.
  assert (H1 : heap (set_heap (<[F:=mark_transform E0]> (heap s0)) s0) !! F
               = Some (mark_transform E0)) by (simpl; by rewrite lookup_insert_eq).
  destruct (forEach_flags _ _ _ _ _ _ _ _ _ (keeps_notifyTransformUpdate n) H2 H1)
    as (E2 & HE2 & (_&_&_&_&Ht2&Hv2&Ha2)).
  rewrite HE' in HE2. injection HE2 as <-.
  split; [by apply Ht2|]. split; [by apply Hv2|by apply Ha2].
Qed.

Lemma notifyVelocityUpdate_S n F :
  notifyVelocityUpdate (S n) F =
  (do E <- deref F;
   match kind E with
   | PlainEntity => Entity_notifyVelocityUpdate F
   | FrameKind =>
       do_ notifyAccelerationUpdate (S n) F;
       do E1 <- deref F;
       if mNeedVelocityUpdate E1 then ret tt
       else do_ modify F mark_velocity;
            forEach (elements (mChildEntities E1)) (notifyVelocityUpdate n)
   end).
Proof. done. Qed.

Lemma notifyTransformUpdate_S n F :
  notifyTransformUpdate (S n) F =
  (do E <- deref F;
   match kind E with
   | PlainEntity => Entity_notifyTransformUpdate F
   | FrameKind =>
       do_ notifyVelocityUpdate (S n) F;
       do E1 <- deref F;
       if mNeedTransformUpdate E1 then ret tt
       else do_ modify F mark_transform;
            forEach (elements (mChildEntities E1)) (notifyTransformUpdate n)
   end).
Proof. done. Qed.

(** A frame whose flags are set ignores a notification. *)
Lemma notifyAccelerationUpdate_dirty m F s E :
  heap s !! F = Some E → kind E = FrameKind →
  mNeedAccelerationUpdate E = true →
  notifyAccelerationUpdate (S m) F s = Ok tt s.
Proof.
  intros HE Hk Ha. simpl.
  by rewrite (bind_run _ _ _ _ _ (deref_run _ _ _ HE)), Hk, Ha.
Qed.

Lemma notifyVelocityUpdate_dirty m F s E :
  heap s !! F = Some E → kind E = FrameKind →
  mNeedVelocityUpdate E = true → mNeedAccelerationUpdate E = true →
  notifyVelocityUpdate (S m) F s = Ok tt s.
Proof.
  intros HE Hk Hv Ha. rewrite notifyVelocityUpdate_S.
  rewrite (bind_run _ _ _ _ _ (deref_run _ _ _ HE)), Hk.
  rewrite (bind_run _ _ _ _ _ (notifyAccelerationUpdate_dirty m _ _ _ HE Hk Ha)).
  by rewrite (bind_run _ _ _ _ _ (deref_run _ _ _ HE)), Hv.
Qed.

Lemma notifyTransformUpdate_dirty m F s E :
  heap s !! F = Some E → kind E = FrameKind →
  mNeedTransformUpdate E = true → mNeedVelocityUpdate E = true →
  mNeedAccelerationUpdate E = true →
  notifyTransformUpdate (S m) F s = Ok tt s.
Proof.
  intros HE Hk Ht Hv Ha. rewrite notifyTransformUpdate_S.
  rewrite (bind_run _ _ _ _ _ (deref_run _ _ _ HE)), Hk.
  rewrite (bind_run _ _ _ _ _ (notifyVelocityUpdate_dirty m _ _ _ HE Hk Hv Ha)).
  by rewrite (bind_run _ _ _ _ _ (deref_run _ _ _ HE)), Ht.
Qed.


End Keeps.

(** ** The flags of the World frame *)
Section WorldFlags.
Context `{SA : SpatialAlgebra}.
Implicit Types (s : Store) (E : Entity).

Lemma forEach_invariant {A} (I : Store → Prop) (l : list A) body :
  (∀ x s s', x ∈ l → I s → body x s = Ok tt s' → I s') →
  ∀ s s', I s → forEach l body s = Ok tt s' → I s'.
Proof.
  induction l as [|x l IH]; intros Hb s s' HI H; simpl in H.
  - by apply ret_Ok in H as [_ <-].
  - apply bind_Ok in H as ([] & s1 & H1 & H2).
    eapply IH; [|eapply Hb; [left|done..]|done].
    intros y ?? Hy. apply Hb. by right.
Qed.

Lemma modify_aside w X p f s s' :
  aside w X s → p ≠ w → (∀ E, mChildEntities (f E) = mChildEntities E) →
  modify p f s = Ok tt s' → aside w X s'.
Proof.
  intros [Hn Hw] Hne Hf (E & HE & ->)%modify_Ok. split.
  - intros q Eq. simpl. destruct (decide (p = q)) as [->|].
    + rewrite lookup_insert_eq. intros [= <-]. rewrite Hf. by eapply Hn.
    + rewrite lookup_insert_ne by done. apply Hn.
  - simpl. by rewrite lookup_insert_ne.
Qed.

Lemma aside_child w X s p E c :
  aside w X s → heap s !! p = Some E → c ∈ elements (mChildEntities E) → c ≠ w.
Proof. intros [Hn _] HE Hc ->. apply (Hn _ _ HE). set_solver. Qed.

Lemma notifyAccelerationUpdate_aside w X n f s s' :
  f ≠ w → aside w X s → notifyAccelerationUpdate n f s = Ok tt s' → aside w X s'.
Proof.
  revert f s s'. induction n as [|n IH]; intros f s s' Hne HI H; [done|].
  simpl in H. apply bind_Ok in H as (E & s0 & [HE ->]%deref_Ok & H).
  destruct (kind E).
  { eapply modify_aside in H; [exact H|exact HI|exact Hne|done]. }
  destruct (mNeedAccelerationUpdate E).
  { by apply ret_Ok in H as [_ <-]. }
  apply bind_Ok in H as ([] & s1 & H1 & H2).
  eapply modify_aside in H1; [|exact HI|exact Hne|done].
  eapply (forEach_invariant (aside w X)); [|exact H1|exact H2].
  intros c s2 s3 Hc HI2. apply IH; [|done].
  apply (aside_child _ _ _ _ _ _ HI HE Hc).
Qed.

Lemma notifyVelocityUpdate_aside w X n f s s' :
  f ≠ w → aside w X s → notifyVelocityUpdate n f s = Ok tt s' → aside w X s'.
Proof.
  revert f s s'. induction n as [|n IH]; intros f s s' Hne HI H; [done|].
  rewrite notifyVelocityUpdate_S in H.
  apply bind_Ok in H as (E & s0 & [HE ->]%deref_Ok & H).
  destruct (kind E).
  { eapply modify_aside in H; [exact H|exact HI|exact Hne|done]. }
  apply bind_Ok in H as ([] & s0 & Ha & H).
  apply notifyAccelerationUpdate_aside with (w := w) (X := X) in Ha; [|done..].
  rename HI into HI0, Ha into HI.
  apply bind_Ok in H as (E1 & s1 & [HE1 ->]%deref_Ok & H).
  destruct (mNeedVelocityUpdate E1).
  { by apply ret_Ok in H as [_ <-]. }
  apply bind_Ok in H as ([] & s1 & H1 & H2).
  eapply modify_aside in H1; [|exact HI|exact Hne|done].
  eapply (forEach_invariant (aside w X)); [|exact H1|exact H2].
  intros c s2 s3 Hc HI2. apply IH; [|done].
  apply (aside_child _ _ _ _ _ _ HI HE1 Hc).
Qed.

Lemma notifyTransformUpdate_aside w X n f s s' :
  f ≠ w → aside w X s → notifyTransformUpdate n f s = Ok tt s' → aside w X s'.
Proof.
  revert f s s'. induction n as [|n IH]; intros f s s' Hne HI H; [done|].
  rewrite notifyTransformUpdate_S in H.
  apply bind_Ok in H as (E & s0 & [HE ->]%deref_Ok & H).
  destruct (kind E).
  { eapply modify_aside in H; [exact H|exact HI|exact Hne|done]. }
  apply bind_Ok in H as ([] & s0 & Hv & H).
  apply notifyVelocityUpdate_aside with (w := w) (X := X) in Hv; [|done..].
  rename HI into HI0, Hv into HI.
  apply bind_Ok in H as (E1 & s1 & [HE1 ->]%deref_Ok & H).
  destruct (mNeedTransformUpdate E1).
  { by apply ret_Ok in H as [_ <-]. }
  apply bind_Ok in H as ([] & s1 & H1 & H2).
  eapply modify_aside in H1; [|exact HI|exact Hne|done].
  eapply (forEach_invariant (aside w X)); [|exact H1|exact H2].
  intros c s2 s3 Hc HI2. apply IH; [|done].
  apply (aside_child _ _ _ _ _ _ HI HE1 Hc).
Qed.

(** C7 (amended). A notification that starts at a frame other than the
    World frame leaves the World frame as it is, its three flags included,
    as long as the World frame is registered in no child-entity set; this
    holds for every sequence of such notifications. *)
Theorem notify_elsewhere_keeps_World w s l s' :
  noChild w s →
  Forall (fun op => notify_target op.2 ≠ w) l →
  run_notifies l s = Ok tt s' →
  heap s' !! w = heap s !! w ∧ noChild w s'.
Proof.
  intros Hn Hl H.
  cut (aside w (heap s !! w) s'); [by intros [? ?]|].
  revert H. apply (forEach_invariant (aside w (heap s !! w))); [|done].
  intros [fuel op] s1 s2 Hin HI Hrun.
  rewrite Forall_forall in Hl. specialize (Hl _ Hin). simpl in Hl.
  destruct op as [f|f|f]; simpl in Hl, Hrun.
  - exact (notifyTransformUpdate_aside _ _ _ _ _ _ Hl HI Hrun).
  - exact (notifyVelocityUpdate_aside _ _ _ _ _ _ Hl HI Hrun).
  - exact (notifyAccelerationUpdate_aside _ _ _ _ _ _ Hl HI Hrun).
Qed.

(** The first call of [Frame::World()] constructs the World frame with
    clear flags, self-parented and registered nowhere. *)
Lemma World_bootstrap s :
  world s = None → noChild (fresh (dom (heap s))) s →
  ∃ w s', World s = Ok w s' ∧ world s' = Some w ∧ noChild w s' ∧
    heap s' !! w = Some (set_parent (Some w) WorldFrame_init) ∧
    (∀ p, p ≠ w → heap s' !! p = heap s !! p).
Proof.
  intros Hw Hn. set (w := fresh (dom (heap s))).
  assert (Hfresh : heap s !! w = None).
  { apply not_elem_of_dom. apply is_fresh. }
  exists w. eexists. split; [|split; [|split; [|split]]].
  - unfold World. rewrite Hw. unfold WorldFrame_ctor. fold w.
    unfold changeParentFrame, Entity_changeParentFrame, isWorld, set_world,
      bind, ret, deref, modify, nonnull, dependsOn.
    rewrite decide_True by done. simpl.
    repeat (first [rewrite lookup_insert_eq | progress simpl]).
    reflexivity.
  - done.
  - intros p E. simpl. rewrite insert_insert_eq.
    destruct (decide (w = p)) as [<-|].
    + rewrite lookup_insert_eq. intros [= <-]. simpl. set_solver.
    + rewrite lookup_insert_ne by done. apply Hn.
  - simpl. by rewrite lookup_insert_eq.
  - intros p Hp. simpl. by rewrite !lookup_insert_ne.
Qed.

End WorldFlags.

(** ** Reparenting *)
Section Reparenting.
Context `{SA : SpatialAlgebra}.
Implicit Types (s : Store) (E : Entity).

Lemma dependsOn_self n f s : dependsOn n f f s = Ok true s.
Proof. destruct n; simpl; by rewrite decide_True. Qed.

Lemma dependsOn_descends s e f :
  descends s e f → ∃ n, ∀ m, n ≤ m → dependsOn m e f s = Ok true s.
Proof.
  induction 1 as [f|e E p f HE Hw Hp _ (n & IH)].
  - exists 0. intros. apply dependsOn_self.
  - exists (S n). intros m Hm. destruct m as [|m]; [lia|]. simpl.
    destruct (decide (e = f)); [done|].
    rewrite (bind_run _ _ _ _ _ (deref_run _ _ _ HE)), Hw, Hp.
    apply IH. lia.
Qed.

Lemma descends_world s e f E :
  descends s e f → heap s !! e = Some E → mAmWorld E = true → e = f.
Proof. destruct 1 as [|e E' p f HE' Hw' _ _]; [done|]. intros. congruence. Qed.

(** C4. Reparenting a frame to itself or to one of its descendants is
    refused: the call returns after the diagnostic and nothing else is
    changed, neither a parent reference nor a child set; unless both
    frames are the World frame, whose self-loop is let through: no
    diagnostic is written and the World frame becomes its own parent. *)
Theorem changeParentFrame_refuses_cycle s F P EF EP :
  heap s !! F = Some EF → heap s !! P = Some EP → descends s P F →
  (mAmWorld EF && mAmWorld EP = false →
   ∃ n, ∀ m, n ≤ m →
     changeParentFrame m F (Some P) s = Ok tt (warned F P s)) ∧
  (mAmWorld EF && mAmWorld EP = true → mAmQuiet EF = true →
   mParentFrame EF = None ∨ mParentFrame EF = Some F →
   P = F ∧
   ∀ m, ∃ s' E', changeParentFrame m F (Some P) s = Ok tt s' ∧
     warnings s' = warnings s ∧
     heap s' !! F = Some E' ∧ mParentFrame E' = Some F).
Proof.
  intros HF HP Hd. split.
  - intros Hw. destruct (dependsOn_descends _ _ _ Hd) as (n & Hn).
    exists n. intros m Hm.
    unfold changeParentFrame, isWorld, bind, ret, deref.
    by rewrite (Hn m Hm), HF, HP, Hw.
  - intros [Hw1 Hw2]%andb_true_iff Hq Hpar.
    assert (P = F) as -> by by eapply descends_world.
    split; [done|]. intros m.
    unfold changeParentFrame, Entity_changeParentFrame, isWorld,
      bind, ret, deref, modify, nonnull.
    rewrite dependsOn_self.
    destruct Hpar as [Hp|Hp];
      repeat (first [rewrite lookup_insert_eq | rewrite HF | rewrite Hq
                    | rewrite Hw1 | rewrite Hp | progress simpl]);
      eexists _, _; (split; [reflexivity|]); simpl;
      rewrite ?lookup_insert_eq; done.
Qed.

End Reparenting.

(** ** Destruction *)
Section Destruction.
Context `{SA : SpatialAlgebra}.
Implicit Types (s : Store) (E : Entity).

Lemma steps_at_refl r s : (∀ x, Reflexive (r x)) → steps_at r s s.
Proof. intros Hr. split; [|done]. intros p E HE. exists E. split; [done|apply Hr]. Qed.

Lemma steps_at_trans r s1 s2 s3 :
  (∀ x, Transitive (r x)) →
  steps_at r s1 s2 → steps_at r s2 s3 → steps_at r s1 s3.
Proof.
  intros Hr (H1 & W1 & D1) (H2 & W2 & D2). split; [|split; congruence].
  intros p E HE. destruct (H1 _ _ HE) as (E' & HE' & ?).
  destruct (H2 _ _ HE') as (E'' & HE'' & ?). exists E''. split; [done|].
  by eapply Hr.
Qed.

Lemma keeps_at_ret {A} r (a : A) : (∀ x, Reflexive (r x)) → keeps_at r (ret a).
Proof. intros Hr s b s' [_ <-]%ret_Ok. by apply steps_at_refl. Qed.

Lemma keeps_at_bind {A B} r (m : M A) (k : A → M B) :
  (∀ x, Transitive (r x)) →
  keeps_at r m → (∀ a, keeps_at r (k a)) → keeps_at r (bind m k).
Proof.
  intros Hr Hm Hk s b s' (a & s1 & H1 & H2)%bind_Ok.
  eapply steps_at_trans; [done|by eapply Hm|by eapply Hk].
Qed.

Lemma keeps_at_deref r p : (∀ x, Reflexive (r x)) → keeps_at r (deref p).
Proof. intros Hr s E s' [_ ->]%deref_Ok. by apply steps_at_refl. Qed.

Lemma keeps_at_nonnull r o : (∀ x, Reflexive (r x)) → keeps_at r (nonnull o).
Proof. intros Hr s E s' [_ ->]%nonnull_Ok. by apply steps_at_refl. Qed.

Lemma keeps_at_isWorld r p : (∀ x, Reflexive (r x)) → keeps_at r (isWorld p).
Proof. intros Hr s b s' (? & _ & _ & ->)%isWorld_Ok. by apply steps_at_refl. Qed.

Lemma keeps_at_modify r p f :
  (∀ x, Reflexive (r x)) → (∀ E, r p E (f E)) → keeps_at r (modify p f).
Proof.
  intros Hr Hf s u s' (E & HE & ->)%modify_Ok. split; [|done].
  intros q Eq Hq. simpl. destruct (decide (p = q)) as [->|Hne].
  - rewrite lookup_insert_eq. simplify_eq. eauto.
  - rewrite lookup_insert_ne by done. exists Eq. split; [done|apply Hr].
Qed.

Lemma keeps_at_dtwarn r a b : (∀ x, Reflexive (r x)) → keeps_at r (dtwarn a b).
Proof.
  intros Hr s u s' H. unfold dtwarn in H. simplify_eq. split; [|done].
  intros p E HE. exists E. split; [done|apply Hr].
Qed.

Lemma dependsOn_state n e f s b s' : dependsOn n e f s = Ok b s' → s' = s.
Proof.
  revert e s. induction n as [|n IH]; intros e s H; simpl in H.
  - destruct (decide (e = f)); [by apply ret_Ok in H as [_ ->]|done].
  - destruct (decide (e = f)); [by apply ret_Ok in H as [_ ->]|].
    apply bind_Ok in H as (E & s0 & [HE ->]%deref_Ok & H).
    destruct (mAmWorld E); [by apply ret_Ok in H as [_ ->]|].
    destruct (mParentFrame E); [by eapply IH|by apply ret_Ok in H as [_ ->]].
Qed.

Lemma keeps_at_dependsOn r n e f :
  (∀ x, Reflexive (r x)) → keeps_at r (dependsOn n e f).
Proof.
  intros Hr s b s' ->%dependsOn_state. by apply steps_at_refl.
Qed.

Global Instance reparented_refl c W x : Reflexive (reparented c W x).
Proof. intros E. repeat split; try done; try set_solver; by left. Qed.

Global Instance reparented_trans c W x : Transitive (reparented c W x).
Proof.
  intros E1 E2 E3 (?&?&?&?&Hc&Hf&Hp) (?&?&?&?&Hc'&Hf'&Hp').
  do 4 (split; [congruence|]).
  split; [clear -Hc Hc'; set_solver|]. split; [clear -Hf Hf'; set_solver|].
  destruct Hp' as [Hp'|[-> Hp']]; [|by right].
  destruct Hp as [Hp|[-> Hp]]; [left|right]; split_and?; congruence.
Qed.

Lemma keeps_at_Entity_changeParentFrame c W :
  keeps_at (reparented c W) (Entity_changeParentFrame c (Some W)).
Proof.
  unfold Entity_changeParentFrame.
  apply keeps_at_bind; [apply _|apply keeps_at_deref, _|intros E].
  apply keeps_at_bind; [apply _| |intros _].
  { destruct (mAmQuiet E); [apply keeps_at_ret, _|].
    destruct (mParentFrame E); [|apply keeps_at_ret, _].
    apply keeps_at_modify; [apply _|]. intros E0.
    repeat split; simpl; try done; try set_solver; by left. }
  apply keeps_at_bind; [apply _| |intros _].
  { apply keeps_at_modify; [apply _|]. intros E0.
    repeat split; simpl; try done; try set_solver; by right. }
  destruct (mAmQuiet E); [apply keeps_at_ret, _|].
  apply keeps_at_modify; [apply _|]. intros E0.
  repeat split; simpl; try done; try set_solver; by left.
Qed.

Lemma keeps_at_changeParentFrame n c W :
  keeps_at (reparented c W) (changeParentFrame n c (Some W)).
Proof.
  unfold changeParentFrame.
  apply keeps_at_bind; [apply _| |intros refused].
  { apply keeps_at_bind; [apply _|apply keeps_at_dependsOn, _|intros d].
    destruct d; [|apply keeps_at_ret, _].
    apply keeps_at_bind; [apply _|apply keeps_at_isWorld, _|intros w1].
    apply keeps_at_bind; [apply _|apply keeps_at_isWorld, _|intros w2].
    apply keeps_at_ret, _. }
  destruct refused; [apply keeps_at_dtwarn, _|].
  apply keeps_at_bind; [apply _|apply keeps_at_deref, _|intros E].
  apply keeps_at_bind; [apply _| |intros _].
  { destruct (mParentFrame E); [|apply keeps_at_ret, _].
    apply keeps_at_modify; [apply _|]. intros E0.
    repeat split; simpl; try done; try set_solver; by left. }
  apply keeps_at_bind; [apply _|apply keeps_at_Entity_changeParentFrame|intros _].
  apply keeps_at_bind; [apply _|apply keeps_at_deref, _|intros E'].
  destruct (mAmQuiet E'); [apply keeps_at_ret, _|].
  apply keeps_at_bind; [apply _|apply keeps_at_nonnull, _|intros p].
  apply keeps_at_modify; [apply _|]. intros E0.
  repeat split; simpl; try done; try set_solver; by left.
Qed.

Lemma keeps_at_virtual n c W :
  keeps_at (reparented c W) (Entity_changeParentFrame_virtual n c (Some W)).
Proof.
  unfold Entity_changeParentFrame_virtual.
  apply keeps_at_bind; [apply _|apply keeps_at_deref, _|intros E].
  destruct (kind E);
    [apply keeps_at_Entity_changeParentFrame|apply keeps_at_changeParentFrame].
Qed.

(** Run straight-line code on a state whose objects are known. *)
Ltac run_with lookups :=
  repeat first
    [ rewrite lookup_insert_eq
    | rewrite lookup_insert_ne by congruence
    | lookups
    | progress simpl ].

Lemma dependsOn_world n W c s EW :
  heap s !! W = Some EW → mAmWorld EW = true → W ≠ c →
  dependsOn (S n) W c s = Ok false s.
Proof.
  intros HEW Hw Hne. simpl. rewrite decide_False by done.
  by rewrite (bind_run _ _ _ _ _ (deref_run _ _ _ HEW)), Hw.
Qed.

#[local] Arguments dependsOn : simpl never.

(** One turn of the loop of the destructor: the child [c] of [F] is
    reparented to the World frame. *)
Lemma reparent_child n F W c s EW Ec EF :
  world s = Some W → heap s !! W = Some EW → mAmWorld EW = true →
  heap s !! c = Some Ec → mParentFrame Ec = Some F → mAmWorld Ec = false →
  heap s !! F = Some EF → mAmWorld EF = false → c ≠ F →
  ∃ s' Ec',
    (do W <- World; Entity_changeParentFrame_virtual (S n) c (Some W)) s
      = Ok tt s' ∧
    heap s' !! c = Some Ec' ∧ mParentFrame Ec' = Some W ∧
    steps_at (reparented c W) s s'.
Proof.
  intros HW HEW HwW Hc Hp Hwc HF HwF HcF.
  assert (c ≠ W) by congruence. assert (F ≠ W) by congruence.
  assert (HWorld : World s = Ok W s) by (unfold World; by rewrite HW).
  rewrite (bind_run _ _ _ _ _ HWorld).
  cut (∃ s' Ec', Entity_changeParentFrame_virtual (S n) c (Some W) s = Ok tt s' ∧
                 heap s' !! c = Some Ec' ∧ mParentFrame Ec' = Some W).
  { intros (s' & Ec' & Hrun & ? & ?). exists s', Ec'. split; [done|].
    split; [done|]. split; [done|]. by eapply keeps_at_virtual. }
  unfold Entity_changeParentFrame_virtual, changeParentFrame,
    Entity_changeParentFrame, isWorld, bind, ret, deref, modify, nonnull.
  rewrite Hc. simpl.
  destruct (kind Ec), (mAmQuiet Ec) eqn:Hq;
    run_with ltac:(first [rewrite Hc | rewrite HEW | rewrite HF | rewrite Hp
                         | rewrite Hq | rewrite HwW
                         | rewrite (dependsOn_world n W c s EW) by congruence ]);
    eexists _, _; (split; [reflexivity|]); simpl;
    run_with ltac:(fail); done.
Qed.

Lemma steps_at_lookup r s s' p E :
  steps_at r s s' → heap s !! p = Some E →
  ∃ E', heap s' !! p = Some E' ∧ r p E E'.
Proof. intros [H _]. apply H. Qed.

Lemma dtor_loop n F W todo :
  NoDup todo → ∀ s,
  world s = Some W →
  (∃ EW, heap s !! W = Some EW ∧ mAmWorld EW = true) →
  (∃ EF, heap s !! F = Some EF ∧ mAmWorld EF = false) →
  (∀ c, c ∈ todo → c ≠ F ∧ ∃ Ec, heap s !! c = Some Ec ∧
                     mParentFrame Ec = Some F ∧ mAmWorld Ec = false) →
  ∃ s', forEach todo
          (fun c => do W <- World;
                    Entity_changeParentFrame_virtual (S n) c (Some W)) s
        = Ok tt s' ∧
        steps_at (loop_rel todo W) s s'.
Proof.
  induction 1 as [|c l Hcl Hnd IH]; intros s HW (EW & HEW & HwW) (EF & HF & HwF) Hch.
  { exists s. split; [done|]. split; [|done]. intros p E HE. exists E.
    split; [done|]. repeat split; auto. }
  destruct (Hch c) as (HcF & Ec & Hc & Hpc & Hwc); [by left|].
  destruct (reparent_child n F W c s EW Ec EF) as (s1 & Ec' & Hrun & Hc' & Hpc' & Hst);
    try done.
  destruct (steps_at_lookup _ _ _ _ _ Hst HEW) as (EW1 & HEW1 & (HwW1 & _)).
  destruct (steps_at_lookup _ _ _ _ _ Hst HF) as (EF1 & HF1 & (HwF1 & _)).
  destruct (IH s1) as (s' & Hrun' & Hst').
  - destruct Hst as (_ & -> & _). done.
  - exists EW1. split; [done|congruence].
  - exists EF1. split; [done|congruence].
  - intros c' Hc'l. destruct (Hch c') as (? & Ec0 & Hc0 & Hp0 & Hw0); [by right|].
    split; [done|].
    destruct (steps_at_lookup _ _ _ _ _ Hst Hc0) as (E1 & HE1 & (Hw1&_&_&_&_&_&Hp1)).
    exists E1. split; [done|]. split; [|congruence].
    destruct Hp1 as [Hp1|[-> _]]; [congruence|done].
  - exists s'. split; [simpl; by rewrite (bind_run _ _ _ _ _ Hrun)|].
    destruct Hst as (Hst & HW1 & HD1), Hst' as (Hst' & HW' & HD').
    split; [|split; congruence].
    intros x E HE. destruct (Hst _ _ HE) as (E1 & HE1 & (Hw1&_&_&Hv1&Hce1&Hcf1&Hp1)).
    destruct (Hst' _ _ HE1) as (E' & HE' & (Hw'&Hv'&Hce'&Hcf'&Hp')).
    exists E'. split; [done|]. split; [congruence|]. split; [congruence|].
    split; [|split].
    + intros y Hy. destruct (Hce' y Hy) as [Hy1|?]; [|by right; right].
      apply Hce1 in Hy1. set_unfold. destruct Hy1 as [? | ->]; [by left|by right; left].
    + intros y Hy. destruct (Hcf' y Hy) as [Hy1|?]; [|by right; right].
      apply Hcf1 in Hy1. set_unfold. destruct Hy1 as [? | ->]; [by left|by right; left].
    + destruct (decide (x = c)) as [->|Hxc].
      * rewrite decide_True by by left. rewrite decide_False in Hp' by done.
        rewrite HE1 in Hc'. congruence.
      * destruct (decide (x ∈ l)) as [Hxl|Hxl].
        { rewrite decide_True by by right. done. }
        rewrite decide_False by (intros [?|?]%elem_of_cons; done).
        destruct Hp1 as [Hp1|[? _]]; [congruence|done].
Qed.

(** The first step of the destructor: the frame leaves its parent. *)
Lemma detach n F s EF :
  heap s !! F = Some EF → mAmQuiet EF = false →
  (∀ p, mParentFrame EF = Some p → p ≠ F ∧ is_Some (heap s !! p)) →
  ∃ s1, changeParentFrame n F None s = Ok tt s1 ∧
    world s1 = world s ∧ deleted s1 = deleted s ∧
    heap s1 !! F = Some (set_parent None EF) ∧
    ∀ x E, heap s !! x = Some E → x ≠ F →
      ∃ E1, heap s1 !! x = Some E1 ∧
        mAmWorld E1 = mAmWorld E ∧ mParentFrame E1 = mParentFrame E ∧
        mChildEntities E1 ⊆ mChildEntities E ∧
        mChildFrames E1 ⊆ mChildFrames E ∧
        (mParentFrame EF = Some x →
         (F ∉ mChildEntities E1) ∧ (F ∉ mChildFrames E1)).
Proof.
  intros HF Hq Hpar.
  unfold changeParentFrame, Entity_changeParentFrame,
    bind, ret, deref, modify, nonnull.
  rewrite HF. destruct (mParentFrame EF) as [p|] eqn:Hp.
  - destruct (Hpar p eq_refl) as (HpF & EP & HP).
    run_with ltac:(first [rewrite HF | rewrite HP | rewrite Hq | rewrite Hp]).
    eexists. split; [reflexivity|]. simpl.
    split; [done|]. split; [done|]. split; [by rewrite lookup_insert_eq|].
    intros x E HE HxF. rewrite lookup_insert_ne by done.
    destruct (decide (p = x)) as [->|Hpx].
    + rewrite lookup_insert_eq. eexists; split; [done|]. simpl.
      simplify_eq. repeat split; try done; set_solver.
    + rewrite !lookup_insert_ne by done. exists E.
      repeat split; try done; intros; simplify_eq.
  - run_with ltac:(first [rewrite HF | rewrite Hq | rewrite Hp]).
    eexists. split; [reflexivity|]. simpl.
    split; [done|]. split; [done|]. split; [by rewrite lookup_insert_eq|].
    intros x E HE HxF. rewrite lookup_insert_ne by done. exists E.
    repeat split; try done.
Qed.

(** C9 (amended). Destroying a frame that is not the World frame detaches
    it from its parent, makes the World frame the parent of every entity of
    its child-entity set, and releases its shapes; afterwards the entities
    that refer to the frame are exactly those that referred to it without
    being in its child-entity set, so that no entity refers to it where
    there was none of these.  Destroying the World frame does nothing. *)
Theorem Frame_dtor_reparents n s F W EF EW :
  heap s !! F = Some EF → mAmWorld EF = false → mAmQuiet EF = false →
  world s = Some W → heap s !! W = Some EW → mAmWorld EW = true →
  (∀ p, mParentFrame EF = Some p → p ≠ F ∧ is_Some (heap s !! p)) →
  (∀ c, c ∈ mChildEntities EF →
        c ≠ F ∧ ∃ Ec, heap s !! c = Some Ec ∧
                      mParentFrame Ec = Some F ∧ mAmWorld Ec = false) →
  Frame_dtor n W s = Ok tt s ∧
  ∃ s', Frame_dtor (S n) F s = Ok tt s' ∧
    (∃ EF', heap s' !! F = Some EF' ∧
            mParentFrame EF' = None ∧ mVizShapes EF' = []) ∧
    deleted s' = deleted s ++ mVizShapes EF ∧
    (∀ p EP, mParentFrame EF = Some p → heap s !! p = Some EP →
       ∃ EP', heap s' !! p = Some EP' ∧
              (F ∉ mChildEntities EP') ∧ (F ∉ mChildFrames EP')) ∧
    (∀ c, c ∈ mChildEntities EF →
       ∃ Ec', heap s' !! c = Some Ec' ∧ mParentFrame Ec' = Some W) ∧
    (∀ e Ee, heap s !! e = Some Ee →
       ∃ Ee', heap s' !! e = Some Ee' ∧
         (mParentFrame Ee' = Some F ↔
          e ≠ F ∧ mParentFrame Ee = Some F ∧ e ∉ mChildEntities EF)) ∧
    ((∀ e Ee, heap s !! e = Some Ee → mParentFrame Ee = Some F →
              e ∈ mChildEntities EF) →
     ∀ e Ee, heap s !! e = Some Ee →
       ∃ Ee', heap s' !! e = Some Ee' ∧ mParentFrame Ee' ≠ Some F).
Proof.
  intros HF HwF Hq HW HEW HwW Hpar Hch.
  assert (HFW : F ≠ W) by congruence.
  split.
  { unfold Frame_dtor, isWorld, bind, deref, ret. by rewrite HEW, HwW. }
  destruct (detach (S n) F s EF HF Hq Hpar) as (s1 & Hrun1 & HW1 & HD1 & HF1 & Hoth).
  destruct (Hoth _ _ HEW) as (EW1 & HEW1 & HwW1 & _); [done|].
  destruct (dtor_loop n F W (elements (mChildEntities EF)) (NoDup_elements _) s1)
    as (s2 & Hrun2 & Hst2 & HW2 & HD2).
  { congruence. }
  { exists EW1. split; [done|congruence]. }
  { eexists. split; [done|]. done. }
  { intros c Hc%elem_of_elements.
    destruct (Hch c Hc) as (HcF & Ec & HEc & Hpc & Hwc).
    split; [done|]. destruct (Hoth _ _ HEc HcF) as (E1 & HE1 & ? & ? & _).
    exists E1. split; [done|]. split; congruence. }
  destruct (Hst2 _ _ HF1) as (EF2 & HF2 & (_ & Hv2 & _ & _ & Hp2)).
  rewrite decide_False in Hp2
    by (intros Hin%elem_of_elements; by destruct (Hch F Hin)).
  simpl in Hv2, Hp2.
  eexists. split.
  { unfold Frame_dtor.
    assert (Hiw : isWorld F s = Ok false s)
      by (apply isWorld_Ok; exists EF; by rewrite HwF).
    rewrite (bind_run _ _ _ _ _ Hiw), (bind_run _ _ _ _ _ Hrun1).
    rewrite (bind_run _ _ _ _ _ (deref_run _ _ _ HF1)). simpl.
    rewrite (bind_run _ _ _ _ _ Hrun2).
    rewrite (bind_run _ _ _ _ _ (deref_run _ _ _ HF2)).
    unfold bind, delete_shapes, modify. simpl. rewrite HF2. reflexivity. }
  simpl.
  assert (Hrefs : ∀ e Ee, heap s !! e = Some Ee →
    ∃ Ee', <[F := clear_vizShapes EF2]> (heap s2) !! e = Some Ee' ∧
      (mParentFrame Ee' = Some F ↔
       e ≠ F ∧ mParentFrame Ee = Some F ∧ e ∉ mChildEntities EF)).
  { intros e Ee He. destruct (decide (e = F)) as [->|HeF].
    { rewrite lookup_insert_eq. eexists. split; [done|]. simpl.
      split; [by rewrite Hp2|by intros []]. }
    rewrite lookup_insert_ne by done.
    destruct (Hoth _ _ He HeF) as (E1 & HE1 & _ & Hp1 & _).
    destruct (Hst2 _ _ HE1) as (E2 & HE2 & (_ & _ & _ & _ & Hp)).
    exists E2. split; [done|].
    destruct (decide (e ∈ elements (mChildEntities EF))) as [Hin|Hin].
    - rewrite Hp. split; [intros [=]; congruence|].
      intros (_ & _ & Hnin). by apply elem_of_elements in Hin.
    - rewrite Hp, Hp1. split; [|by intros (_ & ? & _)].
      intros HpF. split; [done|]. split; [done|].
      intros Hc. by apply Hin, elem_of_elements. }
  split; [|split; [|split; [|split; [|split]]]].
  - eexists. rewrite lookup_insert_eq. split; [done|]. by simpl.
  - by rewrite HD2, HD1, Hv2.
  - intros p EP Hp HP. destruct (Hpar p Hp) as (HpF & _).
    rewrite lookup_insert_ne by done.
    destruct (Hoth _ _ HP HpF) as (E1 & HE1 & _ & _ & _ & _ & Hno).
    destruct (Hno Hp) as [Hno1 Hno2].
    destruct (Hst2 _ _ HE1) as (E2 & HE2 & (_ & _ & Hce & Hcf & _)).
    exists E2. split; [done|]. split.
    + intros [?|Hin%elem_of_elements]%Hce; [done|]. by destruct (Hch F Hin).
    + intros [?|Hin%elem_of_elements]%Hcf; [done|]. by destruct (Hch F Hin).
  - intros c Hc. destruct (Hch c Hc) as (HcF & Ec & HEc & _).
    rewrite lookup_insert_ne by done.
    destruct (Hoth _ _ HEc HcF) as (E1 & HE1 & _).
    destruct (Hst2 _ _ HE1) as (E2 & HE2 & (_ & _ & _ & _ & Hp)).
    rewrite decide_True in Hp by by apply elem_of_elements. eauto.
  - done.
  - intros Hreg e Ee He.
    destruct (Hrefs e Ee He) as (Ee' & He' & Hiff). exists Ee'. split; [done|].
    intros (_ & Hp & Hnin)%Hiff. by apply Hnin, (Hreg e Ee).
Qed.

End Destruction.

(** ** The World frame *)
Section WorldInvariant.
Context `{SA : SpatialAlgebra}.
Implicit Types (s : Store) (E : Entity).

(** *** Getters only cache *)

Lemma caching_ret {A} (a : A) : caching (ret a).
Proof. intros s b s' [_ <-]%ret_Ok. split; [apply extends_refl|done]. Qed.

Lemma caching_bind {A B} (m : M A) (k : A → M B) :
  caching m → (∀ a, caching (k a)) → caching (bind m k).
Proof.
  intros Hm Hk s b s' (a & s1 & H1 & H2)%bind_Ok.
  destruct (Hm _ _ _ H1), (Hk _ _ _ _ H2).
  split; [by eapply extends_trans|congruence].
Qed.

Lemma caching_isWorld p : caching (isWorld p).
Proof.
  intros s b s' (? & _ & _ & ->)%isWorld_Ok. split; [apply extends_refl|done].
Qed.

Lemma getWorldTransform_world n f s T s' :
  getWorldTransform n f s = Ok T s' → world s' = world s.
Proof.
  revert f s T s'. induction n as [|n IH]; intros f s T s' H; [done|].
  simpl in H. minv. destruct (mAmWorld _); minv; [done|].
  destruct (mNeedTransformUpdate _); minv; [|done].
  simpl. by eapply IH.
Qed.

Lemma getSpatialVelocity_world n f s V s' :
  getSpatialVelocity n f s = Ok V s' → world s' = world s.
Proof.
  revert f s V s'. induction n as [|n IH]; intros f s V s' H; [done|].
  simpl in H. minv. destruct (mAmWorld _); minv; [done|].
  destruct (mNeedVelocityUpdate _); minv; [|done].
  simpl. match goal with H : getSpatialVelocity _ _ _ = _ |- _ =>
    by rewrite (IH _ _ _ _ H) end.
Qed.

Lemma getSpatialAcceleration_world n f s V s' :
  getSpatialAcceleration n f s = Ok V s' → world s' = world s.
Proof.
  revert f s V s'. induction n as [|n IH]; intros f s V s' H; [done|].
  simpl in H. minv. destruct (mAmWorld _); minv; [done|].
  destruct (mNeedAccelerationUpdate _); minv; [|done].
  simpl. match goal with H : getSpatialAcceleration _ _ _ = _ |- _ =>
    by rewrite (IH _ _ _ _ H) end.
Qed.

Lemma caching_getWorldTransform n f : caching (getWorldTransform n f).
Proof.
  intros s T s' H. split; [|by eapply getWorldTransform_world].
  by destruct (tracks_complete _ _ (tracks_getWorldTransform f) _ _ _ _ H).
Qed.

Lemma caching_getSpatialVelocity n f : caching (getSpatialVelocity n f).
Proof.
  intros s T s' H. split; [|by eapply getSpatialVelocity_world].
  by destruct (tracks_complete _ _ (tracks_getSpatialVelocity f) _ _ _ _ H).
Qed.

Lemma caching_getSpatialAcceleration n f : caching (getSpatialAcceleration n f).
Proof.
  intros s T s' H. split; [|by eapply getSpatialAcceleration_world].
  by destruct (tracks_complete _ _ (tracks_getSpatialAcceleration f) _ _ _ _ H).
Qed.

Lemma caching_getTransform n f g : caching (getTransform n f g).
Proof.
  unfold getTransform. apply caching_bind; [apply caching_isWorld|intros w].
  destruct w; [apply caching_getWorldTransform|].
  intros s T s' (E & s0 & [HE ->]%deref_Ok & H)%bind_Ok.
  destruct (decide _).
  - apply getRelativeTransform_Ok in H as (? & _ & _ & ->).
    split; [by eapply extends_heap; [apply extends_refl|]|done].
  - revert H. apply caching_bind; [apply caching_getWorldTransform|intros Tw].
    apply caching_bind; [apply caching_getWorldTransform|intros Tt].
    apply caching_ret.
Qed.

Lemma caching_getSpatialVelocity_rel n f g h :
  caching (getSpatialVelocity_rel n f g h).
Proof.
  unfold getSpatialVelocity_rel.
  repeat first [apply caching_ret | apply caching_getTransform
               | apply caching_getSpatialVelocity
               | apply caching_bind; [|intros ?] ].
Qed.

Lemma caching_getSpatialAcceleration_rel n f g h :
  caching (getSpatialAcceleration_rel n f g h).
Proof.
  unfold getSpatialAcceleration_rel.
  repeat first [apply caching_ret | apply caching_getSpatialVelocity_rel
               | apply caching_getTransform | apply caching_getSpatialVelocity
               | apply caching_getSpatialAcceleration
               | apply caching_bind; [|intros ?] ].
Qed.

Lemma caching_getter fuel op :
  match op with
  | OpWorld | OpNotify _ | OpChangeParentFrame _ _ | OpDestroy _ => True
  | _ => caching (exec fuel op)
  end.
Proof.
  destruct op; try done; unfold exec, discard,
    getSpatialVelocity_in, getSpatialAcceleration_in,
    getLinearVelocity, getAngularVelocity,
    getLinearAcceleration, getAngularAcceleration;
  repeat first [apply caching_ret | apply caching_getSpatialVelocity_rel
               | apply caching_getSpatialAcceleration_rel
               | apply caching_getTransform | apply caching_getSpatialVelocity
               | apply caching_getSpatialAcceleration
               | apply caching_getWorldTransform | apply caching_isWorld
               | apply caching_bind; [|intros ?]
               | match goal with
                 | |- caching (if ?b then _ else _) => destruct b
                 end ].
Qed.

(** *** Reparenting and destruction leave flags and caches alone *)

Lemma keeps_dependsOn r n e f : Reflexive r → keeps r (dependsOn n e f).
Proof. intros Hr s b s' ->%dependsOn_state. by apply steps_to_refl. Qed.

Ltac same_kinematics_fields :=
  intros ?; repeat split; done.

Lemma keeps_Entity_changeParentFrame e p :
  keeps same_kinematics (Entity_changeParentFrame e p).
Proof.
  unfold Entity_changeParentFrame.
  apply keeps_bind; [apply _|apply keeps_deref, _|intros E].
  apply keeps_bind; [apply _| |intros _].
  { destruct (mAmQuiet E); [apply keeps_ret, _|].
    destruct (mParentFrame E); [|apply keeps_ret, _].
    apply keeps_modify; [apply _|same_kinematics_fields]. }
  apply keeps_bind; [apply _| |intros _].
  { apply keeps_modify; [apply _|same_kinematics_fields]. }
  destruct (mAmQuiet E); [apply keeps_ret, _|].
  destruct p; [|apply keeps_ret, _].
  apply keeps_modify; [apply _|same_kinematics_fields].
Qed.

Lemma keeps_changeParentFrame n e p :
  keeps same_kinematics (changeParentFrame n e p).
Proof.
  unfold changeParentFrame.
  apply keeps_bind; [apply _| |intros refused].
  { destruct p; [|apply keeps_ret, _].
    apply keeps_bind; [apply _|apply keeps_dependsOn, _|intros d].
    destruct d; [|apply keeps_ret, _].
    apply keeps_bind; [apply _|apply keeps_isWorld, _|intros w1].
    apply keeps_bind; [apply _|apply keeps_isWorld, _|intros w2].
    apply keeps_ret, _. }
  destruct refused.
  { destruct p; [apply keeps_dtwarn, _|apply keeps_ret, _]. }
  apply keeps_bind; [apply _|apply keeps_deref, _|intros E].
  apply keeps_bind; [apply _| |intros _].
  { destruct (mParentFrame E); [|apply keeps_ret, _].
    apply keeps_modify; [apply _|same_kinematics_fields]. }
  destruct p; [|apply keeps_Entity_changeParentFrame].
  apply keeps_bind; [apply _|apply keeps_Entity_changeParentFrame|intros _].
  apply keeps_bind; [apply _|apply keeps_deref, _|intros E'].
  destruct (mAmQuiet E'); [apply keeps_ret, _|].
  apply keeps_bind; [apply _|apply keeps_nonnull, _|intros q].
  apply keeps_modify; [apply _|same_kinematics_fields].
Qed.

Lemma keeps_virtual n e p :
  keeps same_kinematics (Entity_changeParentFrame_virtual n e p).
Proof.
  unfold Entity_changeParentFrame_virtual.
  apply keeps_bind; [apply _|apply keeps_deref, _|intros E].
  destruct (kind E);
    [apply keeps_Entity_changeParentFrame|apply keeps_changeParentFrame].
Qed.

Lemma keeps_World : keeps same_kinematics World.
Proof.
  intros s w s' H. unfold World in H.
  destruct (world s) as [w0|] eqn:Hw.
  { simplify_eq. by apply steps_to_refl, _. }
  apply bind_Ok in H as (w1 & s1 & H1 & H2).
  apply bind_Ok in H2 as ([] & s2 & H2 & [<- <-]%ret_Ok).
  unfold set_world in H2. simplify_eq.
  unfold WorldFrame_ctor in H1.
  apply bind_Ok in H1 as ([] & s2 & H1 & [<- <-]%ret_Ok).
  apply keeps_changeParentFrame in H1. destruct H1 as [H1 _].
  split; [|by rewrite Hw]. intros p E HE. simpl.
  apply H1. simpl. rewrite lookup_insert_ne; [done|].
  intros <-. by rewrite (not_elem_of_dom_1 _ _ (is_fresh (dom (heap s)))) in HE.
Qed.

Lemma keeps_Frame_dtor n f : keeps same_kinematics (Frame_dtor n f).
Proof.
  unfold Frame_dtor.
  apply keeps_bind; [apply _|apply keeps_isWorld, _|intros w].
  destruct w; [apply keeps_ret, _|].
  apply keeps_bind; [apply _|apply keeps_changeParentFrame|intros _].
  apply keeps_bind; [apply _|apply keeps_deref, _|intros E].
  apply keeps_bind; [apply _| |intros _].
  { apply keeps_forEach; [apply _..|]. intros c _.
    apply keeps_bind; [apply _|apply keeps_World|intros W].
    apply keeps_virtual. }
  apply keeps_bind; [apply _|apply keeps_deref, _|intros E'].
  apply keeps_bind; [apply _|apply keeps_delete_shapes, _|intros _].
  apply keeps_modify; [apply _|same_kinematics_fields].
Qed.

(** *** Every operation is safe for the World frame *)

Lemma caching_world_safe {A} (m : M A) : caching m → keeps world_safe m.
Proof.
  intros Hm s a s' H. destruct (Hm _ _ _ H) as [Hext Hw].
  split; [|by intros ?; rewrite Hw]. intros p E HE.
  destruct (extends_lookup _ _ _ _ Hext HE) as (E' & HE' & Hst & Ht & Hv & Ha).
  destruct (structure_fields _ _ Hst) as (Hw' & _).
  exists E'. split; [done|]. split; [done|]. intros HwE.
  destruct Ht as [[_ Ht]|(? & _)]; [|congruence].
  destruct Hv as [[_ Hv]|(? & _)]; [|congruence].
  destruct Ha as [[_ Ha]|(? & _)]; [|congruence]. done.
Qed.

Lemma keeps_exec fuel op : keeps world_safe (exec fuel op).
Proof.
  pose proof (caching_getter fuel op) as Hg.
  destruct op; try (by apply caching_world_safe).
  - unfold exec, discard.
    apply keeps_bind; [apply _| |intros; apply keeps_ret, _].
    eapply keeps_weaken; [apply same_kinematics_world_safe|apply keeps_World].
  - destruct op; simpl; (eapply keeps_weaken; [apply raised_world_safe|]).
    + apply keeps_notifyTransformUpdate.
    + apply keeps_notifyVelocityUpdate.
    + apply keeps_notifyAccelerationUpdate.
  - eapply keeps_weaken; [apply same_kinematics_world_safe|apply keeps_virtual].
  - eapply keeps_weaken; [apply same_kinematics_world_safe|apply keeps_Frame_dtor].
Qed.

Lemma keeps_run l : keeps world_safe (run l).
Proof.
  apply keeps_forEach; [apply _..|]. intros [fuel op] _. apply keeps_exec.
Qed.

(** The World frame answers from its caches, whatever its flags. *)
Lemma world_inv_queries w s :
  world_inv w s →
  World s = Ok w s ∧
  (∀ m, getWorldTransform (S m) w s = Ok Identity s) ∧
  (∀ m, getSpatialVelocity (S m) w s = Ok Zero s) ∧
  (∀ m, getSpatialAcceleration (S m) w s = Ok Zero s).
Proof.
  intros (Hw & E & HE & HwE & HT & HV & HA). split; [|split; [|split]].
  - unfold World. by rewrite Hw.
  - intros m. simpl. by rewrite (bind_run _ _ _ _ _ (deref_run _ _ _ HE)), HwE, HT.
  - intros m. simpl. by rewrite (bind_run _ _ _ _ _ (deref_run _ _ _ HE)), HwE, HV.
  - intros m. simpl. by rewrite (bind_run _ _ _ _ _ (deref_run _ _ _ HE)), HwE, HA.
Qed.

(** C8. Once the World frame is constructed, [Frame::World()] returns
    the same frame in every state reached by notifications, reparenting,
    destruction and queries, and that frame's pose is the identity and
    its velocity and acceleration are zero. *)
Theorem World_invariant w s0 l s :
  world_inv w s0 → run l s0 = Ok tt s →
  world_inv w s ∧
  World s = Ok w s ∧
  (∀ m, getWorldTransform (S m) w s = Ok Identity s) ∧
  (∀ m, getSpatialVelocity (S m) w s = Ok Zero s) ∧
  (∀ m, getSpatialAcceleration (S m) w s = Ok Zero s).
Proof.
  intros Hinv Hrun.
  assert (Hinv' : world_inv w s).
  { destruct Hinv as (Hw & E & HE & HwE & HT & HV & HA).
    destruct (keeps_run _ _ _ _ Hrun) as [Hh Hworld].
    destruct (Hh _ _ HE) as (E' & HE' & HwE' & Hc).
    destruct (Hc HwE) as (? & ? & ?).
    split; [by apply Hworld|]. exists E'. repeat split; congruence. }
  split; [done|]. by apply world_inv_queries.
Qed.

(** The first call of [Frame::World()] establishes the invariant. *)
Lemma World_first_call s :
  world s = None → ∃ w s', World s = Ok w s' ∧ world_inv w s'.
Proof.
  intros Hw. set (w := fresh (dom (heap s))).
  exists w. eexists. split.
  - unfold World. rewrite Hw. unfold WorldFrame_ctor. fold w.
    unfold changeParentFrame, Entity_changeParentFrame, isWorld, set_world,
      bind, ret, deref, modify, nonnull, dependsOn.
    rewrite decide_True by done. simpl.
    repeat (first [rewrite lookup_insert_eq | progress simpl]).
    reflexivity.
  - split; [done|]. simpl. rewrite lookup_insert_eq. eexists. split; [done|].
    by repeat split.
Qed.

End WorldInvariant.

(** ** The caches hold what the primitives give *)
Section Coherence.
Context `{SA : SpatialAlgebra}.
Implicit Types (s : Store) (E : Entity) (Q : Quantity).

Lemma freshOf_S Q n s f :
  freshOf Q (S n) s f =
  match heap s !! f with
  | None => None
  | Some E =>
      if mAmWorld E then Some (qCache Q E)
      else match mParentFrame E with
           | None => None
           | Some p => match freshOf Q n s p with
                       | None => None
                       | Some v => Some (qStep Q E v)
                       end
           end
  end.
Proof. done. Qed.

Lemma freshOf_mono Q n m s f v :
  freshOf Q n s f = Some v → n ≤ m → freshOf Q m s f = Some v.
Proof.
  revert m f v. induction n as [|n IH]; intros m f v H Hle; [discriminate|].
  destruct m as [|m]; [lia|]. rewrite freshOf_S in *.
  destruct (heap s !! f) as [E|]; [|done].
  destruct (mAmWorld E); [done|].
  destruct (mParentFrame E) as [p|]; [|done].
  destruct (freshOf Q n s p) as [vp|] eqn:Hp; [|done].
  by rewrite (IH m p vp Hp) by lia.
Qed.

Lemma structure_kind E E' : same_structure E E' → kind E' = kind E.
Proof. unfold same_structure, structure. congruence. Qed.

Lemma structure_children E E' :
  same_structure E E' → mChildEntities E' = mChildEntities E.
Proof. unfold same_structure, structure. congruence. Qed.

(** Caching does not change what the primitives give. *)
Lemma freshOf_extends Q n s s' f :
  structural Q → extendsQ Q s s' → freshOf Q n s' f = freshOf Q n s f.
Proof.
  intros HQ Hext. revert f. induction n as [|n IH]; intros f; [done|].
  rewrite !freshOf_S. specialize (Hext f) as Hf.
  destruct (heap s !! f) as [E|], (heap s' !! f) as [E'|]; try done.
  destruct Hf as [Hst Hc].
  pose proof (structure_fields _ _ Hst) as (-> & -> & _).
  destruct (mAmWorld E) eqn:Hw.
  { destruct Hc as [[_ ->]|(? & _)]; [done|congruence]. }
  destruct (mParentFrame E) as [p|]; [|done].
  rewrite IH. destruct (freshOf Q n s p); [|done]. by rewrite (HQ _ _ Hst).
Qed.

(** In a coherent state what a getter denotes is what the primitives
    give. *)
Lemma valueOf_fresh Q n s f E v :
  parents_are_frames s → coherentQ Q s →
  heap s !! f = Some E → kind E = FrameKind →
  valueOf Q n s f = Some v → ∃ m, freshOf Q m s f = Some v.
Proof.
  intros Hty Hco. revert f E v. induction n as [|n IH]; intros f E v HE Hk H;
    [discriminate|].
  rewrite valueOf_S, HE in H.
  destruct (mAmWorld E) eqn:Hw.
  { exists 1. simpl. rewrite HE, Hw. done. }
  destruct (qDirty Q E) eqn:Hd.
  - destruct (mParentFrame E) as [p|] eqn:Hp; [|done].
    destruct (valueOf Q n s p) as [vp|] eqn:Hvp; [|done].
    assert (∃ Ep, heap s !! p = Some Ep) as (Ep & HEp).
    { destruct n; [done|]. rewrite valueOf_S in Hvp.
      destruct (heap s !! p); [eauto|done]. }
    destruct (IH p Ep vp HEp (Hty _ _ _ _ HE Hp HEp) Hvp) as (m & Hm).
    exists (S m). rewrite freshOf_S, HE, Hw, Hp, Hm. done.
  - injection H as <-. by apply Hco.
Qed.

Lemma parents_are_frames_extends s s' :
  extends s s' → parents_are_frames s → parents_are_frames s'.
Proof.
  intros Hext Hty c Ec' p Ep' Hc Hp HEp.
  destruct (extends_lookup_inv _ _ _ _ Hext Hc) as (Ec & HEc & Hst).
  destruct (extends_lookup_inv _ _ _ _ Hext HEp) as (Ep & HEp0 & Hstp).
  pose proof (structure_fields _ _ Hst) as (_ & Hpar & _).
  rewrite (structure_kind _ _ Hstp). eapply Hty; [exact HEc| |exact HEp0]. congruence.
Qed.

Lemma registered_extends s s' :
  extends s s' → registered s → registered s'.
Proof.
  intros Hext Hreg c Ec' p Hc Hw Hp.
  destruct (extends_lookup_inv _ _ _ _ Hext Hc) as (Ec & HEc & Hst).
  pose proof (structure_fields _ _ Hst) as (Hw' & Hpar & _).
  destruct (Hreg c Ec p HEc) as (Ep & HEp & Hin); [congruence..|].
  destruct (extends_lookup _ _ _ _ Hext HEp) as (Ep' & HEp' & Hstp & _).
  exists Ep'. split; [done|].
  by rewrite (structure_children _ _ Hstp).
Qed.

Lemma coherentQ_extends Q s s' :
  structural Q → parents_are_frames s → coherentQ Q s → extendsQ Q s s' →
  coherentQ Q s'.
Proof.
  intros HQ Hty Hco Hext f E' HE' Hk Hw Hd.
  destruct (extendsQ_lookup_inv _ _ _ _ _ Hext HE') as (E & HE & Hst & Hc).
  pose proof (structure_fields _ _ Hst) as (HwE & _).
  pose proof (structure_kind _ _ Hst) as HkE.
  assert (∃ n, freshOf Q n s f = Some (qCache Q E')) as (n & Hn).
  { destruct Hc as [[Hd' Hc]|(_ & _ & _ & k & Hk')].
    - rewrite Hc. apply Hco; congruence.
    - eapply valueOf_fresh; eauto. congruence. }
  exists n. by rewrite (freshOf_extends _ _ _ _ _ HQ Hext).
Qed.

Lemma coherentQ_heap Q s s' :
  heap s' = heap s → coherentQ Q s → coherentQ Q s'.
Proof.
  intros Hh Hco f E HE Hk Hw Hd. rewrite Hh in HE.
  destruct (Hco f E HE Hk Hw Hd) as (n & Hn). exists n. rewrite <- Hn.
  clear -Hh. revert f. induction n as [|n IH]; intros f; [done|].
  rewrite !freshOf_S, Hh. destruct (heap s !! f) as [E|]; [|done].
  destruct (mAmWorld E); [done|]. destruct (mParentFrame E); [|done].
  by rewrite IH.
Qed.

Lemma freshOf_live Q n s f v :
  freshOf Q n s f = Some v → ∃ E, heap s !! f = Some E.
Proof.
  destruct n; [done|]. rewrite freshOf_S. destruct (heap s !! f); [eauto|done].
Qed.

Lemma fresh_valueOf Q m s f E v :
  parents_are_frames s → coherentQ Q s →
  heap s !! f = Some E → kind E = FrameKind →
  freshOf Q m s f = Some v → ∃ n, valueOf Q n s f = Some v.
Proof.
  intros Hty Hco. revert f E v. induction m as [|m IH]; intros f E v HE Hk H;
    [discriminate|].
  pose proof H as Hfull. rewrite freshOf_S, HE in H.
  destruct (mAmWorld E) eqn:Hw.
  { exists 1. simpl. by rewrite HE, Hw. }
  destruct (qDirty Q E) eqn:Hd.
  - destruct (mParentFrame E) as [p|] eqn:Hp; [|done].
    destruct (freshOf Q m s p) as [vp|] eqn:Hvp; [|done].
    destruct (freshOf_live _ _ _ _ _ Hvp) as (Ep & HEp).
    destruct (IH p Ep vp HEp (Hty _ _ _ _ HE Hp HEp) Hvp) as (n & Hn).
    exists (S n). by rewrite valueOf_S, HE, Hw, Hd, Hp, Hn.
  - destruct (Hco f E HE Hk Hw Hd) as (k & Hk').
    apply freshOf_mono with (m := k `max` S m) in Hk'; [|lia].
    apply freshOf_mono with (m := k `max` S m) in Hfull; [|lia].
    exists 1. simpl. rewrite HE, Hw, Hd. congruence.
Qed.

(** A cached getter, in a coherent state, returns what the primitives give
    and leaves a coherent state. *)
Lemma tracked_fresh Q (g : Id → nat → M (qT Q)) f s E :
  structural Q → (∀ s s', extends s s' → extendsQ Q s s') →
  (∀ f, tracks (g f) (fun n s => valueOf Q n s f)) →
  parents_are_frames s → coherentQ Q s →
  heap s !! f = Some E → kind E = FrameKind →
  (∀ v, returns (g f) s v ↔ ∃ m, freshOf Q m s f = Some v) ∧
  (∀ n v s', g f n s = Ok v s' → parents_are_frames s' ∧ coherentQ Q s').
Proof.
  intros HQ Hsel Hg Hty Hco HE Hk. split.
  - intros v. rewrite (tracks_returns _ _ _ _ (Hg f)). split.
    + intros (n & Hn). by eapply valueOf_fresh.
    + intros (m & Hm). by eapply fresh_valueOf.
  - intros n v s' Hrun.
    destruct (tracks_complete _ _ (Hg f) _ _ _ _ Hrun) as (Hext & _).
    split; [by eapply parents_are_frames_extends|].
    eapply coherentQ_extends; eauto.
Qed.

(** X1. Where every clean frame holds the pose composed from the relative
    transforms along its parent chain, [getWorldTransform] of a frame
    returns exactly that composition for the frame, whatever is cached and
    whichever flags are set, and the caches it fills keep the state
    coherent. *)
Theorem getWorldTransform_fresh f s E :
  parents_are_frames s → coherentQ transformQ s →
  heap s !! f = Some E → kind E = FrameKind →
  (∀ T, returns (fun n => getWorldTransform n f) s T ↔
        ∃ m, freshOf transformQ m s f = Some T) ∧
  (∀ n T s', getWorldTransform n f s = Ok T s' →
             parents_are_frames s' ∧ coherentQ transformQ s').
Proof.
  apply (tracked_fresh transformQ (fun f n => getWorldTransform n f)).
  - apply structural_transformQ.
  - by intros ?? (? & _).
  - apply tracks_getWorldTransform.
Qed.

(** X2. The same for the spatial velocity and the spatial acceleration:
    in a coherent state the getters return the values composed from the
    primitives along the parent chain, and leave a coherent state. *)
Theorem getSpatialVelocity_fresh f s E :
  parents_are_frames s → heap s !! f = Some E → kind E = FrameKind →
  (coherentQ velocityQ s →
   (∀ V, returns (fun n => getSpatialVelocity n f) s V ↔
         ∃ m, freshOf velocityQ m s f = Some V) ∧
   (∀ n V s', getSpatialVelocity n f s = Ok V s' →
              parents_are_frames s' ∧ coherentQ velocityQ s')) ∧
  (coherentQ accelerationQ s →
   (∀ A, returns (fun n => getSpatialAcceleration n f) s A ↔
         ∃ m, freshOf accelerationQ m s f = Some A) ∧
   (∀ n A s', getSpatialAcceleration n f s = Ok A s' →
              parents_are_frames s' ∧ coherentQ accelerationQ s')).
Proof.
  intros Hty HE Hk. split; intros Hco.
  - apply (tracked_fresh velocityQ (fun f n => getSpatialVelocity n f) f s E);
      try done.
    + apply structural_velocityQ.
    + by intros ?? (_ & ? & _).
    + apply tracks_getSpatialVelocity.
  - apply (tracked_fresh accelerationQ (fun f n => getSpatialAcceleration n f) f s E);
      try done.
    + apply structural_accelerationQ.
    + by intros ?? (_ & _ & ?).
    + apply tracks_getSpatialAcceleration.
Qed.

End Coherence.

(** ** States with the same objects *)
Section Evolves.
Context `{SA : SpatialAlgebra}.
Implicit Types (s : Store) (E : Entity) (r : Entity → Entity → Prop).

Lemma evolves_refl r s : Reflexive r → evolves r s s.
Proof. intros Hr x. by destruct (heap s !! x). Qed.

Lemma evolves_trans r s1 s2 s3 :
  Transitive r → evolves r s1 s2 → evolves r s2 s3 → evolves r s1 s3.
Proof.
  intros Hr H1 H2 x. specialize (H1 x). specialize (H2 x).
  destruct (heap s1 !! x), (heap s2 !! x), (heap s3 !! x); try done.
  by etransitivity.
Qed.

Lemma evolves_weaken r r' s s' :
  (∀ E E', r E E' → r' E E') → evolves r s s' → evolves r' s s'.
Proof.
  intros Hr H x. specialize (H x).
  destruct (heap s !! x), (heap s' !! x); auto.
Qed.

Lemma evolves_heap r s s' : Reflexive r → heap s' = heap s → evolves r s s'.
Proof. intros Hr Hh x. rewrite Hh. by destruct (heap s !! x). Qed.

Lemma evolves_lookup r s s' x E :
  evolves r s s' → heap s !! x = Some E → ∃ E', heap s' !! x = Some E' ∧ r E E'.
Proof.
  intros H HE. specialize (H x). rewrite HE in H.
  destruct (heap s' !! x) as [E'|]; [eauto|done].
Qed.

Lemma evolves_lookup_inv r s s' x E' :
  evolves r s s' → heap s' !! x = Some E' → ∃ E, heap s !! x = Some E ∧ r E E'.
Proof.
  intros H HE. specialize (H x). rewrite HE in H.
  destruct (heap s !! x) as [E|]; [eauto|done].
Qed.

Lemma evolves_insert r s x E E' :
  Reflexive r → heap s !! x = Some E → r E E' →
  evolves r s (set_heap (<[x := E']> (heap s)) s).
Proof.
  intros Hr HE HEE y. simpl. destruct (decide (x = y)) as [<-|].
  - by rewrite lookup_insert_eq, HE.
  - rewrite lookup_insert_ne by done. by destruct (heap s !! y).
Qed.

Lemma changes_ret {A} r (a : A) : Reflexive r → changes r (ret a).
Proof. intros Hr s b s' [_ <-]%ret_Ok. by apply evolves_refl. Qed.

Lemma changes_fail {A} r e : changes r (fail (A := A) e).
Proof. by intros s b s' ?. Qed.

Lemma changes_bind {A B} r (m : M A) (k : A → M B) :
  Transitive r → changes r m → (∀ a, changes r (k a)) → changes r (bind m k).
Proof.
  intros Hr Hm Hk s b s' (a & s1 & H1 & H2)%bind_Ok.
  eapply evolves_trans; [done|by eapply Hm|by eapply Hk].
Qed.

Lemma changes_deref r p : Reflexive r → changes r (deref p).
Proof. intros Hr s E s' [_ ->]%deref_Ok. by apply evolves_refl. Qed.

Lemma changes_nonnull r o : Reflexive r → changes r (nonnull o).
Proof. intros Hr s E s' [_ ->]%nonnull_Ok. by apply evolves_refl. Qed.

Lemma changes_isWorld r p : Reflexive r → changes r (isWorld p).
Proof. intros Hr s b s' (? & _ & _ & ->)%isWorld_Ok. by apply evolves_refl. Qed.

Lemma changes_getParentFrame r p : Reflexive r → changes r (getParentFrame p).
Proof.
  intros Hr s b s' (? & _ & _ & ->)%getParentFrame_Ok. by apply evolves_refl.
Qed.

Lemma changes_getRelativeTransform r p :
  Reflexive r → changes r (getRelativeTransform p).
Proof.
  intros Hr s b s' (? & _ & _ & ->)%getRelativeTransform_Ok.
  by apply evolves_heap.
Qed.

Lemma changes_primitive r (get : Entity → Vector6d) p :
  Reflexive r → changes r (do E <- deref p; ret (get E)).
Proof. intros Hr s b s' (? & _ & _ & ->)%primitive_Ok. by apply evolves_refl. Qed.

Lemma changes_modify r p f :
  Reflexive r → (∀ E, r E (f E)) → changes r (modify p f).
Proof.
  intros Hr Hf s u s' (E & HE & ->)%modify_Ok. by eapply evolves_insert.
Qed.

Lemma changes_forEach {A} r (l : list A) body :
  Reflexive r → Transitive r →
  (∀ x, x ∈ l → changes r (body x)) → changes r (forEach l body).
Proof.
  intros Hr Ht. induction l as [|x l IH]; intros Hb; simpl.
  - by apply changes_ret.
  - apply changes_bind; [done|apply Hb; left|intros _].
    apply IH. intros y Hy. apply Hb. by right.
Qed.

Lemma changes_weaken {A} r r' (m : M A) :
  (∀ E E', r E E' → r' E E') → changes r m → changes r' m.
Proof. intros Hr Hm s a s' H. eapply evolves_weaken; eauto. Qed.

Lemma changes_notifyAccelerationUpdate n f :
  changes (raised false false true) (notifyAccelerationUpdate n f).
Proof.
  revert f. induction n as [|n IH]; intros f; simpl; [apply changes_fail|].
  apply changes_bind; [apply _|apply changes_deref, _|intros E].
  destruct (kind E).
  - apply changes_modify; [apply _|apply raised_mark_acceleration].
  - destruct (mNeedAccelerationUpdate E); [apply changes_ret, _|].
    apply changes_bind; [apply _| |intros _].
    + apply changes_modify; [apply _|apply raised_mark_acceleration].
    + apply changes_forEach; [apply _..|]. intros; apply IH.
Qed.

Lemma changes_notifyVelocityUpdate n f :
  changes (raised false true true) (notifyVelocityUpdate n f).
Proof.
  revert f. induction n as [|n IH]; intros f; simpl; [apply changes_fail|].
  apply changes_bind; [apply _|apply changes_deref, _|intros E].
  destruct (kind E).
  - apply changes_modify; [apply _|apply raised_mark_velocity].
  - apply changes_bind; [apply _| |intros _].
    { eapply changes_weaken; [|apply (changes_notifyAccelerationUpdate (S n))].
      intros ??. by apply raised_weaken. }
    apply changes_bind; [apply _|apply changes_deref, _|intros E1].
    destruct (mNeedVelocityUpdate E1); [apply changes_ret, _|].
    apply changes_bind; [apply _| |intros _].
    + apply changes_modify; [apply _|apply raised_mark_velocity].
    + apply changes_forEach; [apply _..|]. intros; apply IH.
Qed.

Lemma changes_notifyTransformUpdate n f :
  changes (raised true true true) (notifyTransformUpdate n f).
Proof.
  revert f. induction n as [|n IH]; intros f; simpl; [apply changes_fail|].
  apply changes_bind; [apply _|apply changes_deref, _|intros E].
  destruct (kind E).
  - apply changes_modify; [apply _|apply raised_mark_transform].
  - apply changes_bind; [apply _| |intros _].
    { eapply changes_weaken; [|apply (changes_notifyVelocityUpdate (S n))].
      intros ??. by apply raised_weaken. }
    apply changes_bind; [apply _|apply changes_deref, _|intros E1].
    destruct (mNeedTransformUpdate E1); [apply changes_ret, _|].
    apply changes_bind; [apply _| |intros _].
    + apply changes_modify; [apply _|apply raised_mark_transform].
    + apply changes_forEach; [apply _..|]. intros; apply IH.
Qed.

End Evolves.

(** ** Invalidation reaches every stale cache *)
Section Invalidation.
Context `{SA : SpatialAlgebra}.
Implicit Types (s : Store) (E : Entity) (Q : Quantity).

Lemma flag_step_true may b b' : flag_step may b b' → b = true → b' = true.
Proof. unfold flag_step. destruct may; [auto|congruence]. Qed.

Lemma flagged_transformQ : flagged transformQ.
Proof. intros mt mv ma E E' (_&_&_&_&H&_) Hd. exact (flag_step_true _ _ _ H Hd). Qed.
Lemma flagged_velocityQ : flagged velocityQ.
Proof. intros mt mv ma E E' (_&_&_&_&_&H&_) Hd. exact (flag_step_true _ _ _ H Hd). Qed.
Lemma flagged_accelerationQ : flagged accelerationQ.
Proof. intros mt mv ma E E' (_&_&_&_&_&_&H) Hd. exact (flag_step_true _ _ _ H Hd). Qed.

Lemma raised_fields mt mv ma E E' :
  raised mt mv ma E E' →
  kind E' = kind E ∧ mParentFrame E' = mParentFrame E ∧
  mAmWorld E' = mAmWorld E ∧ mChildEntities E' = mChildEntities E.
Proof.
  intros (Hst & _). destruct (structure_fields _ _ Hst) as (? & ? & _).
  by rewrite (structure_kind _ _ Hst), (structure_children _ _ Hst).
Qed.

Lemma dirtyAt_evolves Q s s' c :
  flagged Q → evolves (raised true true true) s s' →
  dirtyAt Q s c → dirtyAt Q s' c.
Proof.
  intros HQ Hst (E & HE & Hd).
  destruct (evolves_lookup _ _ _ _ _ Hst HE) as (E' & HE' & Hr).
  exists E'. split; [done|]. by eapply HQ.
Qed.

Lemma saturated_refl Q s : saturated Q s s.
Proof.
  split; [apply evolves_refl, _|]. intros p Ep Ep' c Ec' H1 H2 H3 H4. congruence.
Qed.

Lemma saturated_trans Q s1 s2 s3 :
  flagged Q → saturated Q s1 s2 → saturated Q s2 s3 → saturated Q s1 s3.
Proof.
  intros HQ [Hst1 H1] [Hst2 H2].
  split; [eapply evolves_trans; [apply _|done..]|].
  intros p Ep Ep3 c Ec3 HEp Hd HEp3 Hd3 HEc3 Hw Hpar.
  destruct (evolves_lookup _ _ _ _ _ Hst1 HEp) as (Ep2 & HEp2 & Hr2).
  destruct (qDirty Q Ep2) eqn:Hd2.
  - destruct (evolves_lookup_inv _ _ _ _ _ Hst2 HEc3) as (Ec2 & HEc2 & Hr3).
    destruct (raised_fields _ _ _ _ _ Hr3) as (_ & Hpar3 & Hw3 & _).
    eapply HQ; [exact Hr3|].
    eapply (H1 p Ep Ep2 c Ec2); eauto; congruence.
  - by eapply (H2 p Ep2 Ep3 c Ec3).
Qed.

(** A step that sets no flag of the quantity. *)
Lemma saturated_unchanged Q s s' :
  evolves (fun E E' => raised true true true E E' ∧ qDirty Q E' = qDirty Q E) s s' →
  saturated Q s s'.
Proof.
  intros H. split; [eapply evolves_weaken; [|exact H]; by intros ?? []|].
  intros p Ep Ep' c Ec' HEp Hd HEp' Hd' _ _ _.
  destruct (evolves_lookup _ _ _ _ _ H HEp) as (E1 & ? & _ & Heq). simplify_eq.
  congruence.
Qed.

Global Instance saturated_reflexive Q : Reflexive (saturated Q).
Proof. intros s. apply saturated_refl. Qed.

Lemma shaped_same_shape s s' :
  evolves same_shape s s' → shaped s → shaped s'.
Proof.
  intros Hev [Hty Hreg]. split.
  - intros c Ec' p Ep' Hc Hp HEp.
    destruct (evolves_lookup_inv _ _ _ _ _ Hev Hc) as (Ec & HEc & Hrc).
    destruct (evolves_lookup_inv _ _ _ _ _ Hev HEp) as (Ep & HEp0 & Hrp).
    destruct Hrc as (_ & Hpar & _). destruct Hrp as (Hk & _).
    rewrite Hk. eapply Hty; [exact HEc| |exact HEp0]. congruence.
  - intros c Ec' p Hc Hw Hp.
    destruct (evolves_lookup_inv _ _ _ _ _ Hev Hc) as (Ec & HEc & Hrc).
    destruct Hrc as (_ & Hpar & Hw' & _).
    destruct (Hreg c Ec p HEc) as (Ep & HEp & Hin); [congruence..|].
    destruct (evolves_lookup _ _ _ _ _ Hev HEp) as (Ep' & HEp' & Hrp).
    destruct Hrp as (_ & _ & _ & Hch).
    exists Ep'. split; [done|]. by rewrite Hch.
Qed.

Lemma shaped_evolves mt mv ma s s' :
  evolves (raised mt mv ma) s s' → shaped s → shaped s'.
Proof.
  intros Hev. apply shaped_same_shape.
  eapply evolves_weaken; [|exact Hev]. intros E E'. apply raised_fields.
Qed.

Lemma saturated_evolves Q s s' :
  saturated Q s s' → evolves (raised true true true) s s'.
Proof. by intros []. Qed.

(** A loop whose turns are related by a preorder. *)
Lemma forEach_rel {A} (R : Store → Store → Prop) (I : Store → Prop)
    (l : list A) body :
  Reflexive R → Transitive R →
  (∀ x s1 s2, x ∈ l → I s1 → body x s1 = Ok tt s2 → R s1 s2 ∧ I s2) →
  ∀ s s', I s → forEach l body s = Ok tt s' → R s s' ∧ I s'.
Proof.
  intros Hr Ht. induction l as [|x l IH]; intros Hb s s' HI H; simpl in H.
  - by apply ret_Ok in H as [_ <-].
  - apply bind_Ok in H as ([] & s1 & H1 & H2).
    destruct (Hb x s s1) as [HR1 HI1]; [by left|done..|].
    destruct (IH (fun y s1 s2 Hy => Hb y s1 s2 ltac:(by right)) _ _ HI1 H2)
      as [HR2 HI2].
    split; [by etransitivity|done].
Qed.

(** What each turn establishes for its element still holds at the end. *)
Lemma forEach_each {A} (R : Store → Store → Prop) (I : Store → Prop)
    (P : A → Store → Prop) (l : list A) body :
  (∀ x s1 s2, x ∈ l → I s1 → body x s1 = Ok tt s2 → R s1 s2 ∧ I s2 ∧ P x s2) →
  (∀ x s1 s2, P x s1 → R s1 s2 → P x s2) →
  ∀ s s', I s → forEach l body s = Ok tt s' → ∀ x, x ∈ l → P x s'.
Proof.
  intros Hb HP. revert Hb. induction l as [|x l IH]; intros Hb s s' HI H y Hy.
  { by apply elem_of_nil in Hy. }
  simpl in H. apply bind_Ok in H as ([] & s1 & H1 & H2).
  destruct (Hb x s s1) as (HR1 & HI1 & HP1); [by left|done..|].
  assert (Hb' : ∀ z s1 s2, z ∈ l → I s1 → body z s1 = Ok tt s2 →
                           R s1 s2 ∧ I s2 ∧ P z s2).
  { intros z ?? Hz. apply Hb. by right. }
  apply elem_of_cons in Hy as [->|Hy]; [|by eapply IH].
  cut (I s' ∧ P x s'); [by intros []|].
  revert H2. apply (forEach_invariant (fun s => I s ∧ P x s)); [|done].
  intros z s2 s3 Hz [HI2 HP2] Hrun.
  destruct (Hb' z s2 s3) as (HR3 & HI3 & _); [done..|]. eauto.
Qed.

Lemma saturated_transitive Q : flagged Q → Transitive (saturated Q).
Proof. intros HQ s1 s2 s3. by apply saturated_trans. Qed.

Lemma evolves_mark (mark : Entity → Entity) f E s :
  heap s !! f = Some E → (∀ E, raised true true true E (mark E)) →
  evolves (raised true true true) s (set_heap (<[f := mark E]> (heap s)) s).
Proof. intros HE Hm. eapply evolves_insert; [apply _|done|apply Hm]. Qed.

(** An entity that is not a frame has no children. *)
Lemma mark_plain Q (mark : Entity → Entity) f E s :
  shaped s → heap s !! f = Some E → kind E = PlainEntity →
  (∀ E, raised true true true E (mark E)) →
  saturated Q s (set_heap (<[f := mark E]> (heap s)) s).
Proof.
  intros [Hty _] HE Hk Hm. split; [by apply evolves_mark|].
  intros p Ep Ep' c Ec' HEp Hd HEp' Hd' HEc' Hw Hpar. exfalso. simpl in *.
  destruct (decide (f = p)) as [<-|Hne].
  - assert (∃ Ec, heap s !! c = Some Ec ∧ mParentFrame Ec = Some f) as (Ec & HEc & Hp).
    { destruct (decide (f = c)) as [<-|].
      - rewrite lookup_insert_eq in HEc'. simplify_eq. exists E. split; [done|].
        destruct (raised_fields _ _ _ _ _ (Hm E)) as (_ & <- & _). done.
      - rewrite lookup_insert_ne in HEc' by done. eauto. }
    pose proof (Hty _ _ _ _ HEc Hp HE). congruence.
  - rewrite lookup_insert_ne in HEp' by done. congruence.
Qed.

(** A frame sets its flag and notifies its child entities. *)
Lemma mark_then_loop Q (mark : Entity → Entity) f E body s s' :
  flagged Q → shaped s → heap s !! f = Some E →
  (∀ E, raised true true true E (mark E)) → (∀ E, qDirty Q (mark E) = true) →
  (∀ x s1 s2, shaped s1 → body x s1 = Ok tt s2 →
     saturated Q s1 s2 ∧ shaped s2 ∧ dirtyAt Q s2 x) →
  forEach (elements (mChildEntities E)) body
    (set_heap (<[f := mark E]> (heap s)) s) = Ok tt s' →
  saturated Q s s' ∧ dirtyAt Q s' f ∧ shaped s'.
Proof.
  intros HQ Hsh HE Hm Hd Hb H.
  set (sa := set_heap (<[f := mark E]> (heap s)) s) in *.
  assert (Hev0 : evolves (raised true true true) s sa) by by apply evolves_mark.
  assert (Hsha : shaped sa) by by eapply shaped_evolves.
  destruct (forEach_rel (saturated Q) shaped _ body _ (saturated_transitive Q HQ)
              (fun x s1 s2 _ Hs Hr =>
                 let '(conj a (conj b _)) := Hb x s1 s2 Hs Hr in conj a b)
              sa s' Hsha H) as [Hsat Hsh'].
  assert (Hall : ∀ x, x ∈ elements (mChildEntities E) → dirtyAt Q s' x).
  { eapply (forEach_each (saturated Q) shaped (fun x s => dirtyAt Q s x));
      [| |exact Hsha|exact H].
    - intros x s1 s2 _ Hs Hr. destruct (Hb x s1 s2 Hs Hr) as (?&?&?). done.
    - intros x s1 s2 Hx [Hev _]. by eapply dirtyAt_evolves. }
  destruct Hsat as [Hev Hnew].
  assert (Hev' : evolves (raised true true true) s s')
    by (eapply evolves_trans; [apply _|done..]).
  split; [|split; [|done]].
  - split; [done|].
    intros p Ep Ep' c Ec' HEp Hdp HEp' Hdp' HEc' Hw Hpar.
    destruct (decide (f = p)) as [<-|Hne].
    + destruct (evolves_lookup_inv _ _ _ _ _ Hev' HEc') as (Ec & HEc & Hrc).
      destruct (raised_fields _ _ _ _ _ Hrc) as (_ & Hpar' & Hw' & _).
      destruct Hsh as [_ Hreg].
      destruct (Hreg c Ec f HEc) as (Ef & HEf & Hin); [congruence..|].
      simplify_eq.
      destruct (Hall c) as (Ec2 & HEc2 & Hdc); [by apply elem_of_elements|].
      congruence.
    + eapply (Hnew p Ep Ep' c Ec'); eauto.
      subst sa. simpl. by rewrite lookup_insert_ne.
  - eapply dirtyAt_evolves; [done|exact Hev|].
    exists (mark E). subst sa. simpl. by rewrite lookup_insert_eq.
Qed.

(** The same loop, seen from a quantity whose flag the frame does not
    set. *)
Lemma mark_then_loop_other Q (mark : Entity → Entity) f E (l : list Id) body s s' :
  flagged Q → shaped s → heap s !! f = Some E →
  (∀ E, raised true true true E (mark E)) → (∀ E, qDirty Q (mark E) = qDirty Q E) →
  (∀ x s1 s2, shaped s1 → body x s1 = Ok tt s2 → saturated Q s1 s2 ∧ shaped s2) →
  forEach l body (set_heap (<[f := mark E]> (heap s)) s) = Ok tt s' →
  saturated Q s s'.
Proof.
  intros HQ Hsh HE Hm Hd Hb H.
  set (sa := set_heap (<[f := mark E]> (heap s)) s) in *.
  assert (Hev0 : evolves (raised true true true) s sa) by by apply evolves_mark.
  assert (Hsha : shaped sa) by by eapply shaped_evolves.
  destruct (forEach_rel (saturated Q) shaped l body _ (saturated_transitive Q HQ)
              (fun x s1 s2 _ Hs Hr => Hb x s1 s2 Hs Hr) sa s' Hsha H) as [Hsat _].
  eapply saturated_trans; [done| |exact Hsat].
  apply saturated_unchanged. subst sa.
  eapply evolves_insert; [|done|split; [apply Hm|apply Hd]].
  by intros ?.
Qed.

Lemma notifyAccelerationUpdate_saturated n f s s' :
  shaped s → notifyAccelerationUpdate n f s = Ok tt s' →
  saturated accelerationQ s s' ∧ shaped s' ∧ dirtyAt accelerationQ s' f.
Proof.
  revert f s s'. induction n as [|n IH]; intros f s s' Hsh H; [done|].
  simpl in H. apply bind_Ok in H as (E & s0 & [HE ->]%deref_Ok & H).
  destruct (kind E) eqn:Hk.
  - apply modify_Ok in H as (E0 & HE0 & ->). simplify_eq.
    split; [|split].
    + eapply mark_plain; eauto. intros; apply raised_mark_acceleration.
    + eapply shaped_evolves; [|done]. apply evolves_mark; [done|].
      intros; apply raised_mark_acceleration.
    + exists (mark_acceleration E). simpl. by rewrite lookup_insert_eq.
  - destruct (mNeedAccelerationUpdate E) eqn:Hd.
    { apply ret_Ok in H as [_ <-]. split; [apply saturated_refl|].
      split; [done|]. by exists E. }
    apply bind_Ok in H as ([] & s1 & (E0 & HE0 & ->)%modify_Ok & H). simplify_eq.
    destruct (mark_then_loop accelerationQ mark_acceleration f E
                (notifyAccelerationUpdate n) s s'
                flagged_accelerationQ Hsh HE) as (?&?&?); done.
Qed.

Lemma raised_velocity_same E E' :
  raised false false true E E' →
  raised true true true E E' ∧ qDirty velocityQ E' = qDirty velocityQ E.
Proof.
  intros Hr. split; [eapply raised_weaken; [..|exact Hr]; done|].
  destruct Hr as (_&_&_&_&_&H&_). exact H.
Qed.

Lemma raised_transform_same E E' :
  raised false true true E E' →
  raised true true true E E' ∧ qDirty transformQ E' = qDirty transformQ E.
Proof.
  intros Hr. split; [eapply raised_weaken; [..|exact Hr]; done|].
  destruct Hr as (_&_&_&_&H&_). exact H.
Qed.

Lemma notifyVelocityUpdate_saturated n f s s' :
  shaped s → notifyVelocityUpdate n f s = Ok tt s' →
  saturated velocityQ s s' ∧ saturated accelerationQ s s' ∧ shaped s' ∧
  dirtyAt velocityQ s' f.
Proof.
  revert f s s'. induction n as [|n IH]; intros f s s' Hsh H; [done|].
  rewrite notifyVelocityUpdate_S in H.
  apply bind_Ok in H as (E & s0 & [HE ->]%deref_Ok & H).
  destruct (kind E) eqn:Hk.
  - apply modify_Ok in H as (E0 & HE0 & ->). simplify_eq.
    assert (Hm : ∀ E, raised true true true E (mark_velocity E))
      by (intros; apply raised_mark_velocity).
    split; [by eapply mark_plain|]. split; [by eapply mark_plain|]. split.
    + eapply shaped_evolves; [|done]. by apply evolves_mark.
    + exists (mark_velocity E). simpl. by rewrite lookup_insert_eq.
  - apply bind_Ok in H as ([] & s0 & Ha & H).
    destruct (notifyAccelerationUpdate_saturated _ _ _ _ Hsh Ha) as (HsA & Hsh0 & _).
    assert (HsV : saturated velocityQ s s0).
    { apply saturated_unchanged. eapply evolves_weaken; [apply raised_velocity_same|].
      by eapply changes_notifyAccelerationUpdate. }
    apply bind_Ok in H as (E1 & s1 & [HE1 ->]%deref_Ok & H).
    destruct (mNeedVelocityUpdate E1) eqn:Hd.
    { apply ret_Ok in H as [_ <-]. split; [done|]. split; [done|]. split; [done|].
      by exists E1. }
    apply bind_Ok in H as ([] & s1 & (E0 & HE0 & ->)%modify_Ok & H). simplify_eq.
    assert (Hm : ∀ E, raised true true true E (mark_velocity E))
      by (intros; apply raised_mark_velocity).
    destruct (mark_then_loop velocityQ mark_velocity f E1
                (notifyVelocityUpdate n) s0 s'
                flagged_velocityQ Hsh0 HE1 Hm) as (HsV' & Hdf & Hsh'); try done.
    { intros x s1 s2 Hs Hr. destruct (IH x s1 s2 Hs Hr) as (?&?&?&?). done. }
    assert (HsA' : saturated accelerationQ s0 s').
    { eapply (mark_then_loop_other accelerationQ mark_velocity f E1 _
                (notifyVelocityUpdate n) s0 s' flagged_accelerationQ Hsh0 HE1 Hm);
        [done| |exact H].
      intros x s1 s2 Hs Hr. destruct (IH x s1 s2 Hs Hr) as (?&?&?&?). done. }
    split; [by eapply saturated_trans; [apply flagged_velocityQ|..]|].
    split; [by eapply saturated_trans; [apply flagged_accelerationQ|..]|]. done.
Qed.

Lemma notifyTransformUpdate_saturated n f s s' :
  shaped s → notifyTransformUpdate n f s = Ok tt s' →
  saturated transformQ s s' ∧ saturated velocityQ s s' ∧
  saturated accelerationQ s s' ∧ shaped s' ∧ dirtyAt transformQ s' f.
Proof.
  revert f s s'. induction n as [|n IH]; intros f s s' Hsh H; [done|].
  rewrite notifyTransformUpdate_S in H.
  apply bind_Ok in H as (E & s0 & [HE ->]%deref_Ok & H).
  destruct (kind E) eqn:Hk.
  - apply modify_Ok in H as (E0 & HE0 & ->). simplify_eq.
    assert (Hm : ∀ E, raised true true true E (mark_transform E))
      by (intros; apply raised_mark_transform).
    split; [by eapply mark_plain|]. split; [by eapply mark_plain|].
    split; [by eapply mark_plain|]. split.
    + eapply shaped_evolves; [|done]. by apply evolves_mark.
    + exists (mark_transform E). simpl. by rewrite lookup_insert_eq.
  - apply bind_Ok in H as ([] & s0 & Hv & H).
    destruct (notifyVelocityUpdate_saturated _ _ _ _ Hsh Hv) as (HsV & HsA & Hsh0 & _).
    assert (HsT : saturated transformQ s s0).
    { apply saturated_unchanged. eapply evolves_weaken; [apply raised_transform_same|].
      by eapply changes_notifyVelocityUpdate. }
    apply bind_Ok in H as (E1 & s1 & [HE1 ->]%deref_Ok & H).
    destruct (mNeedTransformUpdate E1) eqn:Hd.
    { apply ret_Ok in H as [_ <-]. split; [done|]. split; [done|]. split; [done|].
      split; [done|]. by exists E1. }
    apply bind_Ok in H as ([] & s1 & (E0 & HE0 & ->)%modify_Ok & H). simplify_eq.
    assert (Hm : ∀ E, raised true true true E (mark_transform E))
      by (intros; apply raised_mark_transform).
    destruct (mark_then_loop transformQ mark_transform f E1
                (notifyTransformUpdate n) s0 s'
                flagged_transformQ Hsh0 HE1 Hm) as (HsT' & Hdf & Hsh'); try done.
    { intros x s1 s2 Hs Hr. destruct (IH x s1 s2 Hs Hr) as (?&?&?&?&?). done. }
    assert (HsV' : saturated velocityQ s0 s').
    { eapply (mark_then_loop_other velocityQ mark_transform f E1 _
                (notifyTransformUpdate n) s0 s' flagged_velocityQ Hsh0 HE1 Hm);
        [done| |exact H].
      intros x s1 s2 Hs Hr. destruct (IH x s1 s2 Hs Hr) as (?&?&?&?&?). done. }
    assert (HsA' : saturated accelerationQ s0 s').
    { eapply (mark_then_loop_other accelerationQ mark_transform f E1 _
                (notifyTransformUpdate n) s0 s' flagged_accelerationQ Hsh0 HE1 Hm);
        [done| |exact H].
      intros x s1 s2 Hs Hr. destruct (IH x s1 s2 Hs Hr) as (?&?&?&?&?). done. }
    split; [by eapply saturated_trans; [apply flagged_transformQ|..]|].
    split; [by eapply saturated_trans; [apply flagged_velocityQ|..]|].
    split; [by eapply saturated_trans; [apply flagged_accelerationQ|..]|]. done.
Qed.

(** *** Closure and coherence after a notification *)

Lemma closedQ_saturated Q s s' :
  flagged Q → closedQ Q s → saturated Q s s' → closedQ Q s'.
Proof.
  intros HQ Hcl [Hev Hnew] c Ec' p Ep' Hc Hwc Hpar Hp Hwp Hd.
  destruct (evolves_lookup_inv _ _ _ _ _ Hev Hc) as (Ec & HEc & Hrc).
  destruct (evolves_lookup_inv _ _ _ _ _ Hev Hp) as (Ep & HEp & Hrp).
  destruct (raised_fields _ _ _ _ _ Hrc) as (_ & Hparc & Hwc' & _).
  destruct (raised_fields _ _ _ _ _ Hrp) as (_ & _ & Hwp' & _).
  destruct (qDirty Q Ep) eqn:HdEp.
  - eapply HQ; [exact Hrc|].
    eapply (Hcl c Ec p Ep); eauto; try congruence.
  - by eapply (Hnew p Ep Ep' c Ec').
Qed.

(** A clean object of the later state, and all above it, kept their
    steps. *)
Lemma freshOf_updated Q s s' :
  closedQ Q s' → evolves (updatedQ Q) s s' →
  ∀ n f E' v, heap s' !! f = Some E' → mAmWorld E' = false →
    qDirty Q E' = false →
    freshOf Q n s f = Some v → freshOf Q n s' f = Some v.
Proof.
  intros Hcl Hev. induction n as [|n IH]; intros f E' v HE' Hw Hd H; [done|].
  destruct (evolves_lookup_inv _ _ _ _ _ Hev HE') as (E & HE & Hu).
  destruct Hu as (_ & Hpar & HwE & _ & _ & Hstep).
  destruct Hstep as [Hstep|?]; [|congruence].
  rewrite freshOf_S, HE in H. rewrite freshOf_S, HE', Hw, Hpar.
  rewrite <- HwE, Hw in H.
  destruct (mParentFrame E) as [p|] eqn:Hp; [|done].
  destruct (freshOf Q n s p) as [vp|] eqn:Hvp; [|done].
  injection H as <-. rewrite Hstep.
  cut (freshOf Q n s' p = Some vp); [by intros ->|].
  destruct (freshOf_live _ _ _ _ _ Hvp) as (Ep & HEp).
  destruct (evolves_lookup _ _ _ _ _ Hev HEp) as (Ep' & HEp' & Hup).
  destruct Hup as (_ & _ & HwEp & Hcache & _).
  destruct (mAmWorld Ep') eqn:Hwp.
  - destruct n; [done|]. rewrite freshOf_S, HEp in Hvp.
    rewrite freshOf_S, HEp', Hwp. rewrite <- HwEp in Hvp.
    simplify_eq. by rewrite Hcache.
  - apply (IH p Ep' vp HEp' Hwp); [|done].
    destruct (qDirty Q Ep') eqn:Hdp; [|done].
    rewrite <- Hd. symmetry.
    eapply (Hcl f E' p Ep'); eauto; try congruence.
Qed.

Lemma coherentQ_updated Q s s' :
  coherentQ Q s → closedQ Q s' → evolves (updatedQ Q) s s' → coherentQ Q s'.
Proof.
  intros Hco Hcl Hev f E' HE' Hk Hw Hd.
  destruct (evolves_lookup_inv _ _ _ _ _ Hev HE') as (E & HE & Hu).
  destruct Hu as (HkE & _ & HwE & Hcache & Hflag & _).
  destruct (Hco f E HE) as (n & Hn); try congruence.
  { destruct (qDirty Q E); [|done]. rewrite Hflag in Hd; done. }
  exists n. rewrite Hcache. by eapply freshOf_updated.
Qed.

Lemma memoized_transformQ : memoized transformQ.
Proof.
  split; [apply structural_transformQ|apply flagged_transformQ| |done].
  by intros mt mv ma E E' (_&?&_).
Qed.

Lemma memoized_velocityQ : memoized velocityQ.
Proof.
  split; [apply structural_velocityQ|apply flagged_velocityQ| |done].
  by intros mt mv ma E E' (_&_&?&_).
Qed.

Lemma memoized_accelerationQ : memoized accelerationQ.
Proof.
  split; [apply structural_accelerationQ|apply flagged_accelerationQ| |done].
  by intros mt mv ma E E' (_&_&_&?&_).
Qed.

Lemma same_shape_set_primitives T V A1 A2 E :
  same_shape E (set_primitives T V A1 A2 E).
Proof. done. Qed.

Global Instance same_shape_refl : Reflexive same_shape.
Proof. by intros E. Qed.

Lemma shaped_set_primitives T V A1 A2 F EF s :
  heap s !! F = Some EF → shaped s →
  shaped (set_heap (<[F := set_primitives T V A1 A2 EF]> (heap s)) s).
Proof.
  intros HF. apply shaped_same_shape.
  eapply evolves_insert; [apply _|done|apply same_shape_set_primitives].
Qed.

(** The primitives of [F] change, then a notification saturates the
    flags: the caches that are still clean are right. *)
Lemma restore Q T V A1 A2 F EF s s' :
  memoized Q → coherentQ Q s → closedQ Q s → heap s !! F = Some EF →
  saturated Q (set_heap (<[F := set_primitives T V A1 A2 EF]> (heap s)) s) s' →
  qStep Q (set_primitives T V A1 A2 EF) = qStep Q EF ∨ dirtyAt Q s' F →
  closedQ Q s' ∧ coherentQ Q s'.
Proof.
  intros [HQs HQf HQc HQp] Hco Hcl HF Hsat Hstep.
  set (s1 := set_heap (<[F := set_primitives T V A1 A2 EF]> (heap s)) s) in *.
  assert (Hev1 : evolves (fun E E1 =>
            same_shape E E1 ∧ qCache Q E1 = qCache Q E ∧ qDirty Q E1 = qDirty Q E) s s1).
  { eapply evolves_insert; [by intros ?|done|].
    split; [done|]. apply HQp. }
  assert (Hcl1 : closedQ Q s1).
  { intros c Ec1 p Ep1 Hc Hwc Hpar Hp Hwp Hd.
    destruct (evolves_lookup_inv _ _ _ _ _ Hev1 Hc) as (Ec & HEc & (_&Hpc&Hwc'&_) & _ & Hdc).
    destruct (evolves_lookup_inv _ _ _ _ _ Hev1 Hp) as (Ep & HEp & (_&_&Hwp'&_) & _ & Hdp).
    rewrite Hdc. eapply (Hcl c Ec p Ep); eauto; try congruence. }
  assert (Hcl' : closedQ Q s') by by eapply closedQ_saturated.
  split; [done|]. apply (coherentQ_updated Q s s'); [done..|].
  destruct Hsat as [Hev _]. intros x.
  pose proof (Hev1 x) as H1. pose proof (Hev x) as H2.
  destruct (heap s !! x) as [E|] eqn:HE, (heap s1 !! x) as [E1|] eqn:HE1,
    (heap s' !! x) as [E'|] eqn:HE'; try done.
  destruct H1 as ((Hk & Hp & Hw & _) & Hc1 & Hd1).
  destruct (raised_fields _ _ _ _ _ H2) as (Hk' & Hp' & Hw' & _).
  split; [congruence|]. split; [congruence|]. split; [congruence|].
  split; [rewrite (HQc _ _ _ _ _ H2); congruence|].
  split; [intros Hd; eapply HQf; [exact H2|congruence]|].
  destruct H2 as [Hst _]. rewrite (HQs _ _ Hst).
  destruct (decide (F = x)) as [<-|Hne].
  - subst s1. simpl in HE1. rewrite lookup_insert_eq in HE1. simplify_eq.
    destruct Hstep as [->|(E2 & HE2 & Hd2)]; [by left|right; congruence].
  - subst s1. simpl in HE1. rewrite lookup_insert_ne in HE1 by done.
    left. congruence.
Qed.

Lemma consistent_shaped s : consistent s → shaped s.
Proof. intros []. by split. Qed.

(** X3. After the relative transform (and any other primitive) of a
    frame changed, one [notifyTransformUpdate] of that frame makes the
    memoization consistent again: every cache that is still marked clean
    holds the value composed from the new primitives, for the pose, the
    velocity and the acceleration. *)
Theorem notifyTransformUpdate_restores n F EF T V A1 A2 s s' :
  consistent s → heap s !! F = Some EF → kind EF = FrameKind →
  notifyTransformUpdate n F
    (set_heap (<[F := set_primitives T V A1 A2 EF]> (heap s)) s) = Ok tt s' →
  consistent s'.
Proof.
  intros Hc HF Hk Hrun. pose proof (consistent_shaped _ Hc) as Hsh.
  destruct Hc as [_ _ HclT HclV HclA HcoT HcoV HcoA].
  pose proof (shaped_set_primitives T V A1 A2 _ _ _ HF Hsh) as Hsh1.
  destruct (notifyTransformUpdate_saturated _ _ _ _ Hsh1 Hrun)
    as (HsT & HsV & HsA & [Hty Hreg] & _).
  edestruct notifyTransformUpdate_sets as (E' & HE' & _ & HdT & HdV & HdA);
    [| |exact Hrun|]; [simpl; by rewrite lookup_insert_eq|done|].
  assert (closedQ transformQ s' ∧ coherentQ transformQ s') as [? ?].
    { eapply restore; [apply memoized_transformQ|done..|]. right. by exists E'. }
  assert (closedQ velocityQ s' ∧ coherentQ velocityQ s') as [? ?].
    { eapply restore; [apply memoized_velocityQ|done..|]. right. by exists E'. }
  assert (closedQ accelerationQ s' ∧ coherentQ accelerationQ s') as [? ?].
    { eapply restore; [apply memoized_accelerationQ|done..|]. right. by exists E'. }
  by split.
Qed.

(** X4. When only the relative velocity and the acceleration terms of a
    frame changed, [notifyVelocityUpdate] is enough, and when only the
    acceleration terms changed, [notifyAccelerationUpdate] is: the
    memoization is consistent again, and no pose flag, respectively no pose
    or velocity flag, is touched. *)
Theorem notifyVelocityUpdate_restores n F EF V A1 A2 s :
  consistent s → heap s !! F = Some EF → kind EF = FrameKind →
  (∀ s', notifyVelocityUpdate n F
           (set_heap (<[F := set_primitives (relativeTransform EF) V A1 A2 EF]>
                        (heap s)) s) = Ok tt s' →
         consistent s' ∧
         ∀ x E, heap s !! x = Some E →
           ∃ E', heap s' !! x = Some E' ∧
                 mNeedTransformUpdate E' = mNeedTransformUpdate E) ∧
  (∀ s', notifyAccelerationUpdate n F
           (set_heap (<[F := set_primitives (relativeTransform EF)
                                 (relativeSpatialVelocity EF) A1 A2 EF]>
                        (heap s)) s) = Ok tt s' →
         consistent s' ∧
         ∀ x E, heap s !! x = Some E →
           ∃ E', heap s' !! x = Some E' ∧
                 mNeedTransformUpdate E' = mNeedTransformUpdate E ∧
                 mNeedVelocityUpdate E' = mNeedVelocityUpdate E).
Proof.
  intros Hc HF Hk. pose proof (consistent_shaped _ Hc) as Hsh.
  destruct Hc as [_ _ HclT HclV HclA HcoT HcoV HcoA]. split; intros s' Hrun.
  - set (P := set_primitives (relativeTransform EF) V A1 A2 EF) in *.
    pose proof (shaped_set_primitives (relativeTransform EF) V A1 A2 _ _ _ HF Hsh)
      as Hsh1. fold P in Hsh1.
    destruct (notifyVelocityUpdate_saturated _ _ _ _ Hsh1 Hrun)
      as (HsV & HsA & [Hty Hreg] & _).
    pose proof (changes_notifyVelocityUpdate _ _ _ _ _ Hrun) as Hch.
    assert (HsT : saturated transformQ
              (set_heap (<[F := P]> (heap s)) s) s').
    { apply saturated_unchanged. eapply evolves_weaken; [apply raised_transform_same|].
      done. }
    edestruct notifyVelocityUpdate_sets as (E' & HE' & _ & HdV & HdA);
      [| |exact Hrun|]; [simpl; by rewrite lookup_insert_eq|done|].
    assert (closedQ transformQ s' ∧ coherentQ transformQ s') as [? ?].
    { eapply restore; [apply memoized_transformQ|done..|]. by left. }
    assert (closedQ velocityQ s' ∧ coherentQ velocityQ s') as [? ?].
    { eapply restore; [apply memoized_velocityQ|done..|]. right. by exists E'. }
    assert (closedQ accelerationQ s' ∧ coherentQ accelerationQ s') as [? ?].
    { eapply restore; [apply memoized_accelerationQ|done..|]. right. by exists E'. }
    split; [by split|]. intros x E HE.
    specialize (Hch x). simpl in Hch.
    destruct (decide (F = x)) as [<-|Hne].
    + rewrite lookup_insert_eq in Hch. destruct (heap s' !! F) as [E2|]; [|done].
      exists E2. split; [done|]. destruct Hch as (_&_&_&_&Ht&_). simplify_eq. exact Ht.
    + rewrite lookup_insert_ne, HE in Hch by done.
      destruct (heap s' !! x) as [E2|]; [|done].
      exists E2. split; [done|]. destruct Hch as (_&_&_&_&Ht&_). exact Ht.
  - set (P := set_primitives (relativeTransform EF) (relativeSpatialVelocity EF)
                A1 A2 EF) in *.
    pose proof (shaped_set_primitives (relativeTransform EF)
                  (relativeSpatialVelocity EF) A1 A2 _ _ _ HF Hsh) as Hsh1.
    fold P in Hsh1.
    destruct (notifyAccelerationUpdate_saturated _ _ _ _ Hsh1 Hrun)
      as (HsA & [Hty Hreg] & _).
    pose proof (changes_notifyAccelerationUpdate _ _ _ _ _ Hrun) as Hch.
    assert (HsT : saturated transformQ (set_heap (<[F := P]> (heap s)) s) s').
    { apply saturated_unchanged. eapply evolves_weaken; [|exact Hch].
      intros E E' Hr. split; [eapply raised_weaken; [..|exact Hr]; done|].
      destruct Hr as (_&_&_&_&Ht&_). exact Ht. }
    assert (HsV : saturated velocityQ (set_heap (<[F := P]> (heap s)) s) s').
    { apply saturated_unchanged. eapply evolves_weaken; [apply raised_velocity_same|].
      done. }
    edestruct notifyAccelerationUpdate_sets as (E' & HE' & _ & HdA);
      [| |exact Hrun|]; [simpl; by rewrite lookup_insert_eq|done|].
    assert (closedQ transformQ s' ∧ coherentQ transformQ s') as [? ?].
    { eapply restore; [apply memoized_transformQ|done..|]. by left. }
    assert (closedQ velocityQ s' ∧ coherentQ velocityQ s') as [? ?].
    { eapply restore; [apply memoized_velocityQ|done..|]. by left. }
    assert (closedQ accelerationQ s' ∧ coherentQ accelerationQ s') as [? ?].
    { eapply restore; [apply memoized_accelerationQ|done..|]. right. by exists E'. }
    split; [by split|]. intros x E HE.
    specialize (Hch x). simpl in Hch.
    destruct (decide (F = x)) as [<-|Hne].
    + rewrite lookup_insert_eq in Hch. destruct (heap s' !! F) as [E2|]; [|done].
      exists E2. split; [done|]. destruct Hch as (_&_&_&_&Ht&Hv&_). simplify_eq.
      split; [exact Ht|exact Hv].
    + rewrite lookup_insert_ne, HE in Hch by done.
      destruct (heap s' !! x) as [E2|]; [|done].
      exists E2. split; [done|]. destruct Hch as (_&_&_&_&Ht&Hv&_).
      split; [exact Ht|exact Hv].
Qed.

End Invalidation.

(** ** The protocol of a notification *)
Section Protocol.
Context `{SA : SpatialAlgebra}.
Implicit Types (s : Store) (E : Entity).

(** Whatever the object is, its transform flag is set once its
    notification has returned. *)
Lemma notifyTransformUpdate_marks n c s s' :
  notifyTransformUpdate n c s = Ok tt s' → dirtyAt transformQ s' c.
Proof.
  intros H. destruct n as [|n]; [done|]. pose proof H as H0. simpl in H.
  apply bind_Ok in H as (E & s0 & [HE ->]%deref_Ok & H).
  destruct (kind E) eqn:Hk.
  - apply modify_Ok in H as (E1 & HE1 & ->). simplify_eq.
    exists (mark_transform E). simpl. by rewrite lookup_insert_eq.
  - destruct (notifyTransformUpdate_sets _ _ _ _ _ HE Hk H0)
      as (E' & HE' & _ & Ht & _).
    by exists E'.
Qed.

(** Below a frame that is not the World frame, closed flags reach every
    descendant. *)
Lemma closedQ_descends Q s s' F E d :
  evolves (raised true true true) s s' → closedQ Q s' →
  heap s !! F = Some E → mAmWorld E = false → dirtyAt Q s' F →
  descends s d F →
  dirtyAt Q s' d ∧ ∃ Ed, heap s !! d = Some Ed ∧ mAmWorld Ed = false.
Proof.
  intros Hev Hcl HE Hw HF. induction 1 as [f|e Ee p f HEe Hwe Hpe _ IH].
  { split; [done|]. by exists E. }
  destruct (IH HE HF) as ((Ep' & HEp' & Hdp) & Ep & HEp & Hwp).
  split; [|by exists Ee].
  destruct (evolves_lookup _ _ _ _ _ Hev HEe) as (Ee' & HEe' & Hre).
  destruct (evolves_lookup _ _ _ _ _ Hev HEp) as (Ep'' & HEp'' & Hrp).
  assert (Ep'' = Ep') as -> by congruence.
  destruct (raised_fields _ _ _ _ _ Hre) as (_ & Hpar & Hwe' & _).
  destruct (raised_fields _ _ _ _ _ Hrp) as (_ & _ & Hwp' & _).
  exists Ee'. split; [done|].
  eapply (Hcl e Ee' p Ep'); congruence.
Qed.

(** C3. [notifyTransformUpdate] of a frame first calls
    [notifyVelocityUpdate], which first calls [notifyAccelerationUpdate];
    if the transform flag is then set it returns at once, in the state the
    velocity notification left, and no transform flag of any object has
    changed; if it is clear it sets it and notifies every child entity,
    each of which has its transform flag set afterwards; afterwards the
    three flags of the frame are set, and notifying again changes nothing.
    Where the children are registered with their parents and the flags
    were closed downwards, they are closed downwards again and every
    descendant of a frame that is not the World frame is dirty. *)
Theorem notifyTransformUpdate_protocol n F s E :
  heap s !! F = Some E → kind E = FrameKind →
  notifyTransformUpdate (S n) F s =
    (do_ notifyVelocityUpdate (S n) F;
     do E1 <- deref F;
     if mNeedTransformUpdate E1 then ret tt
     else do_ modify F mark_transform;
          forEach (elements (mChildEntities E1)) (notifyTransformUpdate n)) s ∧
  notifyVelocityUpdate (S n) F s =
    (do_ notifyAccelerationUpdate (S n) F;
     do E1 <- deref F;
     if mNeedVelocityUpdate E1 then ret tt
     else do_ modify F mark_velocity;
          forEach (elements (mChildEntities E1)) (notifyVelocityUpdate n)) s ∧
  (mNeedTransformUpdate E = true →
   notifyTransformUpdate (S n) F s = notifyVelocityUpdate (S n) F s) ∧
  (mNeedTransformUpdate E = false →
   ∀ s1, notifyVelocityUpdate (S n) F s = Ok tt s1 →
     ∃ E1, heap s1 !! F = Some E1 ∧
       notifyTransformUpdate (S n) F s =
         forEach (elements (mChildEntities E)) (notifyTransformUpdate n)
           (set_heap (<[F := mark_transform E1]> (heap s1)) s1)) ∧
  (∀ s', notifyTransformUpdate (S n) F s = Ok tt s' →
     (∃ E', heap s' !! F = Some E' ∧ mNeedTransformUpdate E' = true ∧
            mNeedVelocityUpdate E' = true ∧ mNeedAccelerationUpdate E' = true) ∧
     (∀ m, notifyTransformUpdate (S m) F s' = Ok tt s') ∧
     (mNeedTransformUpdate E = true →
      ∀ x Ex, heap s !! x = Some Ex →
        ∃ Ex', heap s' !! x = Some Ex' ∧
               mNeedTransformUpdate Ex' = mNeedTransformUpdate Ex) ∧
     (mNeedTransformUpdate E = false →
      ∀ c, c ∈ mChildEntities E →
        ∃ Ec', heap s' !! c = Some Ec' ∧ mNeedTransformUpdate Ec' = true) ∧
     (parents_are_frames s → registered s → closedQ transformQ s →
      closedQ transformQ s' ∧
      (mAmWorld E = false →
       ∀ d, descends s d F →
         ∃ Ed', heap s' !! d = Some Ed' ∧ mNeedTransformUpdate Ed' = true))).
Proof.
  intros HE Hk.
  assert (Heq : notifyTransformUpdate (S n) F s =
    (do_ notifyVelocityUpdate (S n) F;
     do E1 <- deref F;
     if mNeedTransformUpdate E1 then ret tt
     else do_ modify F mark_transform;
          forEach (elements (mChildEntities E1)) (notifyTransformUpdate n)) s).
  { rewrite notifyTransformUpdate_S.
    by rewrite (bind_run _ _ _ _ _ (deref_run _ _ _ HE)), Hk. }
  assert (Hdirty : mNeedTransformUpdate E = true →
    notifyTransformUpdate (S n) F s = notifyVelocityUpdate (S n) F s).
  { intros Hd. rewrite Heq. unfold bind at 1.
    destruct (notifyVelocityUpdate (S n) F s) as [[] s1|e] eqn:Hv; [|done].
    destruct (notifyVelocityUpdate_sets _ _ _ _ _ HE Hk Hv)
      as (E1 & HE1 & (_&_&_&_&Ht&_) & _).
    simpl in Ht. rewrite (bind_run _ _ _ _ _ (deref_run _ _ _ HE1)).
    by rewrite Ht, Hd. }
  assert (Hclean : mNeedTransformUpdate E = false →
    ∀ s1, notifyVelocityUpdate (S n) F s = Ok tt s1 →
     ∃ E1, heap s1 !! F = Some E1 ∧
       notifyTransformUpdate (S n) F s =
         forEach (elements (mChildEntities E)) (notifyTransformUpdate n)
           (set_heap (<[F := mark_transform E1]> (heap s1)) s1)).
  { intros Hd s1 Hv.
    destruct (notifyVelocityUpdate_sets _ _ _ _ _ HE Hk Hv)
      as (E1 & HE1 & Hr & _).
    pose proof (raised_children _ _ _ _ _ Hr) as Hch.
    destruct Hr as (_&_&_&_&Ht&_). simpl in Ht.
    exists E1. split; [done|]. rewrite Heq, (bind_run _ _ _ _ _ Hv).
    rewrite (bind_run _ _ _ _ _ (deref_run _ _ _ HE1)), Ht, Hd, Hch.
    unfold bind, modify. by rewrite HE1. }
  split; [done|]. split.
  { rewrite notifyVelocityUpdate_S.
    by rewrite (bind_run _ _ _ _ _ (deref_run _ _ _ HE)), Hk. }
  split; [done|]. split; [done|].
  intros s' H.
  destruct (notifyTransformUpdate_sets _ _ _ _ _ HE Hk H)
    as (E' & HE' & Hr & Ht & Hv & Ha).
  split; [by eauto|]. split.
  { intros m. apply (notifyTransformUpdate_dirty m F s' E'); try done.
    by rewrite (raised_kind _ _ _ _ _ Hr). }
  split; [|split].
  - intros Hd x Ex Hx. rewrite (Hdirty Hd) in H.
    pose proof (changes_notifyVelocityUpdate _ _ _ _ _ H) as Hev.
    destruct (evolves_lookup _ _ _ _ _ Hev Hx) as (Ex' & Hx' & Hrx).
    exists Ex'. split; [done|]. by destruct Hrx as (_&_&_&_&?&_).
  - intros Hd c Hc.
    destruct (notifyVelocityUpdate (S n) F s) as [[] s1|e] eqn:Hvel;
      [|by rewrite Heq in H; unfold bind in H; rewrite Hvel in H].
    destruct (Hclean Hd s1 eq_refl) as (E1 & HE1 & Hloop).
    rewrite Hloop in H.
    apply (forEach_each (evolves (raised true true true)) (fun _ => True)
             (fun c s2 => dirtyAt transformQ s2 c)
             (elements (mChildEntities E)) (notifyTransformUpdate n)) with (x := c)
      in H; [done| | |done|by apply elem_of_elements].
    + intros x s2 s3 _ _ Hx. split; [|split; [done|]].
      * by eapply changes_notifyTransformUpdate.
      * by eapply notifyTransformUpdate_marks.
    + intros x s2 s3 Hx Hev. eapply dirtyAt_evolves; [apply flagged_transformQ|done..].
  - intros Hty Hreg Hcl.
    destruct (notifyTransformUpdate_saturated (S n) F s s') as (Hsat & _);
      [by split|done|].
    pose proof (closedQ_saturated _ _ _ flagged_transformQ Hcl Hsat) as Hcl'.
    split; [done|]. intros Hw d Hd.
    destruct (closedQ_descends transformQ s s' F E d) as [Hdd _]; try done.
    + by destruct Hsat.
    + by exists E'.
Qed.

End Protocol.

(** ** Queries keep the flags closed *)
Section Closure.
Context `{SA : SpatialAlgebra}.
Implicit Types (s : Store) (E : Entity) (Q : Quantity).

Lemma preserves_ret {A} I (a : A) : preserves I (ret a).
Proof. by intros s b s' HI [_ <-]%ret_Ok. Qed.

Lemma preserves_bind {A B} I (m : M A) (k : A → M B) :
  preserves I m → (∀ a, preserves I (k a)) → preserves I (bind m k).
Proof.
  intros Hm Hk s b s' HI (a & s1 & H1 & H2)%bind_Ok.
  eapply Hk; [|exact H2]. by eapply Hm.
Qed.

Lemma preserves_deref I p : preserves I (deref p).
Proof. by intros s b s' HI [_ ->]%deref_Ok. Qed.

Lemma preserves_isWorld I p : preserves I (isWorld p).
Proof. by intros s b s' HI (? & _ & _ & ->)%isWorld_Ok. Qed.

Lemma closedQ_heap Q s s' : heap s' = heap s → closedQ Q s → closedQ Q s'.
Proof. intros Hh H c Ec p Ep. rewrite !Hh. apply H. Qed.

Lemma closed_heap s s' : heap s' = heap s → closed s → closed s'.
Proof. intros Hh (?&?&?). repeat split; by eapply closedQ_heap. Qed.

Lemma preserves_getRelativeTransform p : preserves closed (getRelativeTransform p).
Proof.
  intros s b s' HI (? & _ & _ & ->)%getRelativeTransform_Ok.
  by eapply closed_heap.
Qed.

(** The flag of [f] is cleared while its parent is the World frame or
    clean. *)
Lemma closedQ_clear Q f E1 E1' p s :
  closedQ Q s → heap s !! f = Some E1 →
  mParentFrame E1' = mParentFrame E1 → mAmWorld E1' = mAmWorld E1 →
  qDirty Q E1' = false → mParentFrame E1 = Some p →
  (∀ Ep, heap s !! p = Some Ep → mAmWorld Ep = true ∨ qDirty Q Ep = false) →
  closedQ Q (set_heap (<[f := E1']> (heap s)) s).
Proof.
  intros Hcl HE Hpar Hw Hd Hp Hok c Ec q Eq Hc Hwc Hpc Hq Hwq Hdq.
  simpl in *. destruct (decide (f = q)) as [<-|Hfq].
  { rewrite lookup_insert_eq in Hq. simplify_eq. congruence. }
  rewrite lookup_insert_ne in Hq by done.
  destruct (decide (f = c)) as [<-|Hfc].
  - rewrite lookup_insert_eq in Hc. simplify_eq.
    assert (q = p) as -> by congruence.
    destruct (Hok _ Hq); congruence.
  - rewrite lookup_insert_ne in Hc by done.
    eapply (Hcl c Ec q Eq); eauto.
Qed.

(** An object is written without changing the flag. *)
Lemma closedQ_same Q f E1 E1' s :
  closedQ Q s → heap s !! f = Some E1 →
  mParentFrame E1' = mParentFrame E1 → mAmWorld E1' = mAmWorld E1 →
  qDirty Q E1' = qDirty Q E1 →
  closedQ Q (set_heap (<[f := E1']> (heap s)) s).
Proof.
  intros Hcl HE Hpar Hw Hd c Ec q Eq Hc Hwc Hpc Hq Hwq Hdq. simpl in *.
  assert (∃ Ec0, heap s !! c = Some Ec0 ∧ mParentFrame Ec0 = mParentFrame Ec ∧
            mAmWorld Ec0 = mAmWorld Ec ∧ qDirty Q Ec0 = qDirty Q Ec)
    as (Ec0 & HEc0 & Hp0 & Hw0 & Hd0).
  { destruct (decide (f = c)) as [<-|].
    - rewrite lookup_insert_eq in Hc. simplify_eq. eauto.
    - rewrite lookup_insert_ne in Hc by done. eauto. }
  assert (∃ Eq0, heap s !! q = Some Eq0 ∧
            mAmWorld Eq0 = mAmWorld Eq ∧ qDirty Q Eq0 = qDirty Q Eq)
    as (Eq0 & HEq0 & Hwq0 & Hdq0).
  { destruct (decide (f = q)) as [<-|].
    - rewrite lookup_insert_eq in Hq. simplify_eq. eauto.
    - rewrite lookup_insert_ne in Hq by done. eauto. }
  rewrite <- Hd0. eapply (Hcl c Ec0 q Eq0); eauto; try congruence.
Qed.

Lemma getWorldTransform_closed n f s T s' :
  closed s → getWorldTransform n f s = Ok T s' →
  closed s' ∧
  ∃ E', heap s' !! f = Some E' ∧
        (mAmWorld E' = true ∨ mNeedTransformUpdate E' = false).
Proof.
  revert f s T s'. induction n as [|n IH]; intros f s T s' Hcl H; [done|].
  pose proof (getWorldTransform_heap _ _ _ _ _ H) as Hheap.
  simpl in H. apply bind_Ok in H as (E & s0 & [HE ->]%deref_Ok & H).
  destruct (mAmWorld E) eqn:Hw.
  { apply ret_Ok in H as [_ <-]. split; [done|]. exists E. eauto. }
  destruct (mNeedTransformUpdate E) eqn:Hd.
  2:{ apply ret_Ok in H as [_ <-]. split; [done|]. exists E. eauto. }
  apply bind_Ok in H as (p & s0 & [Hp ->]%nonnull_Ok & H).
  apply bind_Ok in H as (Tp & s1 & Hrec & H).
  destruct (IH _ _ _ _ Hcl Hrec) as ((HcT & HcV & HcA) & Ep1 & HEp1 & Hok).
  destruct (getWorldTransform_heap _ _ _ _ _ Hrec _ _ HE) as (E1 & HE1 & _ & Hp1 & Hw1).
  apply bind_Ok in H as (Tr & s2 & (E2 & HE2 & -> & ->)%getRelativeTransform_Ok & H).
  apply bind_Ok in H as ([] & s3 & (E3 & HE3 & ->)%modify_Ok & [_ <-]%ret_Ok).
  simpl in *. rewrite HE1 in HE2, HE3. injection HE2 as <-. injection HE3 as <-.
  split.
  - set (E' := set_transform _ E1).
    split; [|split];
      apply (closedQ_heap _ (set_heap (<[f := E']> (heap s1)) s1)); try done.
    + eapply (closedQ_clear transformQ f E1 _ p); eauto; try congruence.
      intros Ep ?. simplify_eq. done.
    + by eapply (closedQ_same velocityQ f E1).
    + by eapply (closedQ_same accelerationQ f E1).
  - eexists. rewrite lookup_insert_eq. split; [done|]. by right.
Qed.

Lemma getSpatialVelocity_closed n f s V s' :
  closed s → getSpatialVelocity n f s = Ok V s' →
  closed s' ∧
  ∃ E', heap s' !! f = Some E' ∧
        (mAmWorld E' = true ∨ mNeedVelocityUpdate E' = false).
Proof.
  revert f s V s'. induction n as [|n IH]; intros f s V s' Hcl H; [done|].
  simpl in H. apply bind_Ok in H as (E & s0 & [HE ->]%deref_Ok & H).
  destruct (mAmWorld E) eqn:Hw.
  { apply ret_Ok in H as [_ <-]. split; [done|]. exists E. eauto. }
  destruct (mNeedVelocityUpdate E) eqn:Hd.
  2:{ apply ret_Ok in H as [_ <-]. split; [done|]. exists E. eauto. }
  apply bind_Ok in H as (Tr & sb & (Eb & HEb & -> & ->)%getRelativeTransform_Ok & H).
  apply bind_Ok in H as (p & s0 & (Eb' & HEb' & Hp & ->)%getParentFrame_Ok & H).
  apply bind_Ok in H as (Vp & s1 & Hrec & H).
  assert (Hclb : closed (bump f s)) by by eapply closed_heap.
  destruct (IH _ _ _ _ Hclb Hrec) as ((HcT & HcV & HcA) & Ep1 & HEp1 & Hok).
  destruct (caching_getSpatialVelocity _ _ _ _ _ Hrec) as [Hext _].
  destruct (extends_lookup _ _ _ _ Hext HEb') as (E1 & HE1 & Hst & _).
  destruct (structure_fields _ _ Hst) as (Hw1 & Hp1 & _).
  apply bind_Ok in H as (Vr & s2 & (E2 & HE2 & -> & ->)%primitive_Ok & H).
  apply bind_Ok in H as ([] & s3 & (E3 & HE3 & ->)%modify_Ok & [_ <-]%ret_Ok).
  simpl in *. rewrite HE in HEb, HEb'. injection HEb as <-. injection HEb' as <-.
  rewrite HE1 in HE2, HE3. injection HE2 as <-. injection HE3 as <-.
  split.
  - split; [|split].
    + by eapply (closedQ_same transformQ f E1).
    + eapply (closedQ_clear velocityQ f E1 _ p); eauto; try congruence.
      intros Ep ?. simplify_eq. done.
    + by eapply (closedQ_same accelerationQ f E1).
  - eexists. rewrite lookup_insert_eq. split; [done|]. by right.
Qed.

Lemma getSpatialAcceleration_closed n f s V s' :
  closed s → getSpatialAcceleration n f s = Ok V s' →
  closed s' ∧
  ∃ E', heap s' !! f = Some E' ∧
        (mAmWorld E' = true ∨ mNeedAccelerationUpdate E' = false).
Proof.
  revert f s V s'. induction n as [|n IH]; intros f s V s' Hcl H; [done|].
  simpl in H. apply bind_Ok in H as (E & s0 & [HE ->]%deref_Ok & H).
  destruct (mAmWorld E) eqn:Hw.
  { apply ret_Ok in H as [_ <-]. split; [done|]. exists E. eauto. }
  destruct (mNeedAccelerationUpdate E) eqn:Hd.
  2:{ apply ret_Ok in H as [_ <-]. split; [done|]. exists E. eauto. }
  apply bind_Ok in H as (Tr & sb & (Eb & HEb & -> & ->)%getRelativeTransform_Ok & H).
  apply bind_Ok in H as (p & s0 & (Eb' & HEb' & Hp & ->)%getParentFrame_Ok & H).
  apply bind_Ok in H as (Vp & s1 & Hrec & H).
  assert (Hclb : closed (bump f s)) by by eapply closed_heap.
  destruct (IH _ _ _ _ Hclb Hrec) as ((HcT & HcV & HcA) & Ep1 & HEp1 & Hok).
  destruct (caching_getSpatialAcceleration _ _ _ _ _ Hrec) as [Hext _].
  destruct (extends_lookup _ _ _ _ Hext HEb') as (E1 & HE1 & Hst & _).
  destruct (structure_fields _ _ Hst) as (Hw1 & Hp1 & _).
  apply bind_Ok in H as (X1 & s2 & (E2 & HE2 & -> & ->)%primitive_Ok & H).
  apply bind_Ok in H as (X2 & s2 & (E2' & HE2' & -> & ->)%primitive_Ok & H).
  apply bind_Ok in H as ([] & s3 & (E3 & HE3 & ->)%modify_Ok & [_ <-]%ret_Ok).
  simpl in *. rewrite HE in HEb, HEb'. injection HEb as <-. injection HEb' as <-.
  rewrite HE1 in HE2, HE2', HE3. injection HE2 as <-. injection HE2' as <-.
  injection HE3 as <-.
  split.
  - split; [|split].
    + by eapply (closedQ_same transformQ f E1).
    + by eapply (closedQ_same velocityQ f E1).
    + eapply (closedQ_clear accelerationQ f E1 _ p); eauto; try congruence.
      intros Ep ?. simplify_eq. done.
  - eexists. rewrite lookup_insert_eq. split; [done|]. by right.
Qed.

Lemma preserves_getWorldTransform n f : preserves closed (getWorldTransform n f).
Proof. intros s T s' Hcl H. by destruct (getWorldTransform_closed _ _ _ _ _ Hcl H). Qed.

Lemma preserves_getSpatialVelocity n f : preserves closed (getSpatialVelocity n f).
Proof. intros s T s' Hcl H. by destruct (getSpatialVelocity_closed _ _ _ _ _ Hcl H). Qed.

Lemma preserves_getSpatialAcceleration n f :
  preserves closed (getSpatialAcceleration n f).
Proof.
  intros s T s' Hcl H. by destruct (getSpatialAcceleration_closed _ _ _ _ _ Hcl H).
Qed.

Lemma preserves_getTransform n f g : preserves closed (getTransform n f g).
Proof.
  unfold getTransform. apply preserves_bind; [apply preserves_isWorld|intros w].
  destruct w; [apply preserves_getWorldTransform|].
  apply preserves_bind; [apply preserves_deref|intros E].
  destruct (decide _); [apply preserves_getRelativeTransform|].
  apply preserves_bind; [apply preserves_getWorldTransform|intros Tw].
  apply preserves_bind; [apply preserves_getWorldTransform|intros Tt].
  apply preserves_ret.
Qed.

Ltac preserves_closed :=
  repeat first
    [ apply preserves_ret | apply preserves_getTransform
    | apply preserves_getSpatialVelocity | apply preserves_getSpatialAcceleration
    | apply preserves_getWorldTransform | apply preserves_isWorld
    | apply preserves_bind; [|intros ?]
    | match goal with |- preserves _ (if ?b then _ else _) => destruct b end ].

Lemma preserves_getSpatialVelocity_rel n f g h :
  preserves closed (getSpatialVelocity_rel n f g h).
Proof. unfold getSpatialVelocity_rel. preserves_closed. Qed.

Lemma preserves_getSpatialAcceleration_rel n f g h :
  preserves closed (getSpatialAcceleration_rel n f g h).
Proof.
  unfold getSpatialAcceleration_rel.
  repeat first [ apply preserves_getSpatialVelocity_rel | progress preserves_closed ].
Qed.

Lemma preserves_query fuel op :
  match op with
  | OpWorld | OpNotify _ | OpChangeParentFrame _ _ | OpDestroy _ => True
  | _ => preserves closed (exec fuel op)
  end.
Proof.
  destruct op; try done; unfold exec, discard,
    getSpatialVelocity_in, getSpatialAcceleration_in,
    getLinearVelocity, getAngularVelocity,
    getLinearAcceleration, getAngularAcceleration;
  repeat first [ apply preserves_getSpatialVelocity_rel
               | apply preserves_getSpatialAcceleration_rel
               | progress preserves_closed ].
Qed.

(** *** Queries and notifications keep the memoization consistent *)

Lemma raised_updatedQ Q mt mv ma E E' :
  memoized Q → raised mt mv ma E E' → updatedQ Q E E'.
Proof.
  intros [HQs HQf HQc _] Hr.
  destruct (raised_fields _ _ _ _ _ Hr) as (? & ? & ? & _).
  repeat split; try done.
  - by eapply HQc.
  - by eapply HQf.
  - left. destruct Hr as [Hst _]. by apply HQs.
Qed.

Lemma consistent_saturated s s' :
  consistent s → saturated transformQ s s' → saturated velocityQ s s' →
  saturated accelerationQ s s' → consistent s'.
Proof.
  intros Hc HsT HsV HsA. pose proof (consistent_shaped _ Hc) as Hsh.
  destruct Hc as [_ _ HclT HclV HclA HcoT HcoV HcoA].
  destruct (shaped_evolves _ _ _ _ _ (saturated_evolves _ _ _ HsT) Hsh) as [Hty Hreg].
  pose proof (closedQ_saturated _ _ _ flagged_transformQ HclT HsT).
  pose proof (closedQ_saturated _ _ _ flagged_velocityQ HclV HsV).
  pose proof (closedQ_saturated _ _ _ flagged_accelerationQ HclA HsA).
  split; try done.
  - eapply coherentQ_updated; [done..|]. eapply evolves_weaken; [|apply HsT].
    intros E E'. apply raised_updatedQ, memoized_transformQ.
  - eapply coherentQ_updated; [done..|]. eapply evolves_weaken; [|apply HsV].
    intros E E'. apply raised_updatedQ, memoized_velocityQ.
  - eapply coherentQ_updated; [done..|]. eapply evolves_weaken; [|apply HsA].
    intros E E'. apply raised_updatedQ, memoized_accelerationQ.
Qed.

Lemma consistent_notify fuel op s s' :
  consistent s → run_notify fuel op s = Ok tt s' → consistent s'.
Proof.
  intros Hc H. pose proof (consistent_shaped _ Hc) as Hsh.
  destruct op as [f|f|f]; simpl in H.
  - destruct (notifyTransformUpdate_saturated _ _ _ _ Hsh H) as (?&?&?&_).
    by eapply consistent_saturated.
  - destruct (notifyVelocityUpdate_saturated _ _ _ _ Hsh H) as (?&?&_).
    eapply consistent_saturated; [done| |done..].
    apply saturated_unchanged. eapply evolves_weaken; [apply raised_transform_same|].
    by eapply changes_notifyVelocityUpdate.
  - destruct (notifyAccelerationUpdate_saturated _ _ _ _ Hsh H) as (?&_).
    pose proof (changes_notifyAccelerationUpdate _ _ _ _ _ H) as Hch.
    eapply consistent_saturated; [done| | |done].
    + apply saturated_unchanged. eapply evolves_weaken; [|exact Hch].
      intros E E' Hr. split; [eapply raised_weaken; [..|exact Hr]; done|].
      destruct Hr as (_&_&_&_&Ht&_). exact Ht.
    + apply saturated_unchanged. eapply evolves_weaken; [apply raised_velocity_same|].
      done.
Qed.

Lemma consistent_caching {A} (m : M A) s a s' :
  caching m → preserves closed m → consistent s → m s = Ok a s' → consistent s'.
Proof.
  intros Hm Hp Hc H. destruct (Hm _ _ _ H) as [Hext _].
  destruct Hc as [Hty Hreg HclT HclV HclA HcoT HcoV HcoA].
  destruct (Hp s a s') as (HclT'&HclV'&HclA'); [by repeat split|done|].
  pose proof Hext as (Hx1 & Hx2 & Hx3).
  split; try done.
  - by eapply parents_are_frames_extends.
  - by eapply registered_extends.
  - eapply coherentQ_extends; eauto using structural_transformQ.
  - eapply coherentQ_extends; eauto using structural_velocityQ.
  - eapply coherentQ_extends; eauto using structural_accelerationQ.
Qed.

(** X5. The queries and the notifications, in any order and number, keep
    the memoization consistent: the flags stay closed downwards (a clean
    frame never has a dirty frame above it), and every cache marked clean
    holds the value composed from the primitives. *)
Theorem memo_ops_keep_consistent l s s' :
  consistent s → Forall (fun o => memo_op o.2 = true) l →
  run l s = Ok tt s' → consistent s'.
Proof.
  intros Hc Hl H. revert H. apply (forEach_invariant consistent); [|done].
  intros [fuel op] s1 s2 Hin Hc1 Hrun.
  rewrite Forall_forall in Hl. specialize (Hl _ Hin). simpl in Hl.
  pose proof (caching_getter fuel op) as Hcg.
  pose proof (preserves_query fuel op) as Hpq.
  destruct op; try done; try (by eapply consistent_caching).
  by eapply consistent_notify.
Qed.

End Closure.

(** ** Notifications terminate *)
Section Termination.
Context `{SA : SpatialAlgebra}.
Implicit Types (s : Store) (E : Entity) (Q : Quantity).

Lemma elem_of_cleanSet Q s x :
  x ∈ cleanSet Q s ↔ ∃ E, heap s !! x = Some E ∧ qDirty Q E = false.
Proof.
  unfold cleanSet. rewrite elem_of_dom. split.
  - intros [E [HE Hd]%map_lookup_filter_Some]. eauto.
  - intros (E & HE & Hd). exists E. by apply map_lookup_filter_Some.
Qed.

Lemma cleanSet_evolves Q s s' :
  flagged Q → evolves (raised true true true) s s' →
  cleanSet Q s' ⊆ cleanSet Q s.
Proof.
  intros HQ Hev x (E' & HE' & Hd')%elem_of_cleanSet. apply elem_of_cleanSet.
  destruct (evolves_lookup_inv _ _ _ _ _ Hev HE') as (E & HE & Hr).
  exists E. split; [done|]. destruct (qDirty Q E) eqn:Hd; [|done].
  by rewrite (HQ _ _ _ _ _ Hr Hd) in Hd'.
Qed.

Lemma cleanSet_same Q s s' :
  evolves (fun E E' => qDirty Q E' = qDirty Q E) s s' →
  cleanSet Q s' = cleanSet Q s.
Proof.
  intros Hev. apply set_eq. intros x. rewrite !elem_of_cleanSet. split.
  - intros (E' & HE' & Hd').
    destruct (evolves_lookup_inv _ _ _ _ _ Hev HE') as (E & HE & Hr).
    exists E. split; [done|congruence].
  - intros (E & HE & Hd).
    destruct (evolves_lookup _ _ _ _ _ Hev HE) as (E' & HE' & Hr).
    exists E'. split; [done|congruence].
Qed.

Lemma cleanSet_mark Q (mark : Entity → Entity) f E s :
  flagged Q → heap s !! f = Some E → qDirty Q E = false →
  (∀ E, raised true true true E (mark E)) → (∀ E, qDirty Q (mark E) = true) →
  size (cleanSet Q (set_heap (<[f := mark E]> (heap s)) s)) < size (cleanSet Q s).
Proof.
  intros HQ HE Hd Hm Hmark. apply subset_size. split.
  - apply cleanSet_evolves; [done|]. by apply evolves_mark.
  - intros Hsub.
    assert (Hin : f ∈ cleanSet Q s) by (apply elem_of_cleanSet; eauto).
    apply Hsub in Hin. apply elem_of_cleanSet in Hin as (E' & HE' & Hd').
    simpl in HE'. rewrite lookup_insert_eq in HE'. simplify_eq.
    by rewrite Hmark in Hd'.
Qed.

Lemma children_live_evolves mt mv ma s s' :
  evolves (raised mt mv ma) s s' → children_live s → children_live s'.
Proof.
  intros Hev Hl p E' c HE' Hc.
  destruct (evolves_lookup_inv _ _ _ _ _ Hev HE') as (E & HE & Hr).
  destruct (raised_fields _ _ _ _ _ Hr) as (_ & _ & _ & Hch).
  rewrite Hch in Hc. destruct (Hl _ _ _ HE Hc) as [Ec HEc].
  destruct (evolves_lookup _ _ _ _ _ Hev HEc) as (Ec' & ? & _). eauto.
Qed.

Lemma live_evolves r s s' x :
  evolves r s s' → is_Some (heap s !! x) → is_Some (heap s' !! x).
Proof.
  intros Hev [E HE]. destruct (evolves_lookup _ _ _ _ _ Hev HE) as (E' & ? & _). eauto.
Qed.

(** A loop whose turns all return. *)
Lemma forEach_returns {A} (I : Store → Prop) (l : list A) body :
  (∀ x s, x ∈ l → I s → ∃ s', body x s = Ok tt s' ∧ I s') →
  ∀ s, I s → ∃ s', forEach l body s = Ok tt s' ∧ I s'.
Proof.
  induction l as [|x l IH]; intros Hb s HI; simpl.
  - by exists s.
  - destruct (Hb x s) as (s1 & H1 & HI1); [by left|done|].
    destruct (IH (fun y s Hy => Hb y s ltac:(by right)) s1 HI1) as (s2 & H2 & HI2).
    exists s2. by rewrite (bind_run _ _ _ _ _ H1).
Qed.

Lemma notifyAccelerationUpdate_returns n f s :
  size (cleanSet accelerationQ s) < n → children_live s →
  is_Some (heap s !! f) → ∃ s', notifyAccelerationUpdate n f s = Ok tt s'.
Proof.
  revert f s. induction n as [|n IH]; intros f s Hn Hl [E HE]; [lia|].
  simpl. rewrite (bind_run _ _ _ _ _ (deref_run _ _ _ HE)).
  destruct (kind E).
  { eexists. apply modify_Ok. eauto. }
  destruct (mNeedAccelerationUpdate E) eqn:Hd; [by eexists|].
  set (sa := set_heap (<[f := mark_acceleration E]> (heap s)) s).
  assert (Hmod : modify f mark_acceleration s = Ok tt sa)
    by (apply modify_Ok; eauto).
  rewrite (bind_run _ _ _ _ _ Hmod).
  assert (Hm : ∀ E, raised true true true E (mark_acceleration E))
    by (intros; apply raised_mark_acceleration).
  pose proof (cleanSet_mark accelerationQ mark_acceleration f E s
                flagged_accelerationQ HE Hd Hm (fun _ => eq_refl)) as Hlt.
  fold sa in Hlt.
  pose proof (evolves_mark mark_acceleration f E s HE Hm) as Hev. fold sa in Hev.
  destruct (forEach_returns
              (fun s1 => size (cleanSet accelerationQ s1) < n ∧
                         evolves (raised true true true) s s1)
              (elements (mChildEntities E)) (notifyAccelerationUpdate n))
    with (s := sa) as (s' & H' & _).
  - intros c s1 Hc%elem_of_elements [Hn1 Hev1].
    destruct (IH c s1) as (s2 & Hrun2); [done| | |].
    + by eapply children_live_evolves.
    + eapply live_evolves; [done|]. by eapply Hl.
    + exists s2. split; [done|].
      pose proof (changes_notifyAccelerationUpdate _ _ _ _ _ Hrun2) as Hev2.
      assert (Hev2' : evolves (raised true true true) s1 s2).
      { eapply evolves_weaken; [|exact Hev2]. intros ?? Hr.
        eapply raised_weaken; [..|exact Hr]; done. }
      split; [|by eapply evolves_trans; [apply _|..]].
      pose proof (subseteq_size _ _
        (cleanSet_evolves accelerationQ _ _ flagged_accelerationQ Hev2')). lia.
  - split; [lia|done].
  - by exists s'.
Qed.

Lemma size_cleanSet_evolves Q mt mv ma s s' :
  flagged Q → evolves (raised mt mv ma) s s' →
  size (cleanSet Q s') ≤ size (cleanSet Q s).
Proof.
  intros HQ Hev. apply subseteq_size, cleanSet_evolves; [done|].
  eapply evolves_weaken; [|exact Hev]. intros ?? Hr.
  eapply raised_weaken; [..|exact Hr]; done.
Qed.

Lemma evolves_any mt mv ma s s' :
  evolves (raised mt mv ma) s s' → evolves (raised true true true) s s'.
Proof.
  apply evolves_weaken. intros ?? Hr. eapply raised_weaken; [..|exact Hr]; done.
Qed.

Lemma notifyVelocityUpdate_returns n f s :
  size (cleanSet velocityQ s) + size (cleanSet accelerationQ s) < n →
  children_live s → is_Some (heap s !! f) →
  ∃ s', notifyVelocityUpdate n f s = Ok tt s'.
Proof.
  revert f s. induction n as [|n IH]; intros f s Hn Hl [E HE]; [lia|].
  rewrite notifyVelocityUpdate_S.
  rewrite (bind_run _ _ _ _ _ (deref_run _ _ _ HE)).
  destruct (kind E).
  { eexists. apply modify_Ok. eauto. }
  destruct (notifyAccelerationUpdate_returns (S n) f s) as (s0 & H0);
    [lia|done|by eexists|].
  rewrite (bind_run _ _ _ _ _ H0).
  pose proof (changes_notifyAccelerationUpdate _ _ _ _ _ H0) as Hev0.
  destruct (evolves_lookup _ _ _ _ _ Hev0 HE) as (E1 & HE1 & Hr1).
  rewrite (bind_run _ _ _ _ _ (deref_run _ _ _ HE1)).
  destruct (mNeedVelocityUpdate E1) eqn:Hd; [by eexists|].
  set (sa := set_heap (<[f := mark_velocity E1]> (heap s0)) s0).
  assert (Hmod : modify f mark_velocity s0 = Ok tt sa)
    by (apply modify_Ok; eauto).
  rewrite (bind_run _ _ _ _ _ Hmod).
  assert (Hm : ∀ E, raised true true true E (mark_velocity E))
    by (intros; apply raised_mark_velocity).
  pose proof (cleanSet_mark velocityQ mark_velocity f E1 s0
                flagged_velocityQ HE1 Hd Hm (fun _ => eq_refl)) as Hlt.
  fold sa in Hlt.
  pose proof (evolves_mark mark_velocity f E1 s0 HE1 Hm) as Heva. fold sa in Heva.
  pose proof (size_cleanSet_evolves velocityQ _ _ _ _ _ flagged_velocityQ Hev0).
  pose proof (size_cleanSet_evolves accelerationQ _ _ _ _ _ flagged_accelerationQ Hev0).
  pose proof (size_cleanSet_evolves accelerationQ _ _ _ _ _ flagged_accelerationQ Heva).
  assert (Hev : evolves (raised true true true) s sa).
  { eapply evolves_trans; [apply _|by eapply evolves_any|done]. }
  destruct (raised_fields _ _ _ _ _ Hr1) as (_ & _ & _ & Hch).
  destruct (forEach_returns
              (fun s1 => size (cleanSet velocityQ s1) +
                         size (cleanSet accelerationQ s1) < n ∧
                         evolves (raised true true true) s s1)
              (elements (mChildEntities E1)) (notifyVelocityUpdate n))
    with (s := sa) as (s' & H' & _).
  - intros c s1 Hc%elem_of_elements [Hn1 Hev1]. rewrite Hch in Hc.
    destruct (IH c s1) as (s2 & Hrun2); [done| | |].
    + by eapply children_live_evolves.
    + eapply live_evolves; [done|]. by eapply Hl.
    + exists s2. split; [done|].
      pose proof (changes_notifyVelocityUpdate _ _ _ _ _ Hrun2) as Hev2.
      pose proof (size_cleanSet_evolves velocityQ _ _ _ _ _ flagged_velocityQ Hev2).
      pose proof (size_cleanSet_evolves accelerationQ _ _ _ _ _
                    flagged_accelerationQ Hev2).
      split; [lia|].
      eapply evolves_trans; [apply _|done|by eapply evolves_any].
  - split; [lia|done].
  - by exists s'.
Qed.

Lemma notifyTransformUpdate_returns n f s :
  clearFlags s < n → children_live s → is_Some (heap s !! f) →
  ∃ s', notifyTransformUpdate n f s = Ok tt s'.
Proof.
  unfold clearFlags.
  revert f s. induction n as [|n IH]; intros f s Hn Hl [E HE]; [lia|].
  rewrite notifyTransformUpdate_S.
  rewrite (bind_run _ _ _ _ _ (deref_run _ _ _ HE)).
  destruct (kind E).
  { eexists. apply modify_Ok. eauto. }
  destruct (notifyVelocityUpdate_returns (S n) f s) as (s0 & H0);
    [lia|done|by eexists|].
  rewrite (bind_run _ _ _ _ _ H0).
  pose proof (changes_notifyVelocityUpdate _ _ _ _ _ H0) as Hev0.
  destruct (evolves_lookup _ _ _ _ _ Hev0 HE) as (E1 & HE1 & Hr1).
  rewrite (bind_run _ _ _ _ _ (deref_run _ _ _ HE1)).
  destruct (mNeedTransformUpdate E1) eqn:Hd; [by eexists|].
  set (sa := set_heap (<[f := mark_transform E1]> (heap s0)) s0).
  assert (Hmod : modify f mark_transform s0 = Ok tt sa)
    by (apply modify_Ok; eauto).
  rewrite (bind_run _ _ _ _ _ Hmod).
  assert (Hm : ∀ E, raised true true true E (mark_transform E))
    by (intros; apply raised_mark_transform).
  pose proof (cleanSet_mark transformQ mark_transform f E1 s0
                flagged_transformQ HE1 Hd Hm (fun _ => eq_refl)) as Hlt.
  fold sa in Hlt.
  pose proof (evolves_mark mark_transform f E1 s0 HE1 Hm) as Heva. fold sa in Heva.
  pose proof (size_cleanSet_evolves transformQ _ _ _ _ _ flagged_transformQ Hev0).
  pose proof (size_cleanSet_evolves velocityQ _ _ _ _ _ flagged_velocityQ Hev0).
  pose proof (size_cleanSet_evolves accelerationQ _ _ _ _ _ flagged_accelerationQ Hev0).
  pose proof (size_cleanSet_evolves velocityQ _ _ _ _ _ flagged_velocityQ Heva).
  pose proof (size_cleanSet_evolves accelerationQ _ _ _ _ _ flagged_accelerationQ Heva).
  assert (Hev : evolves (raised true true true) s sa).
  { eapply evolves_trans; [apply _|by eapply evolves_any|done]. }
  destruct (raised_fields _ _ _ _ _ Hr1) as (_ & _ & _ & Hch).
  destruct (forEach_returns
              (fun s1 => size (cleanSet transformQ s1) +
                         size (cleanSet velocityQ s1) +
                         size (cleanSet accelerationQ s1) < n ∧
                         evolves (raised true true true) s s1)
              (elements (mChildEntities E1)) (notifyTransformUpdate n))
    with (s := sa) as (s' & H' & _).
  - intros c s1 Hc%elem_of_elements [Hn1 Hev1]. rewrite Hch in Hc.
    destruct (IH c s1) as (s2 & Hrun2); [done| | |].
    + by eapply children_live_evolves.
    + eapply live_evolves; [done|]. by eapply Hl.
    + exists s2. split; [done|].
      pose proof (changes_notifyTransformUpdate _ _ _ _ _ Hrun2) as Hev2.
      pose proof (size_cleanSet_evolves transformQ _ _ _ _ _ flagged_transformQ Hev2).
      pose proof (size_cleanSet_evolves velocityQ _ _ _ _ _ flagged_velocityQ Hev2).
      pose proof (size_cleanSet_evolves accelerationQ _ _ _ _ _
                    flagged_accelerationQ Hev2).
      split; [lia|].
      eapply evolves_trans; [apply _|done|by eapply evolves_any].
  - split; [lia|done].
  - by exists s'.
Qed.

Lemma size_cleanSet Q s : size (cleanSet Q s) ≤ size (dom (heap s)).
Proof.
  apply subseteq_size. intros x (E & HE & _)%elem_of_cleanSet.
  apply elem_of_dom. eauto.
Qed.

(** X6. A notification always returns, on any graph of child-entity
    sets, cyclic ones included: every turn of the recursion that goes on
    sets a flag that was clear, so that more fuel than there are clear
    flags, at most three for each object, is always enough. *)
Theorem notifications_terminate n F s :
  children_live s → is_Some (heap s !! F) → 3 * size (dom (heap s)) < n →
  (∃ s', notifyTransformUpdate n F s = Ok tt s') ∧
  (∃ s', notifyVelocityUpdate n F s = Ok tt s') ∧
  (∃ s', notifyAccelerationUpdate n F s = Ok tt s').
Proof.
  intros Hl HF Hn.
  pose proof (size_cleanSet transformQ s).
  pose proof (size_cleanSet velocityQ s).
  pose proof (size_cleanSet accelerationQ s).
  split; [|split].
  - apply notifyTransformUpdate_returns; [unfold clearFlags; lia|done..].
  - apply notifyVelocityUpdate_returns; [lia|done..].
  - apply notifyAccelerationUpdate_returns; [lia|done..].
Qed.

End Termination.

(** ** The remaining queries *)
Section Queries.
Context `{SA : SpatialAlgebra}.
Implicit Types (s : Store) (E : Entity) (Q : Quantity).

(** A test of [isWorld] in front of a tracked getter. *)
Lemma tracks_isWorld {A} (p : Id) (g : bool → nat → M A) d :
  (∀ b, tracks (g b) (d b)) →
  tracks (fun n => do w <- isWorld p; g w n)
         (fun n s => match heap s !! p with
                     | Some E => d (mAmWorld E) n s
                     | None => None
                     end).
Proof.
  intros Hg. split.
  - intros n s0 s a Hext Hd.
    destruct (heap s0 !! p) as [E|] eqn:HE; [|done].
    destruct (extends_lookup _ _ _ _ Hext HE) as (Es & HEs & Hst & _).
    pose proof (structure_fields _ _ Hst) as (Hw & _).
    assert (Hiw : isWorld p s = Ok (mAmWorld E) s)
      by (apply isWorld_Ok; exists Es; by rewrite Hw).
    rewrite (bind_run _ _ _ _ _ Hiw).
    by apply (tracks_sound _ _ (Hg _)).
  - intros n s a s' (w & s0 & (E & HE & -> & ->)%isWorld_Ok & H)%bind_Ok.
    rewrite HE. by apply (tracks_complete _ _ (Hg _)) in H.
  - intros n m s a Hd Hle. destruct (heap s !! p) as [E|]; [|done].
    by eapply (tracks_mono _ _ (Hg _)).
  - intros n s s' a Hext Hd.
    destruct (heap s' !! p) as [E'|] eqn:HE'; [|done].
    destruct (extends_lookup_inv _ _ _ _ Hext HE') as (E & HE & Hst).
    pose proof (structure_fields _ _ Hst) as (Hw & _).
    rewrite HE. rewrite Hw in Hd.
    by apply (tracks_back _ _ (Hg _) _ _ _ _ Hext Hd).
Qed.

Lemma tracks_ext {A} (g : nat → M A) d d' :
  (∀ n s, d' n s = d n s) → tracks g d → tracks g d'.
Proof.
  intros Hd [H1 H2 H3 H4]. split.
  - intros n s0 s a Hext. rewrite Hd. by apply H1.
  - intros n s a s' H. destruct (H2 _ _ _ _ H) as (? & m & Hm).
    split; [done|]. exists m. by rewrite Hd.
  - intros n m s a. rewrite !Hd. apply H3.
  - intros n s s' a Hext. rewrite Hd. intros H.
    destruct (H4 _ _ _ _ Hext H) as (m & Hm). exists m. by rewrite Hd.
Qed.

Lemma transformOf_world n s this inC W :
  heap s !! inC = Some W → mAmWorld W = true →
  transformOf n s this inC = valueOf transformQ n s this.
Proof. intros HW Hw. unfold transformOf. by rewrite HW, Hw. Qed.

Lemma transformOf_live n s this inC T :
  transformOf n s this inC = Some T → is_Some (heap s !! inC).
Proof. unfold transformOf. destruct (heap s !! inC); [eauto|done]. Qed.

Lemma tracks_getSpatialVelocity_in this inC :
  tracks (fun n => getSpatialVelocity_in n this inC)
         (fun n s => spatialVelocityInOf n s this inC).
Proof.
  unfold getSpatialVelocity_in, spatialVelocityInOf.
  destruct (decide (this = inC)); [apply tracks_getSpatialVelocity|].
  eapply tracks_ext;
    [|apply (tracks_isWorld inC
        (fun w n => if w then do T <- getWorldTransform n this;
                               do V <- getSpatialVelocity n this; ret (AdR T V)
                    else do T <- getTransform n this inC;
                         do V <- getSpatialVelocity n this; ret (AdR T V))
        (fun w n s => if w
           then valueOf transformQ n s this ≫= fun T =>
                valueOf velocityQ n s this ≫= fun V => Some (AdR T V)
           else transformOf n s this inC ≫= fun T =>
                valueOf velocityQ n s this ≫= fun V => Some (AdR T V)))].
  - intros k s. cbv beta. destruct (heap s !! inC) as [W|] eqn:HW.
    + destruct (mAmWorld W) eqn:Hw; [|done].
      by rewrite (transformOf_world _ _ _ _ _ HW Hw).
    + unfold transformOf. by rewrite HW.
  - intros [].
    + apply (tracks_bind _ _ _ _ (tracks_getWorldTransform this)); intros T.
      apply (tracks_bind _ _ _ _ (tracks_getSpatialVelocity this)); intros V.
      apply tracks_ret.
    + apply (tracks_bind _ _ _ _ (tracks_getTransform this inC)); intros T.
      apply (tracks_bind _ _ _ _ (tracks_getSpatialVelocity this)); intros V.
      apply tracks_ret.
Qed.

Lemma tracks_getSpatialAcceleration_in this inC :
  tracks (fun n => getSpatialAcceleration_in n this inC)
         (fun n s => spatialAccelerationInOf n s this inC).
Proof.
  unfold getSpatialAcceleration_in, spatialAccelerationInOf.
  destruct (decide (this = inC)); [apply tracks_getSpatialAcceleration|].
  eapply tracks_ext;
    [|apply (tracks_isWorld inC
        (fun w n => if w then do T <- getWorldTransform n this;
                               do V <- getSpatialAcceleration n this; ret (AdR T V)
                    else do T <- getTransform n this inC;
                         do V <- getSpatialAcceleration n this; ret (AdR T V))
        (fun w n s => if w
           then valueOf transformQ n s this ≫= fun T =>
                valueOf accelerationQ n s this ≫= fun V => Some (AdR T V)
           else transformOf n s this inC ≫= fun T =>
                valueOf accelerationQ n s this ≫= fun V => Some (AdR T V)))].
  - intros k s. cbv beta. destruct (heap s !! inC) as [W|] eqn:HW.
    + destruct (mAmWorld W) eqn:Hw; [|done].
      by rewrite (transformOf_world _ _ _ _ _ HW Hw).
    + unfold transformOf. by rewrite HW.
  - intros [].
    + apply (tracks_bind _ _ _ _ (tracks_getWorldTransform this)); intros T.
      apply (tracks_bind _ _ _ _ (tracks_getSpatialAcceleration this)); intros V.
      apply tracks_ret.
    + apply (tracks_bind _ _ _ _ (tracks_getTransform this inC)); intros T.
      apply (tracks_bind _ _ _ _ (tracks_getSpatialAcceleration this)); intros V.
      apply tracks_ret.
Qed.

Lemma tracks_getAngularAcceleration this rel inC :
  tracks (fun n => getAngularAcceleration n this rel inC)
         (fun n s => spatialAccelerationRelOf n s this rel inC ≫= fun X => Some (head3 X)).
Proof.
  unfold getAngularAcceleration.
  apply (tracks_bind _ _ _ _ (tracks_getSpatialAcceleration_rel this rel inC)); intros V.
  apply tracks_ret.
Qed.

(** X7. In the coordinates of another frame, the spatial velocity and
    acceleration of a frame are the rotational adjoint, through
    [getTransform(inCoordinatesOf)], of the frame's own spatial velocity
    and acceleration, whether [inCoordinatesOf] is the World frame or not;
    in its own coordinates they are the own quantities unchanged. *)
Theorem getSpatialVelocity_in_composition this inC s T V A :
  this ≠ inC →
  returns (fun n => getTransform n this inC) s T →
  returns (fun n => getSpatialVelocity n this) s V →
  returns (fun n => getSpatialAcceleration n this) s A →
  returns (fun n => getSpatialVelocity_in n this inC) s (AdR T V) ∧
  returns (fun n => getSpatialAcceleration_in n this inC) s (AdR T A) ∧
  (∀ X, returns (fun n => getSpatialVelocity_in n this inC) s X → X = AdR T V) ∧
  (∀ X, returns (fun n => getSpatialAcceleration_in n this inC) s X → X = AdR T A) ∧
  returns (fun n => getSpatialVelocity_in n this this) s V ∧
  returns (fun n => getSpatialAcceleration_in n this this) s A.
Proof.
  intros Hne
    (n1 & H1)%(tracks_returns _ _ _ _ (tracks_getTransform this inC))
    (n2 & H2)%(tracks_returns _ _ _ _ (tracks_getSpatialVelocity this))
    (n3 & H3)%(tracks_returns _ _ _ _ (tracks_getSpatialAcceleration this)).
  set (N := n1 + n2 + n3).
  apply (tracks_mono _ _ (tracks_getTransform this inC) _ N) in H1; [|lia].
  apply (valueOf_mono velocityQ _ N) in H2; [|lia].
  apply (valueOf_mono accelerationQ _ N) in H3; [|lia].
  assert (HV : returns (fun n => getSpatialVelocity_in n this inC) s (AdR T V)).
  { apply (tracks_returns _ _ _ _ (tracks_getSpatialVelocity_in this inC)).
    exists N. unfold spatialVelocityInOf. rewrite decide_False by done.
    by rewrite H1, H2. }
  assert (HA : returns (fun n => getSpatialAcceleration_in n this inC) s (AdR T A)).
  { apply (tracks_returns _ _ _ _ (tracks_getSpatialAcceleration_in this inC)).
    exists N. unfold spatialAccelerationInOf. rewrite decide_False by done.
    by rewrite H1, H3. }
  split; [done|]. split; [done|]. split; [|split; [|split]].
  - intros X HX.
    exact (tracks_det _ _ _ _ _ (tracks_getSpatialVelocity_in _ _) HX HV).
  - intros X HX.
    exact (tracks_det _ _ _ _ _ (tracks_getSpatialAcceleration_in _ _) HX HA).
  - apply (tracks_returns _ _ _ _ (tracks_getSpatialVelocity_in this this)).
    exists N. unfold spatialVelocityInOf. by rewrite decide_True.
  - apply (tracks_returns _ _ _ _ (tracks_getSpatialAcceleration_in this this)).
    exists N. unfold spatialAccelerationInOf. by rewrite decide_True.
Qed.

(** *** Frames connected to the World frame *)

Lemma tracks_total {A} (g : nat → M A) d n s a :
  tracks g d → d n s = Some a → total (g n) s.
Proof.
  intros Hg Hd.
  destruct (tracks_sound _ _ Hg n s s a (extends_refl s) Hd) as (s' & ? & _).
  by exists a, s'.
Qed.

(** X8. Every query on frames connected to the World frame returns:
    with [n] parent references between each frame and the World frame,
    recursion depth [n + 1] is enough, whatever the flags are. *)
Theorem queries_total n s f g h :
  rooted n s f = true → rooted n s g = true → rooted n s h = true →
  total (getWorldTransform (S n) f) s ∧
  total (getTransform (S n) f g) s ∧
  total (getSpatialVelocity (S n) f) s ∧
  total (getSpatialVelocity_in (S n) f g) s ∧
  total (getSpatialVelocity_rel (S n) f g h) s ∧
  total (getLinearVelocity (S n) f g h) s ∧
  total (getAngularVelocity (S n) f g h) s ∧
  total (getSpatialAcceleration (S n) f) s ∧
  total (getSpatialAcceleration_in (S n) f g) s ∧
  total (getSpatialAcceleration_rel (S n) f g h) s ∧
  total (getLinearAcceleration (S n) f g h) s ∧
  total (getAngularAcceleration (S n) f g h) s.
Proof.
  intros Hf Hg Hh.
  destruct (rooted_valueOf transformQ _ _ _ Hf) as (W & HW).
  destruct (rooted_valueOf velocityQ _ _ _ Hf) as (V & HV).
  destruct (rooted_valueOf accelerationQ _ _ _ Hf) as (A & HA).
  destruct (rooted_valueOf velocityQ _ _ _ Hg) as (Vg & HVg).
  destruct (rooted_valueOf accelerationQ _ _ _ Hg) as (Ag & HAg).
  destruct (rooted_transformOf _ _ _ _ Hf Hg) as (Tfg & HTfg).
  destruct (rooted_transformOf _ _ _ _ Hf Hh) as (Tfh & HTfh).
  destruct (rooted_transformOf _ _ _ _ Hg Hf) as (Tgf & HTgf).
  destruct (rooted_transformOf _ _ _ _ Hf Hf) as (Tff & HTff).
  assert (HVrel : ∃ X, spatialVelocityRelOf (S n) s f g h = Some X).
  { unfold spatialVelocityRelOf. rewrite HTfh, HV, HTgf, HVg. simpl. eauto. }
  assert (HVself : ∃ X, spatialVelocityRelOf (S n) s f g f = Some X).
  { unfold spatialVelocityRelOf. rewrite HTff, HV, HTgf, HVg. simpl. eauto. }
  assert (HArel : ∃ X, spatialAccelerationRelOf (S n) s f g h = Some X).
  { destruct HVself as (X & HX). unfold spatialAccelerationRelOf.
    rewrite HTfh, HA, HTgf, HAg, HV, HX. simpl. eauto. }
  destruct HVrel as (Xv & HXv), HArel as (Xa & HXa).
  repeat split.
  - by eapply (tracks_total _ _ _ _ _ (tracks_getWorldTransform f)).
  - by eapply (tracks_total _ _ _ _ _ (tracks_getTransform f g)).
  - by eapply (tracks_total _ _ _ _ _ (tracks_getSpatialVelocity f)).
  - assert (∃ X, spatialVelocityInOf (S n) s f g = Some X) as (X & HX).
    { unfold spatialVelocityInOf. destruct (decide _); [eauto|].
      rewrite HTfg, HV. simpl. eauto. }
    by eapply (tracks_total _ _ (S n) _ _ (tracks_getSpatialVelocity_in f g)).
  - by eapply (tracks_total _ _ _ _ _ (tracks_getSpatialVelocity_rel f g h)).
  - eapply (tracks_total _ _ (S n) _ _ (tracks_getLinearVelocity f g h)).
    rewrite HXv. simpl. reflexivity.
  - eapply (tracks_total _ _ (S n) _ _ (tracks_getAngularVelocity f g h)).
    rewrite HXv. simpl. reflexivity.
  - by eapply (tracks_total _ _ _ _ _ (tracks_getSpatialAcceleration f)).
  - assert (∃ X, spatialAccelerationInOf (S n) s f g = Some X) as (X & HX).
    { unfold spatialAccelerationInOf. destruct (decide _); [eauto|].
      rewrite HTfg, HA. simpl. eauto. }
    by eapply (tracks_total _ _ (S n) _ _ (tracks_getSpatialAcceleration_in f g)).
  - by eapply (tracks_total _ _ _ _ _ (tracks_getSpatialAcceleration_rel f g h)).
  - eapply (tracks_total _ _ (S n) _ _ (tracks_getLinearAcceleration f g h)).
    unfold linearAccelerationOf. rewrite HXv, HXa. simpl. reflexivity.
  - eapply (tracks_total _ _ (S n) _ _ (tracks_getAngularAcceleration f g h)).
    rewrite HXa. simpl. reflexivity.
Qed.

(** *** Frames cut off from the World frame *)

Lemma trapped_valueOf Q s D :
  trapped Q s D → ∀ n x, D x → valueOf Q n s x = None.
Proof.
  intros HD. induction n as [|n IH]; intros x Hx; [done|].
  destruct (HD x Hx) as (E & HE & Hw & Hd & Hp).
  rewrite valueOf_S, HE, Hw, Hd.
  destruct (mParentFrame E) as [p|]; [|done].
  destruct (Hp p eq_refl) as [Hin|Hdead].
  - by rewrite (IH p Hin).
  - destruct n; [done|]. by rewrite valueOf_S, Hdead.
Qed.

(** X9. From a dirty frame whose parent chain, through dirty frames,
    ends at a null or dangling parent reference or runs in a circle, the
    three cached getters never return a value, whatever the recursion
    depth. *)
Theorem getters_trapped s D f n :
  D f →
  (trapped transformQ s D → value (getWorldTransform n f s) = None) ∧
  (trapped velocityQ s D → value (getSpatialVelocity n f s) = None) ∧
  (trapped accelerationQ s D → value (getSpatialAcceleration n f s) = None).
Proof.
  intros Hf. split; [|split]; intros HD.
  - destruct (getWorldTransform n f s) as [T s'|] eqn:H; [|done].
    apply (tracks_complete _ _ (tracks_getWorldTransform f)) in H as (_ & m & Hm).
    by rewrite (trapped_valueOf _ _ _ HD m f Hf) in Hm.
  - destruct (getSpatialVelocity n f s) as [T s'|] eqn:H; [|done].
    apply (tracks_complete _ _ (tracks_getSpatialVelocity f)) in H as (_ & m & Hm).
    by rewrite (trapped_valueOf _ _ _ HD m f Hf) in Hm.
  - destruct (getSpatialAcceleration n f s) as [T s'|] eqn:H; [|done].
    apply (tracks_complete _ _ (tracks_getSpatialAcceleration f)) in H as (_ & m & Hm).
    by rewrite (trapped_valueOf _ _ _ HD m f Hf) in Hm.
Qed.

End Queries.

(** ** What queries and notifications leave alone *)
Section Frame.
Context `{SA : SpatialAlgebra}.
Implicit Types (s : Store) (E : Entity) (Q : Quantity).

Section Leaves.
Context {B : Type} (π : Store → B).
Hypothesis π_heap : ∀ h s, π (set_heap h s) = π s.

Lemma leaves_ret {A} (a : A) : leaves π (ret a).
Proof. by intros s b s' [_ <-]%ret_Ok. Qed.

Lemma leaves_fail {A} e : leaves π (fail (A := A) e).
Proof. by intros s b s' ?. Qed.

Lemma leaves_bind {A C} (m : M A) (k : A → M C) :
  leaves π m → (∀ a, leaves π (k a)) → leaves π (bind m k).
Proof.
  intros Hm Hk s b s' (a & s1 & H1 & H2)%bind_Ok.
  rewrite (Hk _ _ _ _ H2). by eapply Hm.
Qed.

Lemma leaves_deref p : leaves π (deref p).
Proof. by intros s b s' [_ ->]%deref_Ok. Qed.

Lemma leaves_nonnull o : leaves π (nonnull o).
Proof. by intros s b s' [_ ->]%nonnull_Ok. Qed.

Lemma leaves_isWorld p : leaves π (isWorld p).
Proof. by intros s b s' (? & _ & _ & ->)%isWorld_Ok. Qed.

Lemma leaves_getParentFrame p : leaves π (getParentFrame p).
Proof. by intros s b s' (? & _ & _ & ->)%getParentFrame_Ok. Qed.

Lemma leaves_primitive (get : Entity → Vector6d) p :
  leaves π (do E <- deref p; ret (get E)).
Proof. by intros s b s' (? & _ & _ & ->)%primitive_Ok. Qed.

Lemma leaves_modify p f : leaves π (modify p f).
Proof using π_heap. intros s u s' (E & HE & ->)%modify_Ok. apply π_heap. Qed.

Lemma leaves_forEach {A} (l : list A) body :
  (∀ x, leaves π (body x)) → leaves π (forEach l body).
Proof.
  intros Hb. induction l as [|x l IH]; simpl; [apply leaves_ret|].
  apply leaves_bind; [apply Hb|intros _; apply IH].
Qed.

Lemma leaves_notifyAccelerationUpdate n f : leaves π (notifyAccelerationUpdate n f).
Proof using π_heap.
  revert f. induction n as [|n IH]; intros f; simpl; [apply leaves_fail|].
  apply leaves_bind; [apply leaves_deref|intros E].
  destruct (kind E); [apply leaves_modify|].
  destruct (mNeedAccelerationUpdate E); [apply leaves_ret|].
  apply leaves_bind; [apply leaves_modify|intros _].
  apply leaves_forEach, IH.
Qed.

Lemma leaves_notifyVelocityUpdate n f : leaves π (notifyVelocityUpdate n f).
Proof using π_heap.
  revert f. induction n as [|n IH]; intros f; simpl; [apply leaves_fail|].
  apply leaves_bind; [apply leaves_deref|intros E].
  destruct (kind E); [apply leaves_modify|].
  apply leaves_bind; [apply (leaves_notifyAccelerationUpdate (S n))|intros _].
  apply leaves_bind; [apply leaves_deref|intros E1].
  destruct (mNeedVelocityUpdate E1); [apply leaves_ret|].
  apply leaves_bind; [apply leaves_modify|intros _].
  apply leaves_forEach, IH.
Qed.

Lemma leaves_notifyTransformUpdate n f : leaves π (notifyTransformUpdate n f).
Proof using π_heap.
  revert f. induction n as [|n IH]; intros f; simpl; [apply leaves_fail|].
  apply leaves_bind; [apply leaves_deref|intros E].
  destruct (kind E); [apply leaves_modify|].
  apply leaves_bind; [apply (leaves_notifyVelocityUpdate (S n))|intros _].
  apply leaves_bind; [apply leaves_deref|intros E1].
  destruct (mNeedTransformUpdate E1); [apply leaves_ret|].
  apply leaves_bind; [apply leaves_modify|intros _].
  apply leaves_forEach, IH.
Qed.

Hypothesis π_bump : ∀ f s, π (bump f s) = π s.

Lemma leaves_getRelativeTransform p : leaves π (getRelativeTransform p).
Proof using π_bump.
  intros s b s' (? & _ & _ & ->)%getRelativeTransform_Ok. apply π_bump.
Qed.

Ltac leaves_step :=
  first [ apply leaves_ret | apply leaves_fail | apply leaves_deref
        | apply leaves_nonnull | apply leaves_isWorld
        | apply leaves_getParentFrame | apply leaves_getRelativeTransform
        | apply leaves_modify
        | apply (leaves_primitive relativeSpatialVelocity)
        | apply (leaves_primitive primaryRelativeAcceleration)
        | apply (leaves_primitive partialAcceleration)
        | apply leaves_bind; [|intros ?]
        | match goal with |- leaves _ (if ?b then _ else _) => destruct b end ].

Lemma leaves_getWorldTransform n f : leaves π (getWorldTransform n f).
Proof using π_heap π_bump.
  revert f. induction n as [|n IH]; intros f; simpl; [apply leaves_fail|].
  repeat first [apply IH | leaves_step].
Qed.

Lemma leaves_getSpatialVelocity n f : leaves π (getSpatialVelocity n f).
Proof using π_heap π_bump.
  revert f. induction n as [|n IH]; intros f; simpl; [apply leaves_fail|].
  unfold getRelativeSpatialVelocity. repeat first [apply IH | leaves_step].
Qed.

Lemma leaves_getSpatialAcceleration n f : leaves π (getSpatialAcceleration n f).
Proof using π_heap π_bump.
  revert f. induction n as [|n IH]; intros f; simpl; [apply leaves_fail|].
  unfold getPrimaryRelativeAcceleration, getPartialAcceleration.
  repeat first [apply IH | leaves_step].
Qed.

Lemma leaves_query fuel op : query_op op = true → leaves π (exec fuel op).
Proof using π_heap π_bump.
  destruct op; try done; intros _; unfold exec, discard,
    getLinearVelocity, getAngularVelocity, getLinearAcceleration,
    getAngularAcceleration, getSpatialAcceleration_rel, getSpatialVelocity_rel,
    getSpatialVelocity_in, getSpatialAcceleration_in, getTransform;
  repeat first [ apply leaves_getWorldTransform | apply leaves_getSpatialVelocity
               | apply leaves_getSpatialAcceleration | leaves_step ].
Qed.

End Leaves.

Lemma cached_cleared Q s p E E' :
  cached Q s p E E' →
  qDirty Q E' = qDirty Q E ∧ qCache Q E' = qCache Q E ∨
  qDirty Q E = true ∧ qDirty Q E' = false.
Proof. intros [?|(_ & ? & ? & _)]; [by left|by right]. Qed.

Lemma extends_cleared s s' : extends s s' → evolves cleared s s'.
Proof.
  intros Hext x. pose proof Hext as (H1 & H2 & H3).
  specialize (H1 x). specialize (H2 x). specialize (H3 x).
  destruct (heap s !! x) as [E|], (heap s' !! x) as [E'|]; try done.
  destruct H1 as [Hst Hc1], H2 as [_ Hc2], H3 as [_ Hc3].
  split; [done|].
  split; [exact (cached_cleared transformQ _ _ _ _ Hc1)|].
  split; [exact (cached_cleared velocityQ _ _ _ _ Hc2)|].
  exact (cached_cleared accelerationQ _ _ _ _ Hc3).
Qed.

(** X10. A query changes nothing but caches, flags and call counters: the
    objects keep their parents, children, names, shapes and primitives;
    a flag is at most cleared, never set; a cache changes only where its
    flag was cleared; and the World pointer, the diagnostics and the
    released shapes are as before. *)
Theorem queries_only_cache fuel op s s' :
  query_op op = true → exec fuel op s = Ok tt s' →
  logs s' = logs s ∧ evolves cleared s s'.
Proof.
  intros Hq H. split.
  - by eapply (leaves_query logs).
  - apply extends_cleared.
    pose proof (caching_getter fuel op) as Hc.
    destruct op; try done; by destruct (Hc _ _ _ H).
Qed.

(** X11. A notification only sets flags: no cache, parent, child set,
    name, shape or primitive changes, nothing is written outside the
    objects, no flag is cleared; [notifyVelocityUpdate] sets no transform
    flag, and [notifyAccelerationUpdate] sets no transform and no velocity
    flag. *)
Theorem notifications_only_raise fuel op s s' :
  run_notify fuel op s = Ok tt s' →
  (world s', relTfCalls s', warnings s', deleted s')
    = (world s, relTfCalls s, warnings s, deleted s) ∧
  evolves (match op with
           | NTransform _ => raised true true true
           | NVelocity _ => raised false true true
           | NAcceleration _ => raised false false true
           end) s s'.
Proof.
  intros H. destruct op as [f|f|f]; simpl in H; (split;
    [|first [by eapply changes_notifyTransformUpdate
            |by eapply changes_notifyVelocityUpdate
            |by eapply changes_notifyAccelerationUpdate]]).
  - by eapply (leaves_notifyTransformUpdate
                 (fun s => (world s, relTfCalls s, warnings s, deleted s))).
  - by eapply (leaves_notifyVelocityUpdate
                 (fun s => (world s, relTfCalls s, warnings s, deleted s))).
  - by eapply (leaves_notifyAccelerationUpdate
                 (fun s => (world s, relTfCalls s, warnings s, deleted s))).
Qed.

End Frame.

Section Accessors.
Context `{SA : SpatialAlgebra}.
Implicit Types (s : Store) (E : Entity) (Q : Quantity).

Lemma foldl_insert_elements (l : list Id) (acc : gset Id) :
  foldl (fun const_set x => {[x]} ∪ const_set) acc l = list_to_set l ∪ acc.
Proof.
  revert acc. induction l as [|x l IH]; intros acc; simpl; [set_solver|].
  rewrite IH. set_solver.
Qed.

Lemma convertToConstSet_id (X : gset Id) : convertToConstSet X = X.
Proof.
  unfold convertToConstSet. rewrite foldl_insert_elements.
  rewrite list_to_set_elements_L. set_solver.
Qed.

(** X12. The const accessors copy the child sets element by element:
    the copy has exactly the elements of the set, so a const and a
    non-const call agree, and the counts are the sizes of what they
    return; none of them changes the state. *)
Theorem child_accessors_agree this s :
  getChildEntities_const this s = getChildEntities this s ∧
  getChildFrames_const this s = getChildFrames this s ∧
  (∀ X s', getChildEntities_const this s = Ok X s' →
     s' = s ∧ getNumChildEntities this s = Ok (size X) s) ∧
  (∀ X s', getChildFrames_const this s = Ok X s' →
     s' = s ∧ getNumChildFrames this s = Ok (size X) s).
Proof.
  unfold getChildEntities_const, getChildEntities, getChildFrames_const,
    getChildFrames, getNumChildEntities, getNumChildFrames.
  unfold bind, deref, ret.
  destruct (heap s !! this) as [E|]; simpl; [|by repeat split].
  rewrite !convertToConstSet_id. repeat split; by simplify_eq.
Qed.

End Accessors.

Section Idempotence.
Context `{SA : SpatialAlgebra}.
Implicit Types (s : Store) (E : Entity) (Q : Quantity).

Lemma getSpatialVelocity_clean m f s E :
  heap s !! f = Some E → mNeedVelocityUpdate E = false →
  getSpatialVelocity (S m) f s = Ok (mVelocity E) s.
Proof.
  intros HE Hd. simpl. rewrite (bind_run _ _ _ _ _ (deref_run _ _ _ HE)).
  rewrite Hd. by destruct (mAmWorld E).
Qed.

Lemma getSpatialAcceleration_clean m f s E :
  heap s !! f = Some E → mNeedAccelerationUpdate E = false →
  getSpatialAcceleration (S m) f s = Ok (mAcceleration E) s.
Proof.
  intros HE Hd. simpl. rewrite (bind_run _ _ _ _ _ (deref_run _ _ _ HE)).
  rewrite Hd. by destruct (mAmWorld E).
Qed.

(** X13. A cached getter that has returned returns the same value when
    called again, with any recursion depth, and this second call changes
    nothing at all: no flag, no cache and no call counter. *)
Theorem cached_getters_idempotent n f s :
  (∀ T s', getWorldTransform n f s = Ok T s' →
           ∀ m, getWorldTransform (S m) f s' = Ok T s') ∧
  (∀ V s', getSpatialVelocity n f s = Ok V s' →
           ∀ m, getSpatialVelocity (S m) f s' = Ok V s') ∧
  (∀ A s', getSpatialAcceleration n f s = Ok A s' →
           ∀ m, getSpatialAcceleration (S m) f s' = Ok A s').
Proof.
  split; [|split]; intros X s' H m; (destruct n as [|n]; [done|]); simpl in H;
    apply bind_Ok in H as (E & s0 & [HE ->]%deref_Ok & H).
  - destruct (mAmWorld E) eqn:Hw.
    { apply ret_Ok in H as [<- <-]. simpl.
      by rewrite (bind_run _ _ _ _ _ (deref_run _ _ _ HE)), Hw. }
    destruct (mNeedTransformUpdate E) eqn:Hd.
    2:{ apply ret_Ok in H as [<- <-]. by apply getWorldTransform_clean. }
    minv.
    match goal with
    | |- _ _ _ (set_heap (<[_ := ?E']> ?h) ?s0) = _ =>
        assert (Hl : heap (set_heap (<[f := E']> h) s0) !! f = Some E')
          by (simpl; by rewrite lookup_insert_eq);
        by rewrite (getWorldTransform_clean m f _ _ Hl)
    end.
  - destruct (mAmWorld E) eqn:Hw.
    { apply ret_Ok in H as [<- <-]. simpl.
      by rewrite (bind_run _ _ _ _ _ (deref_run _ _ _ HE)), Hw. }
    destruct (mNeedVelocityUpdate E) eqn:Hd.
    2:{ apply ret_Ok in H as [<- <-]. by apply getSpatialVelocity_clean. }
    minv.
    match goal with
    | |- _ _ _ (set_heap (<[_ := ?E']> ?h) ?s0) = _ =>
        assert (Hl : heap (set_heap (<[f := E']> h) s0) !! f = Some E')
          by (simpl; by rewrite lookup_insert_eq);
        by rewrite (getSpatialVelocity_clean m f _ _ Hl)
    end.
  - destruct (mAmWorld E) eqn:Hw.
    { apply ret_Ok in H as [<- <-]. simpl.
      by rewrite (bind_run _ _ _ _ _ (deref_run _ _ _ HE)), Hw. }
    destruct (mNeedAccelerationUpdate E) eqn:Hd.
    2:{ apply ret_Ok in H as [<- <-]. by apply getSpatialAcceleration_clean. }
    minv.
    match goal with
    | |- _ _ _ (set_heap (<[_ := ?E']> ?h) ?s0) = _ =>
        assert (Hl : heap (set_heap (<[f := E']> h) s0) !! f = Some E')
          by (simpl; by rewrite lookup_insert_eq);
        by rewrite (getSpatialAcceleration_clean m f _ _ Hl)
    end.
Qed.

End Idempotence.

(** ** The child sets follow the parent references *)
Section Registry.
Context `{SA : SpatialAlgebra}.
Implicit Types (s : Store) (E : Entity).

Lemma evolves_at_refl r s : (∀ x, Reflexive (r x)) → evolves_at r s s.
Proof. intros Hr x. destruct (heap s !! x); [apply Hr|done]. Qed.

Lemma evolves_at_trans r s1 s2 s3 :
  (∀ x, Transitive (r x)) →
  evolves_at r s1 s2 → evolves_at r s2 s3 → evolves_at r s1 s3.
Proof.
  intros Hr H1 H2 x. specialize (H1 x). specialize (H2 x).
  destruct (heap s1 !! x), (heap s2 !! x), (heap s3 !! x); try done.
  by eapply Hr.
Qed.

Lemma evolves_at_heap r s s' :
  (∀ x, Reflexive (r x)) → heap s' = heap s → evolves_at r s s'.
Proof. intros Hr Hh x. rewrite Hh. destruct (heap s !! x); [apply Hr|done]. Qed.

Lemma evolves_at_lookup r s s' x E :
  evolves_at r s s' → heap s !! x = Some E →
  ∃ E', heap s' !! x = Some E' ∧ r x E E'.
Proof.
  intros H HE. specialize (H x). rewrite HE in H.
  destruct (heap s' !! x) as [E'|]; [eauto|done].
Qed.

Lemma evolves_at_lookup_inv r s s' x E' :
  evolves_at r s s' → heap s' !! x = Some E' →
  ∃ E, heap s !! x = Some E ∧ r x E E'.
Proof.
  intros H HE. specialize (H x). rewrite HE in H.
  destruct (heap s !! x) as [E|]; [eauto|done].
Qed.

Lemma evolves_evolves_at r s s' :
  evolves r s s' → evolves_at (fun _ => r) s s'.
Proof. done. Qed.

Lemma evolves_at_weaken r r' s s' :
  (∀ x E E', r x E E' → r' x E E') → evolves_at r s s' → evolves_at r' s s'.
Proof.
  intros Hr H x. specialize (H x).
  destruct (heap s !! x), (heap s' !! x); auto.
Qed.

Lemma changes_at_ret {A} r (a : A) : (∀ x, Reflexive (r x)) → changes_at r (ret a).
Proof. intros Hr s b s' [_ <-]%ret_Ok. by apply evolves_at_refl. Qed.

Lemma changes_at_bind {A B} r (m : M A) (k : A → M B) :
  (∀ x, Transitive (r x)) →
  changes_at r m → (∀ a, changes_at r (k a)) → changes_at r (bind m k).
Proof.
  intros Hr Hm Hk s b s' (a & s1 & H1 & H2)%bind_Ok.
  eapply evolves_at_trans; [done|by eapply Hm|by eapply Hk].
Qed.

Lemma changes_at_deref r p : (∀ x, Reflexive (r x)) → changes_at r (deref p).
Proof. intros Hr s E s' [_ ->]%deref_Ok. by apply evolves_at_refl. Qed.

Lemma changes_at_nonnull r o : (∀ x, Reflexive (r x)) → changes_at r (nonnull o).
Proof. intros Hr s E s' [_ ->]%nonnull_Ok. by apply evolves_at_refl. Qed.

Lemma changes_at_isWorld r p : (∀ x, Reflexive (r x)) → changes_at r (isWorld p).
Proof. intros Hr s b s' (? & _ & _ & ->)%isWorld_Ok. by apply evolves_at_refl. Qed.

Lemma changes_at_modify r p f :
  (∀ x, Reflexive (r x)) → (∀ E, r p E (f E)) → changes_at r (modify p f).
Proof.
  intros Hr Hf s u s' (E & HE & ->)%modify_Ok x. simpl.
  destruct (decide (p = x)) as [<-|].
  - rewrite lookup_insert_eq, HE. apply Hf.
  - rewrite lookup_insert_ne by done. destruct (heap s !! x); [apply Hr|done].
Qed.

Lemma changes_at_dtwarn r a b : (∀ x, Reflexive (r x)) → changes_at r (dtwarn a b).
Proof.
  intros Hr s u s' H. unfold dtwarn in H. simplify_eq. by apply evolves_at_heap.
Qed.

Lemma changes_at_dependsOn r n e f :
  (∀ x, Reflexive (r x)) → changes_at r (dependsOn n e f).
Proof. intros Hr s b s' ->%dependsOn_state. by apply evolves_at_refl. Qed.

Lemma changes_at_forEach {A} r (l : list A) body :
  (∀ x, Reflexive (r x)) → (∀ x, Transitive (r x)) →
  (∀ x, changes_at r (body x)) → changes_at r (forEach l body).
Proof.
  intros Hr Ht Hb. induction l as [|x l IH]; simpl.
  - by apply changes_at_ret.
  - apply changes_at_bind; [done|apply Hb|intros _; apply IH].
Qed.

Global Instance moved_refl c x : Reflexive (moved c x).
Proof. intros E. by repeat split. Qed.

Global Instance moved_trans c x : Transitive (moved c x).
Proof.
  intros E1 E2 E3 (?&?&?&?&?&Hp) (?&?&?&?&?&Hp').
  repeat split; try congruence. intros Hne. rewrite Hp', Hp; done.
Qed.

Lemma moved_erase_childEntity c x E : moved c x E (erase_childEntity c E).
Proof. repeat split; simpl; try done. set_solver. Qed.
Lemma moved_insert_childEntity c x E : moved c x E (insert_childEntity c E).
Proof. repeat split; simpl; try done. set_solver. Qed.
Lemma moved_erase_childFrame c x E : moved c x E (erase_childFrame c E).
Proof. repeat split; simpl; try done. set_solver. Qed.
Lemma moved_insert_childFrame c x E : moved c x E (insert_childFrame c E).
Proof. repeat split; simpl; try done. set_solver. Qed.
Lemma moved_set_parent c np E : moved c c E (set_parent np E).
Proof. by repeat split. Qed.

Lemma changes_at_Entity_changeParentFrame c np :
  changes_at (moved c) (Entity_changeParentFrame c np).
Proof.
  unfold Entity_changeParentFrame.
  apply changes_at_bind; [apply _|apply changes_at_deref, _|intros E].
  apply changes_at_bind; [apply _| |intros _].
  { destruct (mAmQuiet E); [apply changes_at_ret, _|].
    destruct (mParentFrame E); [|apply changes_at_ret, _].
    apply changes_at_modify; [apply _|apply moved_erase_childEntity]. }
  apply changes_at_bind; [apply _| |intros _].
  { apply changes_at_modify; [apply _|apply moved_set_parent]. }
  destruct (mAmQuiet E); [apply changes_at_ret, _|].
  destruct np; [|apply changes_at_ret, _].
  apply changes_at_modify; [apply _|apply moved_insert_childEntity].
Qed.

Lemma changes_at_changeParentFrame n c np :
  changes_at (moved c) (changeParentFrame n c np).
Proof.
  unfold changeParentFrame.
  apply changes_at_bind; [apply _| |intros refused].
  { destruct np; [|apply changes_at_ret, _].
    apply changes_at_bind; [apply _|apply changes_at_dependsOn, _|intros d].
    destruct d; [|apply changes_at_ret, _].
    apply changes_at_bind; [apply _|apply changes_at_isWorld, _|intros w1].
    apply changes_at_bind; [apply _|apply changes_at_isWorld, _|intros w2].
    apply changes_at_ret, _. }
  destruct refused.
  { destruct np; [apply changes_at_dtwarn, _|apply changes_at_ret, _]. }
  apply changes_at_bind; [apply _|apply changes_at_deref, _|intros E].
  apply changes_at_bind; [apply _| |intros _].
  { destruct (mParentFrame E); [|apply changes_at_ret, _].
    apply changes_at_modify; [apply _|apply moved_erase_childFrame]. }
  destruct np; [|apply changes_at_Entity_changeParentFrame].
  apply changes_at_bind; [apply _|apply changes_at_Entity_changeParentFrame|intros _].
  apply changes_at_bind; [apply _|apply changes_at_deref, _|intros E'].
  destruct (mAmQuiet E'); [apply changes_at_ret, _|].
  apply changes_at_bind; [apply _|apply changes_at_nonnull, _|intros q].
  apply changes_at_modify; [apply _|apply moved_insert_childFrame].
Qed.

Lemma changes_at_virtual n c np :
  changes_at (moved c) (Entity_changeParentFrame_virtual n c np).
Proof.
  unfold Entity_changeParentFrame_virtual.
  apply changes_at_bind; [apply _|apply changes_at_deref, _|intros E].
  destruct (kind E);
    [apply changes_at_Entity_changeParentFrame|apply changes_at_changeParentFrame].
Qed.

(** *** Where the reparented entity is registered *)

Lemma profile_ext c s PE PF PE' PF' par E0 E0' :
  (∀ p, PE p ↔ PE' p) → (∀ p, PF p ↔ PF' p) →
  kind E0' = kind E0 → mAmQuiet E0' = mAmQuiet E0 →
  profile c s PE PF par E0 → profile c s PE' PF' par E0'.
Proof.
  intros HE HF Hk Hq [(E & Hc & Hp & Hk' & Hq') H]. split.
  - exists E. repeat split; congruence.
  - intros p Ep Hlook. destruct (H p Ep Hlook) as [H1 H2].
    rewrite <- HE, <- HF. done.
Qed.

(** A write that keeps the parent, the kind and the suppression flag of
    the object it writes. *)
Lemma profile_modify c s s' q f PE PF PE' PF' par E0 :
  (∀ E, mParentFrame (f E) = mParentFrame E ∧ kind (f E) = kind E ∧
        mAmQuiet (f E) = mAmQuiet E) →
  (∀ E, (c ∈ mChildEntities E ↔ PE q) → (c ∈ mChildEntities (f E) ↔ PE' q)) →
  (∀ E, (c ∈ mChildFrames E ↔ PF q) → (c ∈ mChildFrames (f E) ↔ PF' q)) →
  (∀ p, p ≠ q → (PE' p ↔ PE p) ∧ (PF' p ↔ PF p)) →
  profile c s PE PF par E0 → modify q f s = Ok tt s' →
  profile c s' PE' PF' par E0.
Proof.
  intros Hf HfE HfF Hoth [(E & HE & Hp & Hk & Hq) H] (Eq & HEq & ->)%modify_Ok.
  split.
  - simpl. destruct (decide (q = c)) as [->|Hne].
    + rewrite lookup_insert_eq. simplify_eq. exists (f E).
      destruct (Hf E) as (-> & -> & ->). done.
    + rewrite lookup_insert_ne by done. by exists E.
  - intros p Ep. simpl. destruct (decide (q = p)) as [<-|Hne].
    + rewrite lookup_insert_eq. intros [= <-].
      destruct (H q Eq HEq) as [H1 H2]. split; [by apply HfE|by apply HfF].
    + rewrite lookup_insert_ne by done. intros Hlook.
      destruct (H p Ep Hlook) as [H1 H2].
      destruct (Hoth p) as [-> ->]; done.
Qed.

Lemma profile_set_parent c np s s' PE PF par E0 :
  profile c s PE PF par E0 → modify c (set_parent np) s = Ok tt s' →
  profile c s' PE PF np E0.
Proof.
  intros [(E & HE & Hp & Hk & Hq) H] (Eq & HEq & ->)%modify_Ok. simplify_eq.
  split.
  - simpl. rewrite lookup_insert_eq. by exists (set_parent np E).
  - intros p Ep. simpl. destruct (decide (c = p)) as [<-|Hne].
    + rewrite lookup_insert_eq. intros [= <-]. by apply (H c E).
    + rewrite lookup_insert_ne by done. apply H.
Qed.

Lemma profile_heap c s s' PE PF par E0 :
  heap s' = heap s → profile c s PE PF par E0 → profile c s' PE PF par E0.
Proof.
  intros Hh [H1 H2]. split; [by rewrite Hh|]. intros p Ep. rewrite Hh. apply H2.
Qed.

Lemma modify_live q f s s' x :
  modify q f s = Ok tt s' → (is_Some (heap s' !! x) ↔ is_Some (heap s !! x)).
Proof.
  intros (E & HE & ->)%modify_Ok. simpl. destruct (decide (q = x)) as [<-|].
  - rewrite lookup_insert_eq, HE. split; eauto.
  - by rewrite lookup_insert_ne.
Qed.

(** [Entity::changeParentFrame]: the entity leaves the child-entity set
    of its old parent and enters that of the new one. *)
Lemma Entity_changeParentFrame_profile c np s s' PF par E0 :
  profile c s (fun p => mAmQuiet E0 = false ∧ par = Some p) PF par E0 →
  Entity_changeParentFrame c np s = Ok tt s' →
  profile c s' (fun p => mAmQuiet E0 = false ∧ np = Some p) PF np E0 ∧
  (mAmQuiet E0 = false → ∀ N, np = Some N → is_Some (heap s' !! N)).
Proof.
  intros Hprof H. unfold Entity_changeParentFrame in H.
  apply bind_Ok in H as (E & s0 & [HE ->]%deref_Ok & H).
  pose proof Hprof as [(E1 & HE1 & Hp1 & Hk1 & Hq1) _]. simplify_eq.
  apply bind_Ok in H as ([] & s1 & H1 & H).
  apply bind_Ok in H as ([] & s2 & H2 & H).
  destruct (mAmQuiet E) eqn:Hq.
  { apply ret_Ok in H1 as [_ <-]. apply ret_Ok in H as [_ <-].
    split; [|congruence].
    eapply profile_ext; [| | | |by eapply profile_set_parent]; try done.
    intros p. split; intros [? _]; congruence. }
  assert (Hprof1 : profile c s1 (fun _ => False) PF (mParentFrame E) E0).
  { destruct (mParentFrame E) as [p0|] eqn:Hp0.
    - eapply (profile_modify c s s1 p0 (erase_childEntity c)); [..|exact Hprof|exact H1].
      + done.
      + intros ? _. simpl. set_solver.
      + done.
      + intros p Hne. split; [|done]. split; [done|]. intros [_ ?]. congruence.
    - apply ret_Ok in H1 as [_ <-].
      eapply profile_ext; [| | | |exact Hprof]; try done.
      intros p. split; [by intros [_ ?]|done]. }
  pose proof (profile_set_parent _ np _ _ _ _ _ _ Hprof1 H2) as Hprof2.
  destruct np as [N|].
  - split.
    + eapply (profile_modify c s2 s' N (insert_childEntity c)); [..|exact Hprof2|exact H].
      * done.
      * intros ? _. simpl. split; [by rewrite Hq1|set_solver].
      * done.
      * intros p Hne. split; [|done]. split; [|done]. intros [_ ?]. congruence.
    + intros _ N' [= <-]. apply (modify_live _ _ _ _ N H).
      apply modify_Ok in H as (? & ? & _). eauto.
  - apply ret_Ok in H as [_ <-]. split; [|done].
    eapply profile_ext; [| | | |exact Hprof2]; try done.
    intros p. split; [done|by intros [_ ?]].
Qed.

Lemma child_ok_intro c s E0 np :
  profile c s (fun p => mAmQuiet E0 = false ∧ np = Some p)
    (fun p => kind E0 = FrameKind ∧ mAmQuiet E0 = false ∧ np = Some p) np E0 →
  (mAmQuiet E0 = false → ∀ N, np = Some N → is_Some (heap s !! N)) →
  ∃ Ec', heap s !! c = Some Ec' ∧ child_ok s c Ec' ∧ mParentFrame Ec' = np.
Proof.
  intros Hprof Hlive. pose proof Hprof as [(E & HE & Hp & Hk & Hq) _].
  subst np. exists E. split; [done|]. split; [|done]. split.
  - eapply profile_ext; [| | | |exact Hprof]; try done.
    + intros p. by rewrite Hq.
    + intros p. by rewrite Hk, Hq.
  - rewrite Hq. done.
Qed.

Lemma child_ok_profile c s Ec :
  heap s !! c = Some Ec → child_ok s c Ec →
  profile c s (fun p => mAmQuiet Ec = false ∧ mParentFrame Ec = Some p)
    (fun p => kind Ec = FrameKind ∧ mAmQuiet Ec = false ∧ mParentFrame Ec = Some p)
    (mParentFrame Ec) Ec.
Proof. by intros _ [? _]. Qed.

Lemma Entity_changeParentFrame_child_ok c np s s' Ec :
  heap s !! c = Some Ec → child_ok s c Ec → kind Ec = PlainEntity →
  Entity_changeParentFrame c np s = Ok tt s' →
  ∃ Ec', heap s' !! c = Some Ec' ∧ child_ok s' c Ec' ∧ mParentFrame Ec' = np.
Proof.
  intros HE Hok Hk H.
  destruct (Entity_changeParentFrame_profile c np s s' _ _ Ec
              (child_ok_profile _ _ _ HE Hok) H) as [Hprof Hlive].
  apply (child_ok_intro c s' Ec np); [|done].
  eapply profile_ext; [| | | |exact Hprof]; try done.
  intros p. rewrite Hk. split; intros (? & _); done.
Qed.

(** The test in front of [Frame::changeParentFrame] reads only. *)
Lemma refusal_state n c np s refused s0 :
  match np with
  | Some q =>
      do d <- dependsOn n q c;
      if d then do w1 <- isWorld c; do w2 <- isWorld q; ret (negb (w1 && w2))
      else ret false
  | None => ret false
  end s = Ok refused s0 → s0 = s.
Proof.
  destruct np as [q|]; [|by intros [_ <-]%ret_Ok].
  intros (d & s1 & ->%dependsOn_state & H)%bind_Ok.
  destruct d; [|by apply ret_Ok in H as [_ <-]].
  apply bind_Ok in H as (w1 & s1 & (? & _ & _ & ->)%isWorld_Ok & H).
  apply bind_Ok in H as (w2 & s2 & (? & _ & _ & ->)%isWorld_Ok & H).
  by apply ret_Ok in H as [_ <-].
Qed.

Lemma child_ok_heap c s s' Ec :
  heap s' = heap s → child_ok s c Ec → child_ok s' c Ec.
Proof.
  intros Hh [H1 H2]. split; [by eapply profile_heap|]. by rewrite Hh.
Qed.

(** [Frame::changeParentFrame]: the frame moreover leaves the child-frame
    set of its old parent and enters that of the new one. *)
Lemma changeParentFrame_child_ok n c np s s' Ec :
  heap s !! c = Some Ec → child_ok s c Ec → kind Ec = FrameKind ∨ np = None →
  changeParentFrame n c np s = Ok tt s' →
  ∃ Ec', heap s' !! c = Some Ec' ∧ child_ok s' c Ec'.
Proof.
  intros HE Hok Hk H. unfold changeParentFrame in H.
  apply bind_Ok in H as (refused & s0 & ->%refusal_state & H).
  destruct refused.
  { exists Ec. assert (heap s' = heap s) as Hh.
    { destruct np; [unfold dtwarn in H; by simplify_eq|by apply ret_Ok in H as [_ <-]]. }
    rewrite Hh. split; [done|]. by eapply child_ok_heap. }
  apply bind_Ok in H as (E & s0 & [HE' ->]%deref_Ok & H). simplify_eq.
  apply bind_Ok in H as ([] & s1 & H1 & H).
  pose proof (child_ok_profile _ _ _ HE Hok) as Hprof.
  assert (Hprof1 : profile c s1
            (fun p => mAmQuiet Ec = false ∧ mParentFrame Ec = Some p)
            (fun _ => False) (mParentFrame Ec) Ec).
  { destruct (mParentFrame Ec) as [p0|] eqn:Hp0.
    - eapply (profile_modify c s s1 p0 (erase_childFrame c)); [..|exact Hprof|exact H1].
      + done.
      + done.
      + intros ? _. simpl. set_solver.
      + intros p Hne. split; [done|]. split; [done|]. intros (_ & _ & ?). congruence.
    - apply ret_Ok in H1 as [_ <-].
      eapply profile_ext; [| | | |exact Hprof]; try done.
      intros p. split; [by intros (_ & _ & ?)|done]. }
  destruct np as [N|].
  - apply bind_Ok in H as ([] & s2 & H2 & H).
    destruct (Entity_changeParentFrame_profile c (Some N) s1 s2 _ _ Ec Hprof1 H2)
      as [Hprof2 Hlive2].
    apply bind_Ok in H as (E' & s3 & [HE2 ->]%deref_Ok & H).
    pose proof Hprof2 as [(E2 & HE2' & Hp2 & Hk2 & Hq2) _]. simplify_eq.
    destruct Hk as [Hk|?]; [|done].
    destruct (mAmQuiet E') eqn:Hq.
    + apply ret_Ok in H as [_ <-].
      destruct (child_ok_intro c s2 Ec (Some N)) as (Ec' & ? & ? & _); [| |by eauto].
      * eapply profile_ext; [| | | |exact Hprof2]; try done.
        intros p. split; [done|]. intros (_ & ? & _). congruence.
      * intros ?. congruence.
    + apply bind_Ok in H as (q & s3 & [Hq' ->]%nonnull_Ok & H).
      rewrite Hp2 in Hq'. injection Hq' as <-.
      destruct (child_ok_intro c s' Ec (Some N)) as (Ec' & ? & ? & _); [| |by eauto].
      * eapply (profile_modify c s2 s' N (insert_childFrame c));
          [..|exact Hprof2|exact H].
        -- done.
        -- done.
        -- intros ? _. simpl. split; [by rewrite Hk, <- Hq2|set_solver].
        -- intros p Hne. split; [done|]. split; [|done]. intros (_ & _ & ?). congruence.
      * intros _ N' [= <-]. apply (modify_live _ _ _ _ N H).
        apply modify_Ok in H as (? & ? & _). eauto.
  - destruct (Entity_changeParentFrame_profile c None s1 s' _ _ Ec Hprof1 H)
      as [Hprof2 Hlive2].
    destruct (child_ok_intro c s' Ec None) as (Ec' & ? & ? & _); [| |by eauto].
    + eapply profile_ext; [| | | |exact Hprof2]; try done.
      intros p. split; [done|]. by intros (_ & _ & ?).
    + done.
Qed.

(** *** The registry is kept *)

Lemma registry_moved c s s' Ec' :
  registry s → evolves_at (moved c) s s' →
  heap s' !! c = Some Ec' → child_ok s' c Ec' → registry s'.
Proof.
  intros [Hok Hlive] Hev Hc Hokc. split.
  - intros x Ex' Hx. destruct (decide (x = c)) as [->|Hne]; [by simplify_eq|].
    destruct (evolves_at_lookup_inv _ _ _ _ _ Hev Hx) as (Ex & HEx & Hm).
    destruct Hm as (Hk & Hq & _ & _ & _ & Hp). specialize (Hp Hne).
    destruct (Hok x Ex HEx) as [[_ Hprof] Hl]. split; [split|].
    + exists Ex'. by repeat split.
    + intros p Ep' HEp'.
      destruct (evolves_at_lookup_inv _ _ _ _ _ Hev HEp') as (Ep & HEp & Hmp).
      destruct Hmp as (_ & _ & _ & HcE & HcF & _).
      destruct (Hprof p Ep HEp) as [H1 H2].
      rewrite Hk, Hq, Hp, <- H2, <- H1. clear -HcE HcF Hne. set_solver.
    + rewrite Hq, Hp. intros Hq' p Hp'. destruct (Hl Hq' p Hp') as [Ep HEp].
      destruct (evolves_at_lookup _ _ _ _ _ Hev HEp) as (Ep' & ? & _). eauto.
  - intros p Ep' y HEp' Hy.
    destruct (decide (y = c)) as [->|Hne]; [eauto|].
    destruct (evolves_at_lookup_inv _ _ _ _ _ Hev HEp') as (Ep & HEp & Hmp).
    destruct Hmp as (_ & _ & _ & HcE & HcF & _).
    destruct (Hlive p Ep y HEp) as [Ey HEy]; [clear -HcE HcF Hne Hy; set_solver|].
    destruct (evolves_at_lookup _ _ _ _ _ Hev HEy) as (Ey' & ? & _). eauto.
Qed.

Lemma registry_changeParentFrame n c np s s' Ec :
  registry s → heap s !! c = Some Ec → kind Ec = FrameKind ∨ np = None →
  changeParentFrame n c np s = Ok tt s' → registry s'.
Proof.
  intros Hreg HE Hk H.
  destruct (changeParentFrame_child_ok n c np s s' Ec HE) as (Ec' & HEc' & Hok');
    [by apply Hreg|done..|].
  eapply registry_moved; [done| |done..]. by eapply changes_at_changeParentFrame.
Qed.

Lemma registry_Entity_changeParentFrame c np s s' Ec :
  registry s → heap s !! c = Some Ec → kind Ec = PlainEntity →
  Entity_changeParentFrame c np s = Ok tt s' → registry s'.
Proof.
  intros Hreg HE Hk H.
  destruct (Entity_changeParentFrame_child_ok c np s s' Ec HE) as (Ec' & HEc' & Hok' & _);
    [by apply Hreg|done..|].
  eapply registry_moved; [done| |done..].
  by eapply changes_at_Entity_changeParentFrame.
Qed.

Lemma registry_virtual n c np s s' :
  registry s → Entity_changeParentFrame_virtual n c np s = Ok tt s' → registry s'.
Proof.
  intros Hreg H. unfold Entity_changeParentFrame_virtual in H.
  apply bind_Ok in H as (E & s0 & [HE ->]%deref_Ok & H).
  destruct (kind E) eqn:Hk.
  - by eapply registry_Entity_changeParentFrame.
  - eapply (registry_changeParentFrame n c np s s' E); [done..|by left|done].
Qed.

(** Nothing the registry reads changes. *)
Lemma registry_same s s' : evolves same_registry s s' → registry s → registry s'.
Proof.
  intros Hev [Hok Hlive]. split.
  - intros x Ex' Hx.
    destruct (evolves_lookup_inv _ _ _ _ _ Hev Hx) as (Ex & HEx & Hk & Hq & Hp & _).
    destruct (Hok x Ex HEx) as [[_ Hprof] Hl]. split; [split|].
    + exists Ex'. by repeat split.
    + intros p Ep' HEp'.
      destruct (evolves_lookup_inv _ _ _ _ _ Hev HEp') as (Ep & HEp & _ & _ & _ & HcE & HcF).
      rewrite Hk, Hq, Hp, HcE, HcF. by apply Hprof.
    + rewrite Hq, Hp. intros Hq' p Hp'. destruct (Hl Hq' p Hp') as [Ep HEp].
      destruct (evolves_lookup _ _ _ _ _ Hev HEp) as (Ep' & ? & _). eauto.
  - intros p Ep' y HEp' Hy.
    destruct (evolves_lookup_inv _ _ _ _ _ Hev HEp') as (Ep & HEp & _ & _ & _ & HcE & HcF).
    rewrite HcE, HcF in Hy. destruct (Hlive p Ep y HEp Hy) as [Ey HEy].
    destruct (evolves_lookup _ _ _ _ _ Hev HEy) as (Ey' & ? & _). eauto.
Qed.

Lemma same_registry_structure E E' : same_structure E E' → same_registry E E'.
Proof. unfold same_structure, structure. intros [=]. by repeat split. Qed.

Lemma registry_World s w s' : registry s → World s = Ok w s' → registry s'.
Proof.
  intros Hreg H. unfold World in H. destruct (world s) as [w0|] eqn:Hw.
  { by simplify_eq. }
  apply bind_Ok in H as (w1 & s1 & H1 & H).
  apply bind_Ok in H as ([] & s2 & H2 & [_ <-]%ret_Ok).
  unfold set_world in H2. injection H2 as <-.
  unfold WorldFrame_ctor in H1. cbv zeta in H1.
  apply bind_Ok in H1 as ([] & s2 & H1 & [<- <-]%ret_Ok).
  set (wf := fresh (dom (heap s))) in *.
  assert (Hfresh : heap s !! wf = None) by apply not_elem_of_dom, is_fresh.
  cut (registry s2).
  { intros [H3 H4]. split; [apply H3|apply H4]. }
  eapply (registry_changeParentFrame 1 wf (Some wf) _ s2 WorldFrame_init); [| |by left|done].
  2:{ simpl. by rewrite lookup_insert_eq. }
  destruct Hreg as [Hok Hlive]. split.
  - intros x Ex. simpl. destruct (decide (wf = x)) as [<-|Hne].
    + rewrite lookup_insert_eq. intros [= <-]. split; [split|done].
      * exists WorldFrame_init. simpl. by rewrite lookup_insert_eq.
      * intros p Ep. simpl. destruct (decide (wf = p)) as [<-|Hnp].
        -- rewrite lookup_insert_eq. intros [= <-]. simpl. set_solver.
        -- rewrite lookup_insert_ne by done. intros HEp. simpl.
           split; (split; [|intros; destruct_and!; done]); intros Hin;
             destruct (Hlive p Ep wf HEp) as [? ?]; set_solver.
    + rewrite lookup_insert_ne by done. intros HEx.
      destruct (Hok x Ex HEx) as [[_ Hprof] Hl]. split; [split|].
      * exists Ex. simpl. by rewrite lookup_insert_ne.
      * intros p Ep. simpl. destruct (decide (wf = p)) as [<-|Hnp].
        -- rewrite lookup_insert_eq. intros [= <-]. simpl.
           split; (split; [set_solver|]).
           ++ intros [Hq Hp]. destruct (Hl Hq wf Hp). congruence.
           ++ intros (_ & Hq & Hp). destruct (Hl Hq wf Hp). congruence.
        -- rewrite lookup_insert_ne by done. apply Hprof.
      * intros Hq p Hp. destruct (Hl Hq p Hp) as [Ep HEp]. simpl.
        destruct (decide (wf = p)) as [<-|]; [congruence|].
        rewrite lookup_insert_ne by done. eauto.
  - intros p Ep y. simpl. destruct (decide (wf = p)) as [<-|Hnp].
    + rewrite lookup_insert_eq. intros [= <-]. simpl. set_solver.
    + rewrite lookup_insert_ne by done. intros HEp Hy.
      destruct (Hlive p Ep y HEp Hy) as [Ey HEy]. simpl.
      destruct (decide (wf = y)) as [<-|]; [congruence|].
      rewrite lookup_insert_ne by done. eauto.
Qed.

Global Instance same_registry_refl : Reflexive same_registry.
Proof. by intros E. Qed.

Lemma registry_heap s s' : heap s' = heap s → registry s → registry s'.
Proof. intros Hh. apply registry_same. by apply evolves_heap; [apply _|]. Qed.

Lemma registry_dtor n f s s' :
  registry s → Frame_dtor n f s = Ok tt s' → registry s'.
Proof.
  intros Hreg H. unfold Frame_dtor in H.
  apply bind_Ok in H as (w & s0 & (E & HE & -> & ->)%isWorld_Ok & H).
  destruct (mAmWorld E); [by apply ret_Ok in H as [_ <-]|].
  apply bind_Ok in H as ([] & s1 & H1 & H).
  apply (registry_changeParentFrame n f None s s1 E) in H1; [|done|done|by right].
  apply bind_Ok in H as (E1 & s0 & [HE1 ->]%deref_Ok & H).
  apply bind_Ok in H as ([] & s2 & H2 & H).
  assert (Hreg2 : registry s2).
  { revert H2. apply (forEach_invariant registry); [|done].
    intros c sa sb _ Hra (W & sw & HW & Hv)%bind_Ok.
    eapply registry_virtual; [|exact Hv]. by eapply registry_World. }
  apply bind_Ok in H as (E2 & s0 & [HE2 ->]%deref_Ok & H).
  apply bind_Ok in H as ([] & s3 & H3 & H).
  unfold delete_shapes in H3. injection H3 as <-.
  apply modify_Ok in H as (E3 & HE3 & ->). simpl in HE3.
  eapply registry_same; [|exact Hreg2].
  intros x. simpl. destruct (decide (f = x)) as [<-|].
  - by rewrite lookup_insert_eq, HE3.
  - rewrite lookup_insert_ne by done. by destruct (heap s2 !! x).
Qed.

Lemma registry_subset s p Ep :
  registry s → heap s !! p = Some Ep → mChildFrames Ep ⊆ mChildEntities Ep.
Proof.
  intros [Hok Hlive] HEp c Hc.
  assert (is_Some (heap s !! c)) as [Ec HEc]
    by (eapply Hlive; [done|]; apply elem_of_union; by right).
  destruct (Hok c Ec HEc) as [[_ Hprof] _].
  destruct (Hprof p Ep HEp) as [H1 H2].
  apply H1. apply H2 in Hc. destruct Hc as (_ & Hq & Hp). done.
Qed.

(** X14. Whatever the interface does, in any order, the child sets say
    what the parent references say: an entity is in the child-entity set of
    an object exactly when that object is its parent and the entity is not
    suppressed, and in the child-frame set exactly when it is moreover a
    frame; so the child frames of an object are always among its child
    entities, and there are at most as many. *)
Theorem registry_invariant l s s' :
  registry s → run l s = Ok tt s' →
  registry s' ∧
  ∀ p Ep, heap s' !! p = Some Ep →
    mChildFrames Ep ⊆ mChildEntities Ep ∧
    ∃ nf ne, getNumChildFrames p s' = Ok nf s' ∧
             getNumChildEntities p s' = Ok ne s' ∧ nf ≤ ne.
Proof.
  intros Hreg H.
  assert (Hreg' : registry s').
  { revert H. apply (forEach_invariant registry); [|done].
    intros [fuel op] s1 s2 _ Hr1 Hrun.
    pose proof (caching_getter fuel op) as Hcg.
    destruct op as [|op| | | | | | | | | | | | | |];
      try (destruct (Hcg _ _ _ Hrun) as [Hext _];
           eapply registry_same; [|exact Hr1];
           eapply evolves_weaken; [|by apply extends_cleared];
           intros E E' [Hst _]; by apply same_registry_structure).
    - unfold exec, discard in Hrun.
      apply bind_Ok in Hrun as (w & s3 & HW & [_ <-]%ret_Ok).
      by eapply registry_World.
    - eapply registry_same; [|exact Hr1].
      destruct op; simpl in Hrun;
        [apply changes_notifyTransformUpdate in Hrun
        |apply changes_notifyVelocityUpdate in Hrun
        |apply changes_notifyAccelerationUpdate in Hrun];
        (eapply evolves_weaken; [|exact Hrun]);
        intros E E' [Hst _]; by apply same_registry_structure.
    - by eapply registry_virtual.
    - by eapply registry_dtor. }
  split; [done|]. intros p Ep HEp.
  pose proof (registry_subset _ _ _ Hreg' HEp) as Hsub.
  split; [done|]. exists (size (mChildFrames Ep)), (size (mChildEntities Ep)).
  unfold getNumChildFrames, getNumChildEntities.
  rewrite !(bind_run _ _ _ _ _ (deref_run _ _ _ HEp)).
  repeat split. by apply subseteq_size.
Qed.

End Registry.

(** ** Reparenting creates no cycle *)
Section Grounded.
Context `{SA : SpatialAlgebra}.
Implicit Types (s : Store) (E : Entity).

Lemma grounded_S n s f :
  grounded (S n) s f =
  match heap s !! f with
  | None => false
  | Some E => mAmWorld E ||
      match mParentFrame E with
      | None => true
      | Some p => grounded n s p
      end
  end.
Proof. done. Qed.

Lemma grounded_0 s f :
  grounded 0 s f =
  match heap s !! f with
  | None => false
  | Some E => mAmWorld E ||
      match mParentFrame E with
      | None => true
      | Some p => false
      end
  end.
Proof. done. Qed.

Lemma grounded_live n s f : grounded n s f = true → is_Some (heap s !! f).
Proof. destruct n; simpl; destruct (heap s !! f); eauto; done. Qed.

Lemma grounded_mono n m s f : grounded n s f = true → n ≤ m → grounded m s f = true.
Proof.
  revert m f. induction n as [|n IH]; intros m f H Hle.
  - rewrite grounded_0 in H. destruct m; [by rewrite grounded_0|].
    rewrite grounded_S. destruct (heap s !! f) as [E|]; [|done].
    destruct (mAmWorld E); [done|]. by destruct (mParentFrame E).
  - destruct m as [|m]; [lia|]. rewrite grounded_S in *.
    destruct (heap s !! f) as [E|]; [|done].
    destruct (mAmWorld E); [done|]. destruct (mParentFrame E); [|done].
    simpl in *. apply IH; [done|lia].
Qed.

Lemma grounded_heap n s s' f : heap s' = heap s → grounded n s' f = grounded n s f.
Proof.
  intros Hh. revert f. induction n as [|n IH]; intros f.
  - by rewrite !grounded_0, Hh.
  - rewrite !grounded_S, Hh. destruct (heap s !! f) as [E|]; [|done].
    destruct (mAmWorld E); [done|]. destruct (mParentFrame E); [|done]. apply IH.
Qed.

(** The dependency check says no only where there is no dependency. *)
Lemma dependsOn_false m y F s s' :
  dependsOn m y F s = Ok false s' → ¬ descends s y F.
Proof.
  intros H Hd. revert m H. induction Hd as [f|e E p f HE Hw Hp _ IH]; intros m H.
  { by rewrite dependsOn_self in H. }
  destruct m as [|m]; simpl in H.
  - destruct (decide (e = f)); [by apply ret_Ok in H as [? _]|done].
  - destruct (decide (e = f)); [by apply ret_Ok in H as [? _]|].
    rewrite (bind_run _ _ _ _ _ (deref_run _ _ _ HE)), Hw, Hp in H. by eapply IH.
Qed.

(** And it says no, given the depth, wherever there is none. *)
Lemma dependsOn_grounded n y F s :
  grounded n s y = true → ¬ descends s y F → dependsOn (S n) y F s = Ok false s.
Proof.
  revert y. induction n as [|n IH]; intros y Hg Hd.
  - rewrite grounded_0 in Hg. destruct (heap s !! y) as [E|] eqn:HE; [|done].
    simpl. destruct (decide (y = F)) as [->|]; [by destruct Hd; constructor|].
    rewrite (bind_run _ _ _ _ _ (deref_run _ _ _ HE)).
    destruct (mAmWorld E); [done|]. by destruct (mParentFrame E).
  - rewrite grounded_S in Hg. destruct (heap s !! y) as [E|] eqn:HE; [|done].
    change (dependsOn (S (S n)) y F s) with
      ((if decide (y = F) then ret true
        else do E <- deref y;
             if mAmWorld E then ret false
             else match mParentFrame E with
                  | Some p => dependsOn (S n) p F
                  | None => ret false
                  end) s).
    destruct (decide (y = F)) as [->|]; [by destruct Hd; constructor|].
    rewrite (bind_run _ _ _ _ _ (deref_run _ _ _ HE)).
    destruct (mAmWorld E) eqn:Hw; [done|].
    destruct (mParentFrame E) as [p|] eqn:Hp; [|done].
    apply IH; [done|]. intros Hdp. apply Hd. by econstructor.
Qed.

(** A chain that does not pass through [c] is as it was. *)
Lemma grounded_moved c s s' :
  evolves_at (moved c) s s' →
  ∀ k y, grounded k s y = true → ¬ descends s y c → grounded k s' y = true.
Proof.
  intros Hev. induction k as [|k IH]; intros y Hg Hd.
  - rewrite grounded_0 in *. destruct (heap s !! y) as [E|] eqn:HE; [|done].
    destruct (evolves_at_lookup _ _ _ _ _ Hev HE) as (E' & -> & Hm).
    destruct Hm as (_ & _ & -> & _ & _ & Hp).
    rewrite Hp; [done|]. intros ->. apply Hd. constructor.
  - rewrite grounded_S in *. destruct (heap s !! y) as [E|] eqn:HE; [|done].
    destruct (evolves_at_lookup _ _ _ _ _ Hev HE) as (E' & -> & Hm).
    destruct Hm as (_ & _ & -> & _ & _ & Hp).
    rewrite Hp; [|intros ->; apply Hd; constructor].
    destruct (mAmWorld E) eqn:Hw; [done|].
    destruct (mParentFrame E) as [p|] eqn:Hpar; [|done]. simpl in *.
    apply IH; [done|]. intros Hdp. apply Hd. by econstructor.
Qed.

(** Every chain ends again, once the chain of [c] does. *)
Lemma all_grounded_moved c s s' kc :
  evolves_at (moved c) s s' → grounded kc s' c = true →
  all_grounded s → all_grounded s'.
Proof.
  intros Hev Hc Hall y [Ey' HEy'].
  destruct (evolves_at_lookup_inv _ _ _ _ _ Hev HEy') as (Ey & HEy & _).
  destruct (Hall y) as (k & Hk); [by eexists|].
  clear Ey Ey' HEy HEy'. exists (k + kc). revert y Hk.
  induction k as [|k IH]; intros y Hk.
  - destruct (decide (y = c)) as [->|Hne]; [by eapply grounded_mono|].
    rewrite grounded_0 in Hk. destruct (heap s !! y) as [E|] eqn:HE; [|done].
    destruct (evolves_at_lookup _ _ _ _ _ Hev HE) as (E' & HE' & Hm).
    destruct Hm as (_ & _ & Hw & _ & _ & Hp). specialize (Hp Hne).
    apply grounded_mono with (n := 0); [|lia].
    rewrite grounded_0, HE', Hw, Hp. done.
  - destruct (decide (y = c)) as [->|Hne]; [eapply grounded_mono; [done|lia]|].
    rewrite grounded_S in Hk. destruct (heap s !! y) as [E|] eqn:HE; [|done].
    destruct (evolves_at_lookup _ _ _ _ _ Hev HE) as (E' & HE' & Hm).
    destruct Hm as (_ & _ & Hw & _ & _ & Hp). specialize (Hp Hne).
    change (S k + kc) with (S (k + kc)). rewrite grounded_S, HE', Hw, Hp.
    destruct (mAmWorld E); [done|]. destruct (mParentFrame E); [|done].
    simpl in *. by apply IH.
Qed.


Lemma parent_modify c np q f s s' :
  (∀ E, mParentFrame (f E) = mParentFrame E) →
  (∃ E, heap s !! c = Some E ∧ mParentFrame E = np) →
  modify q f s = Ok tt s' →
  ∃ E, heap s' !! c = Some E ∧ mParentFrame E = np.
Proof.
  intros Hf (E & HE & Hp) (Eq & HEq & ->)%modify_Ok. simpl.
  destruct (decide (q = c)) as [->|Hne].
  - rewrite lookup_insert_eq. simplify_eq. exists (f E). by rewrite Hf.
  - rewrite lookup_insert_ne by done. eauto.
Qed.

Lemma Entity_changeParentFrame_parent c np s s' :
  Entity_changeParentFrame c np s = Ok tt s' →
  ∃ E, heap s' !! c = Some E ∧ mParentFrame E = np.
Proof.
  intros H. unfold Entity_changeParentFrame in H.
  apply bind_Ok in H as (E & s0 & [HE ->]%deref_Ok & H).
  apply bind_Ok in H as ([] & s1 & H1 & H).
  apply bind_Ok in H as ([] & s2 & H2 & H).
  assert (∃ E2, heap s2 !! c = Some E2 ∧ mParentFrame E2 = np) as Hpar.
  { apply modify_Ok in H2 as (E1 & HE1 & ->). simpl.
    rewrite lookup_insert_eq. by eexists. }
  destruct (mAmQuiet E); [by apply ret_Ok in H as [_ <-]|].
  destruct np as [N|]; [|by apply ret_Ok in H as [_ <-]].
  eapply parent_modify; [|exact Hpar|exact H]; done.
Qed.

(** An accepted reparenting leaves the frame under the requested parent,
    and a frame is accepted under a dependant only where both are World
    frames. *)
Lemma changeParentFrame_parent n c np s s' :
  changeParentFrame n c np s = Ok tt s' →
  heap s' = heap s ∨
  ∃ E', heap s' !! c = Some E' ∧ mParentFrame E' = np ∧
        ∀ N, np = Some N →
             dependsOn n N c s = Ok false s ∨ mAmWorld E' = true.
Proof.
  intros H. pose proof (changes_at_changeParentFrame n c np _ _ _ H) as Hev.
  unfold changeParentFrame in H.
  apply bind_Ok in H as (refused & s0 & Href & H).
  pose proof (refusal_state _ _ _ _ _ _ Href) as ->.
  destruct refused.
  { left. destruct np; [unfold dtwarn in H; by simplify_eq|by apply ret_Ok in H as [_ <-]]. }
  right.
  assert (∀ N, np = Some N →
            dependsOn n N c s = Ok false s ∨
            ∃ E, heap s !! c = Some E ∧ mAmWorld E = true) as Hwhy.
  { intros N ->. apply bind_Ok in Href as (d & s1 & Hd & Href).
    pose proof (dependsOn_state _ _ _ _ _ _ Hd) as ->.
    destruct d; [|by left]. right.
    apply bind_Ok in Href as (w1 & s1 & (E1 & HE1 & -> & ->)%isWorld_Ok & Href).
    apply bind_Ok in Href as (w2 & s2 & (E2 & HE2 & -> & ->)%isWorld_Ok & Href).
    apply ret_Ok in Href as [Href _]. exists E1. split; [done|].
    by destruct (mAmWorld E1). }
  assert (∃ E', heap s' !! c = Some E' ∧ mParentFrame E' = np) as (E' & HE' & Hp').
  { apply bind_Ok in H as (E & s0 & [HE ->]%deref_Ok & H).
    apply bind_Ok in H as ([] & s1 & H1 & H).
    destruct np as [N|]; [|by eapply Entity_changeParentFrame_parent].
    apply bind_Ok in H as ([] & s2 & H2 & H).
    apply Entity_changeParentFrame_parent in H2.
    apply bind_Ok in H as (E2 & s3 & [HE2 ->]%deref_Ok & H).
    destruct (mAmQuiet E2); [by apply ret_Ok in H as [_ <-]|].
    apply bind_Ok in H as (p & s3 & [_ ->]%nonnull_Ok & H).
    eapply parent_modify; [|exact H2|exact H]; done. }
  exists E'. split; [done|]. split; [done|].
  intros N HN. destruct (Hwhy N HN) as [?|(E & HE & Hw)]; [by left|right].
  destruct (evolves_at_lookup _ _ _ _ _ Hev HE) as (E'' & HE'' & Hm).
  simplify_eq. destruct Hm as (_ & _ & -> & _). done.
Qed.

(** X15. A store whose parent chains all end (at the World frame or at a
    detached object, after finitely many live objects) stays so under
    [Frame::changeParentFrame], whatever frame and new parent are given:
    reparenting closes no cycle of parent references. *)
Theorem changeParentFrame_no_cycle n F np s s' :
  all_grounded s → changeParentFrame n F np s = Ok tt s' → all_grounded s'.
Proof.
  intros Hall H.
  pose proof (changes_at_changeParentFrame n F np _ _ _ H) as Hev.
  destruct (changeParentFrame_parent _ _ _ _ _ H) as [Hh|(E' & HE' & Hp' & Hwhy)].
  { intros f Hf. rewrite Hh in Hf. destruct (Hall f Hf) as (k & Hk).
    exists k. by rewrite (grounded_heap _ _ _ _ Hh). }
  destruct (mAmWorld E') eqn:Hw.
  { eapply (all_grounded_moved F s s' 0); [done| |done].
    by rewrite grounded_0, HE', Hw. }
  destruct np as [N|].
  - destruct (Hwhy N eq_refl) as [Hdep|]; [|done].
    assert (is_Some (heap s !! N)) as HN.
    { destruct (decide (N = F)) as [->|Hne]; [by rewrite dependsOn_self in Hdep|].
      destruct n as [|n]; simpl in Hdep; rewrite decide_False in Hdep by done; [done|].
      apply bind_Ok in Hdep as (E & s0 & [HE ->]%deref_Ok & _). by eexists. }
    destruct (Hall N HN) as (k & Hk).
    eapply (all_grounded_moved F s s' (S k)); [done| |done].
    rewrite grounded_S, HE', Hw, Hp'. simpl.
    eapply grounded_moved; [done..|]. by eapply dependsOn_false.
  - eapply (all_grounded_moved F s s' 0); [done| |done].
    by rewrite grounded_0, HE', Hw, Hp'.
Qed.

End Grounded.

(** ** A legal reparenting takes effect *)
Section Accepted.
Context `{SA : SpatialAlgebra}.
Implicit Types (s : Store) (E : Entity).

Lemma modify_returns q f s :
  is_Some (heap s !! q) → ∃ s', modify q f s = Ok tt s'.
Proof. intros [E HE]. unfold modify. rewrite HE. eauto. Qed.

Lemma leaves_Entity_changeParentFrame {B} (π : Store → B) c np :
  (∀ h s, π (set_heap h s) = π s) → leaves π (Entity_changeParentFrame c np).
Proof.
  intros Hπ. unfold Entity_changeParentFrame.
  apply leaves_bind; [by apply leaves_deref|intros E].
  apply leaves_bind; [|intros _].
  { destruct (mAmQuiet E); [apply leaves_ret|].
    destruct (mParentFrame E); [by apply leaves_modify|apply leaves_ret]. }
  apply leaves_bind; [by apply leaves_modify|intros _].
  destruct (mAmQuiet E); [apply leaves_ret|].
  destruct np; [by apply leaves_modify|apply leaves_ret].
Qed.

Lemma Entity_changeParentFrame_returns c np s E :
  heap s !! c = Some E →
  (mAmQuiet E = false → ∀ p, mParentFrame E = Some p → is_Some (heap s !! p)) →
  (mAmQuiet E = false → ∀ N, np = Some N → is_Some (heap s !! N)) →
  ∃ s', Entity_changeParentFrame c np s = Ok tt s'.
Proof.
  intros HE Hold Hnew. unfold Entity_changeParentFrame.
  rewrite (bind_run _ _ _ _ _ (deref_run _ _ _ HE)).
  assert (∃ s1, (if mAmQuiet E then ret tt
                 else match mParentFrame E with
                      | Some p => modify p (erase_childEntity c)
                      | None => ret tt
                      end) s = Ok tt s1 ∧
                ∀ x, is_Some (heap s1 !! x) ↔ is_Some (heap s !! x))
    as (s1 & H1 & Hl1).
  { destruct (mAmQuiet E); [by exists s|].
    destruct (mParentFrame E) as [p|]; [|by exists s].
    destruct (modify_returns p (erase_childEntity c) s) as (s1 & H1); [by apply Hold|].
    exists s1. split; [done|]. intros x. by eapply modify_live. }
  rewrite (bind_run _ _ _ _ _ H1).
  destruct (modify_returns c (set_parent np) s1) as (s2 & H2); [apply Hl1; by eexists|].
  rewrite (bind_run _ _ _ _ _ H2).
  destruct (mAmQuiet E); [by eexists|].
  destruct np as [N|]; [|by eexists].
  apply modify_returns. eapply modify_live; [done|]. apply Hl1. by eapply Hnew.
Qed.

(** Past the dependency check. *)
Lemma changeParentFrame_accepted n c N s :
  dependsOn n N c s = Ok false s →
  changeParentFrame n c (Some N) s =
  (do E <- deref c;
   do_ match mParentFrame E with
       | Some p => modify p (erase_childFrame c)
       | None => ret tt
       end;
   do_ Entity_changeParentFrame c (Some N);
   do E' <- deref c;
   if mAmQuiet E' then ret tt
   else
     do p <- nonnull (mParentFrame E');
     modify p (insert_childFrame c)) s.
Proof.
  intros Hd. unfold changeParentFrame.
  rewrite (bind_run _ _ s false s); [done|]. by rewrite (bind_run _ _ _ _ _ Hd).
Qed.

Lemma changeParentFrame_returns n c N s E :
  heap s !! c = Some E →
  (∀ p, mParentFrame E = Some p → is_Some (heap s !! p)) →
  dependsOn n N c s = Ok false s → is_Some (heap s !! N) →
  ∃ s' E', changeParentFrame n c (Some N) s = Ok tt s' ∧
    (world s', relTfCalls s', warnings s', deleted s') =
    (world s, relTfCalls s, warnings s, deleted s) ∧
    heap s' !! c = Some E' ∧ mParentFrame E' = Some N.
Proof.
  intros HE Hold Hd HN.
  set (π := fun s : Store => (world s, relTfCalls s, warnings s, deleted s)).
  assert (∀ h s, π (set_heap h s) = π s) as Hπ by done.
  rewrite (changeParentFrame_accepted _ _ _ _ Hd).
  rewrite (bind_run _ _ _ _ _ (deref_run _ _ _ HE)).
  assert (∃ s1 E1, match mParentFrame E with
                   | Some p => modify p (erase_childFrame c)
                   | None => ret tt
                   end s = Ok tt s1 ∧ π s1 = π s ∧
                   heap s1 !! c = Some E1 ∧ mParentFrame E1 = mParentFrame E ∧
                   ∀ x, is_Some (heap s1 !! x) ↔ is_Some (heap s !! x))
    as (s1 & E1 & H1 & Hπ1 & HE1 & Hp1 & Hl1).
  { destruct (mParentFrame E) as [p|] eqn:Hp; [|by exists s, E].
    destruct (modify_returns p (erase_childFrame c) s) as (s1 & H1); [by apply Hold|].
    destruct (parent_modify c (Some p) p (erase_childFrame c) s s1) as (E1 & HE1 & Hp1);
      [done|by eexists|done|].
    exists s1, E1. split; [done|].
    split; [by apply (leaves_modify π Hπ p _ _ _ _ H1)|].
    split; [done|]. split; [done|]. intros x. by eapply modify_live. }
  rewrite (bind_run _ _ _ _ _ H1).
  destruct (Entity_changeParentFrame_returns c (Some N) s1 E1) as (s2 & H2); [done| | |].
  { intros _ p Hp. apply Hl1, Hold. congruence. }
  { intros _ ? [= <-]. by apply Hl1. }
  rewrite (bind_run _ _ _ _ _ H2).
  pose proof (leaves_Entity_changeParentFrame π c (Some N) Hπ _ _ _ H2) as Hπ2.
  pose proof (changes_at_Entity_changeParentFrame c (Some N) _ _ _ H2) as Hev2.
  destruct (Entity_changeParentFrame_parent _ _ _ _ H2) as (E2 & HE2 & Hp2).
  rewrite (bind_run _ _ _ _ _ (deref_run _ _ _ HE2)).
  destruct (mAmQuiet E2).
  { exists s2, E2. split; [done|]. split; [change (π s2 = π s); congruence|done]. }
  rewrite Hp2. simpl.
  rewrite (bind_run _ _ s2 N s2) by done.
  destruct (modify_returns N (insert_childFrame c) s2) as (s3 & H3).
  { destruct HN as [EN HEN].
    assert (is_Some (heap s1 !! N)) as [EN1 HEN1] by (apply Hl1; by eexists).
    destruct (evolves_at_lookup _ _ _ _ _ Hev2 HEN1) as (EN2 & -> & _). by eexists. }
  destruct (parent_modify c (Some N) N (insert_childFrame c) s2 s3) as (E3 & HE3 & Hp3);
    [done|by eexists|done|].
  exists s3, E3. split; [done|]. split; [|done].
  change (π s3 = π s). rewrite <- Hπ1, <- Hπ2. by apply (leaves_modify π Hπ N _ _ _ _ H3).
Qed.

(** X16. [Frame::changeParentFrame] with a new parent that does not
    descend from the frame: where the registry is in order, the old parent
    is live and the new parent's chain ends within the fuel, the call
    returns without a diagnostic, the frame's parent reference is the new
    parent, a frame that is not suppressed is in both child sets of the new
    parent, no other object lists it, and the registry is in order again. *)
Theorem changeParentFrame_takes_effect n F N s EF :
  registry s → heap s !! F = Some EF → kind EF = FrameKind →
  (∀ p, mParentFrame EF = Some p → is_Some (heap s !! p)) →
  grounded n s N = true → ¬ descends s N F →
  ∃ s' EF', changeParentFrame (S n) F (Some N) s = Ok tt s' ∧
    (world s', relTfCalls s', warnings s', deleted s') =
    (world s, relTfCalls s, warnings s, deleted s) ∧
    registry s' ∧
    heap s' !! F = Some EF' ∧ mParentFrame EF' = Some N ∧
    (mAmQuiet EF = false →
       ∃ EN, heap s' !! N = Some EN ∧ (F ∈ mChildFrames EN) ∧ (F ∈ mChildEntities EN)) ∧
    (∀ p Ep, heap s' !! p = Some Ep → p ≠ N →
       (F ∉ mChildFrames Ep) ∧ (F ∉ mChildEntities Ep)).
Proof.
  intros Hreg HEF Hk Hold Hg Hd.
  destruct (changeParentFrame_returns (S n) F N s EF) as (s' & EF' & H & Hπ & HEF' & Hp');
    [done|done|by apply dependsOn_grounded|by eapply grounded_live|].
  exists s', EF'. split; [done|]. split; [done|].
  assert (registry s') as Hreg'.
  { eapply (registry_changeParentFrame (S n) F (Some N) s s' EF); [done..|by left|done]. }
  split; [done|]. split; [done|]. split; [done|].
  pose proof (changes_at_changeParentFrame _ _ _ _ _ _ H) as Hev.
  destruct (evolves_at_lookup _ _ _ _ _ Hev HEF) as (E'' & HE'' & Hm).
  assert (E'' = EF') as -> by congruence.
  destruct Hm as (Hk' & Hq' & _).
  destruct Hreg' as [Hok _]. destruct (Hok F EF' HEF') as [[_ Hall] Hlive].
  split.
  - intros Hq. rewrite <- Hq' in Hq. destruct (Hlive Hq N Hp') as [EN HEN].
    exists EN. split; [done|]. destruct (Hall N EN HEN) as [HinE HinF].
    split; [apply HinF|apply HinE]; rewrite ?Hk'; done.
  - intros p Ep HEp Hne. destruct (Hall p Ep HEp) as [HinE HinF].
    split; [rewrite HinF|rewrite HinE]; intros Hin; destruct_and!; congruence.
Qed.

End Accepted.


(** ** The overloads agree *)
Section Overloads.
Context `{SA : SpatialAlgebra}.
Implicit Types (s : Store) (E : Entity).

Lemma freshOf_det Q n m s f v v' :
  freshOf Q n s f = Some v → freshOf Q m s f = Some v' → v = v'.
Proof.
  intros H H'.
  apply (freshOf_mono _ _ (n `max` m)) in H; [|lia].
  apply (freshOf_mono _ _ (n `max` m)) in H'; [|lia]. congruence.
Qed.

(** X17. With coherent transform caches, what [Frame::getTransform]
    returns for a frame that is not the World frame, branch by branch, in
    terms of the world poses of the two frames: relative to the World
    frame it is the world pose of the frame; relative to its parent it is
    the relative transform, and the world pose of the frame is the world
    pose of the parent composed with it; relative to any other frame it is
    the inverse of that frame's world pose composed with the world pose of
    the frame. *)
Theorem getTransform_branches f g s E G T Tf Tg :
  parents_are_frames s → coherentQ transformQ s →
  heap s !! f = Some E → kind E = FrameKind → mAmWorld E = false →
  heap s !! g = Some G →
  returns (fun n => getTransform n f g) s T →
  returns (fun n => getWorldTransform n f) s Tf →
  returns (fun n => getWorldTransform n g) s Tg →
  (mAmWorld G = true → T = Tf) ∧
  (mParentFrame E = Some g →
   Tf = Tg ∘∘ relativeTransform E ∧
   (mAmWorld G = false → T = relativeTransform E)) ∧
  (mAmWorld G = false → mParentFrame E ≠ Some g → T = inverse Tg ∘∘ Tf).
Proof.
  intros Htyped Hcoh HE Hk Hw HG
    (n1 & H1)%(tracks_returns _ _ _ _ (tracks_getTransform f g))
    (n2 & H2)%(tracks_returns _ _ _ _ (tracks_getWorldTransform f))
    (n3 & H3)%(tracks_returns _ _ _ _ (tracks_getWorldTransform g)).
  cbv beta in *.
  set (N := n1 + n2 + n3).
  apply (transformOf_mono _ N) in H1; [|lia].
  pose proof (valueOf_mono transformQ _ N _ _ _ H2 ltac:(lia)) as H2'.
  pose proof (valueOf_mono transformQ _ N _ _ _ H3 ltac:(lia)) as H3'.
  unfold transformOf in H1. rewrite HG, HE in H1.
  split; [|split].
  - intros HwG. rewrite HwG in H1. congruence.
  - intros Hp. split.
    + destruct (valueOf_fresh transformQ _ _ _ _ _ Htyped Hcoh HE Hk H2) as (m & Hm).
      assert (kind G = FrameKind) as HkG by (by apply (Htyped f E g G)).
      destruct (valueOf_fresh transformQ _ _ _ _ _ Htyped Hcoh HG HkG H3)
        as (m' & Hm').
      destruct m as [|m]; [done|]. rewrite freshOf_S, HE, Hw, Hp in Hm.
      destruct (freshOf transformQ m s g) as [v|] eqn:Hv; [|done].
      injection Hm as <-. by rewrite (freshOf_det _ _ _ _ _ _ _ Hv Hm').
    + intros HwG. rewrite HwG in H1.
      rewrite decide_True in H1 by done. congruence.
  - intros HwG Hp. rewrite HwG in H1.
    rewrite decide_False in H1 by congruence.
    rewrite H3', H2' in H1. congruence.
Qed.

(** X18. In the coordinates of another frame, the velocity of a frame
    relative to the World frame is the velocity the one-argument query
    returns, where transporting the World frame's velocity, zero, gives
    zero, and subtracting zero changes nothing. *)
Theorem relative_to_World s w EW f inC T V Tr :
  f ≠ inC →
  heap s !! w = Some EW → mAmWorld EW = true → mVelocity EW = Zero →
  returns (fun k => getTransform k f inC) s T →
  returns (fun k => getSpatialVelocity k f) s V →
  returns (fun k => getTransform k w f) s Tr →
  AdT Tr Zero = Zero → minus6 V Zero = V →
  returns (fun k => getSpatialVelocity_rel k f w inC) s (AdR T V) ∧
  ∀ X, returns (fun k => getSpatialVelocity_rel k f w inC) s X ↔
       returns (fun k => getSpatialVelocity_in k f inC) s X.
Proof.
  intros Hne HW Hw HV0
    (n1 & H1)%(tracks_returns _ _ _ _ (tracks_getTransform f inC))
    (n2 & H2)%(tracks_returns _ _ _ _ (tracks_getSpatialVelocity f))
    (n3 & H3)%(tracks_returns _ _ _ _ (tracks_getTransform w f))
    HAdT Hminus.
  cbv beta in *.
  set (N := S (n1 + n2 + n3)).
  apply (transformOf_mono _ N) in H1; [|lia].
  apply (transformOf_mono _ N) in H3; [|lia].
  pose proof (valueOf_mono velocityQ _ N _ _ _ H2 ltac:(lia)) as H2'.
  assert (valueOf velocityQ N s w = Some Zero) as HVw.
  { unfold N. by rewrite valueOf_S, HW, Hw, <- HV0. }
  assert (spatialVelocityRelOf N s f w inC = Some (AdR T V)) as Hrel.
  { unfold spatialVelocityRelOf. rewrite H1, H2', H3, HVw. simpl.
    by rewrite HAdT, Hminus. }
  assert (spatialVelocityInOf N s f inC = Some (AdR T V)) as Hin.
  { unfold spatialVelocityInOf. rewrite decide_False by done.
    by rewrite H1, H2'. }
  assert (returns (fun k => getSpatialVelocity_rel k f w inC) s (AdR T V)) as Rrel.
  { apply (tracks_returns _ _ _ _ (tracks_getSpatialVelocity_rel f w inC)). eauto. }
  assert (returns (fun k => getSpatialVelocity_in k f inC) s (AdR T V)) as Rin.
  { apply (tracks_returns _ _ _ _ (tracks_getSpatialVelocity_in f inC)). eauto. }
  split; [done|]. intros X. split; intros HX.
  - by rewrite (tracks_det _ _ _ _ _ (tracks_getSpatialVelocity_rel f w inC) HX Rrel).
  - by rewrite (tracks_det _ _ _ _ _ (tracks_getSpatialVelocity_in f inC) HX Rin).
Qed.

End Overloads.

(** ** Frame::draw *)
Section Drawing.
Context `{SA : SpatialAlgebra} {Vector4d : Type} (default_depth : Z).
Implicit Types (s : Store) (E : Entity).
Local Abbreviation Call := (RenderCall (Vector4d := Vector4d)).
Implicit Types (tr inner : list Call).
Implicit Types (_color : Vector4d).



Lemma stack_app d tr tr' :
  stack d (tr ++ tr') = stack d tr ≫= fun d' => stack d' tr'.
Proof.
  revert d. induction tr as [|c tr IH]; intros d; [done|].
  destruct c; simpl; try apply IH. destruct d; [done|apply IH].
Qed.

Lemma balanced_nil : balanced ([] : list Call).
Proof. by intros d. Qed.

Lemma balanced_app tr tr' : balanced tr → balanced tr' → balanced (tr ++ tr').
Proof. intros H H' d. rewrite stack_app, H. apply H'. Qed.

Lemma balanced_bracket tr : balanced tr → balanced (PushMatrix :: tr ++ [PopMatrix]).
Proof. intros H d. simpl. by rewrite stack_app, H. Qed.

Lemma collect_Ok {A} (l : list A) (body : A → M (list Call))
    (P : list Call → Prop) s tr s'
    (I : Store → Store → Prop) :
  P [] → (∀ a b, P a → P b → P (a ++ b)) →
  (∀ s0, I s0 s0) → (∀ s1 s2 s3, I s1 s2 → I s2 s3 → I s1 s3) →
  (∀ x s1 t s2, x ∈ l → body x s1 = Ok t s2 → P t ∧ I s1 s2) →
  collect l body s = Ok tr s' → P tr ∧ I s s'.
Proof.
  intros Hnil Happ Hrefl Htrans. revert s tr.
  induction l as [|x l IH]; intros s tr Hbody H; simpl in H.
  - apply ret_Ok in H as [<- <-]. done.
  - apply bind_Ok in H as (t & s1 & H1 & H).
    apply bind_Ok in H as (t' & s2 & H2 & H).
    apply ret_Ok in H as [<- <-].
    destruct (Hbody x s t s1) as [? ?]; [by left|done|].
    destruct (IH s1 t') as [? ?]; [|done|].
    { intros y sa ta sb Hy. apply Hbody. by right. }
    split; [by apply Happ|]. eauto.
Qed.

Lemma drawn_refl s : drawn s s.
Proof. done. Qed.

Lemma drawn_trans s1 s2 s3 : drawn s1 s2 → drawn s2 s3 → drawn s1 s3.
Proof. unfold drawn. intros; destruct_and!. repeat split; congruence. Qed.

Lemma Frame_draw_Ok fuel this _ri _color _udc _depth s tr s' :
  Frame_draw default_depth fuel this _ri _color _udc _depth s = Ok tr s' →
  balanced tr ∧ drawn s s'.
Proof.
  revert this _depth s tr s'.
  induction fuel as [|fuel IH]; intros this _depth s tr s' H; simpl in H.
  { destruct _ri; [done|]. by apply ret_Ok in H as [<- <-]. }
  destruct _ri as [ri|]; [|by apply ret_Ok in H as [<- <-]].
  apply bind_Ok in H as (T & s1 & H1 & H).
  assert (drawn s s1) as Hd1.
  { unfold getRelativeTransform in H1. destruct (heap s !! this); [|done].
    by injection H1 as <- <-. }
  apply bind_Ok in H as (E & s2 & [HE ->]%deref_Ok & H).
  apply bind_Ok in H as (shapes & s2 & H2 & H).
  apply bind_Ok in H as (subtree & s3 & H3 & H).
  apply ret_Ok in H as [<- <-].
  apply (collect_Ok _ _ balanced _ _ _ drawn) in H2 as [Hb2 Hd2];
    [|apply balanced_nil|apply balanced_app|apply drawn_refl|apply drawn_trans|].
  2:{ intros x sa t sb _ [<- <-]%ret_Ok. split; [|done].
      apply (balanced_bracket [_]). by intros d. }
  apply (collect_Ok _ _ balanced _ _ _ drawn) in H3 as [Hb3 Hd3];
    [|apply balanced_nil|apply balanced_app|apply drawn_refl|apply drawn_trans|].
  2:{ intros x sa t sb _ (Ec & sc & [HEc ->]%deref_Ok & Hx)%bind_Ok.
      destruct (kind Ec); [|by eapply IH].
      apply ret_Ok in Hx as [<- <-]. split; [|done]. by intros d. }
  split; [|eauto using drawn_trans].
  intros d. simpl. rewrite stack_app, Hb2. simpl. by rewrite stack_app, Hb3.
Qed.


Lemma collect_returns {A} (l : list A) (body : A → M (list Call))
    (I : Store → Prop) s :
  I s →
  (∀ x s1, x ∈ l → I s1 → ∃ t s2, body x s1 = Ok t s2 ∧ I s2) →
  ∃ tr s', collect l body s = Ok tr s' ∧ I s'.
Proof.
  revert s. induction l as [|x l IH]; intros s Hs Hbody; simpl.
  - by exists [], s.
  - destruct (Hbody x s) as (t & s1 & H1 & Hs1); [by left|done|].
    destruct (IH s1) as (t' & s2 & H2 & Hs2); [done| |].
    { intros y sa Hy. apply Hbody. by right. }
    rewrite (bind_run _ _ _ _ _ H1), (bind_run _ _ _ _ _ H2). by exists (t ++ t'), s2.
Qed.

Lemma shallow_heap n s s' f : heap s' = heap s → shallow n s' f = shallow n s f.
Proof.
  intros Hh. revert f. induction n as [|n IH]; intros f; simpl; rewrite Hh; [done|].
  destruct (heap s !! f) as [E|]; [|done]. destruct (kind E); [done|].
  induction (elements (mChildEntities E)) as [|x l IHl]; [done|].
  simpl. by rewrite IH, IHl.
Qed.

(** X19. The calls [Frame::draw] makes on a render target are balanced:
    every [pushMatrix] is matched by a later [popMatrix] and no pop comes
    first; they start with a push and the relative transform of the frame
    and end with a pop.  Without a render target there is no call at all.
    Of the state only the count of the calls of [getRelativeTransform]
    changes. *)
Theorem Frame_draw_balanced fuel this _ri _color _useDefaultColor _depth s tr s' :
  Frame_draw default_depth fuel this _ri _color _useDefaultColor _depth s = Ok tr s' →
  balanced tr ∧ drawn s s' ∧
  match _ri with
  | None => tr = [] ∧ s' = s
  | Some _ =>
      ∃ E inner, heap s !! this = Some E ∧ balanced inner ∧
        tr = [PushMatrix; TransformBy (relativeTransform E)] ++ inner ++ [PopMatrix]
  end.
Proof.
  intros H. destruct (Frame_draw_Ok _ _ _ _ _ _ _ _ _ H) as [Hb Hd].
  split; [done|]. split; [done|].
  destruct _ri as [ri|];
    [|by destruct fuel; simpl in H; apply ret_Ok in H as [<- <-]].
  destruct fuel as [|fuel]; [done|]. simpl in H.
  apply bind_Ok in H as (T & s1 & H1 & H).
  unfold getRelativeTransform in H1.
  destruct (heap s !! this) as [E|] eqn:HE; [|done]. injection H1 as <- <-.
  apply bind_Ok in H as (E' & s2 & [HE' ->]%deref_Ok & H).
  apply bind_Ok in H as (shapes & s2 & H2 & H).
  apply bind_Ok in H as (subtree & s3 & H3 & H).
  apply ret_Ok in H as [<- <-].
  exists E, (shapes ++ subtree). split; [done|]. split; [|by rewrite <- app_assoc].
  apply balanced_app.
  - apply (collect_Ok _ _ balanced _ _ _ (fun _ _ => True)) in H2 as [? _];
      [done|apply balanced_nil|apply balanced_app|done..|].
    intros x sa t sb _ [<- <-]%ret_Ok. split; [|done]. by intros d.
  - apply (collect_Ok _ _ balanced _ _ _ (fun _ _ => True)) in H3 as [? _];
      [done|apply balanced_nil|apply balanced_app|done..|].
    intros x sa t sb _ (Ec & sc & [HEc ->]%deref_Ok & Hx)%bind_Ok.
    split; [|done]. destruct (kind Ec); [|by eapply Frame_draw_Ok].
    apply ret_Ok in Hx as [<- <-]. by intros d.
Qed.

(** X20. Where the child-entity sets below a frame form a tree of live
    objects of depth at most [n], [Frame::draw] returns with fuel [n]. *)
Theorem Frame_draw_returns n this _ri _color _useDefaultColor _depth s E :
  heap s !! this = Some E → kind E = FrameKind → shallow n s this = true →
  ∃ tr s', Frame_draw default_depth n this _ri _color _useDefaultColor _depth s = Ok tr s'.
Proof.
  destruct _ri as [ri|]; [|by intros; destruct n; exists [], s].
  intros HE Hk Hsh.
  cut (∃ tr s', Frame_draw default_depth n this (Some ri) _color _useDefaultColor _depth s
                = Ok tr s' ∧ heap s' = heap s).
  { intros (tr & s' & H & _). eauto. }
  revert this _depth s E HE Hk Hsh.
  induction n as [|n IH]; intros this _depth s E HE Hk Hsh.
  { simpl in Hsh. by rewrite HE, Hk in Hsh. }
  simpl in Hsh. rewrite HE, Hk in Hsh.
  simpl. unfold getRelativeTransform at 1. unfold bind at 1. rewrite HE.
  rewrite (bind_run _ _ _ E (bump this s)) by (by apply deref_run).
  destruct (collect_returns (mVizShapes E)
    (fun shape => ret [PushMatrix; ShapeDraw shape _color _useDefaultColor; PopMatrix])
    (fun s1 => heap s1 = heap s) (bump this s)) as (shapes & s2 & H2 & Hs2); [done| |].
  { intros x s1 _ Hs1. by eexists _, s1. }
  rewrite (bind_run _ _ _ _ _ H2).
  destruct (collect_returns (elements (mChildEntities E))
    (fun it => do Ec <- deref it;
               match kind Ec with
               | PlainEntity => ret [EntityDraw it _color _useDefaultColor]
               | FrameKind =>
                   Frame_draw default_depth n it (Some ri) _color _useDefaultColor default_depth
               end)
    (fun s1 => heap s1 = heap s) s2) as (subtree & s3 & H3 & Hs3); [done| |].
  { intros x s1 Hx Hs1.
    assert (shallow n s x = true) as Hshx.
    { rewrite forallb_forall in Hsh. apply Hsh. by apply list_elem_of_In. }
    assert (is_Some (heap s !! x)) as [Ex HEx].
    { destruct n; simpl in Hshx; destruct (heap s !! x); eauto; done. }
    rewrite <- Hs1 in HEx. rewrite (bind_run _ _ _ _ _ (deref_run _ _ _ HEx)).
    destruct (kind Ex) eqn:Hkx; [by eexists _, s1|].
    destruct (IH x default_depth s1 Ex HEx Hkx) as (t & s2' & Ht & Hs2').
    { by rewrite (shallow_heap _ _ _ _ Hs1). }
    exists t, s2'. split; [done|congruence]. }
  rewrite (bind_run _ _ _ _ _ H3). by eexists _, s3.
Qed.

End Drawing.

(** ** The integer instance is lawful, and the code run on concrete frames *)
Module ZFacts.
Import ZSpatial.
Local Open Scope Z_scope.



Local Close Scope Z_scope.

(** *** The chain World <- C <- B <- A *)

Lemma lookup_A : heap chainStore !! 3%nat = Some entityA.
Proof. reflexivity. Qed.
Lemma lookup_B : heap chainStore !! 2%nat = Some entityB.
Proof. reflexivity. Qed.
Lemma lookup_C : heap chainStore !! 1%nat = Some entityC.
Proof. reflexivity. Qed.
Lemma lookup_W : heap chainStore !! 0%nat = Some entityW.
Proof. reflexivity. Qed.

(** A property of all objects of the chain is checked object by object. *)
Lemma chain_Forall (P : Id → Entity → Prop) :
  P 3%nat entityA → P 2%nat entityB → P 1%nat entityC → P 0%nat entityW →
  ∀ p E, heap chainStore !! p = Some E → P p E.
Proof.
  intros HA HB HC HW. change (map_Forall P (heap chainStore)).
  unfold chainStore. simpl.
  repeat (apply map_Forall_insert_2; [assumption|]). apply map_Forall_empty.
Qed.



(** C2 on the frame C, whose parent is the World frame. *)
Lemma getWorldTransform_recomputes_once_witness :
  ∃ s1 E1,
    getWorldTransform 2 1%nat chainStore = Ok (isoMul isoId (transl 1 2 3)) s1 ∧
    heap s1 !! 1%nat = Some E1 ∧
    mNeedTransformUpdate E1 = false ∧
    mWorldTransform E1 = isoMul isoId (transl 1 2 3) ∧
    calls s1 1%nat = S (calls chainStore 1%nat) ∧
    (∀ m, getWorldTransform (S m) 1%nat s1
          = Ok (isoMul isoId (transl 1 2 3)) s1) ∧
    (∀ m s2 T2, getWorldTransform (S m) 1%nat s1 = Ok T2 s2 →
       calls s2 1%nat = S (calls chainStore 1%nat)).
Proof.
  apply (getWorldTransform_recomputes_once 1 1%nat chainStore entityC 0%nat
           isoId chainStore); reflexivity.
Defined.

(** C4: C may not become a child of its descendant A. *)
Lemma changeParentFrame_refuses_cycle_witness :
  ∃ n, ∀ m, n ≤ m →
    changeParentFrame m 1%nat (Some 3%nat) chainStore
    = Ok tt (warned 1%nat 3%nat chainStore).
Proof.
  destruct (changeParentFrame_refuses_cycle chainStore 1%nat 3%nat entityC entityA)
    as [H _]; [reflexivity..| |].
  - apply (descends_step _ 3%nat entityA 2%nat); [reflexivity..|].
    apply (descends_step _ 2%nat entityB 1%nat); [reflexivity..|].
    apply descends_self.
  - apply H. reflexivity.
Defined.

Lemma returns_T31 : returns (fun n => getTransform n 3%nat 1%nat) chainStore T31.
Proof. apply (value_returns _ 5). vm_compute. reflexivity. Defined.
Lemma returns_T23 : returns (fun n => getTransform n 2%nat 3%nat) chainStore T23.
Proof. apply (value_returns _ 5). vm_compute. reflexivity. Defined.
Lemma returns_V_A : returns (fun n => getSpatialVelocity n 3%nat) chainStore V_A.
Proof. apply (value_returns _ 5). vm_compute. reflexivity. Defined.
Lemma returns_V_B : returns (fun n => getSpatialVelocity n 2%nat) chainStore V_B.
Proof. apply (value_returns _ 5). vm_compute. reflexivity. Defined.
Lemma returns_A_A :
  returns (fun n => getSpatialAcceleration n 3%nat) chainStore A_A.
Proof. apply (value_returns _ 5). vm_compute. reflexivity. Defined.
Lemma returns_A_B :
  returns (fun n => getSpatialAcceleration n 2%nat) chainStore A_B.
Proof. apply (value_returns _ 5). vm_compute. reflexivity. Defined.
Lemma returns_V_AB_A :
  returns (fun n => getSpatialVelocity_rel n 3%nat 2%nat 3%nat) chainStore V_AB_A.
Proof. apply (value_returns _ 5). vm_compute. reflexivity. Defined.
Lemma returns_V_AB_C :
  returns (fun n => getSpatialVelocity_rel n 3%nat 2%nat 1%nat) chainStore V_AB_C.
Proof. apply (value_returns _ 5). vm_compute. reflexivity. Defined.

(** C6: the velocity of A relative to B in the coordinates of C. *)
Lemma getSpatialVelocity_rel_composition_witness :
  returns (fun n => getSpatialVelocity_rel n 3%nat 2%nat 1%nat) chainStore
    (zAdR T31 (v6sub V_A (zAdT T23 V_B))) ∧
  returns (fun n => getLinearVelocity n 3%nat 2%nat 1%nat) chainStore
    (linearPart (zAdR T31 (v6sub V_A (zAdT T23 V_B)))).
Proof.
  destruct (getSpatialVelocity_rel_composition 3%nat 2%nat 1%nat chainStore
              T31 V_A T23 V_B returns_T31 returns_V_A returns_T23 returns_V_B)
    as (H1 & H2 & _).
  split; [exact H1|exact H2].
Defined.

(** C5: the acceleration of A relative to B in the coordinates of C. *)
Lemma getSpatialAcceleration_rel_composition_witness :
  returns (fun n => getSpatialAcceleration_rel n 3%nat 2%nat 1%nat) chainStore
    (zAdR T31 (v6sub (v6sub A_A (zAdT T23 A_B)) (zad V_A V_AB_A))) ∧
  returns (fun n => getLinearAcceleration n 3%nat 2%nat 1%nat) chainStore
    (v3add
       (linearPart (zAdR T31 (v6sub (v6sub A_A (zAdT T23 A_B)) (zad V_A V_AB_A))))
       (v3cross (angular V_AB_C) (linearPart V_AB_C))).
Proof.
  destruct (getSpatialAcceleration_rel_composition 3%nat 2%nat 1%nat chainStore
              T31 A_A T23 A_B V_A V_AB_A V_AB_C
              returns_T31 returns_A_A returns_T23 returns_A_B
              returns_V_A returns_V_AB_A returns_V_AB_C)
    as (H1 & H2 & _).
  split; [exact H1|exact H2].
Defined.

(** C7 as stated fails: after [Frame::World()] on the empty store and a
    notification on the World frame, its three flags are set. *)
Lemma World_flags_counterexample :
  value ((do w <- World;
          do_ notifyTransformUpdate 1 w;
          do E <- deref w;
          ret (mNeedTransformUpdate E, mNeedVelocityUpdate E,
               mNeedAccelerationUpdate E)) emptyStore)
  = Some (true, true, true).
Proof. vm_compute. reflexivity. Qed.

Lemma noChild_chain : noChild 0%nat chainStore.
Proof.
  unfold noChild. apply chain_Forall; vm_compute; intros H; discriminate H.
Qed.

(** C7 (amended) on the chain: notifications at C, A and B leave the
    World frame as it is. *)
Lemma notify_elsewhere_keeps_World_witness :
  ∃ s', run_notifies notifications chainStore = Ok tt s' ∧
        heap s' !! 0%nat = heap chainStore !! 0%nat.
Proof.
  destruct (value_Ok_inv (run_notifies notifications chainStore) tt) as (s' & Hrun).
  { vm_compute. reflexivity. }
  exists s'. split; [exact Hrun|].
  destruct (notify_elsewhere_keeps_World 0%nat chainStore notifications s')
    as [H _]; [exact noChild_chain| |exact Hrun|exact H].
  repeat constructor; simpl; discriminate.
Defined.

Lemma world_inv_chain : world_inv 0%nat chainStore.
Proof. split; [reflexivity|]. exists entityW. by repeat split. Defined.

(** C8 on the chain: after a notification of the World frame itself, a
    reparenting, queries and the destruction of B, the World frame is the
    same and answers identity and zero. *)
Lemma World_invariant_witness :
  ∃ s, run session chainStore = Ok tt s ∧
       World s = Ok 0%nat s ∧
       (∀ m, getWorldTransform (S m) 0%nat s = Ok isoId s) ∧
       (∀ m, getSpatialVelocity (S m) 0%nat s = Ok v6zero s) ∧
       (∀ m, getSpatialAcceleration (S m) 0%nat s = Ok v6zero s).
Proof.
  destruct (value_Ok_inv (run session chainStore) tt) as (s & Hrun).
  { vm_compute. reflexivity. }
  exists s. split; [exact Hrun|].
  destruct (World_invariant 0%nat chainStore session s world_inv_chain Hrun)
    as (_ & H).
  exact H.
Defined.

End ZFacts.

(** ** The invariants on the chain and on the loop *)
Module ZGraph.
Import ZSpatial ZFacts ZScenes.

Lemma typed_chain : parents_are_frames chainStore.
Proof.
  intros c Ec p Ep _ _ Hp. revert p Ep Hp. by apply chain_Forall.
Qed.

Lemma in_singleton (c : Id) : c ∈ ({[c]} : gset Id).
Proof. by apply elem_of_singleton. Qed.

Lemma registered_chain : registered chainStore.
Proof.
  intros c Ec p Hc. revert p. revert c Ec Hc.
  apply (chain_Forall (fun c Ec => ∀ p, mAmWorld Ec = false →
           mParentFrame Ec = Some p →
           ∃ Ep, heap chainStore !! p = Some Ep ∧ c ∈ mChildEntities Ep)).
  - intros p _ [= <-]. exists entityB. split; [reflexivity|apply in_singleton].
  - intros p _ [= <-]. exists entityC. split; [reflexivity|apply in_singleton].
  - intros p _ [= <-]. exists entityW. split; [reflexivity|apply in_singleton].
  - intros p H. discriminate H.
Qed.

Lemma dirty_chain Q :
  qDirty Q entityA = true → qDirty Q entityB = true → qDirty Q entityC = true →
  closedQ Q chainStore ∧ coherentQ Q chainStore.
Proof.
  intros HA HB HC. split.
  - intros c Ec p Ep Hc. revert p Ep. revert c Ec Hc.
    apply (chain_Forall (fun c Ec => ∀ p Ep, mAmWorld Ec = false →
             mParentFrame Ec = Some p →
             heap chainStore !! p = Some Ep → mAmWorld Ep = false →
             qDirty Q Ep = true → qDirty Q Ec = true)); try done.
  - intros f E Hf. revert f E Hf.
    apply (chain_Forall (fun f E => kind E = FrameKind → mAmWorld E = false →
             qDirty Q E = false → ∃ n, freshOf Q n chainStore f = Some (qCache Q E)));
      intros _ Hw Hd; first [congruence|discriminate Hw].
Qed.

Lemma consistent_chain : consistent chainStore.
Proof.
  destruct (dirty_chain transformQ) as [? ?]; [reflexivity..|].
  destruct (dirty_chain velocityQ) as [? ?]; [reflexivity..|].
  destruct (dirty_chain accelerationQ) as [? ?]; [reflexivity..|].
  split; auto using typed_chain, registered_chain.
Qed.

Lemma children_live_chain : children_live chainStore.
Proof.
  intros p E c Hp. revert c. revert p E Hp.
  apply (chain_Forall (fun p E => ∀ c, c ∈ mChildEntities E →
                                       is_Some (heap chainStore !! c)));
    intros c Hc; simpl in Hc.
  - by apply elem_of_empty in Hc.
  - apply elem_of_singleton in Hc as ->. by eexists.
  - apply elem_of_singleton in Hc as ->. by eexists.
  - apply elem_of_singleton in Hc as ->. by eexists.
Qed.

Lemma all_grounded_chain : all_grounded chainStore.
Proof.
  intros f [E HE]. revert f E HE.
  apply (chain_Forall (fun f _ => ∃ n, grounded n chainStore f = true));
    exists 3; reflexivity.
Qed.


Ltac membership :=
  simpl; split; (split; intros H;
    [ first [ apply elem_of_empty in H; destruct H
            | apply elem_of_singleton in H; first [discriminate H | done] ]
    | first [ apply in_singleton
            | exfalso; destruct H as (_ & H); discriminate H
            | exfalso; destruct H as (_ & _ & H); discriminate H
            | exfalso; destruct H as (H & _); discriminate H
            | exfalso; destruct H as (_ & H & _); discriminate H ] ]).

Lemma registry_chain : registry chainStore.
Proof.
  split.
  - apply (chain_Forall (fun c Ec => child_ok chainStore c Ec)).
    + split; [split; [by exists entityA|apply chain_Forall; membership]|].
      intros _ p [= <-]. by eexists.
    + split; [split; [by exists entityB|apply chain_Forall; membership]|].
      intros _ p [= <-]. by eexists.
    + split; [split; [by exists entityC|apply chain_Forall; membership]|].
      intros _ p [= <-]. by eexists.
    + split; [split; [by exists entityW|apply chain_Forall; membership]|].
      intros _ p [= <-]. by eexists.
  - intros p Ep c Hp. revert c. revert p Ep Hp.
    apply (chain_Forall (fun p E => ∀ c, c ∈ mChildEntities E ∪ mChildFrames E →
                                         is_Some (heap chainStore !! c)));
      intros c Hc; simpl in Hc; apply elem_of_union in Hc as [Hc|Hc];
      first [by apply elem_of_empty in Hc
            |apply elem_of_singleton in Hc as ->; by eexists].
Qed.

(** *** The loop *)

Lemma loop_Forall d (P : Id → Entity → Prop) :
  P 2%nat (frame (Some 1%nat) "Y" d {[1%nat]} rotX v6zero) →
  P 1%nat (frame (Some 2%nat) "X" d {[2%nat]} rotZ v6zero) →
  ∀ p E, heap (loop d) !! p = Some E → P p E.
Proof.
  intros HY HX. change (map_Forall P (heap (loop d))).
  unfold loop. simpl.
  repeat (apply map_Forall_insert_2; [assumption|]). apply map_Forall_empty.
Qed.

Lemma children_live_loop d : children_live (loop d).
Proof.
  intros p E c Hp. revert c. revert p E Hp.
  apply (loop_Forall d (fun p E => ∀ c, c ∈ mChildEntities E →
                                        is_Some (heap (loop d) !! c)));
    intros c Hc; simpl in Hc; apply elem_of_singleton in Hc as ->; by eexists.
Qed.

Lemma trapped_loop Q :
  (∀ parent name children rel relV,
     qDirty Q (frame parent name true children rel relV) = true) →
  trapped Q (loop true) (fun x => x = 1%nat ∨ x = 2%nat).
Proof.
  intros HQ x [->| ->]; eexists; (split; [reflexivity|]);
    (split; [reflexivity|]); (split; [apply HQ|]); intros p [= <-]; auto.
Qed.

Lemma descends_chain_C_A : ¬ descends chainStore 1%nat 3%nat.
Proof.
  destruct (value_Ok_inv (dependsOn 5 1%nat 3%nat chainStore) false) as (s' & H).
  { vm_compute. reflexivity. }
  by eapply dependsOn_false.
Qed.

(** *** The settled chain *)

Lemma settled_Forall (P : Id → Entity → Prop) :
  P 3%nat settledA → P 2%nat settledB → P 1%nat settledC → P 0%nat entityW →
  ∀ p E, heap settledStore !! p = Some E → P p E.
Proof.
  intros HA HB HC HW. change (map_Forall P (heap settledStore)).
  unfold settledStore. simpl.
  repeat (apply map_Forall_insert_2; [assumption|]). apply map_Forall_empty.
Qed.

Lemma typed_settled : parents_are_frames settledStore.
Proof.
  intros c Ec p Ep _ _ Hp. revert p Ep Hp. by apply settled_Forall.
Qed.

Lemma registered_settled : registered settledStore.
Proof.
  intros c Ec p Hc. revert p. revert c Ec Hc.
  apply (settled_Forall (fun c Ec => ∀ p, mAmWorld Ec = false →
           mParentFrame Ec = Some p →
           ∃ Ep, heap settledStore !! p = Some Ep ∧ c ∈ mChildEntities Ep)).
  - intros p _ [= <-]. exists settledB. split; [reflexivity|apply in_singleton].
  - intros p _ [= <-]. exists settledC. split; [reflexivity|apply in_singleton].
  - intros p _ [= <-]. exists entityW. split; [reflexivity|apply in_singleton].
  - intros p H. discriminate H.
Qed.

(** No flag is set, and each cache holds the value composed from the
    primitives. *)
Lemma clean_settled Q :
  qDirty Q settledA = false → qDirty Q settledB = false →
  qDirty Q settledC = false →
  freshOf Q 4 settledStore 3%nat = Some (qCache Q settledA) →
  freshOf Q 3 settledStore 2%nat = Some (qCache Q settledB) →
  freshOf Q 2 settledStore 1%nat = Some (qCache Q settledC) →
  closedQ Q settledStore ∧ coherentQ Q settledStore.
Proof.
  intros HA HB HC FA FB FC. split.
  - intros c Ec p Ep _ _ _ Hp. revert p Ep Hp.
    apply (settled_Forall (fun p Ep => mAmWorld Ep = false →
             qDirty Q Ep = true → qDirty Q Ec = true));
      intros Hw Hd; first [congruence|discriminate Hw].
  - intros f E Hf. revert f E Hf.
    apply (settled_Forall (fun f E => kind E = FrameKind → mAmWorld E = false →
             qDirty Q E = false →
             ∃ n, freshOf Q n settledStore f = Some (qCache Q E)));
      intros _ Hw _.
    + exists 4. exact FA.
    + exists 3. exact FB.
    + exists 2. exact FC.
    + discriminate Hw.
Qed.

Lemma consistent_settled : consistent settledStore.
Proof.
  destruct (clean_settled transformQ) as [? ?];
    [reflexivity|reflexivity|reflexivity
    |vm_compute; reflexivity|vm_compute; reflexivity|vm_compute; reflexivity|].
  destruct (clean_settled velocityQ) as [? ?];
    [reflexivity|reflexivity|reflexivity
    |vm_compute; reflexivity|vm_compute; reflexivity|vm_compute; reflexivity|].
  destruct (clean_settled accelerationQ) as [? ?];
    [reflexivity|reflexivity|reflexivity
    |vm_compute; reflexivity|vm_compute; reflexivity|vm_compute; reflexivity|].
  split; auto using typed_settled, registered_settled.
Qed.

Lemma descends_settled_A_C : descends settledStore 3%nat 1%nat.
Proof.
  apply (descends_step _ 3%nat settledA 2%nat); [reflexivity..|].
  apply (descends_step _ 2%nat settledB 1%nat); [reflexivity..|].
  apply descends_self.
Qed.

(** *** The theorems on the chain and on the loop *)

(** X1 on the frame A of the chain. *)
Lemma getWorldTransform_fresh_witness :
  (∀ T, returns (fun n => getWorldTransform n 3%nat) chainStore T ↔
        ∃ m, freshOf transformQ m chainStore 3%nat = Some T) ∧
  (∀ n T s', getWorldTransform n 3%nat chainStore = Ok T s' →
             parents_are_frames s' ∧ coherentQ transformQ s').
Proof.
  apply (getWorldTransform_fresh 3%nat chainStore entityA);
    [exact typed_chain|exact (cons_coherentT _ consistent_chain)
    |reflexivity|reflexivity].
Defined.

(** X2 on the frame A of the chain. *)
Lemma getSpatialVelocity_fresh_witness :
  (∀ V, returns (fun n => getSpatialVelocity n 3%nat) chainStore V ↔
        ∃ m, freshOf velocityQ m chainStore 3%nat = Some V) ∧
  (∀ A, returns (fun n => getSpatialAcceleration n 3%nat) chainStore A ↔
        ∃ m, freshOf accelerationQ m chainStore 3%nat = Some A).
Proof.
  destruct (getSpatialVelocity_fresh 3%nat chainStore entityA) as [HV HA];
    [exact typed_chain|reflexivity|reflexivity|].
  split.
  - exact (proj1 (HV (cons_coherentV _ consistent_chain))).
  - exact (proj1 (HA (cons_coherentA _ consistent_chain))).
Defined.

(** X5 on the chain. *)
Lemma memo_ops_keep_consistent_witness :
  ∃ s', run memo_session chainStore = Ok tt s' ∧ consistent s'.
Proof.
  destruct (value_Ok_inv (run memo_session chainStore) tt) as (s' & Hrun).
  { vm_compute. reflexivity. }
  exists s'. split; [exact Hrun|].
  apply (memo_ops_keep_consistent memo_session chainStore s' consistent_chain);
    [|exact Hrun].
  repeat constructor.
Defined.

(** X6 on the loop, whose flags are clear. *)
Lemma notifications_terminate_witness :
  (∃ s', notifyTransformUpdate 7 1%nat (loop false) = Ok tt s') ∧
  (∃ s', notifyVelocityUpdate 7 1%nat (loop false) = Ok tt s') ∧
  (∃ s', notifyAccelerationUpdate 7 1%nat (loop false) = Ok tt s').
Proof.
  apply (notifications_terminate 7 1%nat (loop false) (children_live_loop false)).
  - by eexists.
  - vm_compute. lia.
Defined.

(** X7 on the chain: A in the coordinates of C. *)
Lemma getSpatialVelocity_in_composition_witness :
  returns (fun n => getSpatialVelocity_in n 3%nat 1%nat) chainStore (zAdR T31 V_A) ∧
  returns (fun n => getSpatialAcceleration_in n 3%nat 1%nat) chainStore (zAdR T31 A_A).
Proof.
  destruct (getSpatialVelocity_in_composition 3%nat 1%nat chainStore T31 V_A A_A)
    as (H1 & H2 & _);
    [discriminate|exact returns_T31|exact returns_V_A|exact returns_A_A|].
  split; [exact H1|exact H2].
Defined.

(** X8 on the chain. *)
Lemma queries_total_witness :
  total (getTransform 4 3%nat 2%nat) chainStore ∧
  total (getLinearAcceleration 4 3%nat 2%nat 1%nat) chainStore.
Proof.
  destruct (queries_total 3 chainStore 3%nat 2%nat 1%nat)
    as (_ & H1 & _ & _ & _ & _ & _ & _ & _ & _ & H2 & _); [reflexivity..|].
  split; [exact H1|exact H2].
Defined.

(** X9 on the loop, whose flags are set. *)
Lemma getters_trapped_witness :
  value (getWorldTransform 9 1%nat (loop true)) = None ∧
  value (getSpatialVelocity 9 1%nat (loop true)) = None ∧
  value (getSpatialAcceleration 9 1%nat (loop true)) = None.
Proof.
  destruct (getters_trapped (loop true) (fun x => x = 1%nat ∨ x = 2%nat) 1%nat 9)
    as (HT & HV & HA); [by left|].
  split; [|split].
  - apply HT. apply (trapped_loop transformQ). reflexivity.
  - apply HV. apply (trapped_loop velocityQ). reflexivity.
  - apply HA. apply (trapped_loop accelerationQ). reflexivity.
Defined.

(** X10 on the chain. *)
Lemma queries_only_cache_witness :
  ∃ s', exec 5 (OpGetSpatialVelocityRel 3 1 0) chainStore = Ok tt s' ∧
        logs s' = logs chainStore ∧ evolves cleared chainStore s'.
Proof.
  destruct (value_Ok_inv (exec 5 (OpGetSpatialVelocityRel 3 1 0) chainStore) tt)
    as (s' & Hrun).
  { vm_compute. reflexivity. }
  exists s'. split; [exact Hrun|].
  exact (queries_only_cache 5 (OpGetSpatialVelocityRel 3 1 0) chainStore s'
           eq_refl Hrun).
Defined.

(** X11 on the loop, whose flags are clear. *)
Lemma notifications_only_raise_witness :
  ∃ s', run_notify 7 (NVelocity 1) (loop false) = Ok tt s' ∧
        evolves (raised false true true) (loop false) s'.
Proof.
  destruct (value_Ok_inv (run_notify 7 (NVelocity 1) (loop false)) tt)
    as (s' & Hrun).
  { vm_compute. reflexivity. }
  exists s'. split; [exact Hrun|].
  exact (proj2 (notifications_only_raise 7 (NVelocity 1) (loop false) s' Hrun)).
Defined.

(** X14 on the chain. *)
Lemma registry_invariant_witness :
  ∃ s', run session chainStore = Ok tt s' ∧ registry s' ∧
        ∀ p Ep, heap s' !! p = Some Ep → mChildFrames Ep ⊆ mChildEntities Ep.
Proof.
  destruct (value_Ok_inv (run session chainStore) tt) as (s' & Hrun).
  { vm_compute. reflexivity. }
  exists s'. split; [exact Hrun|].
  destruct (registry_invariant session chainStore s' registry_chain Hrun)
    as [Hreg Hsub].
  split; [exact Hreg|]. intros p Ep Hp. exact (proj1 (Hsub p Ep Hp)).
Defined.

(** X15 on the chain: A becomes a child of C. *)
Lemma changeParentFrame_no_cycle_witness :
  ∃ s', changeParentFrame 5 3%nat (Some 1%nat) chainStore = Ok tt s' ∧
        all_grounded s'.
Proof.
  destruct (value_Ok_inv (changeParentFrame 5 3%nat (Some 1%nat) chainStore) tt)
    as (s' & Hrun).
  { vm_compute. reflexivity. }
  exists s'. split; [exact Hrun|].
  exact (changeParentFrame_no_cycle 5 3%nat (Some 1%nat) chainStore s'
           all_grounded_chain Hrun).
Defined.

(** X16 on the chain: A becomes a child of C. *)
Lemma changeParentFrame_takes_effect_witness :
  ∃ s' EF', changeParentFrame 4 3%nat (Some 1%nat) chainStore = Ok tt s' ∧
    warnings s' = warnings chainStore ∧ registry s' ∧
    heap s' !! 3%nat = Some EF' ∧ mParentFrame EF' = Some 1%nat.
Proof.
  destruct (changeParentFrame_takes_effect 3 3%nat 1%nat chainStore entityA)
    as (s' & EF' & Hrun & Hlog & Hreg & HEF' & Hp & _);
    [exact registry_chain|reflexivity|reflexivity| |reflexivity
    |exact descends_chain_C_A|].
  - intros p [= <-]. by eexists.
  - exists s', EF'. split; [exact Hrun|]. split; [congruence|].
    split; [exact Hreg|]. split; [exact HEF'|exact Hp].
Defined.

Lemma ran_total {A} (m : M A) (s : Store) :
  (value (m s) ≫= fun _ => Some tt) = Some tt → total m s.
Proof. unfold total. destruct (m s) as [a s'|e]; [eauto|discriminate]. Defined.

(** X19 on the chain, drawn from the World frame with the colour 7. *)
Lemma Frame_draw_balanced_witness :
  ∃ tr s', Frame_draw 0%Z 5 0%nat (Some 0%nat) 7%Z false 2%Z chainStore
           = Ok tr s' ∧
           balanced tr ∧ drawn chainStore s'.
Proof.
  destruct (ran_total
              (Frame_draw 0%Z 5 0%nat (Some 0%nat) 7%Z false 2%Z) chainStore)
    as (tr & s' & Hrun).
  { vm_compute. reflexivity. }
  exists tr, s'. split; [exact Hrun|].
  destruct (Frame_draw_balanced 0%Z 5 0%nat (Some 0%nat) 7%Z false 2%Z
              chainStore tr s' Hrun) as (Hb & Hd & _).
  split; [exact Hb|exact Hd].
Defined.

(** X20 on the chain, drawn from the World frame. *)
Lemma Frame_draw_returns_witness :
  ∃ tr s', Frame_draw 0%Z 4 0%nat (Some 0%nat) 7%Z false 2%Z chainStore
           = Ok tr s'.
Proof.
  apply (Frame_draw_returns 0%Z 4 0%nat (Some 0%nat) 7%Z false 2%Z
           chainStore entityW); [reflexivity|reflexivity|].
  vm_compute. reflexivity.
Defined.

(** C3 on the settled chain: the notification of C sets the flags of C,
    of its child B and of its descendant A. *)
Lemma notifyTransformUpdate_protocol_witness :
  ∃ s', notifyTransformUpdate 5 1%nat settledStore = Ok tt s' ∧
    (∃ EC, heap s' !! 1%nat = Some EC ∧ mNeedTransformUpdate EC = true ∧
           mNeedVelocityUpdate EC = true ∧ mNeedAccelerationUpdate EC = true) ∧
    (∃ EB, heap s' !! 2%nat = Some EB ∧ mNeedTransformUpdate EB = true) ∧
    (∃ EA, heap s' !! 3%nat = Some EA ∧ mNeedTransformUpdate EA = true) ∧
    (∀ m, notifyTransformUpdate (S m) 1%nat s' = Ok tt s').
Proof.
  destruct (value_Ok_inv (notifyTransformUpdate 5 1%nat settledStore) tt)
    as (s' & Hrun).
  { vm_compute. reflexivity. }
  exists s'. split; [exact Hrun|].
  destruct (notifyTransformUpdate_protocol 4 1%nat settledStore settledC)
    as (_ & _ & _ & _ & H); [reflexivity..|].
  destruct (H s' Hrun) as (HC & Hagain & _ & Hchild & Hcascade).
  split; [exact HC|]. split; [|split; [|exact Hagain]].
  - apply Hchild; [reflexivity|]. apply in_singleton.
  - destruct Hcascade as [_ Hdesc];
      [exact typed_settled|exact registered_settled
      |exact (cons_closedT _ consistent_settled)|].
    apply Hdesc; [reflexivity|exact descends_settled_A_C].
Defined.

(** X3 on the settled chain: B gets another pose and announces it. *)
Lemma notifyTransformUpdate_restores_witness :
  ∃ s', notifyTransformUpdate 5 2%nat
          (set_heap (<[2%nat := set_primitives (SA := spatialZ) (transl 0 0 1)
                                  V_A v6zero v6zero settledB]>
                       (heap settledStore)) settledStore)
        = Ok tt s' ∧ consistent s' ∧ dirtyAt transformQ s' 2%nat.
Proof.
  destruct (value_Ok_inv
    (notifyTransformUpdate 5 2%nat
       (set_heap (<[2%nat := set_primitives (SA := spatialZ) (transl 0 0 1)
                               V_A v6zero v6zero settledB]>
                    (heap settledStore)) settledStore)) tt)
    as (s' & Hrun).
  { vm_compute. reflexivity. }
  exists s'. split; [exact Hrun|]. split.
  - exact (notifyTransformUpdate_restores 5 2%nat settledB _ _ _ _ settledStore
             s' consistent_settled eq_refl eq_refl Hrun).
  - exact (notifyTransformUpdate_marks _ _ _ _ Hrun).
Defined.

(** X4 on the settled chain: B gets another velocity and announces it. *)
Lemma notifyVelocityUpdate_restores_witness :
  ∃ s', notifyVelocityUpdate 5 2%nat
          (set_heap (<[2%nat := set_primitives (SA := spatialZ)
                                  (relativeTransform settledB) V_A A_A v6zero
                                  settledB]>
                       (heap settledStore)) settledStore)
        = Ok tt s' ∧ consistent s' ∧
        (∃ EB, heap s' !! 2%nat = Some EB ∧ mNeedTransformUpdate EB = false ∧
               mNeedVelocityUpdate EB = true).
Proof.
  destruct (value_Ok_inv
    (notifyVelocityUpdate 5 2%nat
       (set_heap (<[2%nat := set_primitives (SA := spatialZ)
                               (relativeTransform settledB) V_A A_A v6zero
                               settledB]>
                    (heap settledStore)) settledStore)) tt)
    as (s' & Hrun).
  { vm_compute. reflexivity. }
  exists s'. split; [exact Hrun|].
  destruct (notifyVelocityUpdate_restores (SA := spatialZ) 5 2%nat settledB
              V_A A_A v6zero settledStore consistent_settled eq_refl eq_refl)
    as [H _].
  destruct (H s' Hrun) as [Hc Hflags]. split; [exact Hc|].
  destruct (Hflags 2%nat settledB eq_refl) as (EB & HEB & Ht).
  destruct (notifyVelocityUpdate_sets 5 2%nat _ s'
              (set_primitives (SA := spatialZ) (relativeTransform settledB)
                 V_A A_A v6zero settledB) (lookup_insert_eq _ _ _) eq_refl Hrun)
    as (EB' & HEB' & _ & Hv & _).
  exists EB. split; [exact HEB|]. split; [exact Ht|].
  rewrite HEB in HEB'. injection HEB' as <-. exact Hv.
Defined.

Lemma returns_settled_T32 :
  returns (fun n => getTransform n 3%nat 2%nat) settledStore rotZ.
Proof. apply (value_returns _ 5). vm_compute. reflexivity. Defined.
Lemma returns_settled_W_A :
  returns (fun n => getWorldTransform n 3%nat) settledStore W_A.
Proof. apply (value_returns _ 5). vm_compute. reflexivity. Defined.
Lemma returns_settled_W_B :
  returns (fun n => getWorldTransform n 2%nat) settledStore W_B.
Proof. apply (value_returns _ 5). vm_compute. reflexivity. Defined.

(** X17 on the settled chain: A with respect to its parent B. *)
Lemma getTransform_branches_witness :
  W_A = isoMul W_B rotZ ∧
  returns (fun n => getTransform n 3%nat 2%nat) settledStore rotZ.
Proof.
  destruct (getTransform_branches 3%nat 2%nat settledStore settledA settledB
              rotZ W_A W_B typed_settled (cons_coherentT _ consistent_settled)
              eq_refl eq_refl eq_refl eq_refl
              returns_settled_T32 returns_settled_W_A returns_settled_W_B)
    as (_ & Hpar & _).
  destruct (Hpar eq_refl) as [H _].
  split; [exact H|exact returns_settled_T32].
Defined.

(** *** The suppressed entity *)

Lemma lookup_quiet_A : heap quietStore !! 3%nat = Some entityA.
Proof. reflexivity. Qed.
Lemma lookup_quiet_C : heap quietStore !! 1%nat = Some entityC.
Proof. reflexivity. Qed.

(** C9 as stated fails: the suppressed entity Q, whose parent is B, is not
    in the child-entity set of B, and after the destruction of B its
    parent is still B. *)
Lemma Frame_dtor_reparents_counterexample :
  value ((do_ Frame_dtor 1 2%nat;
          do E <- deref 4%nat;
          ret (mParentFrame E)) quietStore) = Some (Some 2%nat).
Proof. vm_compute. reflexivity. Qed.

(** C9 (amended) on the chain with the suppressed entity: destroying B
    makes the World frame the parent of A, and Q still refers to B. *)
Lemma Frame_dtor_reparents_witness :
  Frame_dtor 0 0%nat quietStore = Ok tt quietStore ∧
  ∃ s', Frame_dtor 1 2%nat quietStore = Ok tt s' ∧
    (∃ EF', heap s' !! 2%nat = Some EF' ∧
            mParentFrame EF' = None ∧ mVizShapes EF' = []) ∧
    (∃ EA', heap s' !! 3%nat = Some EA' ∧ mParentFrame EA' = Some 0%nat) ∧
    (∃ EQ', heap s' !! 4%nat = Some EQ' ∧ mParentFrame EQ' = Some 2%nat).
Proof.
  destruct (Frame_dtor_reparents 0 quietStore 2%nat 0%nat entityB entityW)
    as (HW & s' & Hrun & HF & _ & _ & Hch & Hrefs & _); try reflexivity.
  - intros p [= <-]. split; [discriminate|]. by exists entityC.
  - intros c Hc. change (c ∈ ({[3%nat]} : gset Id)) in Hc.
    apply elem_of_singleton in Hc as ->. split; [discriminate|].
    exists entityA. by repeat split.
  - split; [exact HW|]. exists s'. split; [exact Hrun|]. split; [exact HF|].
    split; [apply Hch; apply in_singleton|].
    destruct (Hrefs 4%nat entityQ eq_refl) as (EQ' & HQ' & Hiff).
    exists EQ'. split; [exact HQ'|]. apply Hiff.
    split; [discriminate|]. split; [reflexivity|].
    intros Hin. change (4%nat ∈ ({[3%nat]} : gset Id)) in Hin.
    apply elem_of_singleton in Hin. discriminate Hin.
Defined.

End ZGraph.

(** ** The program's arithmetic *)
Module FFacts.
Import PrimFloat FSpatial.
Local Open Scope float_scope.

Lemma returns_turnW :
  returns (fun n => getWorldTransform (SA := spatialF) n 1%nat) turnStore turnW.
Proof. apply (value_returns _ 5). vm_compute. reflexivity. Defined.
Lemma returns_turnV :
  returns (fun n => getSpatialVelocity (SA := spatialF) n 1%nat) turnStore turnV.
Proof. apply (value_returns _ 5). vm_compute. reflexivity. Defined.
Lemma returns_turnT :
  returns (fun n => getTransform (SA := spatialF) n 1%nat 0%nat) turnStore turnW.
Proof. apply (value_returns _ 5). vm_compute. reflexivity. Defined.
Lemma returns_turnBack :
  returns (fun n => getTransform (SA := spatialF) n 0%nat 1%nat) turnStore turnBack.
Proof. apply (value_returns _ 5). vm_compute. reflexivity. Defined.
Lemma returns_slideW :
  returns (fun n => getWorldTransform (SA := spatialF) n 1%nat) slideStore slideW.
Proof. apply (value_returns _ 5). vm_compute. reflexivity. Defined.
Lemma returns_slideV :
  returns (fun n => getSpatialVelocity (SA := spatialF) n 1%nat) slideStore slideV.
Proof. apply (value_returns _ 5). vm_compute. reflexivity. Defined.
Lemma returns_slideT :
  returns (fun n => getTransform (SA := spatialF) n 1%nat 0%nat) slideStore slideW.
Proof. apply (value_returns _ 5). vm_compute. reflexivity. Defined.
Lemma returns_slideSelf :
  returns (fun n => getTransform (SA := spatialF) n 1%nat 1%nat) slideStore fIsoId.
Proof. apply (value_returns _ 5). vm_compute. reflexivity. Defined.

(** C10 as stated fails in binary64: for the frame turned by 0.25 rad the
    transform with respect to itself is not the identity (its diagonal
    holds 0.99999999999999989) and the velocity relative to itself is not
    zero. *)
Lemma getSpatialVelocity_rel_self_counterexample :
  value (getTransform (SA := spatialF) 5 1%nat 1%nat turnStore) = Some turnSelf ∧
  turnSelf ≠ fIsoId ∧
  value (getSpatialVelocity_rel (SA := spatialF) 5 1%nat 1%nat 0%nat turnStore)
    = Some turnSelfVelocity ∧
  turnSelfVelocity ≠ fV6zero.
Proof.
  split; [vm_compute; reflexivity|]. split; [|split; [vm_compute; reflexivity|]].
  - intros H. apply (f_equal (fun T => PrimFloat.eqb (fVx (fR1 (fLinear T))) 1)) in H.
    vm_compute in H. discriminate H.
  - intros H. apply (f_equal (fun V => PrimFloat.eqb (fVx (fLinearPart V)) 0)) in H.
    vm_compute in H. discriminate H.
Qed.

(** C10 (amended) in binary64 on the frame that is only displaced: the
    arithmetic is exact there and the velocity relative to itself is
    zero. *)
Lemma getSpatialVelocity_rel_self_witness :
  returns (fun k => getTransform (SA := spatialF) k 1%nat 1%nat) slideStore fIsoId ∧
  returns (fun k => getSpatialVelocity_rel (SA := spatialF) k 1%nat 1%nat 0%nat)
    slideStore fV6zero.
Proof.
  destruct (getSpatialVelocity_rel_self (SA := spatialF) slideStore 1%nat 0%nat
              (fFrame (Some 0%nat) "F" slide (mkFV6 (mkFV3 0 0 1) (mkFV3 1 2 3)))
              slideW slideV slideW eq_refl
              returns_slideW returns_slideV returns_slideT) as [_ H].
  destruct (H fIsoId returns_slideSelf) as (_ & _ & Hzero).
  destruct Hzero as [H0 _]; [reflexivity| | | |].
  - vm_compute. reflexivity.
  - vm_compute. reflexivity.
  - vm_compute. reflexivity.
  - split; [exact returns_slideSelf|exact H0].
Defined.

(** X18 in binary64 on the turned frame, in the coordinates of the World
    frame. *)
Lemma relative_to_World_witness :
  returns (fun k => getSpatialVelocity_rel (SA := spatialF) k 1%nat 0%nat 0%nat)
    turnStore (fAdR turnW turnV) ∧
  returns (fun k => getSpatialVelocity_in (SA := spatialF) k 1%nat 0%nat)
    turnStore (fAdR turnW turnV).
Proof.
  destruct (relative_to_World (SA := spatialF) turnStore 0%nat
              (fWorldEntity 0%nat {[1%nat]}) 1%nat 0%nat turnW turnV turnBack)
    as [H Hiff]; [discriminate|reflexivity|reflexivity|reflexivity
                 |exact returns_turnT|exact returns_turnV|exact returns_turnBack
                 | | |].
  - vm_compute. reflexivity.
  - vm_compute. reflexivity.
  - split; [exact H|]. apply Hiff. exact H.
Defined.

End FFacts.
